(** * Secret-reference resolution and the runtime snapshot

    A shallow embedding of the secrets runtime module
    (resolveSecretRefValue, resolveConfigSecretRefs,
    resolveAuthStoreSecretRefs, prepareSecretsRuntimeSnapshot and the
    active-snapshot accessors) over an explicit JavaScript object store.

    Objects and arrays live in a store and are named by locations, so
    that aliasing, in-place assignment and structuredClone can be told
    apart.  Code that throws is modelled in a state-and-error monad whose
    state survives a throw, as assignments made before a JavaScript throw
    do. *)

From Stdlib Require Import ZArith QArith Qround String Ascii List Lia.
From stdpp Require Import base option list strings gmap pretty.

Local Open Scope string_scope.
Local Open Scope list_scope.
#[local] Set Warnings "-register-all".

(** ** Values *)

(** JavaScript numbers, as far as the module looks at them: finite ones
    (rationals) and the three non-finite ones. *)
Inductive number : Type :=
| Finite (q : Q)
| NaN
| Infinity (negative : bool).

Inductive prim : Type :=
| PUndefined
| PNull
| PBool (b : bool)
| PNum (n : number)
| PStr (s : string).

Abbreviation loc := nat.

(** A value is a primitive or a reference to an object of the store. *)
Inductive val : Type :=
| VPrim (p : prim)
| VRef (l : loc).

Abbreviation VUndefined := (VPrim PUndefined).
Abbreviation VNull := (VPrim PNull).
Abbreviation VStr s := (VPrim (PStr s)).
Abbreviation VNum n := (VPrim (PNum n)).
Abbreviation VBool b := (VPrim (PBool b)).

(** A stored object: a plain object with its own enumerable properties in
    enumeration order, or an array. *)
Inductive obj : Type :=
| Obj (props : list (string * val))
| Arr (items : list val).

Abbreviation Heap := (list obj).

(** Plain data without identity: what structured serialisation of an
    acyclic value yields, and what a JSON document is. *)
Inductive tree : Type :=
| TPrim (p : prim)
| TObj (props : list (string * tree))
| TArr (items : list tree).

Abbreviation TStr s := (TPrim (PStr s)).

(** ** Strings *)

(** A string is held as the bytes of its UTF-8 encoding: a character of
    the Basic Latin block is one byte, any other one two to four. *)

(** ECMAScript's WhiteSpace and LineTerminator code points, each as the
    bytes of its UTF-8 encoding.  These are the characters that
    String.prototype.trim strips. *)
Definition whiteSpace : list (list ascii) :=
  [ ["009"];                  (* U+0009 CHARACTER TABULATION *)
    ["010"];                  (* U+000A LINE FEED *)
    ["011"];                  (* U+000B LINE TABULATION *)
    ["012"];                  (* U+000C FORM FEED *)
    ["013"];                  (* U+000D CARRIAGE RETURN *)
    [" "];                    (* U+0020 SPACE *)
    ["194"; "160"];           (* U+00A0 NO-BREAK SPACE *)
    ["225"; "154"; "128"];    (* U+1680 OGHAM SPACE MARK *)
    ["226"; "128"; "128"];    (* U+2000 EN QUAD *)
    ["226"; "128"; "129"];    (* U+2001 EM QUAD *)
    ["226"; "128"; "130"];    (* U+2002 EN SPACE *)
    ["226"; "128"; "131"];    (* U+2003 EM SPACE *)
    ["226"; "128"; "132"];    (* U+2004 THREE-PER-EM SPACE *)
    ["226"; "128"; "133"];    (* U+2005 FOUR-PER-EM SPACE *)
    ["226"; "128"; "134"];    (* U+2006 SIX-PER-EM SPACE *)
    ["226"; "128"; "135"];    (* U+2007 FIGURE SPACE *)
    ["226"; "128"; "136"];    (* U+2008 PUNCTUATION SPACE *)
    ["226"; "128"; "137"];    (* U+2009 THIN SPACE *)
    ["226"; "128"; "138"];    (* U+200A HAIR SPACE *)
    ["226"; "128"; "168"];    (* U+2028 LINE SEPARATOR *)
    ["226"; "128"; "169"];    (* U+2029 PARAGRAPH SEPARATOR *)
    ["226"; "128"; "175"];    (* U+202F NARROW NO-BREAK SPACE *)
    ["226"; "129"; "159"];    (* U+205F MEDIUM MATHEMATICAL SPACE *)
    ["227"; "128"; "128"];    (* U+3000 IDEOGRAPHIC SPACE *)
    ["239"; "187"; "191"]     (* U+FEFF ZERO WIDTH NO-BREAK SPACE *)
  ]%char.

(** What follows [p] in [s], if [s] starts with [p]. *)
Fixpoint withoutPrefix (p s : list ascii) : option (list ascii) :=
  match p, s with
  | [], _ => Some s
  | a :: p', b :: s' => if Ascii.eqb a b then withoutPrefix p' s' else None
  | _ :: _, [] => None
  end.

(** What follows the one of [toks] that [s] starts with, if there is
    one. *)
Fixpoint skipOne (toks : list (list ascii)) (s : list ascii)
  : option (list ascii) :=
  match toks with
  | [] => None
  | t :: toks' =>
      match withoutPrefix t s with
      | Some r => Some r
      | None => skipOne toks' s
      end
  end.

(** [s] without the run of [toks] that it starts with; a run of [s] has
    no more than [length s] members. *)
Fixpoint strip (toks : list (list ascii)) (fuel : nat) (s : list ascii)
  : list ascii :=
  match fuel with
  | 0 => s
  | S n =>
      match skipOne toks s with
      | Some r => strip toks n r
      | None => s
      end
  end.

Definition stripStart (s : list ascii) : list ascii :=
  strip whiteSpace (length s) s.

Definition stripEnd (s : list ascii) : list ascii :=
  rev (strip (map (@rev ascii) whiteSpace) (length s) (rev s)).

(** String.prototype.trimStart *)
Definition trimStart (s : string) : string :=
  string_of_list_ascii (stripStart (list_ascii_of_string s)).

(** String.prototype.trimEnd *)
Definition trimEnd (s : string) : string :=
  string_of_list_ascii (stripEnd (list_ascii_of_string s)).

(** String.prototype.trim *)
Definition trim (s : string) : string := trimEnd (trimStart s).

(** The string is made of white space and line terminators only: nothing
    is left once those it starts with are stripped. *)
Definition whitespaceOnly (s : string) : bool :=
  String.eqb (trimStart s) "".

(** [s] is a run of [toks]: some of them, one after the other. *)
Definition runOf (toks : list (list ascii)) (s : list ascii) : Prop :=
  exists ws, Forall (fun w => w ∈ toks) ws /\ s = concat ws.

(** No member of [toks] is empty, and none is the start of another. *)
Definition prefixCode (toks : list (list ascii)) : bool :=
  forallb (fun t1 =>
    negb (bool_decide (t1 = []))
    && forallb (fun t2 =>
         match withoutPrefix t1 t2 with
         | Some r => bool_decide (r = [])
         | None => true
         end) toks) toks.

(** ** Property access on the store *)

Fixpoint props_get {A} (k : string) (ps : list (string * A)) : option A :=
  match ps with
  | [] => None
  | (k', v) :: r => if String.eqb k k' then Some v else props_get k r
  end.

(** Assignment keeps the position of an existing property and appends a
    new one. *)
Fixpoint props_set {A} (k : string) (v : A) (ps : list (string * A))
  : list (string * A) :=
  match ps with
  | [] => [(k, v)]
  | (k', v') :: r =>
      if String.eqb k k' then (k, v) :: r else (k', v') :: props_set k v r
  end.

(** The index properties of an array. *)
Definition arr_props {A} (xs : list A) : list (string * A) :=
  imap (fun i x => (pretty i, x)) xs.

(** The three bytes that hold a UTF-16 code unit [u] from U+0800 on; for
    a surrogate this is its generalised UTF-8 encoding. *)
Definition codeUnit (u : N) : string :=
  String (ascii_of_N (224 + u / 4096))
    (String (ascii_of_N (128 + (u / 64) mod 64))
       (String (ascii_of_N (128 + u mod 64)) EmptyString)).

(** The two surrogates of the character from U+10000 on whose four bytes
    are [b0 b1 b2 b3]. *)
Definition surrogates (b0 b1 b2 b3 : ascii) : list string :=
  let cp := ((N_of_ascii b0 mod 8) * 262144 + (N_of_ascii b1 mod 64) * 4096
             + (N_of_ascii b2 mod 64) * 64 + N_of_ascii b3 mod 64)%N in
  let v := (cp - 65536)%N in
  [codeUnit (55296 + v / 1024); codeUnit (56320 + v mod 1024)].

(** The UTF-16 code units of a string, each as a string of its own: what
    the index properties of a string hold.  A character of one, two or
    three bytes is one code unit, one of four bytes is two. *)
Fixpoint chars (s : string) : list string :=
  match s with
  | EmptyString => []
  | String b0 r0 =>
      if (N_of_ascii b0 <? 192)%N then String b0 EmptyString :: chars r0
      else
        match r0 with
        | EmptyString => [s]
        | String b1 r1 =>
            if (N_of_ascii b0 <? 224)%N
            then String b0 (String b1 EmptyString) :: chars r1
            else
              match r1 with
              | EmptyString => [s]
              | String b2 r2 =>
                  if (N_of_ascii b0 <? 240)%N
                  then String b0 (String b1 (String b2 EmptyString)) :: chars r2
                  else
                    match r2 with
                    | EmptyString => [s]
                    | String b3 r3 => surrogates b0 b1 b2 b3 ++ chars r3
                    end
              end
        end
  end.

Definition own_props (o : obj) : list (string * val) :=
  match o with
  | Obj ps => ps
  | Arr xs => arr_props xs
  end.

(** ** Errors *)

(** The module throws plain [Error]s told apart by their message; each
    constructor stands for one message of the source (the names are the
    specification's error kinds). *)
Inductive Error : Type :=
| InvalidReference                       (* Secret reference id is empty. *)
| MissingSecret (name : string)          (* variable missing or empty; pointer unresolved *)
| UnsupportedSource (src : string)       (* Unsupported secret source *)
| NotConfigured                          (* source "file" is not configured *)
| UnsupportedSourceType (ty : val)       (* Unsupported secrets.sources.file.type *)
| InvalidResolvedValue (providerId : string)
| EmptyResolvedCredential (profileId field : string)
| ExternalFailure (msg : string)         (* raised by the decrypt facility *)
| TypeError                              (* raised by the engine *)
| DataCloneError.                        (* raised by structuredClone *)

Inductive Result (A : Type) : Type :=
| Ok (a : A)
| Err (e : Error).
Arguments Ok {A} a.
Arguments Err {A} e.

(** ** State *)

Record SecretRef : Type := mkSecretRef {
  ref_source : string;
  ref_id : string
}.

(** A promise, once the cooperative scheduler has run it: its outcome. *)
Definition Promise : Type := Result tree.

Record ResolverContext : Type := mkContext {
  ctx_config : val;
  ctx_env : gmap string string;
  ctx_fileSecretsPromise : option Promise
}.

(** One invocation of the external decrypt facility. *)
Record SopsCall : Type := mkSopsCall {
  sops_path : string;
  sops_timeoutMs : Z;
  sops_missingBinaryMessage : string
}.

Record State : Type := mkState {
  heap : Heap;
  contexts : list ResolverContext;       (* the ResolverContext objects *)
  sopsCalls : list SopsCall;             (* decryptSopsJsonFile invocations, oldest first *)
  activeSnapshot : val;                  (* let activeSnapshot *)
  runtimeConfigSnapshot : option (val * val);
  runtimeAuthStoreSnapshots : option val
}.

Definition with_heap (h : Heap) (s : State) : State :=
  mkState h (contexts s) (sopsCalls s) (activeSnapshot s)
          (runtimeConfigSnapshot s) (runtimeAuthStoreSnapshots s).

Definition with_contexts (cs : list ResolverContext) (s : State) : State :=
  mkState (heap s) cs (sopsCalls s) (activeSnapshot s)
          (runtimeConfigSnapshot s) (runtimeAuthStoreSnapshots s).

Definition with_sopsCalls (l : list SopsCall) (s : State) : State :=
  mkState (heap s) (contexts s) l (activeSnapshot s)
          (runtimeConfigSnapshot s) (runtimeAuthStoreSnapshots s).

Definition with_activeSnapshot (a : val) (s : State) : State :=
  mkState (heap s) (contexts s) (sopsCalls s) a
          (runtimeConfigSnapshot s) (runtimeAuthStoreSnapshots s).

Definition with_runtimeConfigSnapshot (c : option (val * val)) (s : State) : State :=
  mkState (heap s) (contexts s) (sopsCalls s) (activeSnapshot s)
          c (runtimeAuthStoreSnapshots s).

Definition with_runtimeAuthStoreSnapshots (a : option val) (s : State) : State :=
  mkState (heap s) (contexts s) (sopsCalls s) (activeSnapshot s)
          (runtimeConfigSnapshot s) a.

(** ** The monad *)

Definition M (A : Type) : Type := State -> Result A * State.

Definition ret {A} (a : A) : M A := fun s => (Ok a, s).

Definition bind {A B} (m : M A) (k : A -> M B) : M B :=
  fun s =>
    match m s with
    | (Ok a, s') => k a s'
    | (Err e, s') => (Err e, s')
    end.

Definition throw {A} (e : Error) : M A := fun s => (Err e, s).

Notation "'let*' x := m 'in' k" := (bind m (fun x => k))
  (at level 10, x pattern, m at level 100, k at level 200).
Notation "m ;; k" := (bind m (fun _ => k))
  (at level 100, k at level 200, right associativity).

Definition getHeap : M Heap := fun s => (Ok (heap s), s).

Fixpoint forEach {A} (xs : list A) (body : A -> M unit) : M unit :=
  match xs with
  | [] => ret tt
  | x :: r => body x ;; forEach r body
  end.

Fixpoint mapEach {A B} (xs : list A) (f : A -> M B) : M (list B) :=
  match xs with
  | [] => ret []
  | x :: r => let* y := f x in let* ys := mapEach r f in ret (y :: ys)
  end.

(** Calling an async function runs its body and hands back a promise that
    holds the outcome; a throw inside the body rejects the promise. *)
Definition async {A} (m : M A) : M (Result A) :=
  fun s => let '(r, s') := m s in (Ok r, s').

Definition await {A} (p : Result A) : M A := fun s => (p, s).

(** ** Engine primitives *)

Definition truthy (v : val) : bool :=
  match v with
  | VRef _ => true
  | VPrim PUndefined | VPrim PNull => false
  | VPrim (PBool b) => b
  | VPrim (PNum (Finite q)) => negb (Qeq_bool q 0)
  | VPrim (PNum NaN) => false
  | VPrim (PNum (Infinity _)) => true
  | VPrim (PStr s) => negb (String.eqb s "")
  end.

(** [v === str], for a string literal [str] *)
Definition isString (v : val) (str : string) : bool :=
  match v with
  | VPrim (PStr s') => String.eqb s' str
  | _ => false
  end.

(** [v === undefined] *)
Definition isUndefined (v : val) : bool :=
  match v with
  | VPrim PUndefined => true
  | _ => false
  end.

(** [target.k], read in a given store. *)
Definition readProp (h : Heap) (target : val) (k : string) : Result val :=
  match target with
  | VRef l =>
      match h !! l with
      | Some o => Ok (default VUndefined (props_get k (own_props o)))
      | None => Err TypeError
      end
  | VPrim PUndefined | VPrim PNull => Err TypeError
  | VPrim _ => Ok VUndefined
  end.

(** [target?.k], read in a given store. *)
Definition readOptProp (h : Heap) (target : val) (k : string) : Result val :=
  match target with
  | VPrim PUndefined | VPrim PNull => Ok VUndefined
  | _ => readProp h target k
  end.

Definition getProp (target : val) (k : string) : M val :=
  fun s => (readProp (heap s) target k, s).

Definition optChain (target : val) (k : string) : M val :=
  fun s => (readOptProp (heap s) target k, s).

(** [target.k = v], for the plain objects the module assigns to. *)
Definition setProp (target : val) (k : string) (v : val) : M unit :=
  fun s =>
    match target with
    | VRef l =>
        match heap s !! l with
        | Some (Obj ps) =>
            (Ok tt, with_heap (<[l := Obj (props_set k v ps)]> (heap s)) s)
        | _ => (Err TypeError, s)
        end
    | VPrim _ => (Err TypeError, s)
    end.

(** [Object.entries(v)], read in a given store. *)
Definition readEntries (h : Heap) (v : val) : Result (list (string * val)) :=
  match v with
  | VRef l =>
      match h !! l with
      | Some o => Ok (own_props o)
      | None => Err TypeError
      end
  | VPrim PUndefined | VPrim PNull => Err TypeError
  | VPrim (PStr str) => Ok (arr_props (VPrim ∘ PStr <$> chars str))
  | VPrim _ => Ok []
  end.

Definition objectEntries (v : val) : M (list (string * val)) :=
  fun s => (readEntries (heap s) v, s).

(** The elements of an array, for [Array.prototype.map]. *)
Definition arrayItems (v : val) : M (list val) :=
  fun s =>
    match v with
    | VRef l =>
        match heap s !! l with
        | Some (Arr xs) => (Ok xs, s)
        | _ => (Err TypeError, s)
        end
    | VPrim _ => (Err TypeError, s)
    end.

Definition alloc (o : obj) : M val :=
  fun s => (Ok (VRef (length (heap s))), with_heap (heap s ++ [o]) s).

(** [arr.push(v)] *)
Definition arrayPush (arr : val) (v : val) : M unit :=
  fun s =>
    match arr with
    | VRef l =>
        match heap s !! l with
        | Some (Arr xs) => (Ok tt, with_heap (<[l := Arr (xs ++ [v])]> (heap s)) s)
        | _ => (Err TypeError, s)
        end
    | VPrim _ => (Err TypeError, s)
    end.

(** [{ ...v }] *)
Definition spread (v : val) : M val :=
  match v with
  | VPrim PUndefined | VPrim PNull => alloc (Obj [])
  | _ => let* ps := objectEntries v in alloc (Obj ps)
  end.

(** ** structuredClone

    Structured serialisation followed by deserialisation.  [readback]
    serialises: it unfolds the object graph below a value into a tree,
    [fuel] bounding the nesting depth; [materialize] deserialises a tree
    into freshly allocated objects.  A graph with a cycle has no tree and
    is not in the domain of this model; sharing inside the graph is
    unfolded. *)
Fixpoint readback (fuel : nat) (h : Heap) (v : val) : option tree :=
  match v with
  | VPrim p => Some (TPrim p)
  | VRef l =>
      match fuel with
      | O => None
      | S n =>
          match h !! l with
          | Some (Obj ps) =>
              TObj <$> mapM (fun kv => pair (fst kv) <$> readback n h (snd kv)) ps
          | Some (Arr xs) => TArr <$> mapM (readback n h) xs
          | None => None
          end
      end
  end.

(** Allocate the images of a list of items one after the other. *)
Definition allocEach {A B} (f : A -> Heap -> B * Heap)
  : list A -> Heap -> list B * Heap :=
  fix go (xs : list A) (h : Heap) : list B * Heap :=
    match xs with
    | [] => ([], h)
    | x :: r =>
        let '(y, h1) := f x h in
        let '(ys, h2) := go r h1 in
        (y :: ys, h2)
    end.

Fixpoint materialize_tree (t : tree) (h : Heap) : val * Heap :=
  match t with
  | TPrim p => (VPrim p, h)
  | TObj ps =>
      let '(vs, h') :=
        allocEach (fun kt h0 =>
                     let '(v, h1) := materialize_tree (snd kt) h0 in
                     ((fst kt, v), h1)) ps h in
      (VRef (length h'), h' ++ [Obj vs])
  | TArr xs =>
      let '(vs, h') := allocEach materialize_tree xs h in
      (VRef (length h'), h' ++ [Arr vs])
  end.

(** Nesting depth of objects and arrays. *)
Fixpoint depth (t : tree) : nat :=
  match t with
  | TPrim _ => 0
  | TObj ps => S (list_max ((fun kt => depth (snd kt)) <$> ps))
  | TArr xs => S (list_max (depth <$> xs))
  end.

Definition materialize (t : tree) : M val :=
  fun s => let '(v, h') := materialize_tree t (heap s) in (Ok v, with_heap h' s).

Definition structuredClone (fuel : nat) (v : val) : M val :=
  fun s =>
    match readback fuel (heap s) v with
    | Some t => materialize t s
    | None => (Err DataCloneError, s)
    end.

(** ** External collaborators

    Functions and constants the module imports from files that are not
    part of this development.  They are taken as an interface. *)
Class Collaborators : Type := {
  (* config/types.secrets.js: the type guard isSecretRef(value), as a
     function of the own properties of a plain object, nested objects
     being opaque to it (None); it yields the narrowed reference. *)
  secretRefOf : list (string * option prim) -> option SecretRef;
  (* secrets/json-pointer.js: readJsonPointer(payload, id, {onMissing:
     "throw"}); None when the pointer does not resolve. *)
  readJsonPointer : tree -> string -> option tree;
  (* secrets/sops.js *)
  decryptSopsJsonFile : SopsCall -> Result tree;
  DEFAULT_SOPS_TIMEOUT_MS : Z;
  (* utils.js *)
  resolveUserPath : string -> string;
  (* agents/agent-paths.js and agents/agent-scope.js *)
  resolveOpenClawAgentDir : string;
  listAgentIds : Heap -> val -> list string;
  resolveAgentDir : Heap -> val -> string -> string;
  (* agents/auth-profiles.js *)
  loadAuthProfileStoreForRuntime : string -> val;
  (* process.env *)
  process_env : gmap string string
}.

Section Secrets.
Context `{Collaborators}.

Definition shallow (v : val) : option prim :=
  match v with
  | VPrim p => Some p
  | VRef _ => None
  end.

(** [isSecretRef(v) ? v : null], with the reference read off the object. *)
Definition asSecretRef (h : Heap) (v : val) : option SecretRef :=
  match v with
  | VRef l =>
      match h !! l with
      | Some (Obj ps) => secretRefOf (prod_map id shallow <$> ps)
      | _ => None
      end
  | VPrim _ => None
  end.

Definition isSecretRef (h : Heap) (v : val) : bool :=
  bool_decide (is_Some (asSecretRef h v)).

(** function isRecord *)
Definition isRecord (h : Heap) (v : val) : bool :=
  match v with
  | VRef l =>
      match h !! l with
      | Some (Obj _) => true
      | _ => false
      end
  | VPrim _ => false
  end.

(** function isNonEmptyString *)
Definition isNonEmptyString (v : val) : bool :=
  match v with
  | VPrim (PStr s) => negb (String.eqb (trim s) "")
  | _ => false
  end.

(** [context.env[id]] *)
Definition envLookup (env : gmap string string) (name : string) : val :=
  match env !! name with
  | Some s => VStr s
  | None => VUndefined
  end.

Definition getContext (context : nat) : M ResolverContext :=
  fun s =>
    match contexts s !! context with
    | Some c => (Ok c, s)
    | None => (Err TypeError, s)
    end.

(** [context.fileSecretsPromise = p] *)
Definition setFileSecretsPromise (context : nat) (p : Promise) : M unit :=
  fun s =>
    match contexts s !! context with
    | Some c =>
        (Ok tt,
         with_contexts
           (<[context := mkContext (ctx_config c) (ctx_env c) (Some p)]> (contexts s)) s)
    | None => (Err TypeError, s)
    end.

Definition newContext (c : ResolverContext) : M nat :=
  fun s => (Ok (length (contexts s)), with_contexts (contexts s ++ [c]) s).

(** The call of the external decrypt facility, recorded in the trace. *)
Definition callDecryptSopsJsonFile (c : SopsCall) : M tree :=
  fun s => (decryptSopsJsonFile c, with_sopsCalls (sopsCalls s ++ [c]) s).

Definition missingBinaryMessage : string :=
  "sops binary not found in PATH. Install sops >= 3.9.0 or disable secrets.sources.file.".

(** async function decryptSopsFile *)
Definition decryptSopsFile (config : val) : M tree :=
  let* secrets := getProp config "secrets" in
  let* sources := optChain secrets "sources" in
  let* fileSource := optChain sources "file" in
  if negb (truthy fileSource) then throw NotConfigured else
  let* ty := getProp fileSource "type" in
  if negb (isString ty "sops") then throw (UnsupportedSourceType ty) else
  let* path := getProp fileSource "path" in
  let* resolvedPath :=
    match path with
    | VStr p => ret (resolveUserPath p)
    | _ => throw TypeError
    end in
  let* timeout := getProp fileSource "timeoutMs" in
  let timeoutMs :=
    match timeout with
    | VNum (Finite q) => Z.max 1 (Qfloor q)
    | _ => DEFAULT_SOPS_TIMEOUT_MS
    end in
  callDecryptSopsJsonFile (mkSopsCall resolvedPath timeoutMs missingBinaryMessage).

(** async function resolveSecretRefValue.  The decrypted payload is an
    immutable JSON document; the value a pointer selects is materialised
    in the store when it is handed out. *)
Definition resolveSecretRefValue (ref : SecretRef) (context : nat) : M val :=
  let id := trim (ref_id ref) in
  if String.eqb id "" then throw InvalidReference else
  if String.eqb (ref_source ref) "env" then
    let* ctx := getContext context in
    let envValue := envLookup (ctx_env ctx) id in
    if negb (isNonEmptyString envValue) then throw (MissingSecret id)
    else ret envValue
  else if String.eqb (ref_source ref) "file" then
    let* ctx := getContext context in
    let* promise :=
      match ctx_fileSecretsPromise ctx with
      | Some p => ret p
      | None =>
          let* p := async (decryptSopsFile (ctx_config ctx)) in
          setFileSecretsPromise context p ;;
          ret p
      end in
    let* payload := await promise in
    match readJsonPointer payload id with
    | Some t => materialize t
    | None => throw (MissingSecret id)
    end
  else throw (UnsupportedSource (ref_source ref)).

Definition SECRETS_REF_OVERRIDES_PLAINTEXT : string :=
  "SECRETS_REF_OVERRIDES_PLAINTEXT".

(** [warnings.push({ code, path, message })] *)
Definition pushWarning (warnings : val) (code path message : string) : M unit :=
  let* w := alloc (Obj [("code", VStr code); ("path", VStr path);
                        ("message", VStr message)]) in
  arrayPush warnings w.

(** async function resolveGoogleChatServiceAccount *)
Definition resolveGoogleChatServiceAccount
    (target : val) (path : string) (context : nat) (warnings : val) : M unit :=
  let* serviceAccountRef := getProp target "serviceAccountRef" in
  let* serviceAccount := getProp target "serviceAccount" in
  let* h := getHeap in
  let explicitRef := asSecretRef h serviceAccountRef in
  let inlineRef := asSecretRef h serviceAccount in
  match (match explicitRef with Some r => Some r | None => inlineRef end) with
  | None => ret tt
  | Some ref =>
      (if bool_decide (is_Some explicitRef)
          && negb (isUndefined serviceAccount)
          && negb (isSecretRef h serviceAccount)
       then pushWarning warnings SECRETS_REF_OVERRIDES_PLAINTEXT path
              (path ++ ": serviceAccountRef is set; runtime will ignore plaintext serviceAccount.")
       else ret tt) ;;
      let* v := resolveSecretRefValue ref context in
      setProp target "serviceAccount" v
  end.

(** The body of the loop over [Object.entries(providers)]. *)
Definition resolveProviderApiKey (context : nat) (entry : string * val) : M unit :=
  let '(providerId, provider) := entry in
  let* apiKey := getProp provider "apiKey" in
  let* h := getHeap in
  match asSecretRef h apiKey with
  | None => ret tt
  | Some ref =>
      let* resolvedValue := resolveSecretRefValue ref context in
      if negb (isNonEmptyString resolvedValue)
      then throw (InvalidResolvedValue providerId)
      else setProp provider "apiKey" resolvedValue
  end.

(** The body of the loop over [Object.entries(googleChat.accounts)]. *)
Definition resolveGoogleChatAccount (context : nat) (warnings : val)
    (entry : string * val) : M unit :=
  let '(accountId, account) := entry in
  let* h := getHeap in
  if negb (isRecord h account) then ret tt
  else resolveGoogleChatServiceAccount account
         ("channels.googlechat.accounts." ++ accountId) context warnings.

(** async function resolveConfigSecretRefs *)
Definition resolveConfigSecretRefs (fuel : nat)
    (config : val) (context : nat) (warnings : val) : M val :=
  let* resolved := structuredClone fuel config in
  let* models := getProp resolved "models" in
  let* providers := optChain models "providers" in
  (if truthy providers
   then let* entries := objectEntries providers in
        forEach entries (resolveProviderApiKey context)
   else ret tt) ;;
  let* channels := getProp resolved "channels" in
  let* googleChat := optChain channels "googlechat" in
  (if truthy googleChat
   then resolveGoogleChatServiceAccount googleChat "channels.googlechat"
          context warnings ;;
        let* accounts := getProp googleChat "accounts" in
        let* h := getHeap in
        if isRecord h accounts
        then let* entries := objectEntries accounts in
             forEach entries (resolveGoogleChatAccount context warnings)
        else ret tt
   else ret tt) ;;
  ret resolved.

(** One credential of the loop over [Object.entries(resolvedStore.profiles)]:
    the shared shape of the api_key and the token branch. *)
Definition resolveCredential (context : nat) (warnings : val) (agentDir : string)
    (profileId : string) (profile : val) (field refField : string) : M unit :=
  let* refValue := getProp profile refField in
  let* h := getHeap in
  let ref := asSecretRef h refValue in
  let* plain := getProp profile field in
  (if bool_decide (is_Some ref) && isNonEmptyString plain
   then pushWarning warnings SECRETS_REF_OVERRIDES_PLAINTEXT
          (agentDir ++ ".auth-profiles." ++ profileId ++ "." ++ field)
          ("auth-profiles " ++ profileId ++ ": " ++ refField
             ++ " is set; runtime will ignore plaintext " ++ field ++ ".")
   else ret tt) ;;
  match ref with
  | Some r =>
      let* resolvedValue := resolveSecretRefValue r context in
      if negb (isNonEmptyString resolvedValue)
      then throw (EmptyResolvedCredential profileId refField)
      else setProp profile field resolvedValue
  | None => ret tt
  end.

Definition resolveProfile (context : nat) (warnings : val) (agentDir : string)
    (entry : string * val) : M unit :=
  let '(profileId, profile) := entry in
  let* ty := getProp profile "type" in
  if isString ty "api_key" then
    resolveCredential context warnings agentDir profileId profile "key" "keyRef"
  else if isString ty "token" then
    resolveCredential context warnings agentDir profileId profile "token" "tokenRef"
  else ret tt.

(** async function resolveAuthStoreSecretRefs *)
Definition resolveAuthStoreSecretRefs (fuel : nat)
    (store : val) (context : nat) (warnings : val) (agentDir : string) : M val :=
  let* resolvedStore := structuredClone fuel store in
  let* profiles := getProp resolvedStore "profiles" in
  let* entries := objectEntries profiles in
  forEach entries (resolveProfile context warnings agentDir) ;;
  ret resolvedStore.

(** [[...new Set(xs)]]: first occurrences, in order. *)
Fixpoint setOrder (seen xs : list string) : list string :=
  match xs with
  | [] => []
  | x :: r =>
      if bool_decide (x ∈ seen) then setOrder seen r
      else x :: setOrder (x :: seen) r
  end.

(** function collectCandidateAgentDirs *)
Definition collectCandidateAgentDirs (h : Heap) (config : val) : list string :=
  setOrder []
    (resolveUserPath resolveOpenClawAgentDir
       :: ((fun agentId => resolveUserPath (resolveAgentDir h config agentId))
             <$> listAgentIds h config)).

(** The body of the loop over the candidate directories. *)
Definition resolveAgentStore (fuel : nat) (loadAuthStore : string -> val)
    (context : nat) (warnings authStores : val) (agentDir : string) : M unit :=
  let rawStore := loadAuthStore agentDir in
  let* resolvedStore :=
    resolveAuthStoreSecretRefs fuel rawStore context warnings agentDir in
  let* entry := alloc (Obj [("agentDir", VStr agentDir); ("store", resolvedStore)]) in
  arrayPush authStores entry.

(** async function prepareSecretsRuntimeSnapshot *)
Definition prepareSecretsRuntimeSnapshot (fuel : nat)
    (config : val) (env : option (gmap string string))
    (agentDirs : option (list string))
    (loadAuthStore : option (string -> val)) : M val :=
  let* warnings := alloc (Arr []) in
  let* context := newContext (mkContext config (default process_env env) None) in
  let* resolvedConfig := resolveConfigSecretRefs fuel config context warnings in
  let loader := default loadAuthProfileStoreForRuntime loadAuthStore in
  let* h := getHeap in
  let candidateDirs :=
    match agentDirs with
    | Some (d :: ds) => setOrder [] (resolveUserPath <$> (d :: ds))
    | _ => collectCandidateAgentDirs h resolvedConfig
    end in
  let* authStores := alloc (Arr []) in
  forEach candidateDirs
    (resolveAgentStore fuel loader context warnings authStores) ;;
  let* sourceConfig := structuredClone fuel config in
  alloc (Obj [("sourceConfig", sourceConfig); ("config", resolvedConfig);
              ("authStores", authStores); ("warnings", warnings)]).

(** The arrow function cloneSnapshot maps over [snapshot.authStores]. *)
Definition cloneAuthStoreEntry (fuel : nat) (entry : val) : M val :=
  let* agentDir := getProp entry "agentDir" in
  let* store0 := getProp entry "store" in
  let* store := structuredClone fuel store0 in
  alloc (Obj [("agentDir", agentDir); ("store", store)]).

(** function cloneSnapshot *)
Definition cloneSnapshot (fuel : nat) (snapshot : val) : M val :=
  let* sourceConfig0 := getProp snapshot "sourceConfig" in
  let* sourceConfig := structuredClone fuel sourceConfig0 in
  let* config0 := getProp snapshot "config" in
  let* config := structuredClone fuel config0 in
  let* authStores0 := getProp snapshot "authStores" in
  let* entries := arrayItems authStores0 in
  let* entries' := mapEach entries (cloneAuthStoreEntry fuel) in
  let* authStores := alloc (Arr entries') in
  let* warnings0 := getProp snapshot "warnings" in
  let* ws := arrayItems warnings0 in
  let* ws' := mapEach ws spread in
  let* warnings := alloc (Arr ws') in
  alloc (Obj [("sourceConfig", sourceConfig); ("config", config);
              ("authStores", authStores); ("warnings", warnings)]).

(** config.js: setRuntimeConfigSnapshot and clearRuntimeConfigSnapshot;
    auth-profiles.js: replaceRuntimeAuthProfileStoreSnapshots and
    clearRuntimeAuthProfileStoreSnapshots.  The registries keep what they
    are handed. *)
Definition setRuntimeConfigSnapshot (config sourceConfig : val) : M unit :=
  fun s => (Ok tt, with_runtimeConfigSnapshot (Some (config, sourceConfig)) s).

Definition clearRuntimeConfigSnapshot : M unit :=
  fun s => (Ok tt, with_runtimeConfigSnapshot None s).

Definition replaceRuntimeAuthProfileStoreSnapshots (stores : val) : M unit :=
  fun s => (Ok tt, with_runtimeAuthStoreSnapshots (Some stores) s).

Definition clearRuntimeAuthProfileStoreSnapshots : M unit :=
  fun s => (Ok tt, with_runtimeAuthStoreSnapshots None s).

Definition setActiveSnapshot (v : val) : M unit :=
  fun s => (Ok tt, with_activeSnapshot v s).

(** function activateSecretsRuntimeSnapshot *)
Definition activateSecretsRuntimeSnapshot (fuel : nat) (snapshot : val) : M unit :=
  let* next := cloneSnapshot fuel snapshot in
  let* config := getProp next "config" in
  let* sourceConfig := getProp next "sourceConfig" in
  setRuntimeConfigSnapshot config sourceConfig ;;
  let* authStores := getProp next "authStores" in
  replaceRuntimeAuthProfileStoreSnapshots authStores ;;
  setActiveSnapshot next.

(** function getActiveSecretsRuntimeSnapshot *)
Definition getActiveSecretsRuntimeSnapshot (fuel : nat) : M val :=
  fun s =>
    if truthy (activeSnapshot s) then cloneSnapshot fuel (activeSnapshot s) s
    else (Ok VNull, s).

(** function clearSecretsRuntimeSnapshot *)
Definition clearSecretsRuntimeSnapshot : M unit :=
  setActiveSnapshot VNull ;;
  clearRuntimeConfigSnapshot ;;
  clearRuntimeAuthProfileStoreSnapshots.

End Secrets.

(** ** A reference implementation of the collaborators

    Used to run the module on concrete inputs. *)
Module Reference.

(** Modelled from the spec: isSecretRef of config/types.secrets.js is not
    among the sources.  The data model gives a secret reference as an
    object [{ source: "env" | "file", id: string }]. *)
Definition specSecretRefOf (ps : list (string * option prim)) : option SecretRef :=
  match props_get "source" ps, props_get "id" ps with
  | Some (Some (PStr src)), Some (Some (PStr i)) =>
      if String.eqb src "env" || String.eqb src "file"
      then Some (mkSecretRef src i) else None
  | _, _ => None
  end.

(** The tokens of a pointer, split at each slash. *)
Fixpoint splitSlash (cur : string) (s : string) : list string :=
  match s with
  | EmptyString => [String.rev cur]
  | String "/" r => String.rev cur :: splitSlash EmptyString r
  | String c r => splitSlash (String c cur) r
  end.

Fixpoint lookupPath (t : tree) (tokens : list string) : option tree :=
  match tokens with
  | [] => Some t
  | k :: r =>
      match t with
      | TObj ps => match props_get k ps with Some t' => lookupPath t' r | None => None end
      | TArr xs => match props_get k (arr_props xs) with Some t' => lookupPath t' r | None => None end
      | TPrim _ => None
      end
  end.

(** Modelled from the spec: readJsonPointer of secrets/json-pointer.js is
    not among the sources.  Given a decrypted payload and a pointer-style
    id string it resolves to a nested value or signals "missing". *)
Definition specReadJsonPointer (payload : tree) (pointer : string) : option tree :=
  match splitSlash EmptyString pointer with
  | EmptyString :: tokens => lookupPath payload tokens
  | _ => None
  end.

(** A decrypt facility that knows one file. *)
Definition stubDecryptSopsJsonFile (c : SopsCall) : Result tree :=
  if String.eqb (sops_path c) "/secrets.enc.json"
  then Ok (TObj [("providers", TObj [("acme", TStr "file-secret"); ("count", TPrim (PNum (Finite 3)))]);
                 ("chat", TObj [("client_email", TStr "bot@example.test")])])
  else Err (ExternalFailure "sops failed").

#[local] Instance collaborators : Collaborators := {|
  secretRefOf := specSecretRefOf;
  readJsonPointer := specReadJsonPointer;
  decryptSopsJsonFile := stubDecryptSopsJsonFile;
  DEFAULT_SOPS_TIMEOUT_MS := 5000;
  resolveUserPath := fun p => p;
  resolveOpenClawAgentDir := "/agents/main";
  listAgentIds := fun _ _ => [];
  resolveAgentDir := fun _ _ agentId => "/agents/" +:+ agentId;
  loadAuthProfileStoreForRuntime := fun _ => VUndefined;
  process_env := ∅
|}.

End Reference.

Definition fresh (n0 : nat) (v : val) : Prop :=
  match v with
  | VRef l => n0 <= l
  | VPrim _ => True
  end.

Definition obj_vals (o : obj) : list val :=
  match o with
  | Obj ps => snd <$> ps
  | Arr xs => xs
  end.

Definition cells_fresh (n0 : nat) (cells : list obj) : Prop :=
  Forall (fun o => Forall (fresh n0) (obj_vals o)) cells.

(** [config.secrets?.sources?.file], read in a given store. *)
Definition configuredFileSource (h : Heap) (config : val) : Result val :=
  match readProp h config "secrets" with
  | Ok secrets =>
      match readOptProp h secrets "sources" with
      | Ok sources => readOptProp h sources "file"
      | Err e => Err e
      end
  | Err e => Err e
  end.

(** The context with its cache slot filled. *)
Definition withPromise (c : ResolverContext) (p : Promise) : ResolverContext :=
  mkContext (ctx_config c) (ctx_env c) (Some p).

Section Sequences.
Context `{Collaborators}.

(** Resolving references one after the other in one context, whatever
    each resolution yields. *)
Fixpoint resolveSequence (refs : list SecretRef) (context : nat) (s : State)
  : list (Result val) * State :=
  match refs with
  | [] => ([], s)
  | r :: rest =>
      let '(x, s1) := resolveSecretRefValue r context s in
      let '(xs, s2) := resolveSequence rest context s1 in
      (x :: xs, s2)
  end.

(** What a file-sourced resolution does with a settled decrypt. *)
Definition lookupInPayload (p : Promise) (id : string) : M val :=
  let* payload := await p in
  match readJsonPointer payload id with
  | Some t => materialize t
  | None => throw (MissingSecret id)
  end.

End Sequences.
(** ** Sample inputs *)

Definition sampleEnv : gmap string string :=
  {[ "ACME_KEY" := "secret123" ]}.

(** A configuration without a file source, and one context on it. *)
Definition sampleUnconfigured : State :=
  mkState [Obj []] [mkContext (VRef 0) sampleEnv None] [] VNull None None.

Definition sampleSopsConfig : tree :=
  TObj [("secrets",
         TObj [("sources",
                TObj [("file", TObj [("type", TStr "sops");
                                     ("path", TStr "/secrets.enc.json")])])])].

Definition sampleAgeConfig : tree :=
  TObj [("secrets",
         TObj [("sources",
                TObj [("file", TObj [("type", TStr "age");
                                     ("path", TStr "/secrets.enc.json")])])])].

(** A store holding [t], and one context on it. *)
Definition sampleContextOn (t : tree) : State :=
  let '(v, h) := materialize_tree t [] in
  mkState h [mkContext v sampleEnv None] [] VNull None None.

(** A blank id that has no ASCII blank only: U+00A0 NO-BREAK SPACE, a
    space, and U+FEFF. *)
Definition sampleBlankId : string :=
  String "194"%char (String "160"%char
    (String " "%char
       (String "239"%char (String "187"%char (String "191"%char EmptyString))))).

(** The id ACME_KEY between U+2003 EM SPACE and U+00A0 NO-BREAK SPACE. *)
Definition samplePaddedId : string :=
  String "226"%char (String "128"%char (String "131"%char
    ("ACME_KEY" +:+ String "194"%char (String "160"%char EmptyString)))).

(** ** Override warnings *)

(** The warning object pushed by resolveGoogleChatServiceAccount. *)
Definition serviceAccountWarning (path : string) : obj :=
  Obj [("code", VStr "SECRETS_REF_OVERRIDES_PLAINTEXT");
       ("path", VStr path);
       ("message",
        VStr (path +:+ ": serviceAccountRef is set; runtime will ignore plaintext serviceAccount."))].

(** The warning object pushed by resolveAuthStoreSecretRefs for the
    credential field [field] overridden by [refField]. *)
Definition credentialWarning (agentDir profileId field refField : string) : obj :=
  Obj [("code", VStr "SECRETS_REF_OVERRIDES_PLAINTEXT");
       ("path", VStr (agentDir +:+ ".auth-profiles." +:+ profileId +:+ "." +:+ field));
       ("message",
        VStr ("auth-profiles " +:+ profileId +:+ ": " +:+ refField
                +:+ " is set; runtime will ignore plaintext " +:+ field +:+ "."))].

(** The state after [warnings.push(o)] for a freshly built object [o],
    [ws] being the elements the array at [w] had. *)
Definition pushed (w : loc) (ws : list val) (o : obj) (s : State) : State :=
  with_heap (<[w := Arr (ws ++ [VRef (length (heap s))])]> (heap s ++ [o])) s.

(** [target.k = v] on the plain object at [l] whose properties were [ps]. *)
Definition assigned (l : loc) (ps : list (string * val)) (k : string) (v : val)
    (s : State) : State :=
  with_heap (<[l := Obj (props_set k v ps)]> (heap s)) s.

Definition field (ps : list (string * val)) (k : string) : val :=
  default VUndefined (props_get k ps).

(** The object [{ source: "env", id: "ACME_KEY" }]. *)
Definition sampleRefCell : obj :=
  Obj [("source", VStr "env"); ("id", VStr "ACME_KEY")].

(** A state whose store holds the reference above at 0, a target object
    with properties [ps] at 1 and an empty warnings array at 2, with one
    context on [sampleEnv]. *)
Definition sampleTarget (ps : list (string * val)) : State :=
  mkState [sampleRefCell; Obj ps; Arr []]
          [mkContext VUndefined sampleEnv None] [] VNull None None.

Definition sampleChatProps (plain : val) : list (string * val) :=
  [("serviceAccountRef", VRef 0); ("serviceAccount", plain)].

Definition sampleProfileProps : list (string * val) :=
  [("type", VStr "api_key"); ("provider", VStr "acme");
   ("key", VStr "plaintext"); ("keyRef", VRef 0)].

(** ** Frames

    [grows W h0 h]: the store [h] comes from [h0] by allocating objects
    and by assigning to objects allocated since; an object of [h0] is as
    it was, unless it is an array at a location in [W], which may have had
    new objects pushed onto it.  The objects allocated since [h0] refer to
    one another and to nothing of [h0]. *)
Definition grows (W : loc -> Prop) (h0 h : Heap) : Prop :=
  length h0 <= length h /\
  (forall l o, h0 !! l = Some o ->
     h !! l = Some o \/
     (W l /\ exists xs new, o = Arr xs /\ h !! l = Some (Arr (xs ++ new)) /\
                            Forall (fresh (length h0)) new)) /\
  (forall l o, length h0 <= l -> h !! l = Some o ->
     Forall (fresh (length h0)) (obj_vals o)).

(** A value that may be pushed onto: a new array, or an old one in [W]. *)
Definition pushable (W : loc -> Prop) (n0 : nat) (v : val) : Prop :=
  match v with
  | VRef l => n0 <= l \/ W l
  | VPrim _ => True
  end.

(** The objects reachable from a value. *)
Inductive reaches (h : Heap) : val -> loc -> Prop :=
| reaches_here l : reaches h (VRef l) l
| reaches_step l o v l' :
    h !! l = Some o -> v ∈ obj_vals o -> reaches h v l' ->
    reaches h (VRef l) l'.

(** A store without dangling references. *)
Definition valid (h : Heap) (v : val) : Prop :=
  match v with
  | VRef l => l < length h
  | VPrim _ => True
  end.

Definition wf_heap (h : Heap) : Prop :=
  forall l o, h !! l = Some o -> Forall (valid h) (obj_vals o).

(** ** Reading plain data

    The counterparts on trees of the reads the walkers make on the
    store. *)

Definition nullish (p : prim) : bool :=
  match p with
  | PUndefined | PNull => true
  | _ => false
  end.

Definition tnullish (t : tree) : bool :=
  match t with
  | TPrim p => nullish p
  | _ => false
  end.

Definition ttruthy (t : tree) : bool :=
  match t with
  | TPrim p => truthy (VPrim p)
  | _ => true
  end.

(** [t.k], for a [t] that is neither null nor undefined. *)
Definition tget (t : tree) (k : string) : tree :=
  match t with
  | TObj pts => default (TPrim PUndefined) (props_get k pts)
  | TArr ts => default (TPrim PUndefined) (props_get k (arr_props ts))
  | TPrim _ => TPrim PUndefined
  end.

(** [t?.k] *)
Definition tgetOpt (t : tree) (k : string) : tree :=
  if tnullish t then TPrim PUndefined else tget t k.

(** [Object.entries(t)], for a [t] that is neither null nor undefined. *)
Definition tentries (t : tree) : list (string * tree) :=
  match t with
  | TObj pts => pts
  | TArr ts => arr_props ts
  | TPrim (PStr s) => arr_props (TPrim ∘ PStr <$> chars s)
  | TPrim _ => []
  end.

Definition tisRecord (t : tree) : bool :=
  match t with
  | TObj _ => true
  | _ => false
  end.

Definition tshallow (t : tree) : option prim :=
  match t with
  | TPrim p => Some p
  | _ => None
  end.

(** The configuration type asks of [models.providers] that its entries be
    provider objects; the walk reads the apiKey of each and needs them to
    be neither null nor undefined. *)
Definition providerEntriesPresent (t : tree) : bool :=
  let providers := tgetOpt (tget t "models") "providers" in
  if ttruthy providers
  then forallb (fun e => negb (tnullish (snd e))) (tentries providers)
  else true.

Section TreeGuards.
Context `{Collaborators}.

(** isSecretRef on plain data. *)
Definition secretRefOfTree (t : tree) : option SecretRef :=
  match t with
  | TObj pts => secretRefOf (prod_map id tshallow <$> pts)
  | _ => None
  end.

Definition tisSecretRef (t : tree) : bool :=
  bool_decide (is_Some (secretRefOfTree t)).

(** A Google Chat target none of whose two fields is a secret reference. *)
Definition targetRefFree (t : tree) : bool :=
  negb (tisSecretRef (tget t "serviceAccountRef"))
  && negb (tisSecretRef (tget t "serviceAccount")).

(** A configuration that carries no secret reference in any of the fields
    the config walk looks at: the apiKey of each provider, and
    serviceAccountRef and serviceAccount of the Google Chat entry and of
    each of its accounts that is a record. *)
Definition walkedFieldsRefFree (t : tree) : bool :=
  let providers := tgetOpt (tget t "models") "providers" in
  let googleChat := tgetOpt (tget t "channels") "googlechat" in
  (if ttruthy providers
   then forallb (fun e => negb (tisSecretRef (tget (snd e) "apiKey")))
          (tentries providers)
   else true)
  && (if ttruthy googleChat
      then targetRefFree googleChat
           && (if tisRecord (tget googleChat "accounts")
               then forallb (fun e => if tisRecord (snd e)
                                      then targetRefFree (snd e) else true)
                      (tentries (tget googleChat "accounts"))
               else true)
      else true).
End TreeGuards.

(** ** The end-to-end example

    The configuration [{ models: { providers: { <id>: { apiKey: k } } } }]. *)
Definition providerConfig (providerId : string) (k : tree) : tree :=
  TObj [("models",
         TObj [("providers", TObj [(providerId, TObj [("apiKey", k)])])])].

Definition sampleAcmeConfig : tree :=
  providerConfig "acme" (TObj [("source", TStr "env"); ("id", TStr "ACME_KEY")]).

Definition sampleStoreTree : tree :=
  TObj [("version", TPrim (PNum (Finite 1)));
        ("profiles",
         TObj [("p1", TObj [("type", TStr "api_key");
                            ("key", TStr "plaintext");
                            ("keyRef", TObj [("source", TStr "env");
                                             ("id", TStr "ACME_KEY")])])])].

(** A store that holds the example configuration (at 4) and an
    auth-profile store (at 8). *)
Definition samplePrepareState : State :=
  let '(_, h1) := materialize_tree sampleAcmeConfig [] in
  let '(_, h2) := materialize_tree sampleStoreTree h1 in
  mkState h2 [] [] VNull None None.

Definition samplePlainConfig : tree :=
  TObj [("models",
         TObj [("providers", TObj [("acme", TObj [("apiKey", TStr "sk-plain")])])]);
        ("channels",
         TObj [("googlechat",
                TObj [("serviceAccount", TStr "inline-json");
                      ("accounts",
                       TObj [("ops", TObj [("serviceAccount", TStr "other-json")])])])])].

(** A store that holds the configuration above (at 7) and an empty
    warnings array (at 8), with one context. *)
Definition samplePlainState : State :=
  let '(v, h) := materialize_tree samplePlainConfig [] in
  mkState (h ++ [Arr []]) [mkContext v sampleEnv None] [] VNull None None.

Definition validb (h : Heap) (v : val) : bool :=
  match v with
  | VRef l => Nat.ltb l (length h)
  | VPrim _ => true
  end.

Definition wf_heapb (h : Heap) : bool :=
  forallb (fun o => forallb (validb h) (obj_vals o)) h.

(** ** Snapshots as data

    What a value of type PreparedSecretsRuntimeSnapshot holds, read off
    the store by the names of its fields: two snapshots with the same
    view are deep-equal. *)
Record SnapshotView : Type := mkView {
  view_sourceConfig : tree;
  view_config : tree;
  view_authStores : list (tree * tree);   (* agentDir and store of each entry *)
  view_warnings : list tree
}.

Definition readArray (h : Heap) (v : val) : option (list val) :=
  match v with
  | VRef l =>
      match h !! l with
      | Some (Arr xs) => Some xs
      | _ => None
      end
  | VPrim _ => None
  end.

Definition viewEntry (fuel : nat) (h : Heap) (entry : val) : option (tree * tree) :=
  match entry with
  | VRef l =>
      match h !! l with
      | Some (Obj ps) =>
          match readback fuel h (field ps "agentDir"),
                readback fuel h (field ps "store") with
          | Some d, Some st => Some (d, st)
          | _, _ => None
          end
      | _ => None
      end
  | VPrim _ => None
  end.

Definition viewSnapshot (fuel : nat) (h : Heap) (snapshot : val)
  : option SnapshotView :=
  match snapshot with
  | VRef l =>
      match h !! l with
      | Some (Obj ps) =>
          match readback fuel h (field ps "sourceConfig"),
                readback fuel h (field ps "config"),
                readArray h (field ps "authStores"),
                readArray h (field ps "warnings") with
          | Some sc, Some c, Some es, Some ws =>
              match mapM (viewEntry fuel h) es, mapM (readback fuel h) ws with
              | Some stores, Some warnings => Some (mkView sc c stores warnings)
              | _, _ => None
              end
          | _, _, _, _ => None
          end
      | _ => None
      end
  | VPrim _ => None
  end.

Definition tisPrim (t : tree) : bool :=
  match t with
  | TPrim _ => true
  | _ => false
  end.

(** An object all of whose properties are primitives, as a
    SecretResolverWarning is. *)
Definition flatRecord (t : tree) : bool :=
  match t with
  | TObj pts => forallb (fun kt => tisPrim (snd kt)) pts
  | _ => false
  end.

(** The part of the snapshot type that cloneSnapshot relies on: agentDir
    is a primitive (a string), and the warnings are flat records. *)
Definition wellTypedView (sv : SnapshotView) : bool :=
  forallb (fun e => tisPrim (fst e)) (view_authStores sv)
  && forallb flatRecord (view_warnings sv).

(** The snapshot prepare builds on the end-to-end example (at 27). *)
Definition sampleSnapshotState : State :=
  snd (@prepareSecretsRuntimeSnapshot Reference.collaborators 5 (VRef 4)
         (Some sampleEnv) (Some ["/agents/main"]) (Some (fun _ => VRef 8))
         samplePrepareState).

Definition sampleView : SnapshotView :=
  mkView sampleAcmeConfig
    (providerConfig "acme" (TStr "secret123"))
    [(TStr "/agents/main",
      TObj [("version", TPrim (PNum (Finite 1)));
            ("profiles",
             TObj [("p1", TObj [("type", TStr "api_key");
                                ("key", TStr "secret123");
                                ("keyRef", TObj [("source", TStr "env");
                                                 ("id", TStr "ACME_KEY")])])])])]
    [TObj [("code", TStr "SECRETS_REF_OVERRIDES_PLAINTEXT");
           ("path", TStr "/agents/main.auth-profiles.p1.key");
           ("message",
            TStr "auth-profiles p1: keyRef is set; runtime will ignore plaintext key.")]].

(** [appends n0 m s Q]: run in [s], [m] returns a value and leaves [s]
    with new objects appended to the store, objects that refer to nothing
    older than [n0]; [Q] holds of the value and the new store. *)
Definition appends {A} (n0 : nat) (m : M A) (s : State)
    (Q : A -> Heap -> Prop) : Prop :=
  exists a ext,
    m s = (Ok a, with_heap (heap s ++ ext) s) /\
    cells_fresh n0 ext /\ Q a (heap s ++ ext).

(** What the two maps of cloneSnapshot expect of an element, and what
    relates an element to its copy. *)
Definition entryTyped (fuel : nat) (h : Heap) (e : val) : Prop :=
  exists d st, viewEntry fuel h e = Some (d, st) /\ tisPrim d = true.

Definition sameEntry (fuel : nat) (h : Heap) (e y : val) : Prop :=
  exists x, viewEntry fuel h e = Some x /\ viewEntry fuel h y = Some x.

Definition warningTyped (fuel : nat) (h : Heap) (w : val) : Prop :=
  exists tw, readback fuel h w = Some tw /\ flatRecord tw = true.

Definition sameData (fuel : nat) (h : Heap) (w y : val) : Prop :=
  exists t, readback fuel h w = Some t /\ readback fuel h y = Some t.

(** ** The decrypt invocation *)

(** The timeout decryptSopsFile computes from [fileSource.timeoutMs]. *)
Definition isFiniteNumber (v : val) : bool :=
  match v with
  | VPrim (PNum (Finite _)) => true
  | _ => false
  end.

(** A store with a sops file source whose timeout is [timeout]. *)
Definition sampleTimeoutConfig (timeout : prim) : State :=
  sampleContextOn
    (TObj [("secrets",
            TObj [("sources",
                   TObj [("file", TObj [("type", TStr "sops");
                                        ("path", TStr "/secrets.enc.json");
                                        ("timeoutMs", TPrim timeout)])])])]).

(** ** Invariants of a run

    [preserves P m]: whatever [m] returns or throws, it takes a state
    that satisfies [P] to one that does. *)
Definition preserves {A} (P : State -> Prop) (m : M A) : Prop :=
  forall s r s', P s -> m s = (r, s') -> P s'.

(** A property that does not look at the object store. *)
Definition heapBlind (P : State -> Prop) : Prop :=
  forall s h, P s -> P (with_heap h s).

(** A computation that touches nothing but the object store. *)
Definition storeOnly {A} (m : M A) : Prop :=
  forall s, exists h, snd (m s) = with_heap h s.

(** The state of a prepare call under way, as seen from the state [s0]
    it started in: the one context it created, on [config] and [env],
    sits behind the contexts of [s0]; at most one decrypt has been
    invoked, and none while the cache slot of the context is empty; the
    active snapshot and the two registries are those of [s0]. *)
Definition oneContext (s0 : State) (config : val) (env : gmap string string)
    (s : State) : Prop :=
  exists slot calls,
    contexts s = contexts s0 ++ [mkContext config env slot] /\
    sopsCalls s = sopsCalls s0 ++ calls /\
    length calls <= 1 /\
    (slot = None -> calls = []) /\
    activeSnapshot s = activeSnapshot s0 /\
    runtimeConfigSnapshot s = runtimeConfigSnapshot s0 /\
    runtimeAuthStoreSnapshots s = runtimeAuthStoreSnapshots s0.

(** ** The auth stores of a snapshot *)

(** [e] is an object [{ agentDir: d, store }] whose store is none of the
    objects below [n0]. *)
Definition entryFor (n0 : nat) (h : Heap) (e : val) (d : string) : Prop :=
  exists l st,
    e = VRef l /\
    h !! l = Some (Obj [("agentDir", VStr d); ("store", st)]) /\
    fresh n0 st.

(** ** Auth-profile stores as plain data *)

(** [t === str], for a string literal [str] *)
Definition tisString (t : tree) (str : string) : bool :=
  match t with
  | TPrim (PStr s') => String.eqb s' str
  | _ => false
  end.

(** The store type asks for [profiles], an object whose entries are
    credential objects; the walk enumerates it and reads the type of each
    entry, and needs them to be neither null nor undefined. *)
Definition profilesPresent (t : tree) : bool :=
  negb (tnullish (tget t "profiles"))
  && forallb (fun e => negb (tnullish (snd e))) (tentries (tget t "profiles")).

Section StoreGuards.
Context `{Collaborators}.

(** A profile without a secret reference where the walk looks for one:
    keyRef of an api_key profile, tokenRef of a token profile. *)
Definition profileRefFree (p : tree) : bool :=
  if tisString (tget p "type") "api_key"
  then negb (tisSecretRef (tget p "keyRef"))
  else if tisString (tget p "type") "token"
       then negb (tisSecretRef (tget p "tokenRef"))
       else true.

Definition storeRefFree (t : tree) : bool :=
  forallb (fun e => profileRefFree (snd e)) (tentries (tget t "profiles")).

End StoreGuards.

(** A store with plaintext credentials only; an oauth profile that
    carries a stray keyRef is not looked at. *)
Definition samplePlainStore : tree :=
  TObj [("version", TPrim (PNum (Finite 1)));
        ("profiles",
         TObj [("openrouter:default",
                TObj [("type", TStr "api_key"); ("key", TStr "sk-or-v1")]);
               ("anthropic:default",
                TObj [("type", TStr "token"); ("token", TStr "sk-ant")]);
               ("codex:default",
                TObj [("type", TStr "oauth");
                      ("keyRef", TObj [("source", TStr "env");
                                       ("id", TStr "ACME_KEY")])])])].

(** A store that holds the auth-profile store above (at 5) and an empty
    warnings array (at 6), with one context. *)
Definition samplePlainStoreState : State :=
  let '(v, h) := materialize_tree samplePlainStore [] in
  mkState (h ++ [Arr []]) [mkContext VUndefined sampleEnv None] [] VNull None None.

(** ** The registries *)

(** The state clearSecretsRuntimeSnapshot leaves. *)
Definition cleared (s : State) : State :=
  mkState (heap s) (contexts s) (sopsCalls s) VNull None None.

(** ** Runs that throw *)

(** A configuration whose provider resolves (ACME_KEY is set) and whose
    Google Chat entry does not (GCHAT_SA is not): the walk assigns the
    first and throws at the second. *)
Definition sampleFailingConfig : tree :=
  TObj [("models",
         TObj [("providers",
                TObj [("acme",
                       TObj [("apiKey", TObj [("source", TStr "env");
                                              ("id", TStr "ACME_KEY")])])])]);
        ("channels",
         TObj [("googlechat",
                TObj [("serviceAccount", TObj [("source", TStr "env");
                                               ("id", TStr "GCHAT_SA")])])])].

(** A store that holds the configuration above (at 7). *)
Definition sampleFailingState : State :=
  let '(_, h) := materialize_tree sampleFailingConfig [] in
  mkState h [] [] VNull None None.

(** * Credentials for the model registry

    agents/pi-model-discovery.ts: convertAuthProfileCredential and
    resolvePiCredentials.  A credential is a plain object; it is given by
    its own properties, read with [field]. *)

(** type PiCredential *)
Inductive PiCredential : Type :=
| PiApiKey (key : string)                       (* { type: "api_key", key } *)
| PiOAuth (access refresh : string) (expires : Q).
                                                (* { type: "oauth", access, refresh, expires } *)

(** [typeof v === "string" ? v.trim() : ""] *)
Definition trimmedString (v : val) : string :=
  match v with
  | VPrim (PStr str) => trim str
  | _ => ""
  end.

(** function convertAuthProfileCredential; [now] is what Date.now()
    returns where the function asks for it. *)
Definition convertAuthProfileCredential (now : Q) (cred : list (string * val))
  : option PiCredential :=
  if isString (field cred "type") "api_key" then
    let key := trimmedString (field cred "key") in
    if String.eqb key "" then None else Some (PiApiKey key)
  else if isString (field cred "type") "token" then
    let token := trimmedString (field cred "token") in
    if String.eqb token "" then None
    else match field cred "expires" with
         | VPrim (PNum (Finite expires)) =>
             if Qle_bool expires now then None else Some (PiApiKey token)
         | _ => Some (PiApiKey token)
         end
  else if isString (field cred "type") "oauth" then
    let access := trimmedString (field cred "access") in
    let refresh := trimmedString (field cred "refresh") in
    match field cred "expires" with
    | VPrim (PNum (Finite expires)) =>
        if String.eqb access "" || String.eqb refresh "" || Qle_bool expires 0
        then None
        else Some (PiOAuth access refresh expires)
    | _ => None
    end
  else None.

(** The names that a property read on a plain object finds on
    Object.prototype; what it finds there is a function or an object. *)
Definition objectPrototypeKeys : list string :=
  ["constructor"; "__defineGetter__"; "__defineSetter__"; "hasOwnProperty";
   "__lookupGetter__"; "__lookupSetter__"; "isPrototypeOf";
   "propertyIsEnumerable"; "toString"; "valueOf"; "__proto__";
   "toLocaleString"].

(** What pi-model-discovery.ts imports from files that are not part of
    this development, and the part of [String(v)] that is not spelled out
    below. *)
Class PiCollaborators : Type := {
  (* agents/model-selection.js *)
  normalizeProviderId : string -> string;
  (* agents/auth-profiles.js: the credentials of the store of an agent
     directory, Object.values(ensureAuthProfileStore(agentDir, ...).profiles) *)
  ensureAuthProfileStore : string -> list (list (string * val));
  (* String(v) for a number and for an object *)
  stringOfOther : val -> string
}.

Section PiCredentials.
Context `{PiCollaborators}.

(** [String(v)] *)
Definition jsString (v : val) : string :=
  match v with
  | VPrim (PStr str) => str
  | VPrim PUndefined => "undefined"
  | VPrim PNull => "null"
  | VPrim (PBool true) => "true"
  | VPrim (PBool false) => "false"
  | _ => stringOfOther v
  end.

(** [normalizeProviderId(String(credential.provider ?? "")).trim()] *)
Definition providerOf (credential : list (string * val)) : string :=
  let provider := field credential "provider" in
  trim (normalizeProviderId
          (jsString (match provider with
                     | VPrim PUndefined | VPrim PNull => VStr ""
                     | _ => provider
                     end))).

(** [credentials[provider]] is truthy: an own property, whose value is a
    credential object, or one found on Object.prototype. *)
Definition taken (credentials : gmap string PiCredential) (provider : string) : bool :=
  bool_decide (is_Some (credentials !! provider))
  || bool_decide (provider ∈ objectPrototypeKeys).

(** The loop of resolvePiCredentials from its [i]-th turn on; [clock i]
    is what Date.now() returns in turn [i]. *)
Fixpoint collectCredentials (clock : nat -> Q) (i : nat)
    (profiles : list (list (string * val)))
    (credentials : gmap string PiCredential) : gmap string PiCredential :=
  match profiles with
  | [] => credentials
  | credential :: rest =>
      let provider := providerOf credential in
      if String.eqb provider "" || taken credentials provider
      then collectCredentials clock (S i) rest credentials
      else match convertAuthProfileCredential (clock i) credential with
           | Some converted =>
               collectCredentials clock (S i) rest (<[provider := converted]> credentials)
           | None => collectCredentials clock (S i) rest credentials
           end
  end.

(** function resolvePiCredentials *)
Definition resolvePiCredentials (clock : nat -> Q) (agentDir : string)
  : gmap string PiCredential :=
  collectCredentials clock 0 (ensureAuthProfileStore agentDir) ∅.

(** The first credential of [profiles] that is filed under [p] and that
    convertAuthProfileCredential accepts is turned into [c]; the turns
    are counted from [i]. *)
Definition firstUsableAt (clock : nat -> Q) (i : nat)
    (profiles : list (list (string * val))) (p : string) (c : PiCredential) : Prop :=
  exists k cred,
    profiles !! k = Some cred /\
    providerOf cred = p /\
    convertAuthProfileCredential (clock (i + k)) cred = Some c /\
    forall j cred', j < k -> profiles !! j = Some cred' -> providerOf cred' = p ->
      convertAuthProfileCredential (clock (i + j)) cred' = None.

End PiCredentials.

(** ** Sample credentials *)

Definition sampleApiKeyCred : list (string * val) :=
  [("type", VStr "api_key"); ("provider", VStr "openrouter");
   ("key", VStr "  sk-or-v1-runtime ")].

Definition sampleTokenCred (expires : val) : list (string * val) :=
  [("type", VStr "token"); ("provider", VStr "anthropic");
   ("token", VStr "sk-ant-runtime"); ("expires", expires)].

Definition sampleOAuthCred : list (string * val) :=
  [("type", VStr "oauth"); ("provider", VStr "openai-codex");
   ("access", VStr "oauth-access"); ("refresh", VStr "oauth-refresh");
   ("expires", VNum (Finite 1000))].

(** A store whose first anthropic credential expired at 500 and whose
    second one is good. *)
Definition samplePiCollaborators : PiCollaborators := {|
  normalizeProviderId := fun p => p;
  ensureAuthProfileStore := fun _ =>
    [sampleTokenCred (VNum (Finite 500));
     [("type", VStr "api_key"); ("provider", VStr " anthropic ");
      ("key", VStr "sk-ant-second")];
     [("type", VStr "api_key"); ("provider", VStr "anthropic");
      ("key", VStr "sk-ant-third")];
     [("type", VStr "api_key"); ("provider", VStr "constructor");
      ("key", VStr "sk-ctor")]];
  stringOfOther := fun _ => "[object Object]"
|}.

(** ** The value of a file-sourced reference *)

(** The payload a file-sourced resolution looks its pointer up in, and
    the state in which it does: the cached payload and the state the
    resolution started in, when the cache slot holds one; otherwise what
    decryptSopsFile returns and the state it leaves, with the payload put
    in the slot.  There is none when the decrypt has failed. *)
Definition payloadFor `{Collaborators} (context : nat) (ctx : ResolverContext)
    (s : State) : option (tree * State) :=
  match ctx_fileSecretsPromise ctx with
  | Some (Ok cached) => Some (cached, s)
  | Some (Err _) => None
  | None =>
      match decryptSopsFile (ctx_config ctx) s with
      | (Ok decrypted, s0) =>
          Some (decrypted,
                with_contexts
                  (<[context := withPromise ctx (Ok decrypted)]> (contexts s)) s0)
      | (Err _, _) => None
      end
  end.

(** * Onboarding: the BytePlus and Volcano Engine API-key choices

    commands/auth-choice.apply.byteplus.ts and its Volcano Engine twin.
    The two functions talk to the user through the prompter and write to
    the credential store; they are given as the tree of these
    interactions, each awaited call being a node that continues with what
    the call returns.  A call that rejects ends the run, as nothing
    catches it. *)
Inductive Onboarding (A : Type) : Type :=
| Finish (a : A)
| Confirm (message : string) (initialValue : bool) (k : bool -> Onboarding A)
                                                    (* await prompter.confirm *)
| Text (message : string) (validate : string -> option string)
       (k : string -> Onboarding A)                 (* await prompter.text *)
| SetApiKey (setter : string) (key : string) (agentDir : val)
            (k : Onboarding A).                     (* await set...ApiKey *)
Arguments Finish {A} a.
Arguments Confirm {A} message initialValue k.
Arguments Text {A} message validate k.
Arguments SetApiKey {A} setter key agentDir k.

(** What happened in a run. *)
Inductive Event : Type :=
| Confirmed (message : string) (answer : bool)
| Entered (message : string) (answer : string)
| Stored (setter : string) (key : string) (agentDir : val).

(** A run against a user who answers [confirm] and [text]. *)
Fixpoint runOnboarding {A} (confirm : string -> bool) (text : string -> string)
    (p : Onboarding A) : list Event * A :=
  match p with
  | Finish a => ([], a)
  | Confirm message _ k =>
      let '(events, a) := runOnboarding confirm text (k (confirm message)) in
      (Confirmed message (confirm message) :: events, a)
  | Text message _ k =>
      let '(events, a) := runOnboarding confirm text (k (text message)) in
      (Entered message (text message) :: events, a)
  | SetApiKey setter key agentDir k =>
      let '(events, a) := runOnboarding confirm text k in
      (Stored setter key agentDir :: events, a)
  end.

(** What the two files import from files that are not part of this
    development. *)
Class ChoiceCollaborators : Type := {
  OpenClawConfig : Type;
  (* agents/model-auth.js: { apiKey, source } or null *)
  resolveEnvApiKey : string -> option (string * string);
  (* commands/auth-choice.api-key.js *)
  formatApiKeyPreview : string -> string;
  normalizeApiKeyInput : string -> string;
  validateApiKeyInput : string -> option string;
  (* commands/onboard-auth.js: applyAuthProfileConfig(config,
     { profileId, provider, mode }) *)
  applyAuthProfileConfig : OpenClawConfig -> string -> string -> string -> OpenClawConfig;
  (* commands/model-picker.js *)
  applyPrimaryModel : OpenClawConfig -> string -> OpenClawConfig
}.

Section Choices.
Context `{ChoiceCollaborators}.

(** The part of ApplyAuthChoiceParams the two functions read;
    [opts_*ApiKey] is [params.opts?.*ApiKey]. *)
Record ApplyAuthChoiceParams : Type := mkParams {
  authChoice : string;
  params_config : OpenClawConfig;
  agentDir : val;
  opts_byteplusApiKey : option string;
  opts_volcengineApiKey : option string
}.

Record ApplyAuthChoiceResult : Type := mkResult {
  result_config : OpenClawConfig;
  agentModelOverride : string
}.

(** A string option that is truthy: present and not empty. *)
Definition given (o : option string) : bool :=
  match o with
  | Some str => negb (String.eqb str "")
  | None => false
  end.

Definition BYTEPLUS_DEFAULT_MODEL : string := "byteplus-plan/ark-code-latest".

(** async function applyAuthChoiceBytePlus *)
Definition applyAuthChoiceBytePlus (params : ApplyAuthChoiceParams)
  : Onboarding (option ApplyAuthChoiceResult) :=
  if negb (String.eqb (authChoice params) "byteplus-api-key") then Finish None else
  let withKey (key : string) :=
    let trimmed := normalizeApiKeyInput key in
    SetApiKey "setByteplusApiKey" trimmed (agentDir params)
      (let configWithAuth :=
         applyAuthProfileConfig (params_config params)
           "byteplus:default" "byteplus" "api_key" in
       let configWithModel := applyPrimaryModel configWithAuth BYTEPLUS_DEFAULT_MODEL in
       Finish (Some (mkResult configWithModel BYTEPLUS_DEFAULT_MODEL))) in
  let askKey :=
    if given (opts_byteplusApiKey params)
    then withKey (default "" (opts_byteplusApiKey params))
    else Text "Enter BytePlus API key" validateApiKeyInput withKey in
  match resolveEnvApiKey "byteplus" with
  | Some (apiKey, source) =>
      Confirm ("Use existing BYTEPLUS_API_KEY (" ++ source ++ ", "
                 ++ formatApiKeyPreview apiKey ++ ")?") true
        (fun useExisting =>
           if useExisting
           then SetApiKey "setByteplusApiKey" apiKey (agentDir params)
                  (let configWithAuth :=
                     applyAuthProfileConfig (params_config params)
                       "byteplus:default" "byteplus" "api_key" in
                   let configWithModel :=
                     applyPrimaryModel configWithAuth BYTEPLUS_DEFAULT_MODEL in
                   Finish (Some (mkResult configWithModel BYTEPLUS_DEFAULT_MODEL)))
           else askKey)
  | None => askKey
  end.

Definition VOLCENGINE_DEFAULT_MODEL : string := "volcengine-plan/ark-code-latest".

(** async function applyAuthChoiceVolcengine *)
Definition applyAuthChoiceVolcengine (params : ApplyAuthChoiceParams)
  : Onboarding (option ApplyAuthChoiceResult) :=
  if negb (String.eqb (authChoice params) "volcengine-api-key") then Finish None else
  let withKey (key : string) :=
    let trimmed := normalizeApiKeyInput key in
    SetApiKey "setVolcengineApiKey" trimmed (agentDir params)
      (let configWithAuth :=
         applyAuthProfileConfig (params_config params)
           "volcengine:default" "volcengine" "api_key" in
       let configWithModel :=
         applyPrimaryModel configWithAuth VOLCENGINE_DEFAULT_MODEL in
       Finish (Some (mkResult configWithModel VOLCENGINE_DEFAULT_MODEL))) in
  let askKey :=
    if given (opts_volcengineApiKey params)
    then withKey (default "" (opts_volcengineApiKey params))
    else Text "Enter Volcano Engine API Key" validateApiKeyInput withKey in
  match resolveEnvApiKey "volcengine" with
  | Some (apiKey, source) =>
      Confirm ("Use existing VOLCANO_ENGINE_API_KEY (" ++ source ++ ", "
                 ++ formatApiKeyPreview apiKey ++ ")?") true
        (fun useExisting =>
           if useExisting
           then SetApiKey "setVolcengineApiKey" apiKey (agentDir params)
                  (let configWithAuth :=
                     applyAuthProfileConfig (params_config params)
                       "volcengine:default" "volcengine" "api_key" in
                   let configWithModel :=
                     applyPrimaryModel configWithAuth VOLCENGINE_DEFAULT_MODEL in
                   Finish (Some (mkResult configWithModel VOLCENGINE_DEFAULT_MODEL)))
           else askKey)
  | None => askKey
  end.

End Choices.

Definition isStored (e : Event) : bool :=
  match e with
  | Stored _ _ _ => true
  | _ => false
  end.

Definition isEntered (e : Event) : bool :=
  match e with
  | Entered _ _ => true
  | _ => false
  end.

(** Collaborators for a run: a key in the environment, and a
    normalization that trims. *)
Definition sampleChoiceCollaborators : ChoiceCollaborators := {|
  OpenClawConfig := list string;
  resolveEnvApiKey := fun provider =>
    if String.eqb provider "byteplus" then Some ("bp-env-key", "shell env") else None;
  formatApiKeyPreview := fun key => "bp-e...";
  normalizeApiKeyInput := trim;
  validateApiKeyInput := fun key => if String.eqb (trim key) "" then Some "Required" else None;
  applyAuthProfileConfig := fun config profileId provider mode =>
    (config ++ [String.append "auth:" profileId])%list;
  applyPrimaryModel := fun config model =>
    (config ++ [String.append "model:" model])%list
|}.

(** The options carry an empty BytePlus key, and a Volcano Engine key. *)
Definition sampleChoiceParams (choice : string)
  : @ApplyAuthChoiceParams sampleChoiceCollaborators :=
  @mkParams sampleChoiceCollaborators choice ([] : list string)
    (VStr "/agents/main") (Some "") (Some " ve-key ").

(** * What a walk makes of its clone

    ** Objects laid out as a tree

    [shaped h v t F]: in the store [h] the value [v] is the root of a
    graph of objects that is a tree, without sharing, holding the plain
    data [t]; [F] is the set of its objects, its footprint.  This is how
    structuredClone lays out its result in this model. *)
Inductive parts {A B : Type} (R : A -> B -> gset loc -> Prop)
  : list A -> list B -> gset loc -> Prop :=
| parts_nil : parts R [] [] ∅
| parts_cons x y F1 xs ys F2 :
    R x y F1 -> parts R xs ys F2 -> F1 ## F2 ->
    parts R (x :: xs) (y :: ys) (F1 ∪ F2).

#[warnings="-register-all"]
Inductive shaped (h : Heap) : val -> tree -> gset loc -> Prop :=
| shaped_prim p : shaped h (VPrim p) (TPrim p) ∅
| shaped_obj l ps pts F :
    h !! l = Some (Obj ps) ->
    parts (fun kv kt F' => fst kv = fst kt /\ shaped h (snd kv) (snd kt) F')
      ps pts F ->
    l ∉ F ->
    shaped h (VRef l) (TObj pts) ({[l]} ∪ F)
| shaped_arr l xs ts F :
    h !! l = Some (Arr xs) ->
    parts (shaped h) xs ts F ->
    l ∉ F ->
    shaped h (VRef l) (TArr ts) ({[l]} ∪ F).

(** A property and the property of plain data it holds. *)
Definition keyed (h : Heap) (kv : string * val) (kt : string * tree)
    (F : gset loc) : Prop :=
  fst kv = fst kt /\ shaped h (snd kv) (snd kt) F.

(** The property [k] of an object, set to [x]. *)
Definition tset (t : tree) (k : string) (x : tree) : tree :=
  match t with
  | TObj pts => TObj (props_set k x pts)
  | _ => t
  end.

(** ** The value of a reference, as plain data *)

(** What decryptSopsFile returns for [config] in the store [h]: it reads
    the store and nothing else of the state. *)
Definition decryptOutcome `{Collaborators} (h : Heap) (config : val) : Result tree :=
  fst (decryptSopsFile config (mkState h [] [] VNull None None)).

(** The outcome of the decrypt a context works with: the one its cache
    slot holds, or else the one a decrypt started in the store [h]
    has. *)
Definition settledDecrypt `{Collaborators} (ctx : ResolverContext) (h : Heap)
  : Result tree :=
  match ctx_fileSecretsPromise ctx with
  | Some p => p
  | None => decryptOutcome h (ctx_config ctx)
  end.

(** isNonEmptyString on plain data. *)
Definition tisNonEmptyString (t : tree) : bool :=
  match t with
  | TPrim (PStr s) => negb (String.eqb (trim s) "")
  | _ => false
  end.

(** What resolveSecretRefValue makes of a reference, given the
    environment of the context and the outcome of its decrypt. *)
Definition referenceValue `{Collaborators} (env : gmap string string)
    (decrypted : Result tree) (ref : SecretRef) : Result tree :=
  let id := trim (ref_id ref) in
  if String.eqb id "" then Err InvalidReference else
  if String.eqb (ref_source ref) "env" then
    match env !! id with
    | Some str =>
        if negb (String.eqb (trim str) "") then Ok (TPrim (PStr str))
        else Err (MissingSecret id)
    | None => Err (MissingSecret id)
    end
  else if String.eqb (ref_source ref) "file" then
    match decrypted with
    | Ok payload =>
        match readJsonPointer payload id with
        | Some t => Ok t
        | None => Err (MissingSecret id)
        end
    | Err e => Err e
    end
  else Err (UnsupportedSource (ref_source ref)).

(** ** The state during a walk

    [walking s0 w context ctx decrypted s]: the state [s] of a walk that
    started in [s0] with the warnings array at [w] and the context
    [ctx]: the objects of [s0] other than the warnings array are as they
    were, the warnings array is an array, and the context has its config
    and its environment, with its cache slot as it was or holding
    [decrypted]. *)
Record walking (s0 : State) (w : loc) (context : nat) (ctx : ResolverContext)
    (decrypted : Result tree) (s : State) : Prop := {
  walking_len : length (heap s0) <= length (heap s);
  walking_old : forall l, l < length (heap s0) -> l <> w ->
                          heap s !! l = heap s0 !! l;
  walking_warnings : exists ws, heap s !! w = Some (Arr ws);
  walking_context :
    exists slot,
      contexts s !! context
      = Some (mkContext (ctx_config ctx) (ctx_env ctx) slot) /\
      (slot = ctx_fileSecretsPromise ctx \/ slot = Some decrypted)
}.

(** [warned w s s' F Wn]: from [s] to [s'] the warnings array at [w] has
    been given the objects [Wn], in this order and after what it held;
    they are new objects, and none is in the footprint [F]. *)
Definition warned (w : loc) (s s' : State) (F : gset loc) (Wn : list obj)
  : Prop :=
  exists ws ls,
    heap s !! w = Some (Arr ws) /\
    heap s' !! w = Some (Arr (ws ++ (VRef <$> ls))) /\
    Forall2 (fun l o => length (heap s) <= l /\ (l ∉ F) /\ heap s' !! l = Some o)
      ls Wn.

(** [stepped w s s' F Q Wn]: from [s] to [s'] the store has grown, and
    the objects of [s] outside the footprint [F], the warnings array
    apart, are as they were; [Q] holds of a footprint made of objects of
    [F] and of new ones; the warnings array has been given [Wn]. *)
Definition stepped (w : loc) (s s' : State) (F : gset loc)
    (Q : gset loc -> Prop) (Wn : list obj) : Prop :=
  length (heap s) <= length (heap s') /\
  (forall l, l < length (heap s) -> l ∉ F -> l <> w ->
             heap s' !! l = heap s !! l) /\
  exists F', Q F' /\ (forall l, l ∈ F' -> l ∈ F \/ length (heap s) <= l) /\
             warned w s s' F' Wn.

(** ** The walk on plain data *)

Fixpoint mapResult {A B} (f : A -> Result B) (xs : list A) : Result (list B) :=
  match xs with
  | [] => Ok []
  | x :: r =>
      match f x with
      | Ok y =>
          match mapResult f r with
          | Ok ys => Ok (y :: ys)
          | Err e => Err e
          end
      | Err e => Err e
      end
  end.

Section WalkOnTrees.
Context `{Collaborators}.
Variable resolve : SecretRef -> Result tree.

(** A provider entry: a reference in apiKey gives way to its value, which
    has to be a non-empty string. *)
Definition providerResolved (entry : string * tree) : Result (string * tree) :=
  match secretRefOfTree (tget (snd entry) "apiKey") with
  | None => Ok entry
  | Some ref =>
      match resolve ref with
      | Ok x =>
          if tisNonEmptyString x
          then Ok (fst entry, tset (snd entry) "apiKey" x)
          else Err (InvalidResolvedValue (fst entry))
      | Err e => Err e
      end
  end.

(** A Google Chat target: the reference in serviceAccountRef, or else the
    one in serviceAccount, gives serviceAccount its value. *)
Definition targetResolved (target : tree) : Result tree :=
  match (match secretRefOfTree (tget target "serviceAccountRef") with
         | Some r => Some r
         | None => secretRefOfTree (tget target "serviceAccount")
         end) with
  | None => Ok target
  | Some ref =>
      match resolve ref with
      | Ok x => Ok (tset target "serviceAccount" x)
      | Err e => Err e
      end
  end.

(** An entry of accounts: a target when it is a record. *)
Definition accountResolved (entry : string * tree) : Result (string * tree) :=
  if tisRecord (snd entry)
  then match targetResolved (snd entry) with
       | Ok x => Ok (fst entry, x)
       | Err e => Err e
       end
  else Ok entry.

(** The providers of the configuration, resolved in the order of their
    entries. *)
Definition providersResolved (t : tree) : Result tree :=
  let models := tget t "models" in
  let providers := tgetOpt models "providers" in
  if ttruthy providers
  then match mapResult providerResolved (tentries providers) with
       | Ok entries => Ok (tset t "models" (tset models "providers" (TObj entries)))
       | Err e => Err e
       end
  else Ok t.

(** The Google Chat entry, resolved, and then its accounts in the order
    of their entries. *)
Definition googleChatResolved (googleChat : tree) : Result tree :=
  match targetResolved googleChat with
  | Ok g =>
      let accounts := tget g "accounts" in
      if tisRecord accounts
      then match mapResult accountResolved (tentries accounts) with
           | Ok entries => Ok (tset g "accounts" (TObj entries))
           | Err e => Err e
           end
      else Ok g
  | Err e => Err e
  end.

Definition channelsResolved (t : tree) : Result tree :=
  let channels := tget t "channels" in
  let googleChat := tgetOpt channels "googlechat" in
  if ttruthy googleChat
  then match googleChatResolved googleChat with
       | Ok g => Ok (tset t "channels" (tset channels "googlechat" g))
       | Err e => Err e
       end
  else Ok t.

(** The configuration with its references resolved: first the providers,
    then Google Chat; the first failure is the outcome. *)
Definition configResolved (t : tree) : Result tree :=
  match providersResolved t with
  | Ok t1 => channelsResolved t1
  | Err e => Err e
  end.
End WalkOnTrees.

(** ** The warnings of the walk *)

Section WarningsOnTrees.
Context `{Collaborators}.

(** isUndefined on plain data. *)
Definition tisUndefined (t : tree) : bool :=
  match t with
  | TPrim PUndefined => true
  | _ => false
  end.

(** The target has a reference in serviceAccountRef, and a
    serviceAccount that is not undefined and is not a reference. *)
Definition targetOverrides (target : tree) : bool :=
  bool_decide (is_Some (secretRefOfTree (tget target "serviceAccountRef")))
  && negb (tisUndefined (tget target "serviceAccount"))
  && negb (bool_decide (is_Some (secretRefOfTree (tget target "serviceAccount")))).

(** What a target at [path] adds to the warnings. *)
Definition targetWarnings (target : string * tree) : list obj :=
  if targetOverrides (snd target)
  then [serviceAccountWarning (fst target)]
  else [].

(** The entries of accounts that are targets, each with its path. *)
Definition accountTarget (entry : string * tree) : list (string * tree) :=
  if tisRecord (snd entry)
  then [("channels.googlechat.accounts." +:+ fst entry, snd entry)]
  else [].

(** The targets of the walk, each with its path, in the order of the
    walk: the Google Chat entry, when there is one, then those of its
    accounts that are objects. *)
Definition entryTargets (googleChat : tree) : list (string * tree) :=
  ("channels.googlechat", googleChat)
  :: (if tisRecord (tget googleChat "accounts")
      then flat_map accountTarget (tentries (tget googleChat "accounts"))
      else []).

Definition googleChatTargets (t : tree) : list (string * tree) :=
  let googleChat := tgetOpt (tget t "channels") "googlechat" in
  if ttruthy googleChat then entryTargets googleChat else [].

(** The warnings of a walk of the configuration that fails nowhere. *)
Definition configWarnings (t : tree) : list obj :=
  flat_map targetWarnings (googleChatTargets t).
End WarningsOnTrees.

(** What the configuration type asks of the places the walk visits: the
    configuration is an object; when there are providers, models and
    providers are objects and so is every provider; when there is a
    Google Chat entry, channels and the entry are objects. *)
Definition providersTyped (t : tree) : bool :=
  let models := tget t "models" in
  let providers := tgetOpt models "providers" in
  if ttruthy providers
  then tisRecord models && tisRecord providers
       && forallb (fun e => tisRecord (snd e)) (tentries providers)
  else true.

Definition googleChatTyped (t : tree) : bool :=
  let channels := tget t "channels" in
  let googleChat := tgetOpt channels "googlechat" in
  if ttruthy googleChat
  then tisRecord channels && tisRecord googleChat
  else true.

Definition configTyped (t : tree) : bool :=
  tisRecord t && providersTyped t && googleChatTyped t.

(** ** The auth-store walk on plain data *)

Section StoreOnTrees.
Context `{Collaborators}.
Variable resolve : SecretRef -> Result tree.

(** A credential: a reference in [refField] gives [field] its value,
    which has to be a non-empty string. *)
Definition credentialResolved (profileId : string) (profile : tree)
    (field refField : string) : Result (string * tree) :=
  match secretRefOfTree (tget profile refField) with
  | None => Ok (profileId, profile)
  | Some ref =>
      match resolve ref with
      | Ok x =>
          if tisNonEmptyString x
          then Ok (profileId, tset profile field x)
          else Err (EmptyResolvedCredential profileId refField)
      | Err e => Err e
      end
  end.

(** A profile: key from keyRef for an api_key, token from tokenRef for a
    token, and nothing for any other type. *)
Definition profileResolved (entry : string * tree) : Result (string * tree) :=
  let ty := tget (snd entry) "type" in
  if tisString ty "api_key"
  then credentialResolved (fst entry) (snd entry) "key" "keyRef"
  else if tisString ty "token"
  then credentialResolved (fst entry) (snd entry) "token" "tokenRef"
  else Ok entry.

(** The store with its references resolved, in the order of the entries
    of profiles; the first failure is the outcome. *)
Definition storeResolved (t : tree) : Result tree :=
  match mapResult profileResolved (tentries (tget t "profiles")) with
  | Ok entries => Ok (tset t "profiles" (TObj entries))
  | Err e => Err e
  end.
End StoreOnTrees.

Section StoreWarningsOnTrees.
Context `{Collaborators}.

(** What a credential adds to the warnings: the warning of [field] when
    there is a reference in [refField] and [field] is a non-empty
    string. *)
Definition credentialWarnings (agentDir profileId : string) (profile : tree)
    (field refField : string) : list obj :=
  match secretRefOfTree (tget profile refField) with
  | Some _ =>
      if tisNonEmptyString (tget profile field)
      then [credentialWarning agentDir profileId field refField]
      else []
  | None => []
  end.

Definition profileWarnings (agentDir : string) (entry : string * tree)
  : list obj :=
  let ty := tget (snd entry) "type" in
  if tisString ty "api_key"
  then credentialWarnings agentDir (fst entry) (snd entry) "key" "keyRef"
  else if tisString ty "token"
  then credentialWarnings agentDir (fst entry) (snd entry) "token" "tokenRef"
  else [].

(** The warnings of a walk of a store that fails nowhere. *)
Definition storeWarnings (agentDir : string) (t : tree) : list obj :=
  flat_map (profileWarnings agentDir) (tentries (tget t "profiles")).
End StoreWarningsOnTrees.

(** What the store type asks of the places the walk visits: the store
    and its profiles are objects, and so is every profile. *)
Definition storeTyped (t : tree) : bool :=
  tisRecord t && tisRecord (tget t "profiles")
  && forallb (fun e => tisRecord (snd e)) (tentries (tget t "profiles")).

(** [e] is an object [{ agentDir: d, store }] whose store is shaped as
    the resolved store that was loaded for [d], out of objects other than
    the arrays at [a] and [w]. *)
Definition entryResolved (resolve : SecretRef -> Result tree)
    `{Collaborators} (loaded : string -> tree) (a w : loc) (h : Heap)
    (e : val) (d : string) : Prop :=
  exists l st t' F,
    e = VRef l /\
    h !! l = Some (Obj [("agentDir", VStr d); ("store", st)]) /\
    storeResolved resolve (loaded d) = Ok t' /\
    shaped h st t' F /\
    l <> a /\ l <> w /\ (a ∉ F) /\ (w ∉ F).

(** ** The two halves of resolveConfigSecretRefs *)

Section Halves.
Context `{Collaborators}.

Definition resolveProviders (resolved : val) (context : nat) : M unit :=
  let* models := getProp resolved "models" in
  let* providers := optChain models "providers" in
  if truthy providers
  then let* entries := objectEntries providers in
       forEach entries (resolveProviderApiKey context)
  else ret tt.

Definition resolveGoogleChatEntry (googleChat : val) (context : nat)
    (warnings : val) : M unit :=
  resolveGoogleChatServiceAccount googleChat "channels.googlechat"
    context warnings ;;
  let* accounts := getProp googleChat "accounts" in
  let* h := getHeap in
  if isRecord h accounts
  then let* entries := objectEntries accounts in
       forEach entries (resolveGoogleChatAccount context warnings)
  else ret tt.

Definition resolveGoogleChat (resolved : val) (context : nat) (warnings : val)
  : M unit :=
  let* channels := getProp resolved "channels" in
  let* googleChat := optChain channels "googlechat" in
  if truthy googleChat
  then resolveGoogleChatEntry googleChat context warnings
  else ret tt.

(** resolveAuthStoreSecretRefs, after its clone. *)
Definition resolveProfiles (resolvedStore : val) (context : nat)
    (warnings : val) (agentDir : string) : M unit :=
  let* profiles := getProp resolvedStore "profiles" in
  let* entries := objectEntries profiles in
  forEach entries (resolveProfile context warnings agentDir).
End Halves.

(** ** A configuration with references in every place the walk visits *)

Definition sampleWalkConfig : tree :=
  TObj [("models",
         TObj [("providers",
                TObj [("acme",
                       TObj [("apiKey", TObj [("source", TStr "env");
                                              ("id", TStr "ACME_KEY")])])])]);
        ("channels",
         TObj [("googlechat",
                TObj [("serviceAccountRef", TObj [("source", TStr "env");
                                                  ("id", TStr "ACME_KEY")]);
                      ("serviceAccount", TStr "inline-json");
                      ("accounts",
                       TObj [("ops",
                              TObj [("serviceAccount",
                                     TObj [("source", TStr "env");
                                           ("id", TStr " ACME_KEY ")])])])])])].

(** The configuration above with the values in place of the
    references. *)
Definition sampleWalkResolved : tree :=
  TObj [("models",
         TObj [("providers", TObj [("acme", TObj [("apiKey", TStr "secret123")])])]);
        ("channels",
         TObj [("googlechat",
                TObj [("serviceAccountRef", TObj [("source", TStr "env");
                                                  ("id", TStr "ACME_KEY")]);
                      ("serviceAccount", TStr "secret123");
                      ("accounts",
                       TObj [("ops", TObj [("serviceAccount", TStr "secret123")])])])])].


(** A store that holds the configuration (at 10) and an auth-profile
    store (at 14). *)
Definition sampleWalkPrepareState : State :=
  let '(_, h1) := materialize_tree sampleWalkConfig [] in
  let '(_, h2) := materialize_tree sampleStoreTree h1 in
  mkState h2 [] [] VNull None None.

(** ** A store with references of both sources *)

Definition sampleWalkStore : tree :=
  TObj [("version", TPrim (PNum (Finite 1)));
        ("profiles",
         TObj [("p1", TObj [("type", TStr "api_key");
                            ("key", TStr "plaintext");
                            ("keyRef", TObj [("source", TStr "env");
                                             ("id", TStr "ACME_KEY")])]);
               ("p2", TObj [("type", TStr "token");
                            ("tokenRef", TObj [("source", TStr "file");
                                               ("id", TStr "/providers/acme")])]);
               ("p3", TObj [("type", TStr "oauth");
                            ("keyRef", TObj [("source", TStr "env");
                                             ("id", TStr "ACME_KEY")])])])].

(** The store above with the values in place. *)
Definition sampleWalkStoreResolved : tree :=
  TObj [("version", TPrim (PNum (Finite 1)));
        ("profiles",
         TObj [("p1", TObj [("type", TStr "api_key");
                            ("key", TStr "secret123");
                            ("keyRef", TObj [("source", TStr "env");
                                             ("id", TStr "ACME_KEY")])]);
               ("p2", TObj [("type", TStr "token");
                            ("tokenRef", TObj [("source", TStr "file");
                                               ("id", TStr "/providers/acme")]);
                            ("token", TStr "file-secret")]);
               ("p3", TObj [("type", TStr "oauth");
                            ("keyRef", TObj [("source", TStr "env");
                                             ("id", TStr "ACME_KEY")])])])].

(** A store that holds a configuration with a file source (at 3), the
    auth-profile store above (at 11) and an empty warnings array (at
    12), with one context on the configuration. *)
Definition sampleWalkStoreState : State :=
  let '(c, h1) := materialize_tree sampleSopsConfig [] in
  let '(_, h2) := materialize_tree sampleWalkStore h1 in
  mkState (h2 ++ [Arr []]) [mkContext c sampleEnv None] [] VNull None None.

(** ** The auth stores of a snapshot, resolved *)

(** A configuration with a file source and a provider whose apiKey is a
    file-sourced reference. *)
Definition sampleFileConfig : tree :=
  TObj [("secrets",
         TObj [("sources",
                TObj [("file", TObj [("type", TStr "sops");
                                     ("path", TStr "/secrets.enc.json")])])]);
        ("models",
         TObj [("providers",
                TObj [("acme",
                       TObj [("apiKey", TObj [("source", TStr "file");
                                              ("id", TStr "/providers/acme")])])])])].

(** A store that holds the configuration above (at 7) and the
    auth-profile store with references of both sources (at 15). *)
Definition sampleStoresPrepareState : State :=
  let '(_, h1) := materialize_tree sampleFileConfig [] in
  let '(_, h2) := materialize_tree sampleWalkStore h1 in
  mkState h2 [] [] VNull None None.

(** ** The providers of a walk *)

Section ProvidersOnTrees.
Context `{Collaborators}.

(** The entries of [models.providers], in the order of the walk. *)
Definition providerEntries (t : tree) : list (string * tree) :=
  tentries (tgetOpt (tget t "models") "providers").

(** The provider gives the walk nothing to fail on: its apiKey is not a
    reference, or it is one whose value is a non-empty string. *)
Definition providerResolves (resolve : SecretRef -> Result tree)
    (provider : tree) : Prop :=
  match secretRefOfTree (tget provider "apiKey") with
  | Some ref => exists x, resolve ref = Ok x /\ tisNonEmptyString x = true
  | None => True
  end.
End ProvidersOnTrees.

(** A configuration with two providers: the apiKey of the first is a
    reference, the one of the second a plain string. *)
Definition sampleProvidersConfig : tree :=
  TObj [("models",
         TObj [("providers",
                TObj [("acme",
                       TObj [("apiKey", TObj [("source", TStr "env");
                                              ("id", TStr "ACME_KEY")]);
                             ("baseUrl", TStr "https://acme.example")]);
                      ("plain",
                       TObj [("apiKey", TStr "sk-plain")])])])].

(** A store that holds the configuration above (at 5) and an empty
    warnings array (at 6), with one context on the configuration. *)
Definition sampleProvidersState : State :=
  let '(v, h) := materialize_tree sampleProvidersConfig [] in
  mkState (h ++ [Arr []]) [mkContext v sampleEnv None] [] VNull None None.

(** ** The Google Chat targets of a walk *)

(** A configuration whose Google Chat entry has a reference in
    serviceAccountRef and another one, to a variable that is not set, in
    serviceAccount, and two accounts: one that is an object, with a
    reference in serviceAccountRef and a plain string in serviceAccount,
    and one that is a string. *)
Definition sampleChatConfig : tree :=
  TObj [("channels",
         TObj [("googlechat",
                TObj [("serviceAccountRef", TObj [("source", TStr "env");
                                                  ("id", TStr "ACME_KEY")]);
                      ("serviceAccount", TObj [("source", TStr "env");
                                               ("id", TStr "NOT_SET")]);
                      ("accounts",
                       TObj [("ops",
                              TObj [("serviceAccountRef",
                                     TObj [("source", TStr "env");
                                           ("id", TStr "ACME_KEY")]);
                                    ("serviceAccount", TStr "inline-json")]);
                             ("note", TStr "not an account")])])])].

(** The configuration above with the values in place. *)
Definition sampleChatResolved : tree :=
  TObj [("channels",
         TObj [("googlechat",
                TObj [("serviceAccountRef", TObj [("source", TStr "env");
                                                  ("id", TStr "ACME_KEY")]);
                      ("serviceAccount", TStr "secret123");
                      ("accounts",
                       TObj [("ops",
                              TObj [("serviceAccountRef",
                                     TObj [("source", TStr "env");
                                           ("id", TStr "ACME_KEY")]);
                                    ("serviceAccount", TStr "secret123")]);
                             ("note", TStr "not an account")])])])].

(** A store that holds the configuration above (at 7) and, after it, an
    empty warnings array (at 8), with one context on the
    configuration. *)
Definition sampleChatState : State :=
  let '(v, h) := materialize_tree sampleChatConfig [] in
  mkState (h ++ [Arr []]) [mkContext v sampleEnv None] [] VNull None None.

(** ** The profiles of a walk *)

Section ProfilesOnTrees.
Context `{Collaborators}.

(** The credential of a profile: the property that holds it and the one
    that holds its reference; none for a profile that is neither an
    api_key nor a token. *)
Definition credentialFields (profile : tree) : option (string * string) :=
  if tisString (tget profile "type") "api_key" then Some ("key", "keyRef")
  else if tisString (tget profile "type") "token" then Some ("token", "tokenRef")
  else None.

(** The profile has a reference for its credential, and a credential
    that is a non-empty string. *)
Definition profileOverrides (profile : tree) : bool :=
  match credentialFields profile with
  | Some (field, refField) =>
      bool_decide (is_Some (secretRefOfTree (tget profile refField)))
      && tisNonEmptyString (tget profile field)
  | None => false
  end.

(** The profile gives the walk nothing to fail on: it has no reference
    for its credential, or one whose value is a non-empty string. *)
Definition profileResolves (resolve : SecretRef -> Result tree)
    (profile : tree) : Prop :=
  match credentialFields profile with
  | Some (field, refField) =>
      match secretRefOfTree (tget profile refField) with
      | Some ref => exists x, resolve ref = Ok x /\ tisNonEmptyString x = true
      | None => True
      end
  | None => True
  end.
End ProfilesOnTrees.

(** * Properties *)

(** ** Strings *)

Lemma list_ascii_inj s1 s2 :
  list_ascii_of_string s1 = list_ascii_of_string s2 -> s1 = s2.
Proof.
  intros E. rewrite <- (string_of_list_ascii_of_string s1),
              <- (string_of_list_ascii_of_string s2). by rewrite E.
Qed.

Lemma string_of_list_empty l : string_of_list_ascii l = "" <-> l = [].
Proof. destruct l; simpl; split; done. Qed.

Lemma withoutPrefix_Some p s r : withoutPrefix p s = Some r <-> s = p ++ r.
Proof.
  revert s. induction p as [|a p IH]; intros s; simpl.
  - split; congruence.
  - destruct s as [|b s]; [split; done|].
    destruct (Ascii.eqb a b) eqn:E.
    + apply Ascii.eqb_eq in E as ->. rewrite IH. split; congruence.
    + apply Ascii.eqb_neq in E. split; [done|]. intros [= -> _]. done.
Qed.

Lemma skipOne_Some toks s r :
  skipOne toks s = Some r -> exists t, t ∈ toks /\ s = t ++ r.
Proof.
  induction toks as [|t toks IH]; simpl; [done|].
  destruct (withoutPrefix t s) as [r'|] eqn:E.
  - intros [= ->]. apply withoutPrefix_Some in E. exists t. split; [left|done].
  - intros E'. destruct (IH E') as (t' & Hin & ->). exists t'. split; [by right|done].
Qed.

Lemma skipOne_None toks s :
  skipOne toks s = None <-> forall t r, t ∈ toks -> s <> t ++ r.
Proof.
  induction toks as [|t toks IH]; simpl.
  - split; [|done]. intros _ t r Hin. by apply elem_of_nil in Hin.
  - destruct (withoutPrefix t s) as [r'|] eqn:E.
    + split; [done|]. intros Hno. apply withoutPrefix_Some in E.
      exfalso. apply (Hno t r'); [left|done].
    + rewrite IH. split.
      * intros Hno t' r Hin. apply elem_of_cons in Hin as [->|Hin]; [|by apply Hno].
        intros Hs. apply withoutPrefix_Some in Hs. congruence.
      * intros Hno t' r Hin. apply Hno. by right.
Qed.

(** What [strip] leaves starts with none of [toks], and what it took
    off is a run of them. *)
Lemma strip_spec toks n s :
  Forall (fun t => t <> []) toks -> length s <= n ->
  skipOne toks (strip toks n s) = None /\
  exists ws, Forall (fun w => w ∈ toks) ws /\ s = concat ws ++ strip toks n s.
Proof.
  intros Hne. revert s. induction n as [|n IH]; intros s Hn.
  - destruct s; [|simpl in Hn; lia]. simpl. split.
    + apply skipOne_None. intros t r Hin Hs.
      symmetry in Hs. apply app_eq_nil in Hs as [-> _].
      rewrite Forall_forall in Hne. by apply (Hne []).
    + by exists [].
  - simpl. destruct (skipOne toks s) as [r|] eqn:E.
    + destruct (skipOne_Some _ _ _ E) as (t & Hin & ->).
      assert (length r <= n) as Hr.
      { rewrite length_app in Hn. destruct t as [|a t]; [|simpl in Hn; lia].
        rewrite Forall_forall in Hne. by destruct (Hne [] Hin). }
      destruct (IH r Hr) as (Hclean & ws & Hws & Hs). split; [done|].
      exists (t :: ws). split; [by constructor|].
      simpl. rewrite <- app_assoc. by rewrite <- Hs.
    + split; [done|]. by exists [].
Qed.

Lemma strip_clean toks n s : skipOne toks s = None -> strip toks n s = s.
Proof. destruct n; simpl; [done|]. by intros ->. Qed.

Lemma prefixCode_spec toks :
  prefixCode toks = true ->
  Forall (fun t => t <> []) toks /\
  forall t1 t2 r1 r2, t1 ∈ toks -> t2 ∈ toks -> t1 ++ r1 = t2 ++ r2 -> t1 = t2.
Proof.
  unfold prefixCode. rewrite forallb_forall. intros Hall.
  assert (forall t1 t2 l, t1 ∈ toks -> t2 ∈ toks -> t2 = t1 ++ l -> l = []) as Hcut.
  { intros t1 t2 l H1 H2 E. apply list_elem_of_In in H1, H2.
    apply Hall in H1. apply andb_true_iff in H1 as [_ H1].
    rewrite forallb_forall in H1. specialize (H1 _ H2).
    apply withoutPrefix_Some in E. rewrite E in H1.
    by apply bool_decide_eq_true in H1. }
  split.
  - apply Forall_forall. intros t Hin. apply list_elem_of_In in Hin.
    apply Hall in Hin. apply andb_true_iff in Hin as [Hin _].
    apply negb_true_iff, bool_decide_eq_false in Hin. done.
  - intros t1 t2 r1 r2 H1 H2 E.
    apply app_eq_app in E as (l & [[-> _]|[-> _]]).
    + rewrite (Hcut t2 (t2 ++ l) l); [by rewrite app_nil_r|done..].
    + rewrite (Hcut t1 (t1 ++ l) l); [by rewrite app_nil_r|done..].
Qed.

(** Of a run of a prefix code, [strip] leaves nothing. *)
Lemma strip_run toks n s :
  prefixCode toks = true -> runOf toks s -> length s <= n -> strip toks n s = [].
Proof.
  intros Hcode (ws & Hws & ->). apply prefixCode_spec in Hcode as [Hne Hfree].
  revert n. induction Hws as [|w ws Hw Hws IH]; intros n Hn; simpl.
  { destruct n as [|n]; simpl; [done|].
    destruct (skipOne toks []) as [r|] eqn:E; [|done].
    apply skipOne_Some in E as (t & Hin & Hs).
    symmetry in Hs. apply app_eq_nil in Hs as [-> _].
    rewrite Forall_forall in Hne. by destruct (Hne [] Hin). }
  assert (w <> []) as Hwne. { rewrite Forall_forall in Hne. by apply Hne. }
  simpl in Hn. rewrite length_app in Hn.
  destruct n as [|n]; [destruct w; [done|simpl in Hn; lia]|]. simpl.
  destruct (skipOne toks (w ++ concat ws)) as [r|] eqn:E.
  - destruct (skipOne_Some _ _ _ E) as (t & Hin & Hs).
    assert (w = t) as <- by (by eapply Hfree).
    apply app_inv_head in Hs as <-. apply IH.
    destruct w; [done|simpl in Hn; lia].
  - exfalso. rewrite skipOne_None in E. by apply (E w (concat ws)).
Qed.

Lemma whiteSpace_code : prefixCode whiteSpace = true.
Proof. vm_compute. reflexivity. Qed.

Lemma whiteSpace_rev_code : prefixCode (map (@rev ascii) whiteSpace) = true.
Proof. vm_compute. reflexivity. Qed.

Lemma stripStart_spec s :
  skipOne whiteSpace (stripStart s) = None /\
  exists ws, Forall (fun w => w ∈ whiteSpace) ws /\ s = concat ws ++ stripStart s.
Proof.
  apply strip_spec; [|done]. apply prefixCode_spec, whiteSpace_code.
Qed.

Lemma stripEnd_spec s :
  skipOne (map (@rev ascii) whiteSpace) (rev (stripEnd s)) = None /\
  exists ws, Forall (fun w => w ∈ whiteSpace) ws /\ s = stripEnd s ++ concat ws.
Proof.
  unfold stripEnd. rewrite rev_involutive.
  destruct (strip_spec (map (@rev ascii) whiteSpace) (length s) (rev s)) as
    (Hclean & ws & Hws & Hs).
  { apply prefixCode_spec, whiteSpace_rev_code. }
  { by rewrite length_rev. }
  split; [done|].
  set (u := strip _ _ _) in *. clearbody u.
  apply (f_equal (@rev ascii)) in Hs. rewrite rev_involutive, rev_app_distr in Hs.
  subst s. clear Hclean. revert u. induction Hws as [|w ws Hw Hws IH]; intros u.
  - exists []. by split.
  - destruct (IH u) as (ws' & Hws' & E).
    apply list_elem_of_fmap in Hw as (w0 & -> & Hw0).
    exists (ws' ++ [w0]). split.
    + apply Forall_app. split; [done|]. by constructor.
    + f_equal. simpl. rewrite rev_app_distr, rev_involutive.
      apply app_inv_head in E. rewrite E, concat_app. simpl.
      by rewrite app_nil_r.
Qed.

(** A string that white space does not start has none to lose there. *)
Lemma stripStart_clean s : skipOne whiteSpace s = None -> stripStart s = s.
Proof. apply strip_clean. Qed.

Lemma stripEnd_clean s :
  skipOne (map (@rev ascii) whiteSpace) (rev s) = None -> stripEnd s = s.
Proof.
  intros Hs. unfold stripEnd. rewrite strip_clean by done. apply rev_involutive.
Qed.

(** Stripping the end leaves the start as it is. *)
Lemma stripEnd_start s :
  skipOne whiteSpace s = None -> skipOne whiteSpace (stripEnd s) = None.
Proof.
  intros Hs. destruct (stripEnd_spec s) as (_ & ws & _ & E).
  apply skipOne_None. intros t r Hin Hv. rewrite skipOne_None in Hs.
  apply (Hs t (r ++ concat ws) Hin). rewrite E at 1. rewrite Hv.
  by rewrite app_assoc.
Qed.

Lemma stripEnd_empty s : skipOne whiteSpace s = None -> stripEnd s = [] -> s = [].
Proof.
  intros Hs E. destruct (stripEnd_spec s) as (_ & ws & Hws & Es).
  rewrite E in Es. simpl in Es. destruct Hws as [|w ws Hw Hws]; [done|].
  exfalso. rewrite skipOne_None in Hs. by apply (Hs w (concat ws)).
Qed.

Lemma trimStart_ascii s :
  list_ascii_of_string (trimStart s) = stripStart (list_ascii_of_string s).
Proof. unfold trimStart. apply list_ascii_of_string_of_list_ascii. Qed.

Lemma trim_ascii s :
  list_ascii_of_string (trim s) = stripEnd (stripStart (list_ascii_of_string s)).
Proof.
  unfold trim, trimEnd. by rewrite list_ascii_of_string_of_list_ascii, trimStart_ascii.
Qed.

Lemma trimStart_empty_iff s : trimStart s = "" <-> whitespaceOnly s = true.
Proof. unfold whitespaceOnly. symmetry. apply String.eqb_eq. Qed.

Lemma trim_empty_iff s : trim s = "" <-> whitespaceOnly s = true.
Proof.
  rewrite <- trimStart_empty_iff. split; intros E.
  - apply (f_equal list_ascii_of_string) in E. rewrite trim_ascii in E. simpl in E.
    apply list_ascii_inj. rewrite trimStart_ascii. simpl.
    apply stripEnd_empty; [|done]. apply stripStart_spec.
  - unfold trim. by rewrite E.
Qed.

Lemma trim_eqb s : String.eqb (trim s) "" = whitespaceOnly s.
Proof.
  destruct (whitespaceOnly s) eqn:E.
  - apply String.eqb_eq. by apply trim_empty_iff.
  - apply String.eqb_neq. intros E'. apply trim_empty_iff in E'. congruence.
Qed.

(** The strings that are white space only are the runs of white space
    and line terminators. *)
Lemma whitespaceOnly_run s :
  whitespaceOnly s = true <-> runOf whiteSpace (list_ascii_of_string s).
Proof.
  rewrite <- trimStart_empty_iff. unfold trimStart.
  rewrite string_of_list_empty. split.
  - intros E. destruct (stripStart_spec (list_ascii_of_string s)) as (_ & ws & Hws & Es).
    exists ws. split; [done|]. rewrite E, app_nil_r in Es. done.
  - intros Hrun. by apply strip_run; [apply whiteSpace_code|..].
Qed.

(** Trimming twice is trimming once. *)
Lemma trim_idemp s : trim (trim s) = trim s.
Proof.
  apply list_ascii_inj. rewrite trim_ascii, (trim_ascii s).
  set (u := stripStart (list_ascii_of_string s)).
  assert (skipOne whiteSpace u = None) as Hu by apply stripStart_spec.
  rewrite (stripStart_clean (stripEnd u)) by by apply stripEnd_start.
  apply stripEnd_clean, stripEnd_spec.
Qed.

Section Resolver.
Context `{Collaborators}.

Lemma isNonEmptyString_str v : isNonEmptyString (VStr v) = negb (whitespaceOnly v).
Proof. simpl. by rewrite trim_eqb. Qed.

Lemma resolve_blank_id (ref : SecretRef) (context : nat) (s : State) :
  trim (ref_id ref) = "" ->
  resolveSecretRefValue ref context s = (Err InvalidReference, s).
Proof. intros E. unfold resolveSecretRefValue. by rewrite E. Qed.

Lemma resolve_env_set (ref : SecretRef) (context : nat)
    (ctx : ResolverContext) (s : State) (v : string) :
  ref_source ref = "env" ->
  contexts s !! context = Some ctx ->
  trim (ref_id ref) <> "" ->
  ctx_env ctx !! trim (ref_id ref) = Some v ->
  whitespaceOnly v = false ->
  resolveSecretRefValue ref context s = (Ok (VStr v), s).
Proof.
  intros Hsrc Hctx Hid Hv Hws. unfold resolveSecretRefValue. rewrite Hsrc. simpl.
  apply String.eqb_neq in Hid. rewrite Hid.
  unfold bind, getContext. rewrite Hctx. unfold envLookup. rewrite Hv.
  rewrite isNonEmptyString_str, Hws. done.
Qed.

(** C1: a reference with source "env" whose id trims to the empty string
    fails with InvalidReference; otherwise, when the variable named by the
    trimmed id is absent, empty or made of white space only, it fails with
    MissingSecret; otherwise the resolution returns the variable's raw,
    untrimmed value.  The state is left as it was in all three cases. *)
Theorem resolve_env_reference (ref : SecretRef) (context : nat)
    (ctx : ResolverContext) (s : State) :
  ref_source ref = "env" ->
  contexts s !! context = Some ctx ->
  (trim (ref_id ref) = "" ->
   resolveSecretRefValue ref context s = (Err InvalidReference, s)) /\
  (trim (ref_id ref) <> "" ->
   (ctx_env ctx !! trim (ref_id ref) = None \/
    exists v, ctx_env ctx !! trim (ref_id ref) = Some v /\
              (v = "" \/ whitespaceOnly v = true)) ->
   resolveSecretRefValue ref context s
   = (Err (MissingSecret (trim (ref_id ref))), s)) /\
  (trim (ref_id ref) <> "" ->
   forall v, ctx_env ctx !! trim (ref_id ref) = Some v ->
             whitespaceOnly v = false ->
             resolveSecretRefValue ref context s = (Ok (VStr v), s)).
Proof.
  intros Hsrc Hctx. split; [|split].
  - apply resolve_blank_id.
  - intros Hid Henv. unfold resolveSecretRefValue. rewrite Hsrc. simpl.
    apply String.eqb_neq in Hid. rewrite Hid.
    unfold bind, getContext. rewrite Hctx. unfold envLookup.
    destruct Henv as [-> | (v & -> & Hv)]; [done|].
    rewrite isNonEmptyString_str.
    destruct Hv as [-> | ->]; done.
  - intros Hid v Hv Hws. by eapply resolve_env_set.
Qed.

(** C10: a reference whose id trims to the empty string fails with
    InvalidReference whatever its source is, and the state is left as it
    was: no decrypt is started, nothing is stored in the context, and the
    source is never looked at. *)
Theorem empty_id_rejected_first (ref : SecretRef) (context : nat) (s : State) :
  trim (ref_id ref) = "" ->
  resolveSecretRefValue ref context s = (Err InvalidReference, s).
Proof. apply resolve_blank_id. Qed.

End Resolver.

(** ** The object store *)

Lemma tree_ind' (P : tree -> Prop) :
  (forall p, P (TPrim p)) ->
  (forall ps, Forall (fun kt => P (snd kt)) ps -> P (TObj ps)) ->
  (forall xs, Forall P xs -> P (TArr xs)) ->
  forall t, P t.
Proof.
  intros Hp Ho Ha. fix IH 1. intros [p|ps|xs].
  - apply Hp.
  - apply Ho. induction ps as [|[k t] ps IHps]; constructor; [apply IH|apply IHps].
  - apply Ha. induction xs as [|t xs IHxs]; constructor; [apply IH|apply IHxs].
Qed.

Lemma fresh_le n m v : n <= m -> fresh m v -> fresh n v.
Proof. destruct v; simpl; [done|lia]. Qed.

Lemma readback_app n h ext v t :
  readback n h v = Some t -> readback n (h ++ ext) v = Some t.
Proof.
  revert v t. induction n as [|n IH]; intros [p|l] t; simpl; try done.
  destruct (h !! l) as [o|] eqn:E; [|done].
  rewrite (lookup_app_l_Some _ _ _ _ E).
  destruct o as [ps|xs].
  - destruct (mapM _ ps) as [pts|] eqn:Em; [|done]. intros [= <-].
    apply mapM_Some in Em.
    assert (mapM (fun kv => pair kv.1 <$> readback n (h ++ ext) kv.2) ps = Some pts) as ->; [|done].
    apply mapM_Some. eapply Forall2_impl; [exact Em|].
    intros [k v] [k' t'] Hx. simpl in *.
    destruct (readback n h v) eqn:Er; [|done]. by rewrite (IH _ _ Er).
  - destruct (mapM _ xs) as [ts|] eqn:Em; [|done]. intros [= <-].
    apply mapM_Some in Em.
    assert (mapM (readback n (h ++ ext)) xs = Some ts) as ->; [|done].
    apply mapM_Some. eapply Forall2_impl; [exact Em|]. intros v t' Hx. by apply IH.
Qed.

Lemma readback_S n h v t : readback n h v = Some t -> readback (S n) h v = Some t.
Proof.
  revert v t. induction n as [|n IH]; intros [p|l] t; try done.
  change (readback (S n) h (VRef l)) with
    (match h !! l with
     | Some (Obj ps) => TObj <$> mapM (fun kv => pair kv.1 <$> readback n h kv.2) ps
     | Some (Arr xs) => TArr <$> mapM (readback n h) xs
     | None => None end).
  change (readback (S (S n)) h (VRef l)) with
    (match h !! l with
     | Some (Obj ps) => TObj <$> mapM (fun kv => pair kv.1 <$> readback (S n) h kv.2) ps
     | Some (Arr xs) => TArr <$> mapM (readback (S n) h) xs
     | None => None end).
  destruct (h !! l) as [[ps|xs]|]; [| |done].
  - destruct (mapM _ ps) as [pts|] eqn:Em; [|done]. intros [= <-].
    apply mapM_Some in Em.
    assert (mapM (fun kv => pair kv.1 <$> readback (S n) h kv.2) ps = Some pts) as ->; [|done].
    apply mapM_Some. eapply Forall2_impl; [exact Em|].
    intros [k v] [k' t'] Hx. simpl in Hx.
    destruct (readback n h v) eqn:Er; [|done]. cbn [fst snd]. by rewrite (IH _ _ Er).
  - destruct (mapM _ xs) as [ts|] eqn:Em; [|done]. intros [= <-].
    apply mapM_Some in Em.
    assert (mapM (readback (S n) h) xs = Some ts) as ->; [|done].
    apply mapM_Some. eapply Forall2_impl; [exact Em|]. intros v t' Hx. by apply IH.
Qed.

Lemma readback_mono n m h v t : n <= m -> readback n h v = Some t -> readback m h v = Some t.
Proof. induction 1; [done|]. intros. apply readback_S. auto. Qed.

Lemma cells_fresh_le n m cells : n <= m -> cells_fresh m cells -> cells_fresh n cells.
Proof.
  intros Hle Hc. unfold cells_fresh. eapply Forall_impl; [exact Hc|].
  intros o Ho. eapply Forall_impl; [exact Ho|]. intros v. by apply fresh_le.
Qed.

Lemma cells_fresh_app n c1 c2 :
  cells_fresh n c1 -> cells_fresh n c2 -> cells_fresh n (c1 ++ c2).
Proof. unfold cells_fresh. intros. by apply Forall_app. Qed.

Lemma Forall2_flip_with {A B} (R : A -> B -> Prop) (P : A -> Prop)
    (Q : B -> A -> Prop) xs ys :
  Forall2 R xs ys -> Forall P xs ->
  (forall x y, R x y -> P x -> Q y x) -> Forall2 Q ys xs.
Proof.
  intros HR HP HQ. induction HR; inversion HP; subst; constructor; auto.
Qed.

Section AllocEach.
Context {A B : Type} (f : A -> Heap -> B * Heap).
Context (R : Heap -> A -> B -> Prop) (proj : B -> val).
Hypothesis R_app : forall h ext x y, R h x y -> R (h ++ ext) x y.

Lemma allocEach_spec xs :
  Forall (fun x => forall h y h', f x h = (y, h') ->
            exists ext, h' = h ++ ext /\ cells_fresh (length h) ext /\
                        fresh (length h) (proj y) /\ R h' x y) xs ->
  forall h ys h', allocEach f xs h = (ys, h') ->
    exists ext, h' = h ++ ext /\ cells_fresh (length h) ext /\
                Forall (fun y => fresh (length h) (proj y)) ys /\
                Forall2 (R h') xs ys.
Proof.
  induction 1 as [|x xs Hx _ IH]; intros h ys h' E; simpl in E.
  - injection E as <- <-. exists []. rewrite app_nil_r. repeat split; constructor.
  - destruct (f x h) as [y h1] eqn:E1.
    destruct (allocEach f xs h1) as [ys' h2] eqn:E2.
    injection E as <- <-.
    destruct (Hx _ _ _ E1) as (ext1 & -> & Hc1 & Hf1 & HR1).
    destruct (IH _ _ _ E2) as (ext2 & -> & Hc2 & Hf2 & HR2).
    exists (ext1 ++ ext2). rewrite app_assoc. split; [done|].
    assert (length h <= length (h ++ ext1)) by (rewrite length_app; lia).
    split; [|split].
    + apply cells_fresh_app; [done|]. by eapply cells_fresh_le.
    + constructor; [done|]. eapply Forall_impl; [exact Hf2|].
      intros y'. by apply fresh_le.
    + constructor; [by apply R_app|done].
Qed.
End AllocEach.

Lemma list_max_bound {A} (f : A -> nat) xs n :
  list_max (f <$> xs) <= n -> Forall (fun x => f x <= n) xs.
Proof.
  induction xs as [|x xs IH]; intros Hm; [constructor|].
  rewrite fmap_cons in Hm.
  change (Nat.max (f x) (list_max (f <$> xs)) <= n) in Hm.
  constructor; [lia|]. apply IH. lia.
Qed.

Lemma list_max_bounded {A} (f : A -> nat) xs n :
  Forall (fun x => f x <= n) xs -> list_max (f <$> xs) <= n.
Proof.
  induction 1 as [|x xs Hx _ IH]; [cbn; lia|].
  rewrite fmap_cons.
  change (Nat.max (f x) (list_max (f <$> xs)) <= n). lia.
Qed.

Lemma readback_ref n h l :
  readback (S n) h (VRef l) =
  match h !! l with
  | Some (Obj ps) => TObj <$> mapM (fun kv => pair (fst kv) <$> readback n h (snd kv)) ps
  | Some (Arr xs) => TArr <$> mapM (readback n h) xs
  | None => None
  end.
Proof. reflexivity. Qed.

Lemma materialize_tree_spec t :
  forall h v h', materialize_tree t h = (v, h') ->
    exists ext, h' = h ++ ext /\ cells_fresh (length h) ext /\
                fresh (length h) v /\
                (forall n, depth t <= n -> readback n h' v = Some t).
Proof.
  induction t as [p|ps IH|xs IH] using tree_ind'; intros h v h' E; simpl in E.
  - injection E as <- <-. exists []. rewrite app_nil_r.
    repeat split; [constructor|]. by intros [|n].
  - destruct (allocEach _ ps h) as [vs h1] eqn:E1. injection E as <- <-.
    eapply (allocEach_spec _
              (fun h kt kv => fst kv = fst kt /\
                 forall n, depth (snd kt) <= n -> readback n h (snd kv) = Some (snd kt))
              snd) in E1 as (ext & -> & Hc & Hf & HR).
    + exists (ext ++ [Obj vs]). rewrite app_assoc. split; [done|].
      split; [|split].
      * apply cells_fresh_app; [done|]. constructor; [|constructor].
        simpl. by apply Forall_fmap.
      * simpl. rewrite length_app. lia.
      * intros [|n] Hd; simpl in Hd; [lia|]. rewrite readback_ref.
        rewrite list_lookup_middle; [|done].
        assert (mapM (fun kv => pair kv.1 <$> readback n ((h ++ ext) ++ [Obj vs]) kv.2) vs
                = Some ps) as ->; [|done].
        apply mapM_Some.
        assert (Forall (fun kt => depth (snd kt) <= n) ps) as Hdp
          by (apply list_max_bound; lia).
        eapply Forall2_flip_with; [exact HR|exact Hdp|].
        intros [k t'] [k' v'] [Hk Hr] Hd'. simpl in *. subst k'.
        rewrite (readback_app _ _ [Obj vs] _ _ (Hr n Hd')). done.
    + intros h0 ext x y [Hk Hr]. split; [done|]. intros n Hn. by apply readback_app, Hr.
    + eapply Forall_impl; [exact IH|]. intros [k t'] IHt h0 [k' v'] h0' E0. simpl in *.
      destruct (materialize_tree t' h0) as [v0 h1'] eqn:Em. injection E0 as <- <- <-.
      destruct (IHt _ _ _ Em) as (ext & -> & ? & ? & ?). exists ext. done.
  - destruct (allocEach _ xs h) as [vs h1] eqn:E1. injection E as <- <-.
    eapply (allocEach_spec _
              (fun h t' v' => forall n, depth t' <= n -> readback n h v' = Some t')
              id) in E1 as (ext & -> & Hc & Hf & HR).
    + exists (ext ++ [Arr vs]). rewrite app_assoc. split; [done|].
      split; [|split].
      * apply cells_fresh_app; [done|]. constructor; [|constructor]. done.
      * simpl. rewrite length_app. lia.
      * intros [|n] Hd; simpl in Hd; [lia|]. rewrite readback_ref.
        rewrite list_lookup_middle; [|done].
        assert (mapM (readback n ((h ++ ext) ++ [Arr vs])) vs = Some xs) as ->; [|done].
        apply mapM_Some.
        assert (Forall (fun t' => depth t' <= n) xs) as Hdp
          by (apply list_max_bound; lia).
        eapply Forall2_flip_with; [exact HR|exact Hdp|].
        intros t' v' Hr Hd'. simpl in *. by apply readback_app, Hr.
    + intros h0 ext x y Hr n Hn. by apply readback_app, Hr.
    + eapply Forall_impl; [exact IH|]. intros t' IHt h0 v' h0' E0.
      destruct (IHt _ _ _ E0) as (ext & -> & ? & ? & ?). exists ext. done.
Qed.


Lemma readback_depth n h v t : readback n h v = Some t -> depth t <= n.
Proof.
  revert v t. induction n as [|n IH]; intros [p|l] t; try done.
  - intros [= <-]. simpl. lia.
  - intros [= <-]. simpl. lia.
  - rewrite readback_ref. destruct (h !! l) as [[ps|xs]|]; [| |done].
    + destruct (mapM _ ps) as [pts|] eqn:Em; [|done]. intros [= <-].
      apply mapM_Some in Em. simpl. apply le_n_S. apply list_max_bounded.
      clear -Em IH. induction Em as [|[k v] [k' t'] ps pts Hx _ IHf]; constructor; [|done].
      simpl in *. destruct (readback n h v) eqn:Er; [|done]. injection Hx as <- <-.
      by eapply IH.
    + destruct (mapM _ xs) as [ts|] eqn:Em; [|done]. intros [= <-].
      apply mapM_Some in Em. simpl. apply le_n_S. apply list_max_bounded.
      clear -Em IH. induction Em as [|v t' xs ts Hx _ IHf]; constructor; [|done].
      by eapply IH.
Qed.

(** ** The file source and its single decrypt *)

Section FileSource.
Context `{Collaborators}.

Lemma decryptSopsFile_effect config s r s' :
  decryptSopsFile config s = (r, s') ->
  s' = s \/ exists c, s' = with_sopsCalls (sopsCalls s ++ [c]) s.
Proof.
  unfold decryptSopsFile, bind, getProp, optChain, throw, ret, callDecryptSopsJsonFile.
  intros E. repeat case_match; simplify_eq; eauto.
Qed.

Lemma decryptSopsFile_not_configured config s fs :
  configuredFileSource (heap s) config = Ok fs ->
  truthy fs = false ->
  decryptSopsFile config s = (Err NotConfigured, s).
Proof.
  unfold configuredFileSource, decryptSopsFile, bind, getProp, optChain, throw.
  intros E Hf.
  destruct (readProp (heap s) config "secrets") as [secrets|e]; [|done].
  destruct (readOptProp (heap s) secrets "sources") as [sources|e]; [|done].
  rewrite E, Hf. done.
Qed.

Lemma decryptSopsFile_unsupported_type config s fs ty :
  configuredFileSource (heap s) config = Ok fs ->
  truthy fs = true ->
  readProp (heap s) fs "type" = Ok ty ->
  isString ty "sops" = false ->
  decryptSopsFile config s = (Err (UnsupportedSourceType ty), s).
Proof.
  unfold configuredFileSource, decryptSopsFile, bind, getProp, optChain, throw.
  intros E Ht Hty Hne.
  destruct (readProp (heap s) config "secrets") as [secrets|e]; [|done].
  destruct (readOptProp (heap s) secrets "sources") as [sources|e]; [|done].
  rewrite E, Ht. simpl. rewrite Hty, Hne. done.
Qed.

Lemma resolve_file_unfold ref context ctx s :
  ref_source ref = "file" ->
  trim (ref_id ref) <> "" ->
  contexts s !! context = Some ctx ->
  resolveSecretRefValue ref context s =
  match ctx_fileSecretsPromise ctx with
  | Some p => lookupInPayload p (trim (ref_id ref)) s
  | None =>
      let '(r, s1) := decryptSopsFile (ctx_config ctx) s in
      match contexts s1 !! context with
      | Some c1 =>
          lookupInPayload r (trim (ref_id ref))
            (with_contexts (<[context := withPromise c1 r]> (contexts s1)) s1)
      | None => (Err TypeError, s1)
      end
  end.
Proof.
  intros Hsrc Hid Hctx. unfold resolveSecretRefValue.
  apply String.eqb_neq in Hid. rewrite Hid, Hsrc. simpl.
  unfold bind at 1. unfold getContext at 1. rewrite Hctx.
  destruct (ctx_fileSecretsPromise ctx) as [p|]; [done|].
  unfold bind, async, setFileSecretsPromise, ret, lookupInPayload, bind.
  destruct (decryptSopsFile (ctx_config ctx) s) as [r s1].
  destruct (contexts s1 !! context); done.
Qed.

Lemma lookupInPayload_effect p id s r s' :
  lookupInPayload p id s = (r, s') ->
  contexts s' = contexts s /\ sopsCalls s' = sopsCalls s.
Proof.
  unfold lookupInPayload, bind, await, materialize, throw.
  intros E. destruct p as [payload|e]; [|by simplify_eq].
  destruct (readJsonPointer payload id); [|by simplify_eq].
  destruct (materialize_tree t (heap s)). by simplify_eq.
Qed.

Lemma resolve_file_first ref context ctx s r s1 :
  ref_source ref = "file" ->
  trim (ref_id ref) <> "" ->
  contexts s !! context = Some ctx ->
  ctx_fileSecretsPromise ctx = None ->
  decryptSopsFile (ctx_config ctx) s = (r, s1) ->
  resolveSecretRefValue ref context s =
  lookupInPayload r (trim (ref_id ref))
    (with_contexts (<[context := withPromise ctx r]> (contexts s)) s1).
Proof.
  intros Hsrc Hid Hctx Hslot Hd.
  rewrite (resolve_file_unfold _ _ _ _ Hsrc Hid Hctx), Hslot, Hd.
  destruct (decryptSopsFile_effect _ _ _ _ Hd) as [-> | [c ->]]; simpl;
    by rewrite Hctx.
Qed.

Lemma resolve_file_cached ref context ctx s p :
  ref_source ref = "file" ->
  trim (ref_id ref) <> "" ->
  contexts s !! context = Some ctx ->
  ctx_fileSecretsPromise ctx = Some p ->
  resolveSecretRefValue ref context s = lookupInPayload p (trim (ref_id ref)) s.
Proof.
  intros Hsrc Hid Hctx Hslot.
  by rewrite (resolve_file_unfold _ _ _ _ Hsrc Hid Hctx), Hslot.
Qed.

(** A resolution that does not take the file branch leaves the state as
    it is. *)
Lemma resolve_other_effect ref context s :
  trim (ref_id ref) = "" \/ ref_source ref <> "file" ->
  snd (resolveSecretRefValue ref context s) = s.
Proof.
  intros Hc. unfold resolveSecretRefValue.
  destruct (String.eqb (trim (ref_id ref)) "") eqn:Eid; [done|].
  destruct Hc as [Hc|Hc]; [apply String.eqb_neq in Eid; done|].
  destruct (String.eqb (ref_source ref) "env") eqn:Eenv.
  - unfold bind, getContext. destruct (contexts s !! context); [|done].
    by destruct (negb _).
  - apply String.eqb_neq in Hc. rewrite Hc. done.
Qed.

(** The effect of one resolution on the cache slot and on the trace of
    decrypt invocations. *)
Lemma resolve_effect ref context ctx s :
  contexts s !! context = Some ctx ->
  let s' := snd (resolveSecretRefValue ref context s) in
  (contexts s' = contexts s /\ sopsCalls s' = sopsCalls s) \/
  (ctx_fileSecretsPromise ctx = None /\
   exists p calls,
     contexts s' = <[context := withPromise ctx p]> (contexts s) /\
     sopsCalls s' = sopsCalls s ++ calls /\ length calls <= 1).
Proof.
  intros Hctx s'. subst s'.
  destruct (decide (trim (ref_id ref) = "")) as [Hid|Hid].
  { left. rewrite resolve_other_effect; [done|by left]. }
  destruct (decide (ref_source ref = "file")) as [Hsrc|Hsrc].
  2:{ left. rewrite resolve_other_effect; [done|by right]. }
  destruct (ctx_fileSecretsPromise ctx) as [p|] eqn:Hslot.
  - left. rewrite (resolve_file_cached _ _ _ _ _ Hsrc Hid Hctx Hslot).
    destruct (lookupInPayload p (trim (ref_id ref)) s) as [r s'] eqn:E.
    by apply lookupInPayload_effect in E.
  - right. split; [done|].
    destruct (decryptSopsFile (ctx_config ctx) s) as [r s1] eqn:Hd.
    rewrite (resolve_file_first _ _ _ _ _ _ Hsrc Hid Hctx Hslot Hd).
    destruct (lookupInPayload r _ _) as [x s'] eqn:E.
    apply lookupInPayload_effect in E as [Ec Es]. simpl in *.
    exists r. destruct (decryptSopsFile_effect _ _ _ _ Hd) as [-> | [c ->]].
    + exists []. rewrite app_nil_r. split_and!; [done..|simpl; lia].
    + exists [c]. split_and!; [done..|simpl; lia].
Qed.

Lemma resolve_effect_cached ref context ctx s p :
  contexts s !! context = Some ctx ->
  ctx_fileSecretsPromise ctx = Some p ->
  let s' := snd (resolveSecretRefValue ref context s) in
  contexts s' = contexts s /\ sopsCalls s' = sopsCalls s.
Proof.
  intros Hctx Hslot s'.
  destruct (resolve_effect ref context ctx s Hctx) as [?|[? _]]; [done|congruence].
Qed.

Lemma resolveSequence_cached refs context ctx s p :
  contexts s !! context = Some ctx ->
  ctx_fileSecretsPromise ctx = Some p ->
  let s' := snd (resolveSequence refs context s) in
  contexts s' = contexts s /\ sopsCalls s' = sopsCalls s.
Proof.
  revert s. induction refs as [|r refs IH]; intros s Hctx Hslot; [done|].
  simpl. destruct (resolveSecretRefValue r context s) as [x s1] eqn:E1.
  destruct (resolveSequence refs context s1) as [xs s2] eqn:E2. simpl.
  destruct (resolve_effect_cached r context ctx s p Hctx Hslot) as [Hc Hs].
  rewrite E1 in Hc, Hs. simpl in Hc, Hs.
  specialize (IH s1). rewrite E2, Hc in IH. simpl in IH.
  destruct (IH Hctx Hslot) as [Hc' Hs']. split; congruence.
Qed.

Lemma resolveSequence_effect refs context ctx s :
  contexts s !! context = Some ctx ->
  let s' := snd (resolveSequence refs context s) in
  exists calls,
    sopsCalls s' = sopsCalls s ++ calls /\ length calls <= 1 /\
    (is_Some (ctx_fileSecretsPromise ctx) -> calls = []).
Proof.
  revert s. induction refs as [|r refs IH]; intros s Hctx.
  { exists []. simpl. rewrite app_nil_r. split_and!; [done|lia|done]. }
  simpl. destruct (resolveSecretRefValue r context s) as [x s1] eqn:E1.
  destruct (resolveSequence refs context s1) as [xs s2] eqn:E2. simpl.
  pose proof (resolve_effect r context ctx s Hctx) as He.
  rewrite E1 in He. simpl in He.
  destruct He as [[Hc Hs]|(Hslot & p & calls & Hc & Hs & Hlen)].
  - specialize (IH s1). rewrite E2, Hc in IH. simpl in IH.
    destruct (IH Hctx) as (calls & Hs' & Hlen & Hnone).
    exists calls. split; [congruence|done].
  - assert (contexts s1 !! context = Some (withPromise ctx p)) as Hctx1.
    { rewrite Hc. apply list_lookup_insert_eq. by eapply lookup_lt_Some. }
    pose proof (resolveSequence_cached refs context _ s1 p Hctx1 eq_refl) as Hk.
    rewrite E2 in Hk. simpl in Hk. destruct Hk as [_ Hs2].
    exists calls. split; [congruence|]. split; [done|].
    rewrite Hslot. by intros [? ?].
Qed.

(** C9: with a fresh cache slot (or one that holds the failure in
    question), a file-sourced reference with a non-empty trimmed id fails
    with NotConfigured when [secrets.sources.file] is not configured, and
    with UnsupportedSourceType when its type is not "sops"; the trace of
    decrypt invocations and the object store are left as they were. *)
Theorem file_source_must_be_configured (ref : SecretRef) (context : nat)
    (ctx : ResolverContext) (s : State) (fs : val) :
  ref_source ref = "file" ->
  trim (ref_id ref) <> "" ->
  contexts s !! context = Some ctx ->
  configuredFileSource (heap s) (ctx_config ctx) = Ok fs ->
  (truthy fs = false ->
   ctx_fileSecretsPromise ctx = None \/
   ctx_fileSecretsPromise ctx = Some (Err NotConfigured) ->
   exists s', resolveSecretRefValue ref context s = (Err NotConfigured, s') /\
              sopsCalls s' = sopsCalls s /\ heap s' = heap s) /\
  (truthy fs = true ->
   forall ty, readProp (heap s) fs "type" = Ok ty ->
              isString ty "sops" = false ->
              ctx_fileSecretsPromise ctx = None \/
              ctx_fileSecretsPromise ctx = Some (Err (UnsupportedSourceType ty)) ->
   exists s', resolveSecretRefValue ref context s
              = (Err (UnsupportedSourceType ty), s') /\
              sopsCalls s' = sopsCalls s /\ heap s' = heap s).
Proof.
  intros Hsrc Hid Hctx Hfs. split.
  - intros Hf [Hslot|Hslot].
    + pose proof (decryptSopsFile_not_configured _ _ _ Hfs Hf) as Hd.
      rewrite (resolve_file_first _ _ _ _ _ _ Hsrc Hid Hctx Hslot Hd).
      eexists. split; [reflexivity|done].
    + rewrite (resolve_file_cached _ _ _ _ _ Hsrc Hid Hctx Hslot).
      eexists. split; [reflexivity|done].
  - intros Ht ty Hty Hne [Hslot|Hslot].
    + pose proof (decryptSopsFile_unsupported_type _ _ _ _ Hfs Ht Hty Hne) as Hd.
      rewrite (resolve_file_first _ _ _ _ _ _ Hsrc Hid Hctx Hslot Hd).
      eexists. split; [reflexivity|done].
    + rewrite (resolve_file_cached _ _ _ _ _ Hsrc Hid Hctx Hslot).
      eexists. split; [reflexivity|done].
Qed.

(** C2, as amended: in a context, any sequence of resolutions adds at most
    one invocation to the trace of decrypts, and none when the cache slot
    is already filled.  A file-sourced resolution with a non-blank id that
    finds the slot empty runs decryptSopsFile once and stores its outcome
    in the slot; one that finds the slot filled reuses the stored outcome,
    failure or payload, and leaves slot and trace as they were.  A
    resolution whose id is blank fails and changes nothing. *)
Theorem single_flight_decrypt (context : nat) (ctx : ResolverContext) (s : State) :
  contexts s !! context = Some ctx ->
  (forall refs,
     exists calls,
       sopsCalls (snd (resolveSequence refs context s)) = sopsCalls s ++ calls /\
       length calls <= 1 /\
       (is_Some (ctx_fileSecretsPromise ctx) -> calls = [])) /\
  (forall ref,
     ref_source ref = "file" -> trim (ref_id ref) <> "" ->
     match ctx_fileSecretsPromise ctx with
     | None =>
         exists p s1,
           decryptSopsFile (ctx_config ctx) s = (p, s1) /\
           resolveSecretRefValue ref context s
           = lookupInPayload p (trim (ref_id ref))
               (with_contexts (<[context := withPromise ctx p]> (contexts s)) s1) /\
           contexts (snd (resolveSecretRefValue ref context s)) !! context
           = Some (withPromise ctx p)
     | Some p =>
         resolveSecretRefValue ref context s
         = lookupInPayload p (trim (ref_id ref)) s /\
         (forall e, p = Err e ->
                    resolveSecretRefValue ref context s = (Err e, s)) /\
         contexts (snd (resolveSecretRefValue ref context s)) = contexts s /\
         sopsCalls (snd (resolveSecretRefValue ref context s)) = sopsCalls s
     end) /\
  (forall ref,
     trim (ref_id ref) = "" ->
     resolveSecretRefValue ref context s = (Err InvalidReference, s)).
Proof.
  intros Hctx. split; [|split].
  - intros refs. by apply resolveSequence_effect.
  - intros ref Hsrc Hid.
    destruct (ctx_fileSecretsPromise ctx) as [p|] eqn:Hslot.
    + rewrite (resolve_file_cached _ _ _ _ _ Hsrc Hid Hctx Hslot).
      split; [done|]. split; [by intros e ->|].
      destruct (lookupInPayload p _ s) as [r s'] eqn:E.
      by apply lookupInPayload_effect in E.
    + destruct (decryptSopsFile (ctx_config ctx) s) as [p s1] eqn:Hd.
      exists p, s1. split; [done|].
      rewrite (resolve_file_first _ _ _ _ _ _ Hsrc Hid Hctx Hslot Hd).
      split; [done|].
      destruct (lookupInPayload p _ _) as [r s'] eqn:E.
      apply lookupInPayload_effect in E as [Ec _]. simpl in *. rewrite Ec.
      apply list_lookup_insert_eq. by eapply lookup_lt_Some.
  - intros ref. apply resolve_blank_id.
Qed.
End FileSource.

Section FileSourceWitnesses.
#[local] Existing Instance Reference.collaborators.

Lemma resolve_env_reference_witness :
  resolveSecretRefValue (mkSecretRef "env" samplePaddedId) 0 sampleUnconfigured
  = (Ok (VStr "secret123"), sampleUnconfigured).
Proof.
  apply (resolve_env_reference (mkSecretRef "env" samplePaddedId) 0
           (mkContext (VRef 0) sampleEnv None) sampleUnconfigured);
    [reflexivity|reflexivity|discriminate|reflexivity|reflexivity].
Defined.

Lemma empty_id_rejected_first_witness :
  resolveSecretRefValue (mkSecretRef "file" sampleBlankId) 0
    (sampleContextOn sampleSopsConfig)
  = (Err InvalidReference, sampleContextOn sampleSopsConfig).
Proof.
  apply (empty_id_rejected_first (mkSecretRef "file" sampleBlankId) 0).
  reflexivity.
Defined.

Lemma file_source_must_be_configured_witness :
  exists s', resolveSecretRefValue (mkSecretRef "file" "/providers/acme") 0
               sampleUnconfigured = (Err NotConfigured, s') /\
             sopsCalls s' = [] /\ heap s' = [Obj []].
Proof.
  apply (file_source_must_be_configured (mkSecretRef "file" "/providers/acme") 0
           (mkContext (VRef 0) sampleEnv None) sampleUnconfigured VUndefined);
    [reflexivity|discriminate|reflexivity|reflexivity|reflexivity|by left].
Defined.

Lemma single_flight_decrypt_witness :
  exists calls,
    sopsCalls (snd (resolveSequence
                      [mkSecretRef "file" "/providers/acme";
                       mkSecretRef "file" "/chat/client_email";
                       mkSecretRef "file" "/providers/acme"]
                      0 (sampleContextOn sampleSopsConfig)))
    = [] ++ calls /\ length calls <= 1 /\
    (is_Some (@None Promise) -> calls = []).
Proof.
  apply (single_flight_decrypt 0 (mkContext (VRef 3) sampleEnv None)
           (sampleContextOn sampleSopsConfig)).
  reflexivity.
Defined.

(** C2 as stated fails for a file-sourced reference whose id is blank: it
    is the first file-sourced resolution in a fresh context, and it leaves
    the cache slot empty. *)
Lemma blank_file_reference_installs_nothing :
  ref_source (mkSecretRef "file" "   ") = "file" /\
  contexts (sampleContextOn sampleSopsConfig) !! 0
  = Some (mkContext (VRef 3) sampleEnv None) /\
  resolveSecretRefValue (mkSecretRef "file" "   ") 0 (sampleContextOn sampleSopsConfig)
  = (Err InvalidReference, sampleContextOn sampleSopsConfig) /\
  contexts (snd (resolveSecretRefValue (mkSecretRef "file" "   ") 0
                   (sampleContextOn sampleSopsConfig))) !! 0
  = Some (mkContext (VRef 3) sampleEnv None).
Proof. split_and!; reflexivity. Qed.

Example sample_decrypt_once :
  sopsCalls (snd (resolveSequence
                    [mkSecretRef "file" "/providers/acme";
                     mkSecretRef "file" "   ";
                     mkSecretRef "file" "/chat/client_email"]
                    0 (sampleContextOn sampleSopsConfig)))
  = [mkSopsCall "/secrets.enc.json" 5000 missingBinaryMessage].
Proof. vm_compute. reflexivity. Qed.
End FileSourceWitnesses.

(** ** The walkers, one target at a time *)

Section Targets.
Context `{Collaborators}.

Lemma lookupInPayload_heap p id s r s' :
  lookupInPayload p id s = (r, s') ->
  exists ext, heap s' = heap s ++ ext /\
              cells_fresh (length (heap s)) ext /\
              (forall v, r = Ok v -> fresh (length (heap s)) v).
Proof.
  unfold lookupInPayload, bind, await, materialize, throw. intros E.
  destruct p as [payload|e].
  2:{ simplify_eq. exists []. rewrite app_nil_r. split_and!; [done|constructor|done]. }
  destruct (readJsonPointer payload id) as [t|].
  2:{ simplify_eq. exists []. rewrite app_nil_r. split_and!; [done|constructor|done]. }
  destruct (materialize_tree t (heap s)) as [v h'] eqn:Em. simplify_eq.
  destruct (materialize_tree_spec _ _ _ _ Em) as (ext & -> & Hc & Hf & _).
  exists ext. split_and!; [done..|]. by intros ? [= <-].
Qed.

(** A resolution only ever appends to the object store, and what it
    returns is a primitive or one of the appended objects. *)
Lemma resolve_heap ref context s r s' :
  resolveSecretRefValue ref context s = (r, s') ->
  exists ext, heap s' = heap s ++ ext /\
              cells_fresh (length (heap s)) ext /\
              (forall v, r = Ok v -> fresh (length (heap s)) v).
Proof.
  intros E.
  assert (forall s0 : State, exists ext : Heap, heap s0 = heap s0 ++ ext /\
            cells_fresh (length (heap s0)) ext) as Hnil.
  { intros s0. exists []. rewrite app_nil_r. split; [done|constructor]. }
  destruct (decide (trim (ref_id ref) = "")) as [Hid|Hid].
  { rewrite resolve_blank_id in E by done. simplify_eq.
    destruct (Hnil s') as (ext & ? & ?). exists ext. done. }
  destruct (decide (ref_source ref = "file")) as [Hsrc|Hsrc].
  2:{ unfold resolveSecretRefValue in E.
      apply String.eqb_neq in Hid, Hsrc. rewrite Hid, Hsrc in E.
      destruct (Hnil s) as (ext & ? & ?).
      destruct (String.eqb (ref_source ref) "env").
      - unfold bind, getContext, throw, ret in E.
        destruct (contexts s !! context) as [ctx|].
        + unfold envLookup in E. destruct (ctx_env ctx !! _); simpl in E.
          * destruct (negb _); simplify_eq; exists ext; split_and!; try done.
            by intros ? [= <-].
          * simplify_eq. exists ext. done.
        + simplify_eq. exists ext. done.
      - unfold throw in E. simplify_eq. exists ext. done. }
  destruct (contexts s !! context) as [ctx|] eqn:Hctx.
  2:{ unfold resolveSecretRefValue in E.
      apply String.eqb_neq in Hid. rewrite Hid, Hsrc in E. simpl in E.
      unfold bind, getContext in E. rewrite Hctx in E. simplify_eq.
      destruct (Hnil s') as (ext & ? & ?). exists ext. done. }
  destruct (ctx_fileSecretsPromise ctx) as [p|] eqn:Hslot.
  - rewrite (resolve_file_cached _ _ _ _ _ Hsrc Hid Hctx Hslot) in E.
    by apply lookupInPayload_heap in E.
  - destruct (decryptSopsFile (ctx_config ctx) s) as [p s1] eqn:Hd.
    rewrite (resolve_file_first _ _ _ _ _ _ Hsrc Hid Hctx Hslot Hd) in E.
    apply lookupInPayload_heap in E.
    destruct (decryptSopsFile_effect _ _ _ _ Hd) as [-> | [c ->]]; exact E.
Qed.

Lemma resolve_keeps_cell ref context s r s' l o :
  resolveSecretRefValue ref context s = (r, s') ->
  heap s !! l = Some o -> heap s' !! l = Some o.
Proof.
  intros E Hl. destruct (resolve_heap _ _ _ _ _ E) as (ext & -> & _).
  by apply lookup_app_l_Some.
Qed.

Lemma resolveProviderApiKey_unfold context providerId l ps s :
  heap s !! l = Some (Obj ps) ->
  resolveProviderApiKey context (providerId, VRef l) s =
  match asSecretRef (heap s) (field ps "apiKey") with
  | None => (Ok tt, s)
  | Some ref =>
      match resolveSecretRefValue ref context s with
      | (Ok v, s1) =>
          if isNonEmptyString v then setProp (VRef l) "apiKey" v s1
          else (Err (InvalidResolvedValue providerId), s1)
      | (Err e, s1) => (Err e, s1)
      end
  end.
Proof.
  intros Hl. unfold resolveProviderApiKey, bind, getProp, getHeap, readProp.
  rewrite Hl. simpl. fold (field ps "apiKey").
  destruct (asSecretRef (heap s) (field ps "apiKey")) as [ref|]; [|done].
  destruct (resolveSecretRefValue ref context s) as [[v|e] s1]; [|done].
  by destruct (isNonEmptyString v).
Qed.

Lemma pushWarning_run w ws code path message s :
  heap s !! w = Some (Arr ws) ->
  pushWarning (VRef w) code path message s
  = (Ok tt, pushed w ws (Obj [("code", VStr code); ("path", VStr path);
                              ("message", VStr message)]) s).
Proof.
  intros Hw. unfold pushWarning, bind, alloc, arrayPush. simpl.
  by rewrite (lookup_app_l_Some _ _ _ _ Hw).
Qed.

Lemma pushed_keeps_cell w ws o s l c :
  l <> w -> heap s !! l = Some c -> heap (pushed w ws o s) !! l = Some c.
Proof.
  intros Hne Hl. unfold pushed. simpl.
  rewrite list_lookup_insert_ne by done. by apply lookup_app_l_Some.
Qed.

Lemma resolveGoogleChatServiceAccount_unfold path context l w ps ws s :
  heap s !! l = Some (Obj ps) ->
  heap s !! w = Some (Arr ws) ->
  resolveGoogleChatServiceAccount (VRef l) path context (VRef w) s =
  let explicitRef := asSecretRef (heap s) (field ps "serviceAccountRef") in
  let inlineRef := asSecretRef (heap s) (field ps "serviceAccount") in
  match (match explicitRef with Some r => Some r | None => inlineRef end) with
  | None => (Ok tt, s)
  | Some ref =>
      match resolveSecretRefValue ref context
              (if bool_decide (is_Some explicitRef)
                  && negb (isUndefined (field ps "serviceAccount"))
                  && negb (bool_decide (is_Some inlineRef))
               then pushed w ws (serviceAccountWarning path) s else s) with
      | (Ok v, s1) => (Ok tt, assigned l ps "serviceAccount" v s1)
      | (Err e, s1) => (Err e, s1)
      end
  end.
Proof.
  intros Hl Hw.
  assert (l <> w) as Hne by (intros ->; congruence).
  unfold resolveGoogleChatServiceAccount, bind, getProp, getHeap, readProp.
  rewrite Hl. simpl. fold (field ps "serviceAccountRef") (field ps "serviceAccount").
  unfold isSecretRef.
  set (explicitRef := asSecretRef (heap s) (field ps "serviceAccountRef")).
  set (inlineRef := asSecretRef (heap s) (field ps "serviceAccount")).
  destruct (match explicitRef with Some r => Some r | None => inlineRef end)
    as [ref|]; [|done].
  destruct (bool_decide (is_Some explicitRef)
            && negb (isUndefined (field ps "serviceAccount"))
            && negb (bool_decide (is_Some inlineRef))).
  - rewrite (pushWarning_run _ _ _ _ _ _ Hw).
    fold (serviceAccountWarning path).
    destruct (resolveSecretRefValue ref context _) as [[v|e] s1] eqn:E; [|done].
    unfold setProp.
    rewrite (resolve_keeps_cell _ _ _ _ _ _ _ E
               (pushed_keeps_cell _ _ _ _ _ _ Hne Hl)). done.
  - unfold ret.
    destruct (resolveSecretRefValue ref context s) as [[v|e] s1] eqn:E; [|done].
    unfold setProp. by rewrite (resolve_keeps_cell _ _ _ _ _ _ _ E Hl).
Qed.

Lemma resolveCredential_unfold context agentDir profileId l w ps ws plain refField s :
  heap s !! l = Some (Obj ps) ->
  heap s !! w = Some (Arr ws) ->
  resolveCredential context (VRef w) agentDir profileId (VRef l) plain refField s =
  match asSecretRef (heap s) (field ps refField) with
  | None => (Ok tt, s)
  | Some r =>
      match resolveSecretRefValue r context
              (if isNonEmptyString (field ps plain)
               then pushed w ws (credentialWarning agentDir profileId plain refField) s
               else s) with
      | (Ok v, s1) =>
          if isNonEmptyString v then (Ok tt, assigned l ps plain v s1)
          else (Err (EmptyResolvedCredential profileId refField), s1)
      | (Err e, s1) => (Err e, s1)
      end
  end.
Proof.
  intros Hl Hw.
  assert (l <> w) as Hne by (intros ->; congruence).
  unfold resolveCredential, bind, getProp, getHeap, readProp.
  rewrite Hl. simpl. fold (field ps refField) (field ps plain).
  destruct (asSecretRef (heap s) (field ps refField)) as [r|].
  2:{ simpl. done. }
  rewrite bool_decide_eq_true_2 by eauto. simpl.
  destruct (isNonEmptyString (field ps plain)).
  - rewrite (pushWarning_run _ _ _ _ _ _ Hw).
    fold (credentialWarning agentDir profileId plain refField).
    destruct (resolveSecretRefValue r context _) as [[v|e] s1] eqn:E; [|done].
    destruct (isNonEmptyString v); [|done]. simpl. unfold setProp.
    rewrite (resolve_keeps_cell _ _ _ _ _ _ _ E
               (pushed_keeps_cell _ _ _ _ _ _ Hne Hl)). done.
  - unfold ret.
    destruct (resolveSecretRefValue r context s) as [[v|e] s1] eqn:E; [|done].
    destruct (isNonEmptyString v); [|done]. simpl. unfold setProp.
    by rewrite (resolve_keeps_cell _ _ _ _ _ _ _ E Hl).
Qed.

End Targets.

Section TargetWitnesses.
#[local] Existing Instance Reference.collaborators.

(** C3 as stated fails when serviceAccount holds the empty string next to
    an explicit reference: the value is empty, and the warning is pushed
    all the same. *)
Lemma empty_service_account_still_warns :
  field (sampleChatProps (VStr "")) "serviceAccount" = VStr "" /\
  isNonEmptyString (VStr "") = false /\
  fst (resolveGoogleChatServiceAccount (VRef 1) "channels.googlechat" 0 (VRef 2)
         (sampleTarget (sampleChatProps (VStr "")))) = Ok tt /\
  readback 2
    (heap (snd (resolveGoogleChatServiceAccount (VRef 1) "channels.googlechat" 0
                  (VRef 2) (sampleTarget (sampleChatProps (VStr ""))))))
    (VRef 2)
  = Some (TArr [TObj [("code", TStr "SECRETS_REF_OVERRIDES_PLAINTEXT");
                      ("path", TStr "channels.googlechat");
                      ("message",
                       TStr "channels.googlechat: serviceAccountRef is set; runtime will ignore plaintext serviceAccount.")]]).
Proof. split_and!; vm_compute; reflexivity. Qed.

(** C4 as stated fails on the path of the warning: after the agent
    directory label, the "auth-profiles" segment and the profile id it
    carries a fourth segment, the name of the plaintext field. *)
Lemma credential_warning_path_names_field :
  readback 2
    (heap (snd (resolveProfile 0 (VRef 2) "/agents/main" ("p1", VRef 1)
                  (sampleTarget sampleProfileProps))))
    (VRef 2)
  = Some (TArr [TObj [("code", TStr "SECRETS_REF_OVERRIDES_PLAINTEXT");
                      ("path", TStr "/agents/main.auth-profiles.p1.key");
                      ("message",
                       TStr "auth-profiles p1: keyRef is set; runtime will ignore plaintext key.")]]) /\
  "/agents/main.auth-profiles.p1.key"
  <> "/agents/main" +:+ "." +:+ "auth-profiles" +:+ "." +:+ "p1".
Proof. split; [vm_compute; reflexivity|discriminate]. Qed.
End TargetWitnesses.

(** ** Frames *)

Lemma bind_Ok {A B} (m : M A) (k : A -> M B) s b s' :
  bind m k s = (Ok b, s') ->
  exists a s1, m s = (Ok a, s1) /\ k a s1 = (Ok b, s').
Proof.
  unfold bind. destruct (m s) as [[a|e] s1]; [eauto|discriminate].
Qed.

Lemma getProp_Ok target k s v s' :
  getProp target k s = (Ok v, s') -> s' = s /\ readProp (heap s) target k = Ok v.
Proof. unfold getProp. by intros [= -> <-]. Qed.

Lemma optChain_Ok target k s v s' :
  optChain target k s = (Ok v, s') -> s' = s /\ readOptProp (heap s) target k = Ok v.
Proof. unfold optChain. by intros [= -> <-]. Qed.

Lemma objectEntries_Ok v s es s' :
  objectEntries v s = (Ok es, s') -> s' = s /\ readEntries (heap s) v = Ok es.
Proof. unfold objectEntries. by intros [= -> <-]. Qed.

Lemma getHeap_Ok s h s' : getHeap s = (Ok h, s') -> s' = s /\ h = heap s.
Proof. unfold getHeap. by intros [= <- <-]. Qed.

Lemma ret_Ok {A} (a b : A) s s' : ret a s = (Ok b, s') -> s' = s /\ b = a.
Proof. unfold ret. by intros [= <- <-]. Qed.

Lemma forEach_Ok {A} (P : State -> Prop) (xs : list A) (body : A -> M unit) :
  (forall x s s', x ∈ xs -> P s -> body x s = (Ok tt, s') -> P s') ->
  forall s s', P s -> forEach xs body s = (Ok tt, s') -> P s'.
Proof.
  induction xs as [|x xs IH]; intros Hbody s s' HP E; simpl in E.
  - apply ret_Ok in E as [-> _]. done.
  - apply bind_Ok in E as ([] & s1 & E1 & E2).
    eapply IH; [|eapply Hbody; [left|exact HP|exact E1]|exact E2].
    intros y s0 s0' Hy. apply Hbody. by right.
Qed.

Lemma Forall_snd {A B} (P : B -> Prop) (l : list (A * B)) :
  Forall P (snd <$> l) -> Forall (fun e => P (snd e)) l.
Proof.
  induction l as [|[a b] l IH]; [constructor|].
  rewrite fmap_cons. inversion 1; subst. constructor; auto.
Qed.

Section Grows.
Context (W : loc -> Prop) (h0 : Heap).

Lemma grows_refl : grows W h0 h0.
Proof.
  split; [done|]. split; [by left|].
  intros l o Hl Ho. apply lookup_lt_Some in Ho. lia.
Qed.

Lemma grows_append h ext :
  grows W h0 h -> cells_fresh (length h) ext -> grows W h0 (h ++ ext).
Proof.
  intros (Hlen & Hold & Hnew) Hc. split; [rewrite length_app; lia|]. split.
  - intros l o Hl. destruct (Hold l o Hl) as [Hk|(HW & xs & new & -> & Hk & Hf)].
    + left. by apply lookup_app_l_Some.
    + right. split; [done|]. exists xs, new. split; [done|].
      split; [by apply lookup_app_l_Some|done].
  - intros l o Hl Ho. apply lookup_app_Some in Ho as [Ho|[Hge Ho]].
    + by eapply Hnew.
    + apply (cells_fresh_le _ _ _ Hlen) in Hc. unfold cells_fresh in Hc.
      rewrite Forall_lookup in Hc. by eapply Hc.
Qed.

Lemma grows_alloc h o :
  grows W h0 h -> Forall (fresh (length h0)) (obj_vals o) ->
  grows W h0 (h ++ [o]) /\ fresh (length h0) (VRef (length h)).
Proof.
  intros (Hlen & Hold & Hnew) Ho. split; [|simpl; lia].
  split; [rewrite length_app; lia|]. split.
  - intros l c Hl. destruct (Hold l c Hl) as [Hk|(HW & xs & new & -> & Hk & Hf)].
    + left. by apply lookup_app_l_Some.
    + right. split; [done|]. exists xs, new. split; [done|].
      split; [by apply lookup_app_l_Some|done].
  - intros l c Hl Hc. apply lookup_app_Some in Hc as [Hc|[Hge Hc]].
    + by eapply Hnew.
    + apply list_lookup_singleton_Some in Hc as [_ <-]. done.
Qed.

Lemma props_set_vals {A} (P : A -> Prop) k v (ps : list (string * A)) :
  P v -> Forall P (snd <$> ps) -> Forall P (snd <$> props_set k v ps).
Proof.
  intros Hv. induction ps as [|[k' v'] ps IH]; simpl; intros Hps.
  - by constructor.
  - inversion Hps; subst. destruct (String.eqb k k'); constructor; auto.
Qed.

Lemma grows_assign h l ps k v :
  grows W h0 h -> length h0 <= l -> h !! l = Some (Obj ps) ->
  fresh (length h0) v ->
  grows W h0 (<[l := Obj (props_set k v ps)]> h).
Proof.
  intros (Hlen & Hold & Hnew) Hl Hc Hv. split; [by rewrite length_insert|]. split.
  - intros l' o Ho. assert (l' <> l) by (apply lookup_lt_Some in Ho; lia).
    rewrite list_lookup_insert_ne by done. by apply Hold.
  - intros l' o Hge Ho. destruct (decide (l' = l)) as [->|Hne].
    + rewrite list_lookup_insert_eq in Ho by (by eapply lookup_lt_Some).
      injection Ho as <-. simpl. apply props_set_vals; [done|].
      by apply (Hnew l (Obj ps)).
    + rewrite list_lookup_insert_ne in Ho by done. by eapply Hnew.
Qed.

Lemma grows_push h l xs v :
  grows W h0 h -> pushable W (length h0) (VRef l) -> h !! l = Some (Arr xs) ->
  fresh (length h0) v ->
  grows W h0 (<[l := Arr (xs ++ [v])]> h).
Proof.
  intros (Hlen & Hold & Hnew) Hp Hc Hv. split; [by rewrite length_insert|]. split.
  - intros l' o Ho. destruct (decide (l' = l)) as [->|Hne].
    + rewrite list_lookup_insert_eq by (by eapply lookup_lt_Some).
      destruct Hp as [Hge|HW]; [apply lookup_lt_Some in Ho; lia|].
      right. split; [done|].
      destruct (Hold l o Ho) as [Hk|(_ & ys & new & -> & Hk & Hf)].
      * rewrite Hk in Hc. injection Hc as ->. exists xs, [v].
        split_and!; [done..|]. by constructor.
      * rewrite Hk in Hc. injection Hc as <-. exists ys, (new ++ [v]).
        split_and!; [done|by rewrite app_assoc|].
        apply Forall_app. split; [done|by constructor].
    + rewrite list_lookup_insert_ne by done. by apply Hold.
  - intros l' o Hge Ho. destruct (decide (l' = l)) as [->|Hne].
    + rewrite list_lookup_insert_eq in Ho by (by eapply lookup_lt_Some).
      injection Ho as <-. simpl. apply Forall_app. split; [|by constructor].
      by apply (Hnew l (Arr xs)).
    + rewrite list_lookup_insert_ne in Ho by done. by eapply Hnew.
Qed.

Lemma imap_key_vals {A} (f : nat -> string) (xs : list A) :
  snd <$> imap (fun i x => (f i, x)) xs = xs.
Proof.
  revert f. induction xs as [|x xs IH]; intros f; [done|].
  simpl. f_equal. apply (IH (f ∘ S)).
Qed.

Lemma arr_props_vals {A} (xs : list A) : snd <$> arr_props xs = xs.
Proof. apply imap_key_vals. Qed.

Lemma own_props_vals o : snd <$> own_props o = obj_vals o.
Proof. destruct o; [done|]. apply arr_props_vals. Qed.

Lemma props_get_in {A} k (ps : list (string * A)) v :
  props_get k ps = Some v -> v ∈ snd <$> ps.
Proof.
  induction ps as [|[k' v'] ps IH]; simpl; [done|].
  destruct (String.eqb k k').
  - intros [= ->]. by left.
  - intros Hg. right. auto.
Qed.

Lemma grows_read h target k v :
  grows W h0 h -> fresh (length h0) target ->
  readProp h target k = Ok v -> fresh (length h0) v.
Proof.
  intros (Hlen & Hold & Hnew) Ht. unfold readProp.
  destruct target as [p|l].
  { destruct p; intros [= <-]; done. }
  destruct (h !! l) as [o|] eqn:Ho; [|done]. intros [= <-].
  destruct (props_get k (own_props o)) as [v|] eqn:Hg; [|done]. simpl.
  apply props_get_in in Hg. rewrite own_props_vals in Hg.
  specialize (Hnew l o Ht Ho). rewrite Forall_forall in Hnew. by apply Hnew.
Qed.

Lemma grows_read_opt h target k v :
  grows W h0 h -> fresh (length h0) target ->
  readOptProp h target k = Ok v -> fresh (length h0) v.
Proof.
  intros Hg Ht. unfold readOptProp.
  destruct target as [[]|l]; try (by intros [= <-]); by apply grows_read.
Qed.

Lemma grows_entries h v es :
  grows W h0 h -> fresh (length h0) v ->
  readEntries h v = Ok es -> Forall (fun e => fresh (length h0) (snd e)) es.
Proof.
  intros (Hlen & Hold & Hnew) Hv. unfold readEntries.
  destruct v as [p|l].
  { destruct p; intros [= <-]; try done.
    assert (Forall (fresh (length h0))
              (snd <$> arr_props (VPrim ∘ PStr <$> chars s))) as Hc.
    { rewrite arr_props_vals. induction (chars s); constructor; done. }
    by apply Forall_snd. }
  destruct (h !! l) as [o|] eqn:Ho; [|done]. intros [= <-].
  specialize (Hnew l o Hv Ho). rewrite <- own_props_vals in Hnew.
  by apply Forall_snd.
Qed.
End Grows.

Lemma setProp_Ok target k v s s' :
  setProp target k v s = (Ok tt, s') ->
  exists l ps, target = VRef l /\ heap s !! l = Some (Obj ps) /\
               s' = assigned l ps k v s.
Proof.
  unfold setProp. destruct target as [p|l]; [done|].
  destruct (heap s !! l) as [[ps|xs]|] eqn:E; try done.
  intros [= <-]. eauto.
Qed.

Lemma arrayPush_Ok arr v s s' :
  arrayPush arr v s = (Ok tt, s') ->
  exists l xs, arr = VRef l /\ heap s !! l = Some (Arr xs) /\
               s' = with_heap (<[l := Arr (xs ++ [v])]> (heap s)) s.
Proof.
  unfold arrayPush. destruct arr as [p|l]; [done|].
  destruct (heap s !! l) as [[ps|xs]|] eqn:E; try done.
  intros [= <-]. eauto.
Qed.

Lemma alloc_Ok o s v s' :
  alloc o s = (Ok v, s') ->
  v = VRef (length (heap s)) /\ s' = with_heap (heap s ++ [o]) s.
Proof. unfold alloc. by intros [= <- <-]. Qed.

Lemma structuredClone_Ok fuel v s r s' :
  structuredClone fuel v s = (Ok r, s') ->
  exists t ext,
    readback fuel (heap s) v = Some t /\
    s' = with_heap (heap s ++ ext) s /\
    cells_fresh (length (heap s)) ext /\
    fresh (length (heap s)) r /\
    readback fuel (heap s ++ ext) r = Some t.
Proof.
  unfold structuredClone, materialize.
  destruct (readback fuel (heap s) v) as [t|] eqn:Er; [|done].
  destruct (materialize_tree t (heap s)) as [r' h'] eqn:Em. intros [= <- <-].
  destruct (materialize_tree_spec _ _ _ _ Em) as (ext & -> & Hc & Hf & Hr).
  exists t, ext. split_and!; try done. apply Hr. by eapply readback_depth.
Qed.

Section Preservation.
Context `{Collaborators} (W : loc -> Prop) (h0 : Heap).

Lemma resolve_grows ref context s r s' :
  grows W h0 (heap s) ->
  resolveSecretRefValue ref context s = (r, s') ->
  grows W h0 (heap s') /\ (forall v, r = Ok v -> fresh (length h0) v).
Proof.
  intros Hg E. destruct (resolve_heap _ _ _ _ _ E) as (ext & -> & Hc & Hf).
  split; [by apply grows_append|].
  intros v Hv. eapply fresh_le; [|by apply Hf]. apply Hg.
Qed.

Lemma structuredClone_grows fuel v s r s' :
  grows W h0 (heap s) ->
  structuredClone fuel v s = (Ok r, s') ->
  grows W h0 (heap s') /\ fresh (length h0) r.
Proof.
  intros Hg E.
  destruct (structuredClone_Ok _ _ _ _ _ E) as (t & ext & _ & -> & Hc & Hf & _).
  split; [by apply grows_append|]. eapply fresh_le; [|exact Hf]. apply Hg.
Qed.

Lemma alloc_grows o s v s' :
  grows W h0 (heap s) ->
  Forall (fresh (length h0)) (obj_vals o) ->
  alloc o s = (Ok v, s') ->
  grows W h0 (heap s') /\ fresh (length h0) v.
Proof.
  intros Hg Ho E. apply alloc_Ok in E as [-> ->]. by apply grows_alloc.
Qed.

Lemma arrayPush_grows arr v s s' :
  grows W h0 (heap s) ->
  pushable W (length h0) arr -> fresh (length h0) v ->
  arrayPush arr v s = (Ok tt, s') ->
  grows W h0 (heap s').
Proof.
  intros Hg Hp Hv E. apply arrayPush_Ok in E as (l & xs & -> & Hl & ->).
  by apply grows_push.
Qed.

Lemma setProp_grows target k v s s' :
  grows W h0 (heap s) ->
  fresh (length h0) target -> fresh (length h0) v ->
  setProp target k v s = (Ok tt, s') ->
  grows W h0 (heap s').
Proof.
  intros Hg Ht Hv E. apply setProp_Ok in E as (l & ps & -> & Hl & ->).
  by apply grows_assign.
Qed.

Lemma pushWarning_grows warnings code path message s s' :
  grows W h0 (heap s) ->
  pushable W (length h0) warnings ->
  pushWarning warnings code path message s = (Ok tt, s') ->
  grows W h0 (heap s').
Proof.
  intros Hg Hp E. unfold pushWarning in E.
  apply bind_Ok in E as (w & s1 & E1 & E2).
  eapply alloc_grows in E1 as [Hg1 Hw]; [|done|by repeat constructor].
  by eapply arrayPush_grows.
Qed.

Lemma resolveGoogleChatServiceAccount_grows target path context warnings s s' :
  grows W h0 (heap s) ->
  fresh (length h0) target -> pushable W (length h0) warnings ->
  resolveGoogleChatServiceAccount target path context warnings s = (Ok tt, s') ->
  grows W h0 (heap s').
Proof.
  intros Hg Ht Hp E. unfold resolveGoogleChatServiceAccount in E.
  apply bind_Ok in E as (sar & s1 & E1 & E). apply getProp_Ok in E1 as [-> _].
  apply bind_Ok in E as (sa & s1 & E1 & E). apply getProp_Ok in E1 as [-> _].
  apply bind_Ok in E as (h & s1 & E1 & E). apply getHeap_Ok in E1 as [-> ->].
  destruct (match asSecretRef (heap s) sar with
            | Some r => Some r
            | None => asSecretRef (heap s) sa
            end) as [ref|].
  2:{ apply ret_Ok in E as [-> _]. done. }
  apply bind_Ok in E as ([] & s1 & E1 & E).
  assert (grows W h0 (heap s1)) as Hg1.
  { destruct (_ && _).
    - by eapply pushWarning_grows.
    - apply ret_Ok in E1 as [-> _]. done. }
  apply bind_Ok in E as (v & s2 & E2 & E).
  destruct (resolve_grows _ _ _ _ _ Hg1 E2) as [Hg2 Hv].
  eapply setProp_grows; [exact Hg2|done|by apply Hv|exact E].
Qed.

Lemma resolveProviderApiKey_grows context entry s s' :
  grows W h0 (heap s) ->
  fresh (length h0) (snd entry) ->
  resolveProviderApiKey context entry s = (Ok tt, s') ->
  grows W h0 (heap s').
Proof.
  intros Hg Ht E. destruct entry as [providerId provider].
  unfold resolveProviderApiKey in E.
  apply bind_Ok in E as (apiKey & s1 & E1 & E). apply getProp_Ok in E1 as [-> _].
  apply bind_Ok in E as (h & s1 & E1 & E). apply getHeap_Ok in E1 as [-> ->].
  destruct (asSecretRef (heap s) apiKey) as [ref|].
  2:{ apply ret_Ok in E as [-> _]. done. }
  apply bind_Ok in E as (v & s2 & E2 & E).
  destruct (resolve_grows _ _ _ _ _ Hg E2) as [Hg2 Hv].
  destruct (negb (isNonEmptyString v)); [done|].
  eapply setProp_grows; [exact Hg2|done|by apply Hv|exact E].
Qed.

Lemma resolveGoogleChatAccount_grows context warnings entry s s' :
  grows W h0 (heap s) ->
  fresh (length h0) (snd entry) -> pushable W (length h0) warnings ->
  resolveGoogleChatAccount context warnings entry s = (Ok tt, s') ->
  grows W h0 (heap s').
Proof.
  intros Hg Ht Hp E. destruct entry as [accountId account].
  unfold resolveGoogleChatAccount in E.
  apply bind_Ok in E as (h & s1 & E1 & E). apply getHeap_Ok in E1 as [-> ->].
  destruct (negb (isRecord (heap s) account)).
  - apply ret_Ok in E as [-> _]. done.
  - by eapply resolveGoogleChatServiceAccount_grows.
Qed.

Lemma forEach_grows {A} (xs : list A) (body : A -> M unit)
    (proj : A -> val) s s' :
  Forall (fun x => fresh (length h0) (proj x)) xs ->
  (forall x s s', fresh (length h0) (proj x) -> grows W h0 (heap s) ->
                  body x s = (Ok tt, s') -> grows W h0 (heap s')) ->
  grows W h0 (heap s) ->
  forEach xs body s = (Ok tt, s') ->
  grows W h0 (heap s').
Proof.
  intros Hxs Hbody Hg E.
  eapply (forEach_Ok (fun s => grows W h0 (heap s))); [|exact Hg|exact E].
  intros x s1 s2 Hin Hg1 E1. rewrite Forall_forall in Hxs.
  eapply Hbody; [by apply Hxs|exact Hg1|exact E1].
Qed.

Lemma resolveConfigSecretRefs_grows fuel config context warnings s r s' :
  grows W h0 (heap s) ->
  pushable W (length h0) warnings ->
  resolveConfigSecretRefs fuel config context warnings s = (Ok r, s') ->
  grows W h0 (heap s') /\ fresh (length h0) r.
Proof.
  intros Hg Hp E. unfold resolveConfigSecretRefs in E.
  apply bind_Ok in E as (resolved & s1 & E1 & E).
  apply structuredClone_grows in E1 as [Hg1 Hr]; [|done].
  apply bind_Ok in E as (models & s2 & E2 & E). apply getProp_Ok in E2 as [-> Hm].
  apply bind_Ok in E as (providers & s2 & E2 & E). apply optChain_Ok in E2 as [-> Hps].
  pose proof (grows_read _ _ _ _ _ _ Hg1 Hr Hm) as Hfm.
  pose proof (grows_read_opt _ _ _ _ _ _ Hg1 Hfm Hps) as Hfp.
  apply bind_Ok in E as ([] & s2 & E2 & E).
  assert (grows W h0 (heap s2)) as Hg2.
  { destruct (truthy providers).
    - apply bind_Ok in E2 as (entries & s3 & E3 & E2).
      apply objectEntries_Ok in E3 as [-> He].
      eapply (forEach_grows entries _ snd); [| |exact Hg1|exact E2].
      + exact (grows_entries _ _ _ _ _ Hg1 Hfp He).
      + intros x sa sb Hx Hga Ex. by eapply resolveProviderApiKey_grows.
    - apply ret_Ok in E2 as [-> _]. done. }
  apply bind_Ok in E as (channels & s3 & E3 & E). apply getProp_Ok in E3 as [-> Hch].
  apply bind_Ok in E as (googleChat & s3 & E3 & E). apply optChain_Ok in E3 as [-> Hgc].
  pose proof (grows_read _ _ _ _ _ _ Hg2 Hr Hch) as Hfc.
  pose proof (grows_read_opt _ _ _ _ _ _ Hg2 Hfc Hgc) as Hfg.
  apply bind_Ok in E as ([] & s3 & E3 & E). apply ret_Ok in E as [-> ->].
  split; [|done].
  destruct (truthy googleChat).
  2:{ apply ret_Ok in E3 as [-> _]. done. }
  apply bind_Ok in E3 as ([] & s4 & E4 & E3).
  eapply resolveGoogleChatServiceAccount_grows in E4; [|done..].
  apply bind_Ok in E3 as (accounts & s5 & E5 & E3). apply getProp_Ok in E5 as [-> Hac].
  apply bind_Ok in E3 as (h & s5 & E5 & E3). apply getHeap_Ok in E5 as [-> ->].
  pose proof (grows_read _ _ _ _ _ _ E4 Hfg Hac) as Hfa.
  destruct (isRecord (heap s4) accounts).
  2:{ apply ret_Ok in E3 as [-> _]. done. }
  apply bind_Ok in E3 as (entries & s5 & E5 & E3).
  apply objectEntries_Ok in E5 as [-> He].
  eapply (forEach_grows entries _ snd); [| |exact E4|exact E3].
  - exact (grows_entries _ _ _ _ _ E4 Hfa He).
  - intros x sa sb Hx Hga Ex. by eapply resolveGoogleChatAccount_grows.
Qed.

Lemma resolveCredential_grows context warnings agentDir profileId profile
    plain refField s s' :
  grows W h0 (heap s) ->
  fresh (length h0) profile -> pushable W (length h0) warnings ->
  resolveCredential context warnings agentDir profileId profile plain refField s
  = (Ok tt, s') ->
  grows W h0 (heap s').
Proof.
  intros Hg Ht Hp E. unfold resolveCredential in E.
  apply bind_Ok in E as (refValue & s1 & E1 & E). apply getProp_Ok in E1 as [-> _].
  apply bind_Ok in E as (h & s1 & E1 & E). apply getHeap_Ok in E1 as [-> ->].
  apply bind_Ok in E as (pv & s1 & E1 & E). apply getProp_Ok in E1 as [-> _].
  apply bind_Ok in E as ([] & s1 & E1 & E).
  assert (grows W h0 (heap s1)) as Hg1.
  { destruct (_ && _).
    - by eapply pushWarning_grows.
    - apply ret_Ok in E1 as [-> _]. done. }
  destruct (asSecretRef (heap s) refValue) as [r|].
  2:{ apply ret_Ok in E as [-> _]. done. }
  apply bind_Ok in E as (v & s2 & E2 & E).
  destruct (resolve_grows _ _ _ _ _ Hg1 E2) as [Hg2 Hv].
  destruct (negb (isNonEmptyString v)); [done|].
  eapply setProp_grows; [exact Hg2|done|by apply Hv|exact E].
Qed.

Lemma resolveProfile_grows context warnings agentDir entry s s' :
  grows W h0 (heap s) ->
  fresh (length h0) (snd entry) -> pushable W (length h0) warnings ->
  resolveProfile context warnings agentDir entry s = (Ok tt, s') ->
  grows W h0 (heap s').
Proof.
  intros Hg Ht Hp E. destruct entry as [profileId profile].
  unfold resolveProfile in E.
  apply bind_Ok in E as (ty & s1 & E1 & E). apply getProp_Ok in E1 as [-> _].
  destruct (isString ty "api_key"); [by eapply resolveCredential_grows|].
  destruct (isString ty "token"); [by eapply resolveCredential_grows|].
  apply ret_Ok in E as [-> _]. done.
Qed.

Lemma resolveAuthStoreSecretRefs_grows fuel store context warnings agentDir s r s' :
  grows W h0 (heap s) ->
  pushable W (length h0) warnings ->
  resolveAuthStoreSecretRefs fuel store context warnings agentDir s = (Ok r, s') ->
  grows W h0 (heap s') /\ fresh (length h0) r.
Proof.
  intros Hg Hp E. unfold resolveAuthStoreSecretRefs in E.
  apply bind_Ok in E as (resolvedStore & s1 & E1 & E).
  apply structuredClone_grows in E1 as [Hg1 Hr]; [|done].
  apply bind_Ok in E as (profiles & s2 & E2 & E). apply getProp_Ok in E2 as [-> Hps].
  pose proof (grows_read _ _ _ _ _ _ Hg1 Hr Hps) as Hfp.
  apply bind_Ok in E as (entries & s2 & E2 & E).
  apply objectEntries_Ok in E2 as [-> He].
  apply bind_Ok in E as ([] & s2 & E2 & E). apply ret_Ok in E as [-> ->].
  split; [|done].
  eapply (forEach_grows entries _ snd); [| |exact Hg1|exact E2].
  - exact (grows_entries _ _ _ _ _ Hg1 Hfp He).
  - intros x sa sb Hx Hga Ex. by eapply resolveProfile_grows.
Qed.

Lemma resolveAgentStore_grows fuel loadAuthStore context warnings authStores
    agentDir s s' :
  grows W h0 (heap s) ->
  pushable W (length h0) warnings -> pushable W (length h0) authStores ->
  resolveAgentStore fuel loadAuthStore context warnings authStores agentDir s
  = (Ok tt, s') ->
  grows W h0 (heap s').
Proof.
  intros Hg Hw Ha E. unfold resolveAgentStore in E.
  apply bind_Ok in E as (resolvedStore & s1 & E1 & E).
  apply resolveAuthStoreSecretRefs_grows in E1 as [Hg1 Hr]; [|done..].
  apply bind_Ok in E as (entry & s2 & E2 & E).
  eapply alloc_grows in E2 as [Hg2 He]; [|done|by repeat constructor].
  by eapply arrayPush_grows.
Qed.
End Preservation.

(** What is reachable from a new value is new. *)
Lemma reaches_fresh W h0 h v l :
  grows W h0 h -> fresh (length h0) v -> reaches h v l -> length h0 <= l.
Proof.
  intros (Hlen & Hold & Hnew) Hv Hr. induction Hr as [l|l o v l' Ho Hin Hr IH].
  - exact Hv.
  - apply IH. specialize (Hnew l o Hv Ho). rewrite Forall_forall in Hnew.
    by apply Hnew.
Qed.

(** What is reachable from an old value is old, as long as the old
    objects are as they were. *)
Lemma reaches_old h0 h v l :
  wf_heap h0 -> valid h0 v ->
  (forall l', l' < length h0 -> h !! l' = h0 !! l') ->
  reaches h v l -> l < length h0.
Proof.
  intros Hwf Hv Hsame Hr. induction Hr as [l|l o v l' Ho Hin Hr IH].
  - exact Hv.
  - apply IH. rewrite (Hsame l Hv) in Ho.
    specialize (Hwf l o Ho). rewrite Forall_forall in Hwf. by apply Hwf.
Qed.

(** An old value reads the same as long as the old objects are as they
    were. *)
Lemma readback_old n h0 h v :
  wf_heap h0 -> valid h0 v ->
  (forall l, l < length h0 -> h !! l = h0 !! l) ->
  readback n h v = readback n h0 v.
Proof.
  intros Hwf Hv Hsame. revert v Hv.
  induction n as [|n IH]; intros [p|l] Hv; try done.
  rewrite !readback_ref. rewrite (Hsame l Hv).
  destruct (h0 !! l) as [o|] eqn:Ho; [|done].
  specialize (Hwf l o Ho).
  destruct o as [ps|xs]; simpl in Hwf; f_equal.
  - apply Forall_mapM_ext. apply Forall_snd in Hwf.
    eapply Forall_impl; [exact Hwf|]. intros [k v] Hk. simpl in *.
    by rewrite IH.
  - apply Forall_mapM_ext. eapply Forall_impl; [exact Hwf|].
    intros v Hk. by apply IH.
Qed.

Lemma grows_none_same h0 h :
  grows (fun _ => False) h0 h ->
  forall l, l < length h0 -> h !! l = h0 !! l.
Proof.
  intros (Hlen & Hold & _) l Hl.
  destruct (lookup_lt_is_Some_2 h0 l Hl) as [o Ho].
  destruct (Hold l o Ho) as [Hk|[[] _]]. congruence.
Qed.

Lemma newContext_Ok c s n s' :
  newContext c s = (Ok n, s') -> heap s' = heap s.
Proof. unfold newContext. by intros [= _ <-]. Qed.

Section Prepare.
Context `{Collaborators}.

(** The steps of a successful prepare. *)
Lemma prepare_Ok fuel config env agentDirs loadAuthStore s snapshot s' :
  prepareSecretsRuntimeSnapshot fuel config env agentDirs loadAuthStore s
  = (Ok snapshot, s') ->
  let w := length (heap s) in
  let context := length (contexts s) in
  let s1 :=
    with_contexts (contexts s ++ [mkContext config (default process_env env) None])
      (with_heap (heap s ++ [Arr []]) s) in
  exists resolvedConfig s3 dirs s5 sourceConfig s6,
    resolveConfigSecretRefs fuel config context (VRef w) s1
    = (Ok resolvedConfig, s3) /\
    forEach dirs
      (resolveAgentStore fuel (default loadAuthProfileStoreForRuntime loadAuthStore)
         context (VRef w) (VRef (length (heap s3))))
      (with_heap (heap s3 ++ [Arr []]) s3)
    = (Ok tt, s5) /\
    structuredClone fuel config s5 = (Ok sourceConfig, s6) /\
    snapshot = VRef (length (heap s6)) /\
    s' = with_heap
           (heap s6 ++ [Obj [("sourceConfig", sourceConfig);
                             ("config", resolvedConfig);
                             ("authStores", VRef (length (heap s3)));
                             ("warnings", VRef w)]]) s6.
Proof.
  intros E. unfold prepareSecretsRuntimeSnapshot in E. cbv zeta.
  apply bind_Ok in E as (warnings & s1 & E1 & E). apply alloc_Ok in E1 as [-> ->].
  apply bind_Ok in E as (context & s2 & E2 & E).
  unfold newContext in E2. injection E2 as <- <-.
  apply bind_Ok in E as (resolvedConfig & s3 & E3 & E).
  apply bind_Ok in E as (h & s4 & E4 & E). apply getHeap_Ok in E4 as [-> ->].
  apply bind_Ok in E as (authStores & s4 & E4 & E). apply alloc_Ok in E4 as [-> ->].
  apply bind_Ok in E as ([] & s5 & E5 & E).
  apply bind_Ok in E as (sourceConfig & s6 & E6 & E).
  apply alloc_Ok in E as [-> ->].
  eexists resolvedConfig, s3, _, s5, sourceConfig, s6.
  split_and!; [exact E3|exact E5|exact E6|done|done].
Qed.

(** Isolation: a successful prepare leaves every object that existed
    before the call as it was; the input configuration, which was plain
    data [t], still is; the snapshot's sourceConfig is a copy of [t], the
    secret references in place; and every object reachable from the
    resolved config or from sourceConfig was allocated by the call, while
    every object reachable from the input existed before it. *)
Lemma prepare_isolates_input fuel config env agentDirs loadAuthStore s snapshot s' :
  wf_heap (heap s) -> valid (heap s) config ->
  prepareSecretsRuntimeSnapshot fuel config env agentDirs loadAuthStore s
  = (Ok snapshot, s') ->
  (forall l, l < length (heap s) -> heap s' !! l = heap s !! l) /\
  exists t sourceConfig resolvedConfig,
    readback fuel (heap s) config = Some t /\
    readback fuel (heap s') config = Some t /\
    readProp (heap s') snapshot "sourceConfig" = Ok sourceConfig /\
    readProp (heap s') snapshot "config" = Ok resolvedConfig /\
    readback fuel (heap s') sourceConfig = Some t /\
    (forall l, reaches (heap s') resolvedConfig l -> length (heap s) <= l) /\
    (forall l, reaches (heap s') sourceConfig l -> length (heap s) <= l) /\
    (forall l, reaches (heap s') config l -> l < length (heap s)).
Proof.
  intros Hwf Hvalid E.
  destruct (prepare_Ok _ _ _ _ _ _ _ _ E)
    as (resolvedConfig & s3 & dirs & s5 & sourceConfig & s6
        & E3 & E5 & E6 & -> & ->).
  set (W := fun _ : loc => False).
  assert (grows W (heap s) (heap s ++ [Arr []])) as Hg1.
  { apply grows_alloc; [apply grows_refl|constructor]. }
  assert (fresh (length (heap s)) (VRef (length (heap s)))) as Hw by (simpl; lia).
  eapply (resolveConfigSecretRefs_grows W (heap s)) in E3 as [Hg3 Hrc];
    [|exact Hg1|by left].
  assert (grows W (heap s) (heap s3 ++ [Arr []])) as Hg4.
  { apply grows_alloc; [done|constructor]. }
  assert (length (heap s) <= length (heap s3)) as Hlen3 by apply Hg3.
  eapply (forEach_grows W (heap s) dirs _ (fun _ => VUndefined)) in E5;
    [|by apply Forall_true| |exact Hg4].
  2:{ intros x sa sb _ Hga Ex.
      eapply resolveAgentStore_grows; [exact Hga| | |exact Ex]; by left. }
  destruct (structuredClone_Ok _ _ _ _ _ E6)
    as (t & ext & Hr5 & -> & Hc & Hsc & Hr6).
  simpl heap.
  assert (grows W (heap s) (heap s5 ++ ext)) as Hg6 by (by apply grows_append).
  assert (fresh (length (heap s)) sourceConfig) as Hsc0.
  { eapply fresh_le; [|exact Hsc]. apply E5. }
  assert (grows W (heap s) ((heap s5 ++ ext)
            ++ [Obj [("sourceConfig", sourceConfig); ("config", resolvedConfig);
                     ("authStores", VRef (length (heap s3)));
                     ("warnings", VRef (length (heap s)))]])) as Hg7.
  { apply grows_alloc; [done|]. simpl. repeat constructor; try done. }
  pose proof (grows_none_same _ _ Hg7) as Hsame.
  split; [exact Hsame|].
  exists t, sourceConfig, resolvedConfig.
  assert (readback fuel (heap s) config = Some t) as Ht.
  { rewrite <- Hr5. symmetry. apply readback_old; [done..|].
    by apply grows_none_same. }
  split_and!.
  - exact Ht.
  - rewrite <- Ht. by apply readback_old.
  - unfold readProp. by rewrite list_lookup_middle.
  - unfold readProp. by rewrite list_lookup_middle.
  - by apply readback_app.
  - intros l. by apply (reaches_fresh W (heap s)).
  - intros l. by apply (reaches_fresh W (heap s)).
  - intros l. by apply reaches_old.
Qed.
End Prepare.

(** ** Reading the store and reading plain data *)

Lemma readback_prim n h p t : readback n h (VPrim p) = Some t -> t = TPrim p.
Proof. destruct n; simpl; congruence. Qed.

Lemma readback_ref_inv n h l t :
  readback n h (VRef l) = Some t ->
  exists m, n = S m /\
    ((exists ps pts, h !! l = Some (Obj ps) /\ t = TObj pts /\
        Forall2 (fun kv kt => fst kv = fst kt /\
                              readback m h (snd kv) = Some (snd kt)) ps pts) \/
     (exists xs ts, h !! l = Some (Arr xs) /\ t = TArr ts /\
        Forall2 (fun v t' => readback m h v = Some t') xs ts)).
Proof.
  destruct n as [|m]; [done|]. rewrite readback_ref. intros E. exists m.
  split; [done|]. destruct (h !! l) as [[ps|xs]|]; [| |done].
  - left. destruct (mapM _ ps) as [pts|] eqn:Em; [|done]. injection E as <-.
    exists ps, pts. split_and!; [done..|]. apply mapM_Some in Em.
    eapply Forall2_impl; [exact Em|]. intros [k v] [k' t'] Hx. simpl in *.
    destruct (readback m h v); [|done]. by injection Hx as <- <-.
  - right. destruct (mapM _ xs) as [ts|] eqn:Em; [|done]. injection E as <-.
    exists xs, ts. split_and!; [done..|]. by apply mapM_Some in Em.
Qed.

Lemma props_get_Forall2 {A B} (R : A -> B -> Prop) k
    (ps : list (string * A)) (qs : list (string * B)) :
  Forall2 (fun kv kt => fst kv = fst kt /\ R (snd kv) (snd kt)) ps qs ->
  option_Forall2 R (props_get k ps) (props_get k qs).
Proof.
  induction 1 as [|[k1 a] [k2 b] ps qs [Hk HR] _ IH]; simpl; [constructor|].
  simpl in Hk. subst k2. destruct (String.eqb k k1); [by constructor|done].
Qed.

Lemma imap_Forall2 {A B} (R : A -> B -> Prop) (f : nat -> string) xs ys :
  Forall2 R xs ys ->
  Forall2 (fun kv kt => fst kv = fst kt /\ R (snd kv) (snd kt))
    (imap (fun i x => (f i, x)) xs) (imap (fun i y => (f i, y)) ys).
Proof.
  intros HR. revert f. induction HR as [|x y xs ys Hxy _ IH]; intros f; simpl.
  - constructor.
  - constructor; [done|]. apply (IH (f ∘ S)).
Qed.

Lemma arr_props_Forall2 {A B} (R : A -> B -> Prop) xs ys :
  Forall2 R xs ys ->
  Forall2 (fun kv kt => fst kv = fst kt /\ R (snd kv) (snd kt))
    (arr_props xs) (arr_props ys).
Proof. apply imap_Forall2. Qed.

(** The own properties of an object read back as the entries of its tree. *)
Lemma readback_entries n h v t :
  readback n h v = Some t -> tnullish t = false ->
  exists es, readEntries h v = Ok es /\
    Forall2 (fun kv kt => fst kv = fst kt /\
                          readback (pred n) h (snd kv) = Some (snd kt))
      es (tentries t).
Proof.
  intros Hr Hn. destruct v as [p|l].
  - apply readback_prim in Hr as ->. simpl in Hn.
    destruct p as [| | | |str]; try done; simpl.
    + eexists. split; [done|constructor].
    + eexists. split; [done|constructor].
    + eexists. split; [done|].
      apply (arr_props_Forall2 (fun v t' => readback (pred n) h v = Some t')).
      induction (chars str) as [|c cs IH]; [constructor|].
      rewrite !fmap_cons. constructor; [|exact IH]. by destruct (pred n).
  - apply readback_ref_inv in Hr as (m & -> & [(ps & pts & Hc & -> & Hf)
                                               |(xs & ts & Hc & -> & Hf)]);
      simpl; rewrite Hc; eexists; (split; [done|]).
    + exact Hf.
    + by apply (arr_props_Forall2 (fun v t' => readback m h v = Some t')).
Qed.

Lemma readback_get n h v t k :
  readback n h v = Some t -> tnullish t = false ->
  exists x, readProp h v k = Ok x /\ readback (pred n) h x = Some (tget t k).
Proof.
  intros Hr Hn. destruct v as [p|l].
  - apply readback_prim in Hr as ->. simpl in Hn.
    exists VUndefined. split; [by destruct p|by destruct (pred n)].
  - apply readback_ref_inv in Hr as (m & -> & [(ps & pts & Hc & -> & Hf)
                                               |(xs & ts & Hc & -> & Hf)]);
      simpl; rewrite Hc; simpl.
    + pose proof (props_get_Forall2
                    (fun v t' => readback m h v = Some t') k _ _ Hf) as Hg.
      destruct Hg as [x tx Hx|]; simpl; eauto.
      eexists. split; [done|]. by destruct m.
    + pose proof (props_get_Forall2
                    (fun v t' => readback m h v = Some t') k _ _
                    (arr_props_Forall2 (fun v t' => readback m h v = Some t')
                       _ _ Hf)) as Hg.
      destruct Hg as [x tx Hx|]; simpl; eauto.
      eexists. split; [done|]. by destruct m.
Qed.

Lemma readback_nullish n h v t :
  readback n h v = Some t ->
  tnullish t = match v with VPrim p => nullish p | VRef _ => false end.
Proof.
  destruct v as [p|l]; intros Hr.
  - by apply readback_prim in Hr as ->.
  - by apply readback_ref_inv in Hr as (m & -> & [(? & ? & ? & -> & ?)
                                                 |(? & ? & ? & -> & ?)]).
Qed.

Lemma readback_getOpt n h v t k :
  readback n h v = Some t ->
  exists x, readOptProp h v k = Ok x /\ readback (pred n) h x = Some (tgetOpt t k).
Proof.
  intros Hr. unfold tgetOpt. destruct (tnullish t) eqn:Hn.
  - rewrite (readback_nullish _ _ _ _ Hr) in Hn. destruct v as [[]|]; try done.
    + exists VUndefined. split; [done|by destruct (pred n)].
    + exists VUndefined. split; [done|by destruct (pred n)].
  - destruct (readback_get _ _ _ _ k Hr Hn) as (x & Hx & Hrx).
    exists x. split; [|done]. unfold readOptProp.
    rewrite (readback_nullish _ _ _ _ Hr) in Hn. by destruct v as [[]|].
Qed.

Lemma readback_truthy n h v t :
  readback n h v = Some t -> truthy v = ttruthy t.
Proof.
  destruct v as [p|l]; intros Hr.
  - by apply readback_prim in Hr as ->.
  - by apply readback_ref_inv in Hr as (m & -> & [(? & ? & ? & -> & ?)
                                                 |(? & ? & ? & -> & ?)]).
Qed.

Lemma readback_isRecord n h v t :
  readback n h v = Some t -> isRecord h v = tisRecord t.
Proof.
  destruct v as [p|l]; intros Hr.
  - by apply readback_prim in Hr as ->.
  - apply readback_ref_inv in Hr as (m & -> & [(? & ? & Hc & -> & ?)
                                               |(? & ? & Hc & -> & ?)]);
      simpl; by rewrite Hc.
Qed.

Lemma readback_shallow n h v t :
  readback n h v = Some t -> shallow v = tshallow t.
Proof.
  destruct v as [p|l]; intros Hr.
  - by apply readback_prim in Hr as ->.
  - by apply readback_ref_inv in Hr as (m & -> & [(? & ? & ? & -> & ?)
                                                 |(? & ? & ? & -> & ?)]).
Qed.

Lemma shallow_props m h (ps : list (string * val)) (pts : list (string * tree)) :
  Forall2 (fun kv kt => fst kv = fst kt /\
                        readback m h (snd kv) = Some (snd kt)) ps pts ->
  prod_map id shallow <$> ps = prod_map id tshallow <$> pts.
Proof.
  induction 1 as [|[k v] [k' t'] ps pts [Hk Hr] _ IH]; [done|].
  rewrite !fmap_cons. simpl in Hk, Hr. subst k'. f_equal; [|exact IH].
  unfold prod_map. simpl. f_equal. by eapply readback_shallow.
Qed.

Section Guards.
Context `{Collaborators}.

(** The type guard sees the same thing in the store and in the tree. *)
Lemma readback_asSecretRef n h v t :
  readback n h v = Some t -> asSecretRef h v = secretRefOfTree t.
Proof.
  destruct v as [p|l]; intros Hr.
  - by apply readback_prim in Hr as ->.
  - apply readback_ref_inv in Hr as (m & -> & [(ps & pts & Hc & -> & Hf)
                                               |(? & ? & Hc & -> & ?)]);
      simpl; rewrite Hc; [|done].
    f_equal. by eapply shallow_props.
Qed.

Lemma readback_isSecretRef n h v t :
  readback n h v = Some t -> isSecretRef h v = tisSecretRef t.
Proof.
  intros Hr. unfold isSecretRef, tisSecretRef.
  by rewrite (readback_asSecretRef _ _ _ _ Hr).
Qed.
End Guards.

(** ** The config walk on a configuration without secret references *)

Lemma bind_run {A B} (m : M A) (k : A -> M B) s a s1 :
  m s = (Ok a, s1) -> bind m k s = k a s1.
Proof. unfold bind. by intros ->. Qed.

Lemma getProp_run target k s v :
  readProp (heap s) target k = Ok v -> getProp target k s = (Ok v, s).
Proof. unfold getProp. by intros ->. Qed.

Lemma optChain_run target k s v :
  readOptProp (heap s) target k = Ok v -> optChain target k s = (Ok v, s).
Proof. unfold optChain. by intros ->. Qed.

Lemma objectEntries_run v s es :
  readEntries (heap s) v = Ok es -> objectEntries v s = (Ok es, s).
Proof. unfold objectEntries. by intros ->. Qed.

Lemma forEach_noop {A} (xs : list A) (body : A -> M unit) s :
  Forall (fun x => body x s = (Ok tt, s)) xs -> forEach xs body s = (Ok tt, s).
Proof.
  induction 1 as [|x xs Hx _ IH]; [done|]. simpl.
  by rewrite (bind_run _ _ _ _ _ Hx).
Qed.

Lemma structuredClone_run fuel v s t :
  readback fuel (heap s) v = Some t ->
  exists r ext,
    structuredClone fuel v s = (Ok r, with_heap (heap s ++ ext) s) /\
    cells_fresh (length (heap s)) ext /\
    fresh (length (heap s)) r /\
    readback fuel (heap s ++ ext) r = Some t.
Proof.
  intros Hr. unfold structuredClone, materialize. rewrite Hr.
  destruct (materialize_tree t (heap s)) as [r h'] eqn:Em.
  destruct (materialize_tree_spec _ _ _ _ Em) as (ext & -> & Hc & Hf & Hrb).
  exists r, ext. split_and!; try done. apply Hrb. by eapply readback_depth.
Qed.

Lemma forallb_both {A} (P Q : A -> bool) xs :
  forallb P xs = true -> forallb Q xs = true ->
  forallb (fun x => P x && Q x) xs = true.
Proof.
  induction xs as [|x xs IH]; simpl; [done|]. intros HP HQ.
  apply andb_true_iff in HP as [-> HP]. apply andb_true_iff in HQ as [-> HQ].
  simpl. by apply IH.
Qed.

Lemma ttruthy_not_nullish t : ttruthy t = true -> tnullish t = false.
Proof. by destruct t as [[]| |]. Qed.

Lemma tisRecord_not_nullish t : tisRecord t = true -> tnullish t = false.
Proof. by destruct t as [[]| |]. Qed.

Section RefFree.
Context `{Collaborators}.

Lemma tisSecretRef_false t : tisSecretRef t = false -> secretRefOfTree t = None.
Proof.
  unfold tisSecretRef. intros Hb. apply bool_decide_eq_false in Hb.
  destruct (secretRefOfTree t); [|done]. exfalso. apply Hb. eauto.
Qed.

Lemma resolveProviderApiKey_noop context entry s n te :
  readback n (heap s) (snd entry) = Some te ->
  tnullish te = false ->
  tisSecretRef (tget te "apiKey") = false ->
  resolveProviderApiKey context entry s = (Ok tt, s).
Proof.
  destruct entry as [providerId provider]. simpl. intros Hr Hn Hg.
  destruct (readback_get _ _ _ _ "apiKey" Hr Hn) as (apiKey & Ha & Hra).
  unfold resolveProviderApiKey.
  rewrite (bind_run _ _ _ _ _ (getProp_run _ _ _ _ Ha)).
  unfold bind, getHeap.
  rewrite (readback_asSecretRef _ _ _ _ Hra), (tisSecretRef_false _ Hg). done.
Qed.

Lemma resolveGoogleChatServiceAccount_noop target path context warnings s n tg :
  readback n (heap s) target = Some tg ->
  tnullish tg = false ->
  targetRefFree tg = true ->
  resolveGoogleChatServiceAccount target path context warnings s = (Ok tt, s).
Proof.
  intros Hr Hn Hg. unfold targetRefFree in Hg.
  apply andb_true_iff in Hg as [He Hi].
  apply negb_true_iff in He, Hi.
  destruct (readback_get _ _ _ _ "serviceAccountRef" Hr Hn) as (sar & Ha & Hra).
  destruct (readback_get _ _ _ _ "serviceAccount" Hr Hn) as (sa & Hb & Hrb).
  unfold resolveGoogleChatServiceAccount.
  rewrite (bind_run _ _ _ _ _ (getProp_run _ _ _ _ Ha)).
  rewrite (bind_run _ _ _ _ _ (getProp_run _ _ _ _ Hb)).
  unfold bind, getHeap.
  rewrite (readback_asSecretRef _ _ _ _ Hra), (tisSecretRef_false _ He).
  rewrite (readback_asSecretRef _ _ _ _ Hrb), (tisSecretRef_false _ Hi). done.
Qed.

Lemma resolveGoogleChatAccount_noop context warnings entry s n te :
  readback n (heap s) (snd entry) = Some te ->
  (if tisRecord te then targetRefFree te else true) = true ->
  resolveGoogleChatAccount context warnings entry s = (Ok tt, s).
Proof.
  destruct entry as [accountId account]. simpl. intros Hr Hg.
  unfold resolveGoogleChatAccount, bind, getHeap.
  rewrite (readback_isRecord _ _ _ _ Hr).
  destruct (tisRecord te) eqn:Hrec; [|done]. simpl.
  eapply resolveGoogleChatServiceAccount_noop; [exact Hr| |exact Hg].
  by destruct te.
Qed.

Lemma forEach_entries_noop (body : string * val -> M unit) s m es tes
    (P : tree -> bool) :
  Forall2 (fun kv kt => fst kv = fst kt /\
                        readback m (heap s) (snd kv) = Some (snd kt)) es tes ->
  forallb (fun e => P (snd e)) tes = true ->
  (forall e te, readback m (heap s) (snd e) = Some te -> P te = true ->
                body e s = (Ok tt, s)) ->
  forEach es body s = (Ok tt, s).
Proof.
  intros Hf Hall Hbody. apply forEach_noop.
  induction Hf as [|e te es tes [_ Hr] _ IH]; [constructor|].
  simpl in Hall. apply andb_true_iff in Hall as [Hp Hall].
  constructor; [by eapply Hbody|by apply IH].
Qed.

(** After the clone, a walk over a configuration without secret
    references in the walked fields changes nothing. *)
Lemma walk_noop fuel resolved context warnings s t :
  readback fuel (heap s) resolved = Some t ->
  tnullish t = false ->
  providerEntriesPresent t = true ->
  walkedFieldsRefFree t = true ->
  (let* models := getProp resolved "models" in
   let* providers := optChain models "providers" in
   (if truthy providers
    then let* entries := objectEntries providers in
         forEach entries (resolveProviderApiKey context)
    else ret tt) ;;
   let* channels := getProp resolved "channels" in
   let* googleChat := optChain channels "googlechat" in
   (if truthy googleChat
    then resolveGoogleChatServiceAccount googleChat "channels.googlechat"
           context warnings ;;
         let* accounts := getProp googleChat "accounts" in
         let* h := getHeap in
         if isRecord h accounts
         then let* entries := objectEntries accounts in
              forEach entries (resolveGoogleChatAccount context warnings)
         else ret tt
    else ret tt) ;;
   ret resolved) s = (Ok resolved, s).
Proof.
  intros Hr Hn Hpresent Hfree. unfold walkedFieldsRefFree in Hfree.
  unfold providerEntriesPresent in Hpresent.
  apply andb_true_iff in Hfree as [Hprov Hchat].
  destruct (readback_get _ _ _ _ "models" Hr Hn) as (models & Hm & Hrm).
  destruct (readback_getOpt _ _ _ _ "providers" Hrm) as (providers & Hp & Hrp).
  destruct (readback_get _ _ _ _ "channels" Hr Hn) as (channels & Hc & Hrc).
  destruct (readback_getOpt _ _ _ _ "googlechat" Hrc) as (googleChat & Hg & Hrg).
  rewrite (bind_run _ _ _ _ _ (getProp_run _ _ _ _ Hm)).
  rewrite (bind_run _ _ _ _ _ (optChain_run _ _ _ _ Hp)).
  rewrite (bind_run _ _ s tt s).
  2:{ rewrite (readback_truthy _ _ _ _ Hrp).
      destruct (ttruthy (tgetOpt (tget t "models") "providers")) eqn:Htr; [|done].
      assert (tnullish (tgetOpt (tget t "models") "providers") = false) as Hnn
        by (by apply ttruthy_not_nullish).
      destruct (readback_entries _ _ _ _ Hrp Hnn) as (es & He & Hf).
      rewrite (bind_run _ _ _ _ _ (objectEntries_run _ _ _ He)).
      eapply (forEach_entries_noop _ _ _ _ _
                (fun te => negb (tnullish te)
                           && negb (tisSecretRef (tget te "apiKey"))));
        [exact Hf|by apply forallb_both|].
      intros e te Hre Hpe. apply andb_true_iff in Hpe as [Hne Hge].
      apply negb_true_iff in Hne, Hge.
      by eapply resolveProviderApiKey_noop. }
  rewrite (bind_run _ _ _ _ _ (getProp_run _ _ _ _ Hc)).
  rewrite (bind_run _ _ _ _ _ (optChain_run _ _ _ _ Hg)).
  rewrite (bind_run _ _ s tt s); [done|].
  rewrite (readback_truthy _ _ _ _ Hrg).
  destruct (ttruthy (tgetOpt (tget t "channels") "googlechat")) eqn:Htr; [|done].
  assert (tnullish (tgetOpt (tget t "channels") "googlechat") = false) as Hnn
    by (by apply ttruthy_not_nullish).
  apply andb_true_iff in Hchat as [Htop Haccounts].
  rewrite (bind_run _ _ s tt s).
  2:{ by eapply resolveGoogleChatServiceAccount_noop. }
  destruct (readback_get _ _ _ _ "accounts" Hrg Hnn) as (accounts & Ha & Hra).
  rewrite (bind_run _ _ _ _ _ (getProp_run _ _ _ _ Ha)).
  unfold bind at 1, getHeap at 1.
  rewrite (readback_isRecord _ _ _ _ Hra).
  destruct (tisRecord (tget (tgetOpt (tget t "channels") "googlechat") "accounts"))
    eqn:Hrec; [|done].
  assert (tnullish (tget (tgetOpt (tget t "channels") "googlechat") "accounts")
          = false) as Hna by (by apply tisRecord_not_nullish).
  destruct (readback_entries _ _ _ _ Hra Hna) as (es & He & Hf).
  rewrite (bind_run _ _ _ _ _ (objectEntries_run _ _ _ He)).
  eapply (forEach_entries_noop _ _ _ _ _
            (fun te => if tisRecord te then targetRefFree te else true));
    [exact Hf|exact Haccounts|].
  intros e te Hre Hpe. by eapply resolveGoogleChatAccount_noop.
Qed.

(** C7: on a configuration (an object, plain data [t], whose provider
    entries are neither null nor undefined) that carries no secret
    reference in any of the walked fields, the config walk succeeds
    and does nothing beyond its structuredClone: it returns a copy that
    reads back as [t], and every object that existed before, the warnings
    array among them, is as it was, so that no warning has been pushed. *)
Theorem ref_free_config_walk (fuel : nat) (config : val) (context : nat)
    (warnings : val) (s : State) (t : tree) :
  readback fuel (heap s) config = Some t ->
  tnullish t = false ->
  providerEntriesPresent t = true ->
  walkedFieldsRefFree t = true ->
  exists resolved ext,
    resolveConfigSecretRefs fuel config context warnings s
    = (Ok resolved, with_heap (heap s ++ ext) s) /\
    readback fuel (heap s ++ ext) resolved = Some t /\
    readback fuel (heap s ++ ext) config = Some t /\
    (forall l o, heap s !! l = Some o -> (heap s ++ ext) !! l = Some o) /\
    (forall n tw, readback n (heap s) warnings = Some tw ->
                  readback n (heap s ++ ext) warnings = Some tw).
Proof.
  intros Hr Hn Hpresent Hfree.
  destruct (structuredClone_run _ _ _ _ Hr) as (resolved & ext & Hclone & _ & _ & Hrr).
  exists resolved, ext. split_and!.
  - unfold resolveConfigSecretRefs.
    rewrite (bind_run _ _ _ _ _ Hclone).
    by apply (walk_noop fuel resolved context warnings _ t).
  - exact Hrr.
  - by apply readback_app.
  - intros l o Hl. by apply lookup_app_l_Some.
  - intros n tw Hw. by apply readback_app.
Qed.
End RefFree.

(** ** The end-to-end example *)

Lemma lookup_tail {A} (l1 l2 : list A) k : (l1 ++ l2) !! (length l1 + k) = l2 !! k.
Proof.
  rewrite lookup_app_r by lia. f_equal. lia.
Qed.

Lemma readback_prim_eq n h p : readback n h (VPrim p) = Some (TPrim p).
Proof. by destruct n. Qed.

Lemma providerConfig_layout providerId rps h vs hr :
  allocEach (fun kt h0 => let '(v, h1) := materialize_tree (snd kt) h0 in
                          ((fst kt, v), h1)) rps h = (vs, hr) ->
  materialize_tree (providerConfig providerId (TObj rps)) h
  = (VRef (length hr + 4),
     hr ++ [Obj vs;
            Obj [("apiKey", VRef (length hr))];
            Obj [(providerId, VRef (length hr + 1))];
            Obj [("providers", VRef (length hr + 2))];
            Obj [("models", VRef (length hr + 3))]]).
Proof.
  intros E. simpl. rewrite E. rewrite !length_app. simpl.
  rewrite <- !app_assoc. simpl.
  rewrite <- !Nat.add_assoc. simpl. done.
Qed.

Lemma forEach_cons {A} (x : A) xs (body : A -> M unit) :
  forEach (x :: xs) body = (body x ;; forEach xs body).
Proof. reflexivity. Qed.

Section Example.
Context `{Collaborators}.

Lemma asSecretRef_cell h h' l :
  h !! l = h' !! l -> asSecretRef h (VRef l) = asSecretRef h' (VRef l).
Proof. unfold asSecretRef. by intros ->. Qed.

(** The config walk on the example: the clone is laid out after the
    objects of the reference, and the provider's apiKey is assigned the
    value of the variable. *)
Lemma walk_example fuel config context warnings s ctx providerId rps name v :
  readback fuel (heap s) config = Some (providerConfig providerId (TObj rps)) ->
  secretRefOfTree (TObj rps) = Some (mkSecretRef "env" name) ->
  contexts s !! context = Some ctx ->
  trim name <> "" ->
  ctx_env ctx !! trim name = Some v ->
  whitespaceOnly v = false ->
  exists vs hr,
    length (heap s) <= length hr /\
    resolveConfigSecretRefs fuel config context warnings s
    = (Ok (VRef (length hr + 4)),
       with_heap
         (hr ++ [Obj vs;
                 Obj [("apiKey", VStr v)];
                 Obj [(providerId, VRef (length hr + 1))];
                 Obj [("providers", VRef (length hr + 2))];
                 Obj [("models", VRef (length hr + 3))]]) s).
Proof.
  intros Hr Href Hctx Hname Henv Hv.
  destruct (allocEach (fun kt h0 => let '(v, h1) := materialize_tree (snd kt) h0 in
                                    ((fst kt, v), h1)) rps (heap s))
    as [vs hr] eqn:Eeach.
  exists vs, hr.
  (* the objects of the reference *)
  assert (materialize_tree (TObj rps) (heap s) = (VRef (length hr), hr ++ [Obj vs]))
    as Eref by (simpl; by rewrite Eeach).
  destruct (materialize_tree_spec _ _ _ _ Eref) as (ext & Hext & _ & _ & Hrb).
  assert (length (heap s) <= length hr) as Hlen.
  { apply (f_equal length) in Hext. rewrite !length_app in Hext. simpl in Hext.
    assert (forall t' h0 v0 h1, materialize_tree t' h0 = (v0, h1) ->
                                length h0 <= length h1) as Hmono.
    { intros t' h0 v0 h1 Em.
      destruct (materialize_tree_spec _ _ _ _ Em) as (e & -> & _).
      rewrite length_app. lia. }
    clear -Eeach Hmono. revert vs hr Eeach. generalize (heap s).
    induction rps as [|[k t'] rps IH]; intros h0 vs hr E; simpl in E.
    - by injection E as <- <-.
    - destruct (materialize_tree t' h0) as [v1 h1] eqn:E1.
      destruct (allocEach _ rps h1) as [vs' h2] eqn:E2. injection E as <- <-.
      apply Hmono in E1. apply IH in E2. lia. }
  split; [exact Hlen|].
  set (cells0 := [Obj vs; Obj [("apiKey", VRef (length hr))];
                  Obj [(providerId, VRef (length hr + 1))];
                  Obj [("providers", VRef (length hr + 2))];
                  Obj [("models", VRef (length hr + 3))]]).
  assert (structuredClone fuel config s
          = (Ok (VRef (length hr + 4)), with_heap (hr ++ cells0) s)) as Hclone.
  { unfold structuredClone, materialize. rewrite Hr.
    by rewrite (providerConfig_layout _ _ _ _ _ Eeach). }
  unfold resolveConfigSecretRefs. rewrite (bind_run _ _ _ _ _ Hclone).
  set (s1 := with_heap (hr ++ cells0) s).
  assert (forall k, heap s1 !! (length hr + k) = cells0 !! k) as Hcell.
  { intros k. apply lookup_tail. }
  assert (length hr = length hr + 0) as H0 by lia.
  rewrite (bind_run _ _ s1 (VRef (length hr + 3)) s1).
  2:{ apply getProp_run. unfold readProp. by rewrite Hcell. }
  rewrite (bind_run _ _ s1 (VRef (length hr + 2)) s1).
  2:{ apply optChain_run. unfold readOptProp, readProp. by rewrite Hcell. }
  set (s2 := with_heap
               (hr ++ [Obj vs; Obj [("apiKey", VStr v)];
                       Obj [(providerId, VRef (length hr + 1))];
                       Obj [("providers", VRef (length hr + 2))];
                       Obj [("models", VRef (length hr + 3))]]) s).
  rewrite (bind_run _ _ s1 tt s2).
  2:{ change (truthy (VRef (length hr + 2))) with true. cbv iota.
      rewrite (bind_run _ _ s1 [(providerId, VRef (length hr + 1))] s1).
      2:{ apply objectEntries_run. unfold readEntries. by rewrite Hcell. }
      rewrite forEach_cons.
      rewrite (bind_run _ _ s1 tt s2); [done|].
      rewrite (resolveProviderApiKey_unfold _ _ _ [("apiKey", VRef (length hr))]);
        [|by rewrite Hcell].
      unfold field. simpl props_get. simpl default.
      assert (asSecretRef (heap s1) (VRef (length hr))
              = Some (mkSecretRef "env" name)) as ->.
      { rewrite <- Href.
        rewrite <- (readback_asSecretRef (depth (TObj rps)) (hr ++ [Obj vs])
                      (VRef (length hr)) (TObj rps)) by (by apply Hrb).
        apply asSecretRef_cell. unfold s1, cells0. simpl heap.
        by rewrite !list_lookup_middle. }
      assert (contexts s1 !! context = Some ctx) as Hctx1 by done.
      rewrite (resolve_env_set (mkSecretRef "env" name) context ctx s1 v
                 eq_refl Hctx1 Hname Henv Hv).
      rewrite isNonEmptyString_str, Hv. simpl negb. cbv iota.
      unfold setProp. rewrite Hcell. simpl.
      unfold s2, s1, with_heap. simpl. f_equal. f_equal.
      rewrite (insert_app_r_alt _ _ _ _) by lia.
      replace (length hr + 1 - length hr) with 1 by lia. done. }
  assert (forall k, heap s2 !! (length hr + k)
                    = [Obj vs; Obj [("apiKey", VStr v)];
                       Obj [(providerId, VRef (length hr + 1))];
                       Obj [("providers", VRef (length hr + 2))];
                       Obj [("models", VRef (length hr + 3))]] !! k) as Hcell2.
  { intros k. apply lookup_tail. }
  rewrite (bind_run _ _ s2 VUndefined s2).
  2:{ apply getProp_run. unfold readProp. by rewrite Hcell2. }
  rewrite (bind_run _ _ s2 VUndefined s2); [|done].
  change (truthy VUndefined) with false. cbv iota.
  rewrite (bind_run _ _ s2 tt s2); done.
Qed.

Lemma readback_single n h l k x tx :
  h !! l = Some (Obj [(k, x)]) ->
  readback n h x = Some tx ->
  readback (S n) h (VRef l) = Some (TObj [(k, tx)]).
Proof. intros Hl Hx. rewrite readback_ref, Hl. simpl. by rewrite Hx. Qed.

(** On the example, the snapshot's resolved config
    carries the value of the variable in place of the reference. *)
Lemma prepare_example fuel config env agentDirs loadAuthStore s snapshot s'
    providerId rps name v :
  readback fuel (heap s) config = Some (providerConfig providerId (TObj rps)) ->
  secretRefOfTree (TObj rps) = Some (mkSecretRef "env" name) ->
  trim name <> "" ->
  default process_env env !! trim name = Some v ->
  whitespaceOnly v = false ->
  prepareSecretsRuntimeSnapshot fuel config env agentDirs loadAuthStore s
  = (Ok snapshot, s') ->
  exists resolvedConfig,
    readProp (heap s') snapshot "config" = Ok resolvedConfig /\
    readback fuel (heap s') resolvedConfig
    = Some (providerConfig providerId (TStr v)).
Proof.
  intros Hr Href Hname Henv Hv E.
  destruct (prepare_Ok _ _ _ _ _ _ _ _ E)
    as (resolvedConfig & s3 & dirs & s5 & sourceConfig & s6
        & E3 & E5 & E6 & -> & ->).
  set (ctx0 := mkContext config (default process_env env) None) in *.
  set (s1 := with_contexts (contexts s ++ [ctx0])
               (with_heap (heap s ++ [Arr []]) s)) in *.
  assert (readback fuel (heap s1) config
          = Some (providerConfig providerId (TObj rps))) as Hr1
    by (by apply readback_app).
  assert (contexts s1 !! length (contexts s) = Some ctx0) as Hctx
    by (by apply list_lookup_middle).
  destruct (walk_example fuel config (length (contexts s))
              (VRef (length (heap s))) s1 ctx0 providerId rps name v
              Hr1 Href Hctx Hname Henv Hv) as (vs & hr & Hlen & Hwalk).
  rewrite Hwalk in E3. injection E3 as <- <-.
  set (cells := [Obj vs; Obj [("apiKey", VStr v)];
                 Obj [(providerId, VRef (length hr + 1))];
                 Obj [("providers", VRef (length hr + 2))];
                 Obj [("models", VRef (length hr + 3))]]) in *.
  simpl heap in E5.
  assert (length (heap s) < length hr) as Hw.
  { unfold s1 in Hlen. simpl in Hlen. rewrite length_app in Hlen. simpl in Hlen. lia. }
  set (W := fun l : loc => l = length (heap s) \/ l = length (hr ++ cells)).
  set (h4 := (hr ++ cells) ++ [Arr []]) in *.
  eapply (forEach_grows W h4 dirs _ (fun _ => VUndefined)) in E5;
    [|by apply Forall_true| |apply grows_refl].
  2:{ intros x sa sb _ Hga Ex.
      eapply resolveAgentStore_grows; [exact Hga| | |exact Ex]; right.
      - by left.
      - by right. }
  destruct (structuredClone_Ok _ _ _ _ _ E6) as (t & ext & _ & -> & _ & _ & _).
  simpl heap.
  (* the objects of the resolved config are where the walk left them *)
  assert (forall k c, 0 < k -> cells !! k = Some c ->
            ((heap s5 ++ ext)
               ++ [Obj [("sourceConfig", sourceConfig);
                        ("config", VRef (length hr + 4));
                        ("authStores", VRef (length (hr ++ cells)));
                        ("warnings", VRef (length (heap s)))]])
            !! (length hr + k) = Some c) as Hcell.
  { intros k c Hk Hc.
    assert (h4 !! (length hr + k) = Some c) as H4.
    { unfold h4. apply lookup_app_l_Some. by rewrite lookup_tail. }
    destruct E5 as (_ & Hold & _).
    destruct (Hold _ _ H4) as [Hsame|[[HW|HW] _]].
    - by do 2 apply lookup_app_l_Some.
    - lia.
    - apply lookup_lt_Some in Hc. rewrite length_app in HW. lia. }
  exists (VRef (length hr + 4)). split.
  { unfold readProp. by rewrite list_lookup_middle. }
  pose proof (readback_depth _ _ _ _ Hr) as Hd. simpl in Hd.
  do 4 (destruct fuel as [|fuel]; [lia|]).
  eapply readback_single; [by apply Hcell; [lia|]|].
  eapply readback_single; [by apply Hcell; [lia|]|].
  eapply readback_single; [by apply Hcell; [lia|]|].
  eapply readback_single; [by apply Hcell; [lia|]|].
  apply readback_prim_eq.
Qed.

End Example.

Lemma wf_heapb_spec h : wf_heapb h = true -> wf_heap h.
Proof.
  unfold wf_heapb, wf_heap. intros Hb l o Hl.
  rewrite forallb_forall in Hb.
  apply list_elem_of_lookup_2, list_elem_of_In in Hl. specialize (Hb o Hl).
  rewrite forallb_forall in Hb. apply Forall_forall. intros v Hv.
  apply list_elem_of_In in Hv. specialize (Hb v Hv).
  destruct v as [p|l']; [done|]. simpl in *. by apply Nat.ltb_lt.
Qed.

Section ExampleWitnesses.
#[local] Existing Instance Reference.collaborators.

Lemma ref_free_config_walk_witness :
  exists resolved ext,
    resolveConfigSecretRefs 6 (VRef 7) 0 (VRef 8) samplePlainState
    = (Ok resolved, with_heap (heap samplePlainState ++ ext) samplePlainState) /\
    readback 6 (heap samplePlainState ++ ext) resolved = Some samplePlainConfig /\
    readback 6 (heap samplePlainState ++ ext) (VRef 7) = Some samplePlainConfig /\
    (forall l o, heap samplePlainState !! l = Some o ->
                 (heap samplePlainState ++ ext) !! l = Some o) /\
    (forall n tw, readback n (heap samplePlainState) (VRef 8) = Some tw ->
                  readback n (heap samplePlainState ++ ext) (VRef 8) = Some tw).
Proof.
  apply (ref_free_config_walk 6 (VRef 7) 0 (VRef 8) samplePlainState
           samplePlainConfig); vm_compute; reflexivity.
Defined.

End ExampleWitnesses.

(** ** The active snapshot *)

Lemma readback_agree n h h' v t :
  readback n h v = Some t ->
  (forall l, l < length h -> h' !! l = h !! l) ->
  readback n h' v = Some t.
Proof.
  intros Hr Hsame. revert v t Hr.
  induction n as [|n IH]; intros [p|l] t; try done.
  rewrite !readback_ref.
  destruct (h !! l) as [o|] eqn:E; [|done].
  rewrite (Hsame l (lookup_lt_Some _ _ _ E)), E.
  destruct o as [ps|xs].
  - destruct (mapM _ ps) as [pts|] eqn:Em; [|done]. intros [= <-].
    apply mapM_Some in Em.
    assert (mapM (fun kv => pair kv.1 <$> readback n h' kv.2) ps = Some pts) as ->;
      [|done].
    apply mapM_Some. eapply Forall2_impl; [exact Em|].
    intros [k v] [k' t'] Hx. simpl in *.
    destruct (readback n h v) eqn:Er; [|done]. by rewrite (IH _ _ Er).
  - destruct (mapM _ xs) as [ts|] eqn:Em; [|done]. intros [= <-].
    apply mapM_Some in Em.
    assert (mapM (readback n h') xs = Some ts) as ->; [|done].
    apply mapM_Some. eapply Forall2_impl; [exact Em|]. intros v t' Hx. by apply IH.
Qed.

Lemma mapM_agree {A B} (f g : A -> option B) xs ys :
  mapM f xs = Some ys ->
  (forall x y, f x = Some y -> g x = Some y) ->
  mapM g xs = Some ys.
Proof.
  intros Hm Hfg. apply mapM_Some in Hm. apply mapM_Some.
  eapply Forall2_impl; [exact Hm|]. exact Hfg.
Qed.

Lemma readArray_agree h h' v xs :
  readArray h v = Some xs ->
  (forall l, l < length h -> h' !! l = h !! l) ->
  readArray h' v = Some xs.
Proof.
  intros Hr Hsame. destruct v as [p|l]; [done|]. simpl in *.
  destruct (h !! l) as [o|] eqn:E; [|done].
  by rewrite (Hsame l (lookup_lt_Some _ _ _ E)), E.
Qed.

Lemma viewEntry_agree fuel h h' e x :
  viewEntry fuel h e = Some x ->
  (forall l, l < length h -> h' !! l = h !! l) ->
  viewEntry fuel h' e = Some x.
Proof.
  intros Hv Hsame. destruct e as [p|l]; [done|]. simpl in *.
  destruct (h !! l) as [o|] eqn:E; [|done].
  rewrite (Hsame l (lookup_lt_Some _ _ _ E)), E.
  destruct o as [ps|]; [|done].
  destruct (readback fuel h (field ps "agentDir")) as [d|] eqn:Ed; [|done].
  destruct (readback fuel h (field ps "store")) as [st|] eqn:Es; [|done].
  by rewrite (readback_agree _ _ _ _ _ Ed Hsame),
             (readback_agree _ _ _ _ _ Es Hsame).
Qed.

(** The view of a snapshot depends only on the objects that exist. *)
Lemma viewSnapshot_agree fuel h h' v sv :
  viewSnapshot fuel h v = Some sv ->
  (forall l, l < length h -> h' !! l = h !! l) ->
  viewSnapshot fuel h' v = Some sv.
Proof.
  intros Hv Hsame. destruct v as [p|l]; [done|]. simpl in *.
  destruct (h !! l) as [o|] eqn:E; [|done].
  rewrite (Hsame l (lookup_lt_Some _ _ _ E)), E.
  destruct o as [ps|]; [|done].
  destruct (readback fuel h (field ps "sourceConfig")) as [sc|] eqn:E1; [|done].
  destruct (readback fuel h (field ps "config")) as [c|] eqn:E2; [|done].
  destruct (readArray h (field ps "authStores")) as [es|] eqn:E3; [|done].
  destruct (readArray h (field ps "warnings")) as [ws|] eqn:E4; [|done].
  destruct (mapM (viewEntry fuel h) es) as [stores|] eqn:E5; [|done].
  destruct (mapM (readback fuel h) ws) as [warnings|] eqn:E6; [|done].
  rewrite (readback_agree _ _ _ _ _ E1 Hsame), (readback_agree _ _ _ _ _ E2 Hsame).
  rewrite (readArray_agree _ _ _ _ E3 Hsame), (readArray_agree _ _ _ _ E4 Hsame).
  rewrite (mapM_agree _ (viewEntry fuel h') _ _ E5).
  2:{ intros x y Hx. by eapply viewEntry_agree. }
  rewrite (mapM_agree _ (readback fuel h') _ _ E6); [done|].
  intros x y Hx. by eapply readback_agree.
Qed.

Lemma agree_app {A} (h ext : list A) l : l < length h -> (h ++ ext) !! l = h !! l.
Proof. intros Hl. by apply lookup_app_l. Qed.

(** Mapping an allocating function over a list. *)
Section MapEach.
Context {A B : Type} (f : A -> M B).
Context (Pre : Heap -> A -> Prop) (R : Heap -> A -> B -> Prop) (proj : B -> val).
Hypothesis Pre_app : forall h ext x, Pre h x -> Pre (h ++ ext) x.
Hypothesis R_app : forall h ext x y, R h x y -> R (h ++ ext) x y.
Hypothesis f_run : forall x s, Pre (heap s) x ->
  exists y ext,
    f x s = (Ok y, with_heap (heap s ++ ext) s) /\
    cells_fresh (length (heap s)) ext /\
    fresh (length (heap s)) (proj y) /\
    R (heap s ++ ext) x y.

Lemma mapEach_run xs s :
  Forall (Pre (heap s)) xs ->
  exists ys ext,
    mapEach xs f s = (Ok ys, with_heap (heap s ++ ext) s) /\
    cells_fresh (length (heap s)) ext /\
    Forall (fun y => fresh (length (heap s)) (proj y)) ys /\
    Forall2 (R (heap s ++ ext)) xs ys.
Proof.
  revert s. induction xs as [|x xs IH]; intros s Hpre.
  - exists [], []. rewrite app_nil_r. simpl. unfold ret.
    destruct s. split_and!; [done|constructor|constructor|constructor].
  - inversion Hpre as [|? ? Hx Hxs]; subst.
    destruct (f_run x s Hx) as (y & ext1 & Ef & Hc1 & Hf1 & HR1).
    destruct (IH (with_heap (heap s ++ ext1) s)) as (ys & ext2 & Em & Hc2 & Hf2 & HR2).
    { simpl. eapply Forall_impl; [exact Hxs|]. intros. by apply Pre_app. }
    simpl in Em, Hc2, Hf2, HR2.
    exists (y :: ys), (ext1 ++ ext2). simpl.
    rewrite (bind_run _ _ _ _ _ Ef), (bind_run _ _ _ _ _ Em).
    assert (length (heap s) <= length (heap s ++ ext1))
      by (rewrite length_app; lia).
    rewrite app_assoc. split_and!.
    + done.
    + apply cells_fresh_app; [done|]. by eapply cells_fresh_le.
    + constructor; [done|]. eapply Forall_impl; [exact Hf2|].
      intros y'. by apply fresh_le.
    + constructor; [by apply R_app|done].
Qed.
End MapEach.

Lemma appends_bind {A B} n0 (m : M A) (k : A -> M B) s Q :
  appends n0 m s (fun a h' => appends n0 (k a) (with_heap h' s) Q) ->
  appends n0 (bind m k) s Q.
Proof.
  intros (a & ext & Em & Hc & (b & ext2 & Ek & Hc2 & HQ)). simpl in *.
  exists b, (ext ++ ext2). rewrite (bind_run _ _ _ _ _ Em), Ek.
  rewrite app_assoc. split_and!; [done| |done]. by apply cells_fresh_app.
Qed.

Lemma appends_run {A} n0 (m m' : M A) s Q :
  m s = m' s -> appends n0 m' s Q -> appends n0 m s Q.
Proof. unfold appends. by intros ->. Qed.

Lemma appends_ret {A} n0 (a : A) s (Q : A -> Heap -> Prop) :
  Q a (heap s) -> appends n0 (ret a) s Q.
Proof.
  intros HQ. exists a, []. rewrite app_nil_r. unfold ret.
  destruct s. split_and!; [done|constructor|done].
Qed.

Lemma appends_alloc n0 o s (Q : val -> Heap -> Prop) :
  Forall (fresh n0) (obj_vals o) ->
  Q (VRef (length (heap s))) (heap s ++ [o]) ->
  appends n0 (alloc o) s Q.
Proof.
  intros Ho HQ. exists (VRef (length (heap s))), [o].
  split_and!; [done| |done]. by repeat constructor.
Qed.

Lemma appends_clone n0 fuel v s t (Q : val -> Heap -> Prop) :
  n0 <= length (heap s) ->
  readback fuel (heap s) v = Some t ->
  (forall r ext, fresh n0 r -> readback fuel (heap s ++ ext) r = Some t ->
                 Q r (heap s ++ ext)) ->
  appends n0 (structuredClone fuel v) s Q.
Proof.
  intros Hn Hr HQ.
  destruct (structuredClone_run _ _ _ _ Hr) as (r & ext & E & Hc & Hf & Hrb).
  exists r, ext. split_and!; [done|by eapply cells_fresh_le|].
  apply HQ; [by eapply fresh_le|done].
Qed.

Lemma appends_mapEach {A B} n0 (f : A -> M B)
    (Pre : Heap -> A -> Prop) (R : Heap -> A -> B -> Prop) (proj : B -> val)
    xs s (Q : list B -> Heap -> Prop) :
  n0 <= length (heap s) ->
  (forall h ext x, Pre h x -> Pre (h ++ ext) x) ->
  (forall h ext x y, R h x y -> R (h ++ ext) x y) ->
  (forall x s0, n0 <= length (heap s0) -> Pre (heap s0) x ->
     appends n0 (f x) s0 (fun y h' => fresh n0 (proj y) /\ R h' x y)) ->
  Forall (Pre (heap s)) xs ->
  (forall ys ext, Forall (fun y => fresh n0 (proj y)) ys ->
                  Forall2 (R (heap s ++ ext)) xs ys -> Q ys (heap s ++ ext)) ->
  appends n0 (mapEach xs f) s Q.
Proof.
  intros Hn Hpre HR Hf Hxs HQ.
  assert (forall s0, n0 <= length (heap s0) -> Forall (Pre (heap s0)) xs ->
            appends n0 (mapEach xs f) s0
              (fun ys h' => Forall (fun y => fresh n0 (proj y)) ys /\
                            Forall2 (R h') xs ys)) as Hgen.
  { clear s Hn Hxs HQ. induction xs as [|x xs IH]; intros s0 Hn Hxs.
    - apply appends_ret. split; constructor.
    - inversion Hxs as [|? ? Hx Hxs']; subst. simpl. apply appends_bind.
      destruct (Hf x s0 Hn Hx) as (y & ext & Ef & Hc & Hfy & HRy).
      exists y, ext. split_and!; [done..|]. apply appends_bind.
      destruct (IH (with_heap (heap s0 ++ ext) s0)) as (ys & ext2 & Em & Hc2 & Hfs & HRs).
      { simpl. rewrite length_app. lia. }
      { simpl. eapply Forall_impl; [exact Hxs'|]. intros. by apply Hpre. }
      exists ys, ext2. split_and!; [done..|]. apply appends_ret. simpl in *.
      split; constructor; try done. by apply HR. }
  destruct (Hgen s Hn Hxs) as (ys & ext & Em & Hc & Hfs & HRs).
  exists ys, ext. split_and!; [done..|]. by apply HQ.
Qed.

Lemma appends_getProp {B} n0 target k (kont : val -> M B) s v Q :
  readProp (heap s) target k = Ok v ->
  appends n0 (kont v) s Q ->
  appends n0 (bind (getProp target k) kont) s Q.
Proof.
  intros Hp Ha. unfold appends.
  by rewrite (bind_run _ _ _ _ _ (getProp_run _ _ _ _ Hp)).
Qed.

Lemma appends_arrayItems {B} n0 v (kont : list val -> M B) s xs Q :
  readArray (heap s) v = Some xs ->
  appends n0 (kont xs) s Q ->
  appends n0 (bind (arrayItems v) kont) s Q.
Proof.
  intros Hr. assert (arrayItems v s = (Ok xs, s)) as Ha.
  { unfold arrayItems. destruct v as [p|l]; [done|]. simpl in Hr.
    destruct (heap s !! l) as [[ps|ys]|]; try done. by injection Hr as ->. }
  intros Hk. unfold appends. by rewrite (bind_run _ _ _ _ _ Ha).
Qed.

Lemma tisPrim_readback n h v t :
  readback n h v = Some t -> tisPrim t = true -> exists p, v = VPrim p /\ t = TPrim p.
Proof.
  intros Hr Hp. destruct t as [p| |]; try done.
  apply readback_shallow in Hr. destruct v as [p'|l]; [|done].
  simpl in Hr. injection Hr as ->. eauto.
Qed.

Lemma cloneAuthStoreEntry_appends n0 fuel entry s d st :
  n0 <= length (heap s) ->
  viewEntry fuel (heap s) entry = Some (d, st) ->
  tisPrim d = true ->
  appends n0 (cloneAuthStoreEntry fuel entry) s
    (fun y h' => fresh n0 y /\ viewEntry fuel h' y = Some (d, st)).
Proof.
  intros Hn Hv Hd. destruct entry as [p|l]; [done|]. simpl in Hv.
  destruct (heap s !! l) as [[ps|]|] eqn:El; try done.
  destruct (readback fuel (heap s) (field ps "agentDir")) as [d'|] eqn:Ed; [|done].
  destruct (readback fuel (heap s) (field ps "store")) as [st'|] eqn:Es; [|done].
  injection Hv as -> ->.
  destruct (tisPrim_readback _ _ _ _ Ed Hd) as (p & Hp & ->).
  unfold cloneAuthStoreEntry.
  apply (appends_getProp _ _ _ _ _ (field ps "agentDir")).
  { unfold readProp. by rewrite El. }
  apply (appends_getProp _ _ _ _ _ (field ps "store")).
  { unfold readProp. by rewrite El. }
  apply appends_bind. eapply appends_clone; [done|exact Es|].
  intros r ext Hr Hrb. apply appends_alloc; simpl.
  { rewrite Hp. by repeat constructor. }
  split; [rewrite length_app; lia|]. rewrite list_lookup_middle by done.
  rewrite Hp. unfold field. simpl. rewrite readback_prim_eq.
  by rewrite (readback_app _ _ _ _ _ Hrb).
Qed.

Lemma spread_appends n0 fuel w s tw :
  n0 <= length (heap s) ->
  readback fuel (heap s) w = Some tw ->
  flatRecord tw = true ->
  appends n0 (spread w) s
    (fun y h' => fresh n0 y /\ readback fuel h' y = Some tw).
Proof.
  intros Hn Hr Hflat. destruct tw as [|pts|]; try done.
  destruct w as [p|l]; [by apply readback_prim in Hr|].
  apply readback_ref_inv in Hr as (m & -> & [(ps & pts' & Hc & Heq & Hf)
                                             |(? & ? & _ & Heq & _)]); [|done].
  injection Heq as <-. simpl in Hflat.
  assert (Forall2 (fun kv kt => fst kv = fst kt /\
                                exists p, snd kv = VPrim p /\ snd kt = TPrim p)
            ps pts) as Hprims.
  { clear Hc. induction Hf as [|[k v] [k' t'] ps pts [Hk Hrv] _ IH]; [constructor|].
    simpl in Hflat. apply andb_true_iff in Hflat as [Hp Hrest].
    constructor; [|by apply IH]. split; [done|]. by eapply tisPrim_readback. }
  unfold spread.
  assert (objectEntries (VRef l) s = (Ok ps, s)) as He.
  { unfold objectEntries, readEntries. by rewrite Hc. }
  eapply appends_run; [exact (bind_run _ _ _ _ _ He)|].
  apply appends_alloc.
  - simpl. clear -Hprims. induction Hprims as [|[k v] [k' t'] ? ? [_ (p & Hv & _)] _ IH];
      [constructor|]. simpl in Hv. subst v. rewrite fmap_cons. by constructor.
  - split; [exact Hn|].
    rewrite readback_ref, list_lookup_middle by done.
    assert (mapM (fun kv => pair kv.1 <$> readback m (heap s ++ [Obj ps]) kv.2) ps
            = Some pts) as ->; [|done].
    apply mapM_Some. eapply Forall2_impl; [exact Hprims|].
    intros [k v] [k' t'] [Hk (p & Hv & Ht)]. simpl in *. subst.
    by rewrite readback_prim_eq.
Qed.

Lemma appends_weaken {A} n0 (m : M A) s (Q Q' : A -> Heap -> Prop) :
  appends n0 m s Q ->
  (forall a ext, Q a (heap s ++ ext) -> Q' a (heap s ++ ext)) ->
  appends n0 m s Q'.
Proof.
  intros (a & ext & E & Hc & HQ) Himp. exists a, ext. split_and!; [done..|].
  by apply Himp.
Qed.

Ltac solve_agree :=
  let l := fresh "l" in
  let Hl := fresh "Hl" in
  intros l Hl;
  repeat (rewrite lookup_app_l by (rewrite ?length_app in *; simpl in *; lia));
  reflexivity.

Lemma mapM_typed {A B} (f : A -> option B) (P : B -> bool) xs ys :
  mapM f xs = Some ys -> forallb P ys = true ->
  Forall (fun x => exists y, f x = Some y /\ P y = true) xs.
Proof.
  intros Hm Hp. apply mapM_Some in Hm.
  induction Hm as [|x y xs ys Hx _ IH]; [constructor|].
  simpl in Hp. apply andb_true_iff in Hp as [Hy Hp]. constructor; eauto.
Qed.

Lemma mapM_same {A B} (f : A -> option B) xs (ys : list A) zs :
  mapM f xs = Some zs ->
  Forall2 (fun x y => exists z, f x = Some z /\ f y = Some z) xs ys ->
  mapM f ys = Some zs.
Proof.
  intros Hm Hs. apply mapM_Some in Hm. apply mapM_Some.
  revert zs Hm. induction Hs as [|x y xs ys (z & Hx & Hy) _ IH]; intros zs Hm.
  - inversion Hm. constructor.
  - inversion Hm as [|? z' ? zs' Hx' Hm']; subst. constructor; [congruence|].
    by apply IH.
Qed.

(** cloneSnapshot, on a value of the snapshot type: it succeeds, only
    allocates, and returns a new object with the same view. *)
Lemma cloneSnapshot_appends fuel snapshot s sv :
  viewSnapshot fuel (heap s) snapshot = Some sv ->
  wellTypedView sv = true ->
  appends (length (heap s)) (cloneSnapshot fuel snapshot) s
    (fun r h' => fresh (length (heap s)) r /\ (exists l', r = VRef l') /\
                 viewSnapshot fuel h' r = Some sv).
Proof.
  intros Hv Hty. destruct snapshot as [p|l]; [done|]. simpl in Hv.
  destruct (heap s !! l) as [[ps|]|] eqn:El; try done.
  destruct (readback fuel (heap s) (field ps "sourceConfig")) as [tsc|] eqn:E1; [|done].
  destruct (readback fuel (heap s) (field ps "config")) as [tc|] eqn:E2; [|done].
  destruct (readArray (heap s) (field ps "authStores")) as [es|] eqn:E3; [|done].
  destruct (readArray (heap s) (field ps "warnings")) as [ws|] eqn:E4; [|done].
  destruct (mapM (viewEntry fuel (heap s)) es) as [stores|] eqn:E5; [|done].
  destruct (mapM (readback fuel (heap s)) ws) as [warnings|] eqn:E6; [|done].
  injection Hv as <-. unfold wellTypedView in Hty. simpl in Hty.
  apply andb_true_iff in Hty as [Hty1 Hty2].
  set (n0 := length (heap s)).
  assert (forall h', (forall l0, l0 < n0 -> h' !! l0 = heap s !! l0) ->
            forall k, readProp h' (VRef l) k = Ok (field ps k)) as Hprop.
  { intros h' Hag k. unfold readProp.
    by rewrite (Hag l (lookup_lt_Some _ _ _ El)), El. }
  unfold cloneSnapshot.
  (* sourceConfig *)
  apply (appends_getProp _ _ _ _ _ (field ps "sourceConfig")); [by apply Hprop|].
  apply appends_bind. eapply appends_clone; [done|exact E1|].
  intros sc1 ext1 Hf1 Hr1. simpl.
  (* config *)
  apply (appends_getProp _ _ _ _ _ (field ps "config")).
  { apply Hprop. subst n0. simpl. solve_agree. }
  apply appends_bind. eapply appends_clone.
  { subst n0. simpl. rewrite length_app. lia. }
  { simpl. by apply readback_app. }
  intros c1 ext2 Hf2 Hr2. simpl in *.
  (* authStores *)
  apply (appends_getProp _ _ _ _ _ (field ps "authStores")).
  { apply Hprop. subst n0. simpl. solve_agree. }
  apply (appends_arrayItems _ _ _ _ es).
  { eapply readArray_agree; [exact E3|]. simpl. solve_agree. }
  apply appends_bind.
  eapply (appends_mapEach n0 (cloneAuthStoreEntry fuel)
            (entryTyped fuel) (sameEntry fuel) id).
  { subst n0. simpl. rewrite !length_app. lia. }
  { intros h ext x (d & st & Hx & Hd). exists d, st. split; [|done].
    eapply viewEntry_agree; [exact Hx|]. solve_agree. }
  { intros h ext x y (z & Hx & Hy). exists z.
    split; (eapply viewEntry_agree; [eassumption|]; solve_agree). }
  { intros x s0 Hn0 (d & st & Hx & Hd).
    eapply appends_weaken; [by eapply cloneAuthStoreEntry_appends|].
    intros y ext [Hfy Hvy]. split; [done|]. exists (d, st). split; [|done].
    eapply viewEntry_agree; [exact Hx|]. solve_agree. }
  { simpl. eapply Forall_impl; [exact (mapM_typed _ _ _ _ E5 Hty1)|].
    intros e ([d st] & He & Hd). exists d, st. split; [|done].
    eapply viewEntry_agree; [exact He|]. solve_agree. }
  intros ys ext3 Hfys HRys. simpl in *.
  apply appends_bind. apply appends_alloc; [exact Hfys|]. simpl.
  (* warnings *)
  apply (appends_getProp _ _ _ _ _ (field ps "warnings")).
  { apply Hprop. subst n0. simpl. solve_agree. }
  apply (appends_arrayItems _ _ _ _ ws).
  { eapply readArray_agree; [exact E4|]. simpl. solve_agree. }
  apply appends_bind.
  eapply (appends_mapEach n0 spread (warningTyped fuel) (sameData fuel) id).
  { subst n0. simpl. rewrite !length_app. lia. }
  { intros h ext x (tw & Hx & Hd). exists tw. split; [|done]. by apply readback_app. }
  { intros h ext x y (z & Hx & Hy). exists z. split; by apply readback_app. }
  { intros x s0 Hn0 (tw & Hx & Hd).
    eapply appends_weaken; [by eapply spread_appends|].
    intros y ext [Hfy Hvy]. split; [done|]. exists tw. split; [|done].
    by apply readback_app. }
  { simpl. eapply Forall_impl; [exact (mapM_typed _ _ _ _ E6 Hty2)|].
    intros w (tw & Hw & Hd). exists tw. split; [|done].
    eapply readback_agree; [exact Hw|]. solve_agree. }
  intros ys2 ext5 Hfys2 HRys2. simpl in *.
  apply appends_bind. apply appends_alloc; [exact Hfys2|]. simpl.
  (* the snapshot object *)
  set (h3 := ((heap s ++ ext1) ++ ext2) ++ ext3) in *.
  set (h5 := (h3 ++ [Arr ys]) ++ ext5) in *.
  apply appends_alloc.
  { simpl. repeat constructor; try done.
    - simpl. subst n0 h3. rewrite !length_app. lia.
    - simpl. subst n0 h5 h3. rewrite !length_app. simpl. lia. }
  split; [simpl; subst n0 h5 h3; rewrite !length_app; simpl; lia|].
  split; [eauto|].
  simpl. rewrite list_lookup_middle by done. unfold field. simpl.
  set (hf := (h5 ++ [Arr ys2]) ++ _).
  assert (readback fuel hf sc1 = Some tsc) as ->.
  { eapply readback_agree; [exact Hr1|]. subst hf h5 h3. solve_agree. }
  assert (readback fuel hf c1 = Some tc) as ->.
  { eapply readback_agree; [exact Hr2|]. subst hf h5 h3. solve_agree. }
  assert (hf !! length h3 = Some (Arr ys)) as ->.
  { subst hf h5. do 3 apply lookup_app_l_Some. by apply list_lookup_middle. }
  assert (hf !! length h5 = Some (Arr ys2)) as ->.
  { subst hf. apply lookup_app_l_Some. by apply list_lookup_middle. }
  assert (mapM (viewEntry fuel hf) ys = Some stores) as ->.
  { eapply (mapM_same _ es).
    - eapply mapM_agree; [exact E5|]. intros x y Hx.
      eapply viewEntry_agree; [exact Hx|]. subst hf h5 h3. solve_agree.
    - eapply Forall2_impl; [exact HRys|]. intros x y (z & Hx & Hy). exists z.
      split; (eapply viewEntry_agree; [eassumption|]; subst hf h5; solve_agree). }
  assert (mapM (readback fuel hf) ys2 = Some warnings) as ->; [|done].
  eapply (mapM_same _ ws).
  - eapply mapM_agree; [exact E6|]. intros x y Hx.
    eapply readback_agree; [exact Hx|]. subst hf h5 h3. solve_agree.
  - eapply Forall2_impl; [exact HRys2|]. intros x y (z & Hx & Hy). exists z.
    split; (eapply readback_agree; [eassumption|]; subst hf; solve_agree).
Qed.

Lemma viewSnapshot_cell fuel h v sv :
  viewSnapshot fuel h v = Some sv ->
  exists l ps, v = VRef l /\ h !! l = Some (Obj ps).
Proof.
  destruct v as [p|l]; [done|]. simpl.
  destruct (h !! l) as [[ps|]|] eqn:E; try done. intros _. exists l, ps.
  split; [reflexivity|exact E].
Qed.

Section ActiveSnapshot.
Context `{Collaborators}.

(** activate, on a value of the snapshot type: the clone is published and
    recorded as the active snapshot. *)
Lemma activate_run fuel snapshot s sv :
  viewSnapshot fuel (heap s) snapshot = Some sv ->
  wellTypedView sv = true ->
  exists stored ext s1,
    activateSecretsRuntimeSnapshot fuel snapshot s = (Ok tt, s1) /\
    heap s1 = heap s ++ ext /\
    activeSnapshot s1 = VRef stored /\
    length (heap s) <= stored /\
    cells_fresh (length (heap s)) ext /\
    viewSnapshot fuel (heap s1) (VRef stored) = Some sv.
Proof.
  intros Hv Hty.
  destruct (cloneSnapshot_appends _ _ _ _ Hv Hty)
    as (next & ext & Ec & Hc & Hf & (stored & ->) & Hvn).
  destruct (viewSnapshot_cell _ _ _ _ Hvn) as (l & ps & [= <-] & Hcell).
  exists stored, ext. eexists. split_and!.
  - unfold activateSecretsRuntimeSnapshot, bind. rewrite Ec.
    unfold getProp, readProp, setRuntimeConfigSnapshot,
      replaceRuntimeAuthProfileStoreSnapshots, setActiveSnapshot.
    simpl. rewrite !Hcell. simpl. reflexivity.
  - done.
  - done.
  - exact Hf.
  - exact Hc.
  - exact Hvn.
Qed.

(** C8: activating a value of the snapshot type and then asking for the
    active snapshot returns a new object with the same view as the one
    given (they are deep-equal); the object returned, the object stored
    and the object given are three different objects; every object
    reachable from the one returned was allocated by getActive, and the
    stored snapshot keeps its view in any store that differs from the
    final one only at objects allocated by getActive, so that mutating
    what getActive returned cannot affect it.  Activation leaves the
    objects that existed as they were.  When the active snapshot is null,
    getActive returns null and changes nothing. *)
Theorem activate_then_get_active (fuel : nat) (snapshot : val) (s : State)
    (sv : SnapshotView) :
  viewSnapshot fuel (heap s) snapshot = Some sv ->
  wellTypedView sv = true ->
  (exists given stored s1,
     snapshot = VRef given /\
     activateSecretsRuntimeSnapshot fuel snapshot s = (Ok tt, s1) /\
     activeSnapshot s1 = VRef stored /\
     given < length (heap s) /\
     length (heap s) <= stored /\ stored < length (heap s1) /\
     (forall l, l < length (heap s) -> heap s1 !! l = heap s !! l) /\
     viewSnapshot fuel (heap s1) (VRef stored) = Some sv /\
     exists returned s2,
       getActiveSecretsRuntimeSnapshot fuel s1 = (Ok (VRef returned), s2) /\
       length (heap s1) <= returned /\
       activeSnapshot s2 = VRef stored /\
       viewSnapshot fuel (heap s2) (VRef returned) = Some sv /\
       viewSnapshot fuel (heap s2) (VRef stored) = Some sv /\
       (forall l, reaches (heap s2) (VRef returned) l -> length (heap s1) <= l) /\
       (forall h', (forall l, l < length (heap s1) -> h' !! l = heap s2 !! l) ->
                   viewSnapshot fuel h' (VRef stored) = Some sv)) /\
  (forall s0, activeSnapshot s0 = VNull ->
              getActiveSecretsRuntimeSnapshot fuel s0 = (Ok VNull, s0)).
Proof.
  intros Hv Hty. split.
  2:{ intros s0 Hnull. unfold getActiveSecretsRuntimeSnapshot. by rewrite Hnull. }
  destruct (viewSnapshot_cell _ _ _ _ Hv) as (given & gps & -> & Hgiven).
  destruct (activate_run _ _ _ _ Hv Hty)
    as (stored & ext & s1 & Ea & Hh1 & Hact & Hst & Hc & Hv1).
  destruct (viewSnapshot_cell _ _ _ _ Hv1) as (? & sps & [= <-] & Hstored).
  exists given, stored, s1. split_and!; try done.
  - by eapply lookup_lt_Some.
  - by eapply lookup_lt_Some.
  - intros l Hl. rewrite Hh1. by apply lookup_app_l.
  - destruct (cloneSnapshot_appends _ _ _ _ Hv1 Hty)
      as (r & ext2 & Ec & Hc2 & Hf2 & (returned & ->) & Hv2).
    exists returned, (with_heap (heap s1 ++ ext2) s1). split_and!.
    + unfold getActiveSecretsRuntimeSnapshot. rewrite Hact. exact Ec.
    + exact Hf2.
    + exact Hact.
    + exact Hv2.
    + cbn [heap with_heap]. eapply viewSnapshot_agree; [exact Hv1|].
      intros l Hl. by apply lookup_app_l.
    + intros l. apply (reaches_fresh (fun _ => False) (heap s1)); [|exact Hf2].
      cbn [heap with_heap]. apply grows_append; [apply grows_refl|exact Hc2].
    + intros h' Hag. eapply viewSnapshot_agree; [exact Hv1|].
      intros l Hl. rewrite (Hag l Hl). cbn [heap with_heap]. by apply lookup_app_l.
Qed.
End ActiveSnapshot.

Section ActiveSnapshotWitnesses.
#[local] Existing Instance Reference.collaborators.

Lemma activate_then_get_active_witness :
  exists s1 returned s2,
    activateSecretsRuntimeSnapshot 5 (VRef 27) sampleSnapshotState = (Ok tt, s1) /\
    getActiveSecretsRuntimeSnapshot 5 s1 = (Ok (VRef returned), s2) /\
    viewSnapshot 5 (heap s2) (VRef returned) = Some sampleView /\
    viewSnapshot 5 (heap s2) (activeSnapshot s2) = Some sampleView /\
    VRef returned <> activeSnapshot s2.
Proof.
  assert (viewSnapshot 5 (heap sampleSnapshotState) (VRef 27) = Some sampleView)
    as Hview by (vm_compute; reflexivity).
  destruct (activate_then_get_active 5 (VRef 27) sampleSnapshotState sampleView
              Hview eq_refl)
    as [(given & stored & s1 & _ & Ha & _ & _ & _ & Hlt & _ & _
         & returned & s2 & Hg & Hge & Hact & Hr & Hs & _) _].
  exists s1, returned, s2. rewrite Hact.
  split; [exact Ha|]. split; [exact Hg|]. split; [exact Hr|]. split; [exact Hs|].
  intros Heq. injection Heq as ->. lia.
Defined.
End ActiveSnapshotWitnesses.

(** ** Guards and the decrypt invocation *)

Section GuardsAndDecrypt.
Context `{Collaborators}.

(** isNonEmptyString holds of the strings that are not a run of white
    space and line terminators (the characters that String.prototype.trim
    strips: TAB, LF, VT, FF, CR, SPACE, U+00A0, U+1680, U+2000 to U+200A,
    U+2028, U+2029, U+202F, U+205F, U+3000 and U+FEFF), and of nothing
    else: not of the empty string, which is the run of none, of a number,
    of null, of undefined or of an object. *)
Theorem non_empty_string_guard (v : val) :
  isNonEmptyString v = true <->
  exists str, v = VStr str /\ ~ runOf whiteSpace (list_ascii_of_string str).
Proof.
  split.
  - destruct v as [[| | | |str]|l]; simpl; try done.
    rewrite trim_eqb. intros Hw. apply negb_true_iff in Hw.
    exists str. split; [done|]. rewrite <- whitespaceOnly_run. congruence.
  - intros (str & -> & Hrun). simpl. rewrite trim_eqb.
    apply negb_true_iff. rewrite <- whitespaceOnly_run in Hrun.
    by destruct (whitespaceOnly str).
Qed.

(** A reference whose id is not blank and whose source is neither "env"
    nor "file" fails with UnsupportedSource, which carries the source; no
    context is consulted and the state is as it was. *)
Theorem unsupported_source_rejected (ref : SecretRef) (context : nat) (s : State) :
  trim (ref_id ref) <> "" ->
  ref_source ref <> "env" -> ref_source ref <> "file" ->
  resolveSecretRefValue ref context s
  = (Err (UnsupportedSource (ref_source ref)), s).
Proof.
  intros Hid Henv Hfile. unfold resolveSecretRefValue.
  apply String.eqb_neq in Hid, Henv, Hfile. by rewrite Hid, Henv, Hfile.
Qed.

(** With a sops file source whose path is a string, decryptSopsFile calls
    the decrypt facility exactly once and returns what it returns.  The
    call names the path as resolveUserPath gives it and the fixed
    missing-binary message.  Its timeout is the floor of a finite
    [timeoutMs], raised to 1 when that is smaller (zero, a negative
    number, a fraction below one), and the default for anything else
    (absent, NaN, an infinity, a string). *)
Theorem decrypt_call_parameters (config : val) (s : State) (fs : val)
    (p : string) (t : val) :
  configuredFileSource (heap s) config = Ok fs ->
  readProp (heap s) fs "type" = Ok (VStr "sops") ->
  readProp (heap s) fs "path" = Ok (VStr p) ->
  readProp (heap s) fs "timeoutMs" = Ok t ->
  exists c,
    decryptSopsFile config s
    = (decryptSopsJsonFile c, with_sopsCalls (sopsCalls s ++ [c]) s) /\
    sops_path c = resolveUserPath p /\
    sops_missingBinaryMessage c = missingBinaryMessage /\
    (forall q, t = VNum (Finite q) ->
       (1 <= sops_timeoutMs c)%Z /\
       (q < 1 -> sops_timeoutMs c = 1%Z)%Q /\
       (1 <= q -> inject_Z (sops_timeoutMs c) <= q
                  /\ q < inject_Z (sops_timeoutMs c + 1))%Q) /\
    (isFiniteNumber t = false -> sops_timeoutMs c = DEFAULT_SOPS_TIMEOUT_MS).
Proof.
  intros Hfs Hty Hpath Ht.
  assert (truthy fs = true) as Htr.
  { destruct fs as [[]|l]; simpl in *; try done. }
  eexists. split.
  - unfold configuredFileSource in Hfs.
    unfold decryptSopsFile, bind, getProp, optChain, throw, ret.
    destruct (readProp (heap s) config "secrets") as [secrets|e]; [|done].
    destruct (readOptProp (heap s) secrets "sources") as [sources|e]; [|done].
    rewrite Hfs, Htr. simpl. rewrite Hty. simpl. rewrite Hpath, Ht.
    unfold callDecryptSopsJsonFile. reflexivity.
  - simpl. split; [done|]. split; [done|]. split.
    + intros q ->. split; [lia|]. split.
      * intros Hq. apply Z.max_l.
        assert (Qfloor q < 1)%Z; [|lia].
        apply Z.lt_nge. intros Hge.
        pose proof (Qfloor_le q) as Hfl.
        assert (inject_Z 1 <= inject_Z (Qfloor q))%Q as Hi
          by (by rewrite <- Zle_Qle).
        apply (Qlt_not_le _ _ Hq). by eapply Qle_trans.
      * intros Hq.
        assert (1 <= Qfloor q)%Z as Hge.
        { change 1%Z with (Qfloor 1). by apply Qfloor_resp_le. }
        rewrite Z.max_r by done. split; [apply Qfloor_le|apply Qlt_floor].
    + intros Hnf. destruct t as [[| | |[]|]|]; simpl in *; done.
Qed.
End GuardsAndDecrypt.

Section GuardsAndDecryptWitnesses.
#[local] Existing Instance Reference.collaborators.

Lemma unsupported_source_rejected_witness :
  resolveSecretRefValue (mkSecretRef "vault" "kv/acme") 7 sampleUnconfigured
  = (Err (UnsupportedSource "vault"), sampleUnconfigured).
Proof.
  apply (unsupported_source_rejected (mkSecretRef "vault" "kv/acme") 7);
    discriminate.
Defined.

Lemma decrypt_call_parameters_witness :
  exists c,
    decryptSopsFile (VRef 3) (sampleTimeoutConfig (PNum (Finite (1 # 2))))
    = (decryptSopsJsonFile c,
       with_sopsCalls [c] (sampleTimeoutConfig (PNum (Finite (1 # 2))))) /\
    sops_path c = "/secrets.enc.json" /\
    sops_timeoutMs c = 1%Z.
Proof.
  destruct (decrypt_call_parameters (VRef 3)
              (sampleTimeoutConfig (PNum (Finite (1 # 2)))) (VRef 0)
              "/secrets.enc.json" (VNum (Finite (1 # 2)))
              eq_refl eq_refl eq_refl eq_refl)
    as (c & Hrun & Hpath & _ & Hfin & _).
  exists c. split; [exact Hrun|]. split; [exact Hpath|].
  destruct (Hfin (1 # 2) eq_refl) as (_ & Hsmall & _). by apply Hsmall.
Defined.
End GuardsAndDecryptWitnesses.

(** ** Candidate agent directories *)

Lemma setOrder_elem seen xs x :
  x ∈ setOrder seen xs <-> x ∈ xs /\ x ∉ seen.
Proof.
  revert seen. induction xs as [|y xs IH]; intros seen; simpl.
  - rewrite elem_of_nil. tauto.
  - case_bool_decide as Hy.
    + rewrite IH, elem_of_cons. split.
      * intros [Hin Hn]. split; [by right|done].
      * intros [[->|Hin] Hn]; [done|by split].
    + rewrite !elem_of_cons, IH, elem_of_cons. split.
      * intros [->|[Hin Hn]]; [by split; [left|]|].
        split; [by right|]. intros Hs. apply Hn. by right.
      * intros [[->|Hin] Hn]; [by left|].
        destruct (decide (x = y)) as [->|Hne]; [by left|].
        right. split; [done|]. by intros [?|?].
Qed.

Lemma setOrder_NoDup seen xs : NoDup (setOrder seen xs).
Proof.
  revert seen. induction xs as [|y xs IH]; intros seen; simpl.
  - constructor.
  - case_bool_decide as Hy; [apply IH|].
    constructor; [|apply IH]. rewrite setOrder_elem.
    intros [_ Hn]. apply Hn, elem_of_cons. by left.
Qed.

Lemma setOrder_sublist seen xs : sublist (setOrder seen xs) xs.
Proof.
  revert seen. induction xs as [|y xs IH]; intros seen; simpl.
  - constructor.
  - case_bool_decide as Hy.
    + by apply sublist_cons.
    + by apply sublist_skip.
Qed.

(** The order of first mention: of two members of [setOrder seen xs],
    the one that comes first is mentioned in [xs] before the other is. *)
Lemma setOrder_order seen xs i j d e :
  setOrder seen xs !! i = Some d -> setOrder seen xs !! j = Some e -> i < j ->
  exists k, xs !! k = Some d /\ forall k', k' <= k -> xs !! k' <> Some e.
Proof.
  revert seen i j. induction xs as [|y xs IH]; intros seen i j; simpl.
  - by rewrite lookup_nil.
  - case_bool_decide as Hy.
    + intros Hi Hj Hij. destruct (IH _ _ _ Hi Hj Hij) as (k & Hk & Hbefore).
      exists (S k). split; [done|]. intros [|k'] Hk'; simpl.
      * intros [= ->]. apply list_elem_of_lookup_2, setOrder_elem in Hj as [_ Hn].
        done.
      * apply Hbefore. lia.
    + intros Hi Hj Hij. destruct j as [|j]; [lia|]. simpl in Hj.
      assert (e <> y) as Hne.
      { intros ->. apply list_elem_of_lookup_2, setOrder_elem in Hj as [_ Hn].
        apply Hn. by left. }
      destruct i as [|i]; simpl in Hi.
      * injection Hi as ->. exists 0. split; [done|].
        intros k' Hk'. assert (k' = 0) as -> by lia. simpl. congruence.
      * destruct (IH _ _ _ Hi Hj) as (k & Hk & Hbefore); [lia|].
        exists (S k). split; [done|]. intros [|k'] Hk'; simpl.
        -- congruence.
        -- apply Hbefore. lia.
Qed.

Section CandidateDirs.
Context `{Collaborators}.

(** collectCandidateAgentDirs lists the default agent directory first,
    then the directory of every listed agent, each as resolveUserPath
    gives it; no directory is listed twice, and the directories come in
    the order of their first mention: of two directories of the result,
    the one that comes first is mentioned before the other is mentioned
    at all. *)
Theorem candidate_agent_dirs (h : Heap) (config : val) :
  let mentioned :=
    resolveUserPath resolveOpenClawAgentDir
      :: ((fun agentId => resolveUserPath (resolveAgentDir h config agentId))
            <$> listAgentIds h config) in
  let dirs := collectCandidateAgentDirs h config in
  NoDup dirs /\
  head dirs = Some (resolveUserPath resolveOpenClawAgentDir) /\
  (forall d, d ∈ dirs <-> d ∈ mentioned) /\
  sublist dirs mentioned /\
  (forall i j d e,
     dirs !! i = Some d -> dirs !! j = Some e -> i < j ->
     exists k, mentioned !! k = Some d /\
               forall k', k' <= k -> mentioned !! k' <> Some e).
Proof.
  cbv zeta. unfold collectCandidateAgentDirs. split_and!.
  - apply setOrder_NoDup.
  - done.
  - intros d. rewrite setOrder_elem. split; [by intros [? _]|].
    intros Hd. split; [done|]. by intros ?%elem_of_nil.
  - apply setOrder_sublist.
  - apply setOrder_order.
Qed.

Lemma candidate_dirs_NoDup h config : NoDup (collectCandidateAgentDirs h config).
Proof. apply setOrder_NoDup. Qed.
End CandidateDirs.

(** ** Invariants of a run *)

Lemma with_heap_same s : with_heap (heap s) s = s.
Proof. by destruct s. Qed.

Lemma storeOnly_preserves {A} P (m : M A) :
  heapBlind P -> storeOnly m -> preserves P m.
Proof.
  intros Hb Hm s r s' HP E. destruct (Hm s) as [h Hh]. rewrite E in Hh.
  simpl in Hh. subst s'. by apply Hb.
Qed.

Lemma storeOnly_ret {A} (a : A) : storeOnly (ret a).
Proof. intros s. exists (heap s). by rewrite with_heap_same. Qed.

Lemma storeOnly_throw {A} e : storeOnly (@throw A e).
Proof. intros s. exists (heap s). by rewrite with_heap_same. Qed.

Lemma storeOnly_bind {A B} (m : M A) (k : A -> M B) :
  storeOnly m -> (forall a, storeOnly (k a)) -> storeOnly (bind m k).
Proof.
  intros Hm Hk s. unfold bind. destruct (Hm s) as [h Hh].
  destruct (m s) as [[a|e] s1]; simpl in Hh; subst s1.
  - destruct (Hk a (with_heap h s)) as [h' Hh']. exists h'. by rewrite Hh'.
  - by exists h.
Qed.

Lemma storeOnly_getProp target k : storeOnly (getProp target k).
Proof. intros s. exists (heap s). by rewrite with_heap_same. Qed.

Lemma storeOnly_optChain target k : storeOnly (optChain target k).
Proof. intros s. exists (heap s). by rewrite with_heap_same. Qed.

Lemma storeOnly_objectEntries v : storeOnly (objectEntries v).
Proof. intros s. exists (heap s). by rewrite with_heap_same. Qed.

Lemma storeOnly_getHeap : storeOnly getHeap.
Proof. intros s. exists (heap s). by rewrite with_heap_same. Qed.

Lemma storeOnly_alloc o : storeOnly (alloc o).
Proof. intros s. by eexists. Qed.

Lemma storeOnly_setProp target k v : storeOnly (setProp target k v).
Proof.
  intros s. unfold setProp. destruct target as [p|l].
  - exists (heap s). by rewrite with_heap_same.
  - destruct (heap s !! l) as [[ps|xs]|]; simpl;
      [by eexists|exists (heap s); by rewrite with_heap_same..].
Qed.

Lemma storeOnly_arrayPush arr v : storeOnly (arrayPush arr v).
Proof.
  intros s. unfold arrayPush. destruct arr as [p|l].
  - exists (heap s). by rewrite with_heap_same.
  - destruct (heap s !! l) as [[ps|xs]|]; simpl;
      [exists (heap s); by rewrite with_heap_same|by eexists
      |exists (heap s); by rewrite with_heap_same].
Qed.

Lemma storeOnly_arrayItems v : storeOnly (arrayItems v).
Proof.
  intros s. exists (heap s). rewrite with_heap_same. unfold arrayItems.
  destruct v as [p|l]; [done|]. by destruct (heap s !! l) as [[ps|xs]|].
Qed.

Lemma storeOnly_materialize t : storeOnly (materialize t).
Proof.
  intros s. unfold materialize. destruct (materialize_tree t (heap s)) as [v h'].
  by exists h'.
Qed.

Lemma storeOnly_structuredClone fuel v : storeOnly (structuredClone fuel v).
Proof.
  intros s. unfold structuredClone. destruct (readback fuel (heap s) v) as [t|].
  - apply storeOnly_materialize.
  - exists (heap s). by rewrite with_heap_same.
Qed.

Lemma storeOnly_pushWarning warnings code path message :
  storeOnly (pushWarning warnings code path message).
Proof.
  apply storeOnly_bind; [apply storeOnly_alloc|].
  intros w. apply storeOnly_arrayPush.
Qed.

Lemma preserves_ret {A} P (a : A) : preserves P (ret a).
Proof. intros s r s' HP [= _ <-]. done. Qed.

Lemma preserves_throw {A} P e : preserves P (@throw A e).
Proof. intros s r s' HP [= _ <-]. done. Qed.

Lemma preserves_bind {A B} P (m : M A) (k : A -> M B) :
  preserves P m -> (forall a, preserves P (k a)) -> preserves P (bind m k).
Proof.
  intros Hm Hk s r s' HP E. unfold bind in E.
  destruct (m s) as [[a|e] s1] eqn:Em.
  - eapply Hk; [|exact E]. by eapply Hm.
  - injection E as _ <-. by eapply Hm.
Qed.

Lemma preserves_forEach {A} P (xs : list A) (body : A -> M unit) :
  (forall x, preserves P (body x)) -> preserves P (forEach xs body).
Proof.
  intros Hbody. induction xs as [|x xs IH]; simpl.
  - apply preserves_ret.
  - apply preserves_bind; [apply Hbody|]. intros _. exact IH.
Qed.

(** The walks touch the state through the object store and through
    resolveSecretRefValue only: a property that does not look at the
    store and that every resolution in [context] keeps is kept by all of
    them. *)
Section Walks.
Context `{Collaborators}.
Context (P : State -> Prop) (context : nat).
Hypothesis P_blind : heapBlind P.
Hypothesis P_resolve : forall ref, preserves P (resolveSecretRefValue ref context).

Ltac store_only :=
  first [ apply storeOnly_getProp | apply storeOnly_optChain
        | apply storeOnly_objectEntries | apply storeOnly_getHeap
        | apply storeOnly_alloc | apply storeOnly_setProp
        | apply storeOnly_arrayPush | apply storeOnly_structuredClone
        | apply storeOnly_pushWarning | apply storeOnly_ret ].

Ltac keeps_with known :=
  repeat first
    [ apply preserves_ret
    | apply preserves_throw
    | apply P_resolve
    | known
    | (apply preserves_forEach; intros ?)
    | (apply storeOnly_preserves; [exact P_blind|store_only])
    | (apply preserves_bind; [|intros ?])
    | match goal with
      | |- preserves _ (if ?b then _ else _) => destruct b
      | |- preserves _ (match ?x with _ => _ end) => destruct x
      end ].

Ltac keeps := keeps_with fail.

Lemma resolveGoogleChatServiceAccount_keeps target path warnings :
  preserves P (resolveGoogleChatServiceAccount target path context warnings).
Proof. unfold resolveGoogleChatServiceAccount. keeps. Qed.

Lemma resolveProviderApiKey_keeps entry :
  preserves P (resolveProviderApiKey context entry).
Proof. unfold resolveProviderApiKey. keeps. Qed.

Lemma resolveGoogleChatAccount_keeps warnings entry :
  preserves P (resolveGoogleChatAccount context warnings entry).
Proof.
  unfold resolveGoogleChatAccount.
  keeps_with ltac:(apply resolveGoogleChatServiceAccount_keeps).
Qed.

Lemma resolveConfigSecretRefs_keeps fuel config warnings :
  preserves P (resolveConfigSecretRefs fuel config context warnings).
Proof.
  unfold resolveConfigSecretRefs.
  keeps_with ltac:(first [ apply resolveProviderApiKey_keeps
                         | apply resolveGoogleChatServiceAccount_keeps
                         | apply resolveGoogleChatAccount_keeps ]).
Qed.

Lemma resolveCredential_keeps warnings agentDir profileId profile field refField :
  preserves P (resolveCredential context warnings agentDir profileId profile
                 field refField).
Proof. unfold resolveCredential. keeps. Qed.

Lemma resolveProfile_keeps warnings agentDir entry :
  preserves P (resolveProfile context warnings agentDir entry).
Proof.
  unfold resolveProfile. keeps_with ltac:(apply resolveCredential_keeps).
Qed.

Lemma resolveAuthStoreSecretRefs_keeps fuel store warnings agentDir :
  preserves P (resolveAuthStoreSecretRefs fuel store context warnings agentDir).
Proof.
  unfold resolveAuthStoreSecretRefs.
  keeps_with ltac:(apply resolveProfile_keeps).
Qed.

Lemma resolveAgentStore_keeps fuel loadAuthStore warnings authStores agentDir :
  preserves P (resolveAgentStore fuel loadAuthStore context warnings authStores
                 agentDir).
Proof.
  unfold resolveAgentStore.
  keeps_with ltac:(apply resolveAuthStoreSecretRefs_keeps).
Qed.
End Walks.

Section OneContext.
Context `{Collaborators}.

(** A resolution leaves the active snapshot and the registries alone. *)
Lemma resolve_registries ref context s :
  let s' := snd (resolveSecretRefValue ref context s) in
  activeSnapshot s' = activeSnapshot s /\
  runtimeConfigSnapshot s' = runtimeConfigSnapshot s /\
  runtimeAuthStoreSnapshots s' = runtimeAuthStoreSnapshots s.
Proof.
  cbv zeta.
  destruct (decide (trim (ref_id ref) = "")) as [Hid|Hid].
  { rewrite resolve_other_effect; [done|by left]. }
  destruct (decide (ref_source ref = "file")) as [Hsrc|Hsrc].
  2:{ rewrite resolve_other_effect; [done|by right]. }
  destruct (contexts s !! context) as [ctx|] eqn:Hctx.
  2:{ unfold resolveSecretRefValue. apply String.eqb_neq in Hid.
      rewrite Hid, Hsrc. simpl. unfold bind, getContext. by rewrite Hctx. }
  assert (forall p s1, let s2 := snd (lookupInPayload p (trim (ref_id ref)) s1) in
            activeSnapshot s2 = activeSnapshot s1 /\
            runtimeConfigSnapshot s2 = runtimeConfigSnapshot s1 /\
            runtimeAuthStoreSnapshots s2 = runtimeAuthStoreSnapshots s1) as Hl.
  { intros p s1. unfold lookupInPayload, bind, await, materialize, throw.
    destruct p as [payload|e]; [|done].
    destruct (readJsonPointer payload _); [|done].
    by destruct (materialize_tree t (heap s1)). }
  destruct (ctx_fileSecretsPromise ctx) as [p|] eqn:Hslot.
  - rewrite (resolve_file_cached _ _ _ _ _ Hsrc Hid Hctx Hslot). apply Hl.
  - destruct (decryptSopsFile (ctx_config ctx) s) as [r s1] eqn:Hd.
    rewrite (resolve_file_first _ _ _ _ _ _ Hsrc Hid Hctx Hslot Hd).
    destruct (Hl r (with_contexts (<[context:=withPromise ctx r]> (contexts s)) s1))
      as (-> & -> & ->).
    by destruct (decryptSopsFile_effect _ _ _ _ Hd) as [-> | [c ->]].
Qed.

Lemma oneContext_blind s0 config env : heapBlind (oneContext s0 config env).
Proof. intros s h (slot & calls & Hs). by exists slot, calls. Qed.

Lemma oneContext_resolve s0 config env ref :
  preserves (oneContext s0 config env)
    (resolveSecretRefValue ref (length (contexts s0))).
Proof.
  intros s r s' (slot & calls & Hc & Hs & Hlen & Hnone & Ha & Hrc & Hra) E.
  assert (contexts s !! length (contexts s0) = Some (mkContext config env slot))
    as Hctx.
  { rewrite Hc. by apply list_lookup_middle. }
  pose proof (resolve_registries ref (length (contexts s0)) s) as Hreg.
  pose proof (resolve_effect ref _ _ s Hctx) as He.
  rewrite E in Hreg, He. simpl in Hreg, He. destruct Hreg as (Ha' & Hrc' & Hra').
  destruct He as [[Hc' Hs']|(Hslot & p & calls' & Hc' & Hs' & Hlen')].
  - exists slot, calls. split_and!; try done; congruence.
  - simpl in Hslot. subst slot. rewrite (Hnone eq_refl) in *.
    exists (Some p), calls'. split_and!; try done; try congruence.
    + rewrite Hc', Hc.
      rewrite (insert_app_r_alt _ _ (length (contexts s0))) by lia.
      by rewrite Nat.sub_diag.
    + by rewrite Hs', Hs, app_nil_r.
Qed.

(** Whether it succeeds or fails, one prepare call creates exactly one
    resolver context, on the configuration it was given and on the
    environment it was given (process.env when none was), and leaves the
    contexts that existed alone; all its resolutions go through that
    context, so that it invokes the decrypt facility at most once, and
    not at all if the cache slot of the context is empty at the end.
    It does not touch the active snapshot or the registries. *)
Theorem prepare_decrypts_at_most_once (fuel : nat) (config : val)
    (env : option (gmap string string)) (agentDirs : option (list string))
    (loadAuthStore : option (string -> val)) (s : State) :
  let s' := snd (prepareSecretsRuntimeSnapshot fuel config env agentDirs
                   loadAuthStore s) in
  exists slot calls,
    contexts s' = contexts s ++ [mkContext config (default process_env env) slot] /\
    sopsCalls s' = sopsCalls s ++ calls /\
    length calls <= 1 /\
    (slot = None -> calls = []) /\
    activeSnapshot s' = activeSnapshot s /\
    runtimeConfigSnapshot s' = runtimeConfigSnapshot s /\
    runtimeAuthStoreSnapshots s' = runtimeAuthStoreSnapshots s.
Proof.
  cbv zeta.
  destruct (prepareSecretsRuntimeSnapshot fuel config env agentDirs loadAuthStore s)
    as [r s'] eqn:E. simpl.
  unfold prepareSecretsRuntimeSnapshot in E.
  rewrite (bind_run (alloc (Arr [])) _ s (VRef (length (heap s)))
             (with_heap (heap s ++ [Arr []]) s) eq_refl) in E.
  rewrite (bind_run (newContext (mkContext config (default process_env env) None)) _
             (with_heap (heap s ++ [Arr []]) s) (length (contexts s))
             (with_contexts (contexts s ++ [mkContext config (default process_env env) None])
                (with_heap (heap s ++ [Arr []]) s)) eq_refl) in E.
  set (P := oneContext s config (default process_env env)).
  assert (heapBlind P) as Hb by apply oneContext_blind.
  assert (forall ref, preserves P (resolveSecretRefValue ref (length (contexts s))))
    as Hr by (intros ref; apply oneContext_resolve).
  change (P s'). revert E.
  match goal with |- ?m ?s1 = _ -> _ => cut (preserves P m) end.
  { intros Hp E. eapply Hp; [|exact E].
    exists None, []. simpl. rewrite app_nil_r. split_and!; try done. lia. }
  apply preserves_bind; [by apply resolveConfigSecretRefs_keeps|]. intros rc.
  apply preserves_bind; [apply storeOnly_preserves; [done|apply storeOnly_getHeap]|].
  intros h.
  apply preserves_bind; [apply storeOnly_preserves; [done|apply storeOnly_alloc]|].
  intros a.
  apply preserves_bind.
  { apply preserves_forEach. intros d. by apply resolveAgentStore_keeps. }
  intros _.
  apply preserves_bind;
    [apply storeOnly_preserves; [done|apply storeOnly_structuredClone]|].
  intros sc. apply storeOnly_preserves; [done|apply storeOnly_alloc].
Qed.
End OneContext.

(** ** The auth stores of a snapshot *)

Section AuthStores.
Context `{Collaborators}.

(** The steps of a successful prepare, with the directories it visits. *)
Lemma prepare_Ok_dirs fuel config env agentDirs loadAuthStore s snapshot s' :
  prepareSecretsRuntimeSnapshot fuel config env agentDirs loadAuthStore s
  = (Ok snapshot, s') ->
  let w := length (heap s) in
  let context := length (contexts s) in
  let s1 :=
    with_contexts (contexts s ++ [mkContext config (default process_env env) None])
      (with_heap (heap s ++ [Arr []]) s) in
  exists resolvedConfig s3 s5 sourceConfig s6,
    let dirs :=
      match agentDirs with
      | Some (d :: ds) => setOrder [] (resolveUserPath <$> (d :: ds))
      | _ => collectCandidateAgentDirs (heap s3) resolvedConfig
      end in
    resolveConfigSecretRefs fuel config context (VRef w) s1
    = (Ok resolvedConfig, s3) /\
    forEach dirs
      (resolveAgentStore fuel (default loadAuthProfileStoreForRuntime loadAuthStore)
         context (VRef w) (VRef (length (heap s3))))
      (with_heap (heap s3 ++ [Arr []]) s3)
    = (Ok tt, s5) /\
    structuredClone fuel config s5 = (Ok sourceConfig, s6) /\
    snapshot = VRef (length (heap s6)) /\
    s' = with_heap
           (heap s6 ++ [Obj [("sourceConfig", sourceConfig);
                             ("config", resolvedConfig);
                             ("authStores", VRef (length (heap s3)));
                             ("warnings", VRef w)]]) s6.
Proof.
  intros E. unfold prepareSecretsRuntimeSnapshot in E. cbv zeta.
  apply bind_Ok in E as (warnings & s1 & E1 & E). apply alloc_Ok in E1 as [-> ->].
  apply bind_Ok in E as (context & s2 & E2 & E).
  unfold newContext in E2. injection E2 as <- <-.
  apply bind_Ok in E as (resolvedConfig & s3 & E3 & E).
  apply bind_Ok in E as (h & s4 & E4 & E). apply getHeap_Ok in E4 as [-> ->].
  apply bind_Ok in E as (authStores & s4 & E4 & E). apply alloc_Ok in E4 as [-> ->].
  apply bind_Ok in E as ([] & s5 & E5 & E).
  apply bind_Ok in E as (sourceConfig & s6 & E6 & E).
  apply alloc_Ok in E as [-> ->].
  exists resolvedConfig, s3, s5, sourceConfig, s6.
  split_and!; [exact E3|exact E5|exact E6|done|done].
Qed.

(** One turn of the loop over the candidate directories appends one
    entry, for the directory of the turn, to the array of auth stores, and
    leaves the entries that are there as they are. *)
Lemma resolveAgentStore_entry fuel loader context w a n0 d s s' es done :
  a <> w -> n0 <= length (heap s) ->
  heap s !! a = Some (Arr es) ->
  Forall2 (entryFor n0 (heap s)) es done ->
  resolveAgentStore fuel loader context (VRef w) (VRef a) d s = (Ok tt, s') ->
  exists e,
    n0 <= length (heap s') /\
    heap s' !! a = Some (Arr (es ++ [e])) /\
    Forall2 (entryFor n0 (heap s')) (es ++ [e]) (done ++ [d]).
Proof.
  intros Haw Hn0 Ha Hes E. unfold resolveAgentStore in E.
  apply bind_Ok in E as (rs & sa & E1 & E).
  apply (resolveAuthStoreSecretRefs_grows (fun l => l = w) (heap s)) in E1
    as [Hg Hrs]; [|apply grows_refl|by right].
  apply bind_Ok in E as (entry & sb & E2 & E). apply alloc_Ok in E2 as [-> ->].
  apply arrayPush_Ok in E as (l & xs & [= <-] & Hl & ->). simpl in *.
  destruct Hg as (Hlen & Hold & _).
  assert (forall l' ps, heap s !! l' = Some (Obj ps) ->
                        heap sa !! l' = Some (Obj ps)) as Hobj.
  { intros l' ps Hl'. by destruct (Hold l' _ Hl') as [?|(_ & ? & ? & ? & _)]. }
  assert (heap sa !! a = Some (Arr es)) as Ha'.
  { by destruct (Hold a _ Ha) as [?|(? & _)]. }
  assert (a < length (heap sa)) as Hlt by (by eapply lookup_lt_Some).
  rewrite (lookup_app_l_Some _ _ _ _ Ha') in Hl. injection Hl as <-.
  exists (VRef (length (heap sa))). split_and!.
  - rewrite length_insert, length_app. lia.
  - apply list_lookup_insert_eq. rewrite length_app. lia.
  - apply Forall2_app.
    + eapply Forall2_impl; [exact Hes|].
      intros e d' (l' & st & -> & Hcell & Hst). exists l', st.
      split_and!; [done| |done].
      rewrite list_lookup_insert_ne.
      * apply lookup_app_l_Some. by apply Hobj.
      * intros <-. apply Hobj in Hcell. congruence.
    + constructor; [|constructor].
      exists (length (heap sa)), rs. split_and!; [done| |].
      * rewrite list_lookup_insert_ne by lia. by apply list_lookup_middle.
      * eapply fresh_le; [exact Hn0|exact Hrs].
Qed.

Lemma resolveAgentStore_entries fuel loader context w a n0 dirs :
  forall s s' es done,
    a <> w -> n0 <= length (heap s) ->
    heap s !! a = Some (Arr es) ->
    Forall2 (entryFor n0 (heap s)) es done ->
    forEach dirs (resolveAgentStore fuel loader context (VRef w) (VRef a)) s
    = (Ok tt, s') ->
    exists es',
      heap s' !! a = Some (Arr es') /\
      Forall2 (entryFor n0 (heap s')) es' (done ++ dirs).
Proof.
  induction dirs as [|d dirs IH]; intros s s' es done Haw Hn0 Ha Hes E.
  - apply ret_Ok in E as [-> _]. exists es. by rewrite app_nil_r.
  - simpl in E. apply bind_Ok in E as ([] & s1 & E1 & E).
    destruct (resolveAgentStore_entry _ _ _ _ _ _ _ _ _ _ _ Haw Hn0 Ha Hes E1)
      as (e & Hn1 & Ha1 & Hes1).
    destruct (IH _ _ _ _ Haw Hn1 Ha1 Hes1 E) as (es' & Ha' & Hes').
    exists es'. split; [done|]. by rewrite <- app_assoc in Hes'.
Qed.

(** The authStores of a snapshot that prepare returns hold one entry for
    each directory prepare visits, in the order of the visits, and no
    directory is there twice.  With a non-empty [agentDirs] the
    directories are those given, as resolveUserPath gives them, each at
    its first mention; without one, or with an empty one, they are the
    candidate directories collected from the resolved config, in the
    store as the config walk of the call left it.  The store
    of an entry is none of the objects that existed before the call, the
    stores the loader handed out among them. *)
Theorem prepare_lists_agent_dirs (fuel : nat) (config : val)
    (env : option (gmap string string)) (agentDirs : option (list string))
    (loadAuthStore : option (string -> val)) (s : State)
    (snapshot : val) (s' : State) :
  prepareSecretsRuntimeSnapshot fuel config env agentDirs loadAuthStore s
  = (Ok snapshot, s') ->
  exists dirs authStores entries,
    NoDup dirs /\
    (forall d ds, agentDirs = Some (d :: ds) ->
                  dirs = setOrder [] (resolveUserPath <$> d :: ds)) /\
    (agentDirs = None \/ agentDirs = Some [] ->
     exists resolvedConfig s3,
       resolveConfigSecretRefs fuel config (length (contexts s))
         (VRef (length (heap s)))
         (with_contexts
            (contexts s ++ [mkContext config (default process_env env) None])
            (with_heap (heap s ++ [Arr []]) s))
       = (Ok resolvedConfig, s3) /\
       readProp (heap s') snapshot "config" = Ok resolvedConfig /\
       dirs = collectCandidateAgentDirs (heap s3) resolvedConfig) /\
    readProp (heap s') snapshot "authStores" = Ok authStores /\
    readArray (heap s') authStores = Some entries /\
    Forall2 (entryFor (length (heap s)) (heap s')) entries dirs.
Proof.
  intros E.
  destruct (prepare_Ok_dirs _ _ _ _ _ _ _ _ E)
    as (resolvedConfig & s3 & s5 & sourceConfig & s6 & E3 & E5 & E6 & -> & ->).
  set (dirs := match agentDirs with
               | Some (d :: ds) => setOrder [] (resolveUserPath <$> d :: ds)
               | _ => collectCandidateAgentDirs (heap s3) resolvedConfig
               end) in *.
  assert (length (heap s) < length (heap s3)) as Hlen3.
  { eapply (resolveConfigSecretRefs_grows (fun _ => True) (heap s ++ [Arr []]))
      in E3 as [(Hl & _) _]; [|apply grows_refl|].
    - rewrite length_app in Hl. simpl in Hl. lia.
    - by right. }
  assert (length (heap s3) <> length (heap s)) as Haw by lia.
  assert (length (heap s) <= length (heap (with_heap (heap s3 ++ [Arr []]) s3)))
    as Hn0 by (simpl; rewrite length_app; lia).
  assert (heap (with_heap (heap s3 ++ [Arr []]) s3) !! length (heap s3)
          = Some (Arr [])) as Ha0 by (simpl; by apply list_lookup_middle).
  destruct (resolveAgentStore_entries _ _ _ _ _ (length (heap s)) dirs _ _ [] []
              Haw Hn0 Ha0 ltac:(constructor) E5)
    as (entries & Ha & Hes).
  destruct (structuredClone_Ok _ _ _ _ _ E6) as (t & ext & _ & -> & _ & _ & _).
  simpl heap. simpl in Hes.
  exists dirs, (VRef (length (heap s3))), entries.
  assert (forall l o, heap s5 !! l = Some o ->
            ((heap s5 ++ ext)
               ++ [Obj [("sourceConfig", sourceConfig); ("config", resolvedConfig);
                        ("authStores", VRef (length (heap s3)));
                        ("warnings", VRef (length (heap s)))]]) !! l = Some o)
    as Hkeep.
  { intros l o Hl. by do 2 apply lookup_app_l_Some. }
  split_and!.
  - subst dirs. destruct agentDirs as [[|d ds]|];
      [apply candidate_dirs_NoDup|apply setOrder_NoDup|apply candidate_dirs_NoDup].
  - by intros d ds ->.
  - intros Hnone. exists resolvedConfig, s3. split_and!.
    + exact E3.
    + unfold readProp. by rewrite list_lookup_middle.
    + subst dirs. by destruct Hnone as [-> | ->].
  - unfold readProp. by rewrite list_lookup_middle.
  - simpl. by rewrite (Hkeep _ _ Ha).
  - eapply Forall2_impl; [exact Hes|].
    intros e d (l & st & -> & Hcell & Hst). exists l, st.
    split_and!; [done|by apply Hkeep|done].
Qed.
End AuthStores.

Section AuthStoresWitnesses.
#[local] Existing Instance Reference.collaborators.

Lemma prepare_lists_agent_dirs_witness :
  let run :=
    prepareSecretsRuntimeSnapshot 5 (VRef 4) (Some sampleEnv)
      (Some ["/agents/main"; "/agents/main"]) (Some (fun _ => VRef 8))
      samplePrepareState in
  exists authStores entries,
    readProp (heap (snd run)) (VRef 27) "authStores" = Ok authStores /\
    readArray (heap (snd run)) authStores = Some entries /\
    Forall2 (entryFor (length (heap samplePrepareState)) (heap (snd run)))
      entries ["/agents/main"].
Proof.
  cbv zeta.
  destruct (prepare_lists_agent_dirs 5 (VRef 4) (Some sampleEnv)
              (Some ["/agents/main"; "/agents/main"]) (Some (fun _ => VRef 8))
              samplePrepareState (VRef 27)
              (snd (prepareSecretsRuntimeSnapshot 5 (VRef 4) (Some sampleEnv)
                      (Some ["/agents/main"; "/agents/main"])
                      (Some (fun _ => VRef 8)) samplePrepareState)))
    as (dirs & authStores & entries & _ & Hdirs & _ & Ha & Hr & Hes).
  { vm_compute. reflexivity. }
  exists authStores, entries. split; [exact Ha|]. split; [exact Hr|].
  rewrite (Hdirs _ _ eq_refl) in Hes. exact Hes.
Defined.
End AuthStoresWitnesses.

(** ** The store walk on a store without secret references *)

Lemma readback_isString n h v t str :
  readback n h v = Some t -> isString v str = tisString t str.
Proof.
  destruct v as [p|l]; intros Hr.
  - by apply readback_prim in Hr as ->.
  - by apply readback_ref_inv in Hr as (m & -> & [(? & ? & ? & -> & ?)
                                                 |(? & ? & ? & -> & ?)]).
Qed.

Section RefFreeStore.
Context `{Collaborators}.

Lemma resolveCredential_noop context warnings agentDir profileId profile
    field refField s n tp :
  readback n (heap s) profile = Some tp ->
  tnullish tp = false ->
  tisSecretRef (tget tp refField) = false ->
  resolveCredential context warnings agentDir profileId profile field refField s
  = (Ok tt, s).
Proof.
  intros Hr Hn Hg.
  destruct (readback_get _ _ _ _ refField Hr Hn) as (refValue & Ha & Hra).
  destruct (readback_get _ _ _ _ field Hr Hn) as (plain & Hb & _).
  unfold resolveCredential.
  rewrite (bind_run _ _ _ _ _ (getProp_run _ _ _ _ Ha)).
  unfold bind at 1, getHeap at 1.
  rewrite (readback_asSecretRef _ _ _ _ Hra), (tisSecretRef_false _ Hg).
  rewrite (bind_run _ _ _ _ _ (getProp_run _ _ _ _ Hb)). done.
Qed.

Lemma resolveProfile_noop context warnings agentDir entry s n tp :
  readback n (heap s) (snd entry) = Some tp ->
  tnullish tp = false ->
  profileRefFree tp = true ->
  resolveProfile context warnings agentDir entry s = (Ok tt, s).
Proof.
  destruct entry as [profileId profile]. simpl. intros Hr Hn Hg.
  destruct (readback_get _ _ _ _ "type" Hr Hn) as (ty & Ha & Hra).
  unfold resolveProfile.
  rewrite (bind_run _ _ _ _ _ (getProp_run _ _ _ _ Ha)).
  unfold profileRefFree in Hg.
  rewrite !(readback_isString _ _ _ _ _ Hra).
  destruct (tisString (tget tp "type") "api_key").
  { apply negb_true_iff in Hg. by eapply resolveCredential_noop. }
  destruct (tisString (tget tp "type") "token"); [|done].
  apply negb_true_iff in Hg. by eapply resolveCredential_noop.
Qed.

(** On an auth-profile store (an object, plain data [t], with its
    profiles) in which no api_key profile has a secret reference as
    keyRef and no token profile has one as tokenRef, the store walk
    succeeds and does nothing beyond its structuredClone: it returns a
    new object that reads back as [t]; the store it was given, the
    warnings array and every other object that existed are as they were,
    so that no warning has been pushed; and no context, decrypt or
    registry is touched. *)
Theorem ref_free_store_walk (fuel : nat) (store : val) (context : nat)
    (warnings : val) (agentDir : string) (s : State) (t : tree) :
  readback fuel (heap s) store = Some t ->
  tnullish t = false ->
  profilesPresent t = true ->
  storeRefFree t = true ->
  exists resolved ext,
    resolveAuthStoreSecretRefs fuel store context warnings agentDir s
    = (Ok resolved, with_heap (heap s ++ ext) s) /\
    fresh (length (heap s)) resolved /\
    readback fuel (heap s ++ ext) resolved = Some t /\
    readback fuel (heap s ++ ext) store = Some t /\
    (forall l o, heap s !! l = Some o -> (heap s ++ ext) !! l = Some o) /\
    (forall n tw, readback n (heap s) warnings = Some tw ->
                  readback n (heap s ++ ext) warnings = Some tw).
Proof.
  intros Hr Hn Hpresent Hfree.
  apply andb_true_iff in Hpresent as [Hprofiles Hentries].
  apply negb_true_iff in Hprofiles.
  destruct (structuredClone_run _ _ _ _ Hr)
    as (resolved & ext & Hclone & _ & Hfresh & Hrr).
  exists resolved, ext. split_and!.
  - unfold resolveAuthStoreSecretRefs.
    rewrite (bind_run _ _ _ _ _ Hclone).
    set (s1 := with_heap (heap s ++ ext) s).
    change (heap s ++ ext) with (heap s1) in Hrr.
    destruct (readback_get _ _ _ _ "profiles" Hrr Hn) as (profiles & Hp & Hrp).
    rewrite (bind_run _ _ _ _ _ (getProp_run _ _ _ _ Hp)).
    destruct (readback_entries _ _ _ _ Hrp Hprofiles) as (es & He & Hf).
    rewrite (bind_run _ _ _ _ _ (objectEntries_run _ _ _ He)).
    rewrite (bind_run _ _ s1 tt s1); [done|].
    eapply (forEach_entries_noop _ _ _ _ _
              (fun te => negb (tnullish te) && profileRefFree te));
      [exact Hf|by apply forallb_both|].
    intros e te Hre Hpe. apply andb_true_iff in Hpe as [Hne Hge].
    apply negb_true_iff in Hne. by eapply resolveProfile_noop.
  - exact Hfresh.
  - exact Hrr.
  - by apply readback_app.
  - intros l o Hl. by apply lookup_app_l_Some.
  - intros n tw Hw. by apply readback_app.
Qed.
End RefFreeStore.

Section RefFreeStoreWitnesses.
#[local] Existing Instance Reference.collaborators.

Lemma ref_free_store_walk_witness :
  exists resolved ext,
    resolveAuthStoreSecretRefs 4 (VRef 5) 0 (VRef 6) "/agents/main"
      samplePlainStoreState
    = (Ok resolved, with_heap (heap samplePlainStoreState ++ ext)
                      samplePlainStoreState) /\
    fresh (length (heap samplePlainStoreState)) resolved /\
    readback 4 (heap samplePlainStoreState ++ ext) resolved = Some samplePlainStore /\
    readback 4 (heap samplePlainStoreState ++ ext) (VRef 5) = Some samplePlainStore /\
    (forall l o, heap samplePlainStoreState !! l = Some o ->
                 (heap samplePlainStoreState ++ ext) !! l = Some o) /\
    (forall n tw, readback n (heap samplePlainStoreState) (VRef 6) = Some tw ->
                  readback n (heap samplePlainStoreState ++ ext) (VRef 6) = Some tw).
Proof.
  apply (ref_free_store_walk 4 (VRef 5) 0 (VRef 6) "/agents/main"
           samplePlainStoreState samplePlainStore); vm_compute; reflexivity.
Defined.
End RefFreeStoreWitnesses.

(** ** Activation and the registries *)

Lemma field_fresh n0 ps k :
  Forall (fresh n0) (snd <$> ps) -> fresh n0 (field ps k).
Proof.
  intros Hf. unfold field. destruct (props_get k ps) as [v|] eqn:Hg; [|done].
  rewrite Forall_forall in Hf. apply Hf. by eapply props_get_in.
Qed.

Section Registries.
Context `{Collaborators}.

(** Activating a value of the snapshot type hands the registries the
    very objects that the active snapshot holds: the config registry gets
    its config and its sourceConfig, the auth-store registry its
    authStores array.  These are objects of the clone: none of them, and
    nothing reachable from them, is an object that existed before the
    call, so the registries share nothing with the snapshot that was
    passed in.  Contexts and the decrypt trace are not touched. *)
Theorem activate_publishes_clone (fuel : nat) (snapshot : val) (s : State)
    (sv : SnapshotView) :
  viewSnapshot fuel (heap s) snapshot = Some sv ->
  wellTypedView sv = true ->
  exists stored config sourceConfig authStores s1,
    activateSecretsRuntimeSnapshot fuel snapshot s = (Ok tt, s1) /\
    activeSnapshot s1 = VRef stored /\
    readProp (heap s1) (VRef stored) "config" = Ok config /\
    readProp (heap s1) (VRef stored) "sourceConfig" = Ok sourceConfig /\
    readProp (heap s1) (VRef stored) "authStores" = Ok authStores /\
    runtimeConfigSnapshot s1 = Some (config, sourceConfig) /\
    runtimeAuthStoreSnapshots s1 = Some authStores /\
    (forall v l, v = config \/ v = sourceConfig \/ v = authStores ->
                 reaches (heap s1) v l -> length (heap s) <= l) /\
    (forall l, l < length (heap s) -> heap s1 !! l = heap s !! l) /\
    contexts s1 = contexts s /\ sopsCalls s1 = sopsCalls s.
Proof.
  intros Hv Hty.
  destruct (cloneSnapshot_appends _ _ _ _ Hv Hty)
    as (next & ext & Ec & Hc & Hf & (stored & ->) & Hvn).
  destruct (viewSnapshot_cell _ _ _ _ Hvn) as (l & ps & [= <-] & Hcell).
  assert (Forall (fresh (length (heap s))) (snd <$> ps)) as Hps.
  { simpl in Hf. rewrite lookup_app_r in Hcell by done.
    unfold cells_fresh in Hc. rewrite Forall_lookup in Hc.
    exact (Hc _ _ Hcell). }
  assert (grows (fun _ => False) (heap s) (heap s ++ ext)) as Hg.
  { apply grows_append; [apply grows_refl|exact Hc]. }
  exists stored, (field ps "config"), (field ps "sourceConfig"),
    (field ps "authStores").
  eexists. split.
  { unfold activateSecretsRuntimeSnapshot, bind. rewrite Ec.
    unfold getProp, readProp, setRuntimeConfigSnapshot,
      replaceRuntimeAuthProfileStoreSnapshots, setActiveSnapshot.
    simpl. rewrite !Hcell. simpl. reflexivity. }
  cbn [heap activeSnapshot runtimeConfigSnapshot runtimeAuthStoreSnapshots
       contexts sopsCalls with_heap with_activeSnapshot
       with_runtimeConfigSnapshot with_runtimeAuthStoreSnapshots].
  unfold readProp. rewrite Hcell. simpl. split_and!; try done.
  - intros v l Hcase. apply (reaches_fresh _ _ _ _ _ Hg).
    destruct Hcase as [-> | [-> | ->]]; by apply field_fresh.
  - intros l Hl. by apply lookup_app_l.
Qed.

(** clearSecretsRuntimeSnapshot, in any state: no snapshot is active
    afterwards, both registries are empty, and the object store, the
    contexts and the decrypt trace are as they were; getActive then
    returns null, and clearing again changes nothing. *)
Lemma clear_deactivates (fuel : nat) (s : State) :
  clearSecretsRuntimeSnapshot s = (Ok tt, cleared s) /\
  getActiveSecretsRuntimeSnapshot fuel (cleared s) = (Ok VNull, cleared s) /\
  clearSecretsRuntimeSnapshot (cleared s) = (Ok tt, cleared s).
Proof. done. Qed.

(** Activating a value of the snapshot type and then clearing leaves
    nothing active: getActive returns null, the registries are empty, and
    the snapshot that was passed in still reads as it did. *)
Theorem activate_then_clear (fuel : nat) (snapshot : val) (s : State)
    (sv : SnapshotView) :
  viewSnapshot fuel (heap s) snapshot = Some sv ->
  wellTypedView sv = true ->
  exists s2,
    (activateSecretsRuntimeSnapshot fuel snapshot ;;
     clearSecretsRuntimeSnapshot ;;
     getActiveSecretsRuntimeSnapshot fuel) s = (Ok VNull, s2) /\
    activeSnapshot s2 = VNull /\
    runtimeConfigSnapshot s2 = None /\
    runtimeAuthStoreSnapshots s2 = None /\
    viewSnapshot fuel (heap s2) snapshot = Some sv.
Proof.
  intros Hv Hty.
  destruct (activate_run _ _ _ _ Hv Hty)
    as (stored & ext & s1 & Ea & Hh1 & _ & _ & _ & _).
  exists (cleared s1). split_and!; try done.
  - rewrite (bind_run _ _ _ _ _ Ea). done.
  - simpl. rewrite Hh1. eapply viewSnapshot_agree; [exact Hv|].
    intros l Hl. by apply lookup_app_l.
Qed.
End Registries.

Section RegistriesWitnesses.
#[local] Existing Instance Reference.collaborators.

Lemma activate_publishes_clone_witness :
  exists stored config sourceConfig authStores s1,
    activateSecretsRuntimeSnapshot 5 (VRef 27) sampleSnapshotState = (Ok tt, s1) /\
    activeSnapshot s1 = VRef stored /\
    readProp (heap s1) (VRef stored) "config" = Ok config /\
    readProp (heap s1) (VRef stored) "sourceConfig" = Ok sourceConfig /\
    readProp (heap s1) (VRef stored) "authStores" = Ok authStores /\
    runtimeConfigSnapshot s1 = Some (config, sourceConfig) /\
    runtimeAuthStoreSnapshots s1 = Some authStores.
Proof.
  assert (viewSnapshot 5 (heap sampleSnapshotState) (VRef 27) = Some sampleView)
    as Hview by (vm_compute; reflexivity).
  destruct (activate_publishes_clone 5 (VRef 27) sampleSnapshotState sampleView
              Hview eq_refl)
    as (stored & config & sourceConfig & authStores & s1
        & Ha & Hact & Hc & Hsc & Has & Hrc & Hra & _).
  exists stored, config, sourceConfig, authStores, s1.
  split; [exact Ha|]. split; [exact Hact|]. split; [exact Hc|].
  split; [exact Hsc|]. split; [exact Has|]. split; [exact Hrc|exact Hra].
Defined.

Lemma activate_then_clear_witness :
  exists s2,
    (activateSecretsRuntimeSnapshot 5 (VRef 27) ;;
     clearSecretsRuntimeSnapshot ;;
     getActiveSecretsRuntimeSnapshot 5) sampleSnapshotState = (Ok VNull, s2) /\
    activeSnapshot s2 = VNull /\
    runtimeConfigSnapshot s2 = None /\
    runtimeAuthStoreSnapshots s2 = None /\
    viewSnapshot 5 (heap s2) (VRef 27) = Some sampleView.
Proof.
  assert (viewSnapshot 5 (heap sampleSnapshotState) (VRef 27) = Some sampleView)
    as Hview by (vm_compute; reflexivity).
  exact (activate_then_clear 5 (VRef 27) sampleSnapshotState sampleView
           Hview eq_refl).
Defined.
End RegistriesWitnesses.

(** ** Runs that throw *)

Lemma bind_Err {A B} (m : M A) (k : A -> M B) s e s' :
  bind m k s = (Err e, s') ->
  m s = (Err e, s') \/ exists a s1, m s = (Ok a, s1) /\ k a s1 = (Err e, s').
Proof.
  unfold bind. destruct (m s) as [[a|e'] s1]; [eauto|]. intros [= -> ->]. by left.
Qed.

Lemma forEach_Err {A} (xs : list A) (body : A -> M unit) s e s' :
  forEach xs body s = (Err e, s') ->
  exists before x s1,
    before `prefix_of` xs /\ x ∈ xs /\
    forEach before body s = (Ok tt, s1) /\ body x s1 = (Err e, s').
Proof.
  revert s. induction xs as [|x xs IH]; intros s E; [done|]. simpl in E.
  apply bind_Err in E as [E|([] & s1 & E1 & E)].
  - exists [], x, s. split_and!; [apply prefix_nil|by left|done|done].
  - destruct (IH _ E) as (before & y & s2 & Hp & Hin & Eb & Ey).
    exists (x :: before), y, s2. split_and!.
    + by apply prefix_cons.
    + by right.
    + simpl. by rewrite (bind_run _ _ _ _ _ E1).
    + done.
Qed.

Lemma ret_Err {A} (a : A) s e s' : ret a s = (Err e, s') -> False.
Proof. done. Qed.

Lemma getHeap_Err s e s' : getHeap s = (Err e, s') -> False.
Proof. done. Qed.

Lemma alloc_Err o s e s' : alloc o s = (Err e, s') -> False.
Proof. done. Qed.

Lemma throw_Err {A} e0 s e s' : @throw A e0 s = (Err e, s') -> s' = s.
Proof. by intros [= _ <-]. Qed.

Lemma getProp_Err target k s e s' : getProp target k s = (Err e, s') -> s' = s.
Proof. by intros [= _ <-]. Qed.

Lemma optChain_Err target k s e s' : optChain target k s = (Err e, s') -> s' = s.
Proof. by intros [= _ <-]. Qed.

Lemma objectEntries_Err v s e s' : objectEntries v s = (Err e, s') -> s' = s.
Proof. by intros [= _ <-]. Qed.

Lemma setProp_Err target k v s e s' :
  setProp target k v s = (Err e, s') -> s' = s.
Proof.
  unfold setProp. destruct target as [p|l]; [by intros [= _ <-]|].
  destruct (heap s !! l) as [[ps|xs]|]; [done|by intros [= _ <-]..].
Qed.

Lemma arrayPush_Err arr v s e s' :
  arrayPush arr v s = (Err e, s') -> s' = s.
Proof.
  unfold arrayPush. destruct arr as [p|l]; [by intros [= _ <-]|].
  destruct (heap s !! l) as [[ps|xs]|]; [by intros [= _ <-]|done|by intros [= _ <-]].
Qed.

Lemma structuredClone_Err fuel v s e s' :
  structuredClone fuel v s = (Err e, s') -> s' = s.
Proof.
  unfold structuredClone, materialize.
  destruct (readback fuel (heap s) v) as [t|]; [|by intros [= _ <-]].
  by destruct (materialize_tree t (heap s)).
Qed.

(** The walks keep the frame when they throw as they do when they
    return: what they had assigned by then went to objects of their own
    clone, and what they had pushed went onto the warnings array. *)
Section Throwing.
Context `{Collaborators} (W : loc -> Prop) (h0 : Heap).

Lemma pushWarning_throws warnings code path message s e s' :
  grows W h0 (heap s) ->
  pushWarning warnings code path message s = (Err e, s') ->
  grows W h0 (heap s').
Proof.
  intros Hg E. unfold pushWarning in E.
  apply bind_Err in E as [E|(w & s1 & E1 & E)]; [by apply alloc_Err in E|].
  eapply (alloc_grows W h0) in E1 as [Hg1 _]; [|done|by repeat constructor].
  by apply arrayPush_Err in E as ->.
Qed.

Lemma resolveGoogleChatServiceAccount_throws target path context warnings s e s' :
  grows W h0 (heap s) ->
  pushable W (length h0) warnings ->
  resolveGoogleChatServiceAccount target path context warnings s = (Err e, s') ->
  grows W h0 (heap s').
Proof.
  intros Hg Hp E. unfold resolveGoogleChatServiceAccount in E.
  apply bind_Err in E as [E|(sar & s1 & E1 & E)]; [by apply getProp_Err in E as ->|].
  apply getProp_Ok in E1 as [-> _].
  apply bind_Err in E as [E|(sa & s1 & E1 & E)]; [by apply getProp_Err in E as ->|].
  apply getProp_Ok in E1 as [-> _].
  apply bind_Err in E as [E|(h & s1 & E1 & E)]; [by apply getHeap_Err in E|].
  apply getHeap_Ok in E1 as [-> ->].
  destruct (match asSecretRef (heap s) sar with
            | Some r => Some r
            | None => asSecretRef (heap s) sa
            end) as [ref|]; [|by apply ret_Err in E].
  apply bind_Err in E as [E|([] & s1 & E1 & E)].
  { destruct (_ && _); [by eapply pushWarning_throws|by apply ret_Err in E]. }
  assert (grows W h0 (heap s1)) as Hg1.
  { destruct (_ && _).
    - by eapply pushWarning_grows.
    - apply ret_Ok in E1 as [-> _]. done. }
  apply bind_Err in E as [E|(v & s2 & E2 & E)].
  - by destruct (resolve_grows _ _ _ _ _ _ _ Hg1 E).
  - destruct (resolve_grows _ _ _ _ _ _ _ Hg1 E2) as [Hg2 _].
    by apply setProp_Err in E as ->.
Qed.

Lemma resolveProviderApiKey_throws context entry s e s' :
  grows W h0 (heap s) ->
  resolveProviderApiKey context entry s = (Err e, s') ->
  grows W h0 (heap s').
Proof.
  intros Hg E. destruct entry as [providerId provider].
  unfold resolveProviderApiKey in E.
  apply bind_Err in E as [E|(apiKey & s1 & E1 & E)];
    [by apply getProp_Err in E as ->|].
  apply getProp_Ok in E1 as [-> _].
  apply bind_Err in E as [E|(h & s1 & E1 & E)]; [by apply getHeap_Err in E|].
  apply getHeap_Ok in E1 as [-> ->].
  destruct (asSecretRef (heap s) apiKey) as [ref|]; [|by apply ret_Err in E].
  apply bind_Err in E as [E|(v & s2 & E2 & E)].
  - by destruct (resolve_grows _ _ _ _ _ _ _ Hg E).
  - destruct (resolve_grows _ _ _ _ _ _ _ Hg E2) as [Hg2 _].
    destruct (negb (isNonEmptyString v)).
    + by apply throw_Err in E as ->.
    + by apply setProp_Err in E as ->.
Qed.

Lemma resolveGoogleChatAccount_throws context warnings entry s e s' :
  grows W h0 (heap s) ->
  pushable W (length h0) warnings ->
  resolveGoogleChatAccount context warnings entry s = (Err e, s') ->
  grows W h0 (heap s').
Proof.
  intros Hg Hp E. destruct entry as [accountId account].
  unfold resolveGoogleChatAccount in E.
  apply bind_Err in E as [E|(h & s1 & E1 & E)]; [by apply getHeap_Err in E|].
  apply getHeap_Ok in E1 as [-> ->].
  destruct (negb (isRecord (heap s) account)); [by apply ret_Err in E|].
  by eapply resolveGoogleChatServiceAccount_throws.
Qed.

(** A loop that throws: the turns before the throw returned. *)
Lemma forEach_throws {A} (xs : list A) (body : A -> M unit)
    (proj : A -> val) s e s' :
  Forall (fun x => fresh (length h0) (proj x)) xs ->
  (forall x s s', fresh (length h0) (proj x) -> grows W h0 (heap s) ->
                  body x s = (Ok tt, s') -> grows W h0 (heap s')) ->
  (forall x s e s', grows W h0 (heap s) ->
                    body x s = (Err e, s') -> grows W h0 (heap s')) ->
  grows W h0 (heap s) ->
  forEach xs body s = (Err e, s') ->
  grows W h0 (heap s').
Proof.
  intros Hxs Hok Herr Hg E.
  apply forEach_Err in E as (before & x & s1 & [rest ->] & Hin & Eb & Ex).
  eapply Herr; [|exact Ex].
  eapply (forEach_grows W h0 before body proj); [|exact Hok|exact Hg|exact Eb].
  by apply Forall_app in Hxs as [? _].
Qed.

Lemma resolveConfigSecretRefs_throws fuel config context warnings s e s' :
  grows W h0 (heap s) ->
  pushable W (length h0) warnings ->
  resolveConfigSecretRefs fuel config context warnings s = (Err e, s') ->
  grows W h0 (heap s').
Proof.
  intros Hg Hp E. unfold resolveConfigSecretRefs in E.
  apply bind_Err in E as [E|(resolved & s1 & E1 & E)];
    [by apply structuredClone_Err in E as ->|].
  apply (structuredClone_grows W h0) in E1 as [Hg1 Hr]; [|done].
  apply bind_Err in E as [E|(models & s2 & E2 & E)];
    [by apply getProp_Err in E as ->|].
  apply getProp_Ok in E2 as [-> Hm].
  apply bind_Err in E as [E|(providers & s2 & E2 & E)];
    [by apply optChain_Err in E as ->|].
  apply optChain_Ok in E2 as [-> Hps].
  pose proof (grows_read _ _ _ _ _ _ Hg1 Hr Hm) as Hfm.
  pose proof (grows_read_opt _ _ _ _ _ _ Hg1 Hfm Hps) as Hfp.
  apply bind_Err in E as [E|([] & s2 & E2 & E)].
  { destruct (truthy providers); [|by apply ret_Err in E].
    apply bind_Err in E as [E|(entries & s3 & E3 & E)];
      [by apply objectEntries_Err in E as ->|].
    apply objectEntries_Ok in E3 as [-> He].
    eapply (forEach_throws entries _ snd); [| | |exact Hg1|exact E].
    - exact (grows_entries _ _ _ _ _ Hg1 Hfp He).
    - intros x sa sb Hx Hga Ex. by eapply resolveProviderApiKey_grows.
    - intros x sa e' sb Hga Ex. by eapply resolveProviderApiKey_throws. }
  assert (grows W h0 (heap s2)) as Hg2.
  { destruct (truthy providers).
    - apply bind_Ok in E2 as (entries & s3 & E3 & E2).
      apply objectEntries_Ok in E3 as [-> He].
      eapply (forEach_grows W h0 entries _ snd); [| |exact Hg1|exact E2].
      + exact (grows_entries _ _ _ _ _ Hg1 Hfp He).
      + intros x sa sb Hx Hga Ex. by eapply resolveProviderApiKey_grows.
    - apply ret_Ok in E2 as [-> _]. done. }
  apply bind_Err in E as [E|(channels & s3 & E3 & E)];
    [by apply getProp_Err in E as ->|].
  apply getProp_Ok in E3 as [-> Hch].
  apply bind_Err in E as [E|(googleChat & s3 & E3 & E)];
    [by apply optChain_Err in E as ->|].
  apply optChain_Ok in E3 as [-> Hgc].
  pose proof (grows_read _ _ _ _ _ _ Hg2 Hr Hch) as Hfc.
  pose proof (grows_read_opt _ _ _ _ _ _ Hg2 Hfc Hgc) as Hfg.
  apply bind_Err in E as [E|([] & s3 & E3 & E)]; [|by apply ret_Err in E].
  destruct (truthy googleChat); [|by apply ret_Err in E].
  apply bind_Err in E as [E|([] & s4 & E4 & E)];
    [by eapply resolveGoogleChatServiceAccount_throws|].
  eapply (resolveGoogleChatServiceAccount_grows W h0) in E4; [|done..].
  apply bind_Err in E as [E|(accounts & s5 & E5 & E)];
    [by apply getProp_Err in E as ->|].
  apply getProp_Ok in E5 as [-> Hac].
  apply bind_Err in E as [E|(h & s5 & E5 & E)]; [by apply getHeap_Err in E|].
  apply getHeap_Ok in E5 as [-> ->].
  pose proof (grows_read _ _ _ _ _ _ E4 Hfg Hac) as Hfa.
  destruct (isRecord (heap s4) accounts); [|by apply ret_Err in E].
  apply bind_Err in E as [E|(entries & s5 & E5 & E)];
    [by apply objectEntries_Err in E as ->|].
  apply objectEntries_Ok in E5 as [-> He].
  eapply (forEach_throws entries _ snd); [| | |exact E4|exact E].
  - exact (grows_entries _ _ _ _ _ E4 Hfa He).
  - intros x sa sb Hx Hga Ex. by eapply resolveGoogleChatAccount_grows.
  - intros x sa e' sb Hga Ex. by eapply resolveGoogleChatAccount_throws.
Qed.

Lemma resolveCredential_throws context warnings agentDir profileId profile
    plain refField s e s' :
  grows W h0 (heap s) ->
  pushable W (length h0) warnings ->
  resolveCredential context warnings agentDir profileId profile plain refField s
  = (Err e, s') ->
  grows W h0 (heap s').
Proof.
  intros Hg Hp E. unfold resolveCredential in E.
  apply bind_Err in E as [E|(refValue & s1 & E1 & E)];
    [by apply getProp_Err in E as ->|].
  apply getProp_Ok in E1 as [-> _].
  apply bind_Err in E as [E|(h & s1 & E1 & E)]; [by apply getHeap_Err in E|].
  apply getHeap_Ok in E1 as [-> ->].
  apply bind_Err in E as [E|(pv & s1 & E1 & E)];
    [by apply getProp_Err in E as ->|].
  apply getProp_Ok in E1 as [-> _].
  apply bind_Err in E as [E|([] & s1 & E1 & E)].
  { destruct (_ && _); [by eapply pushWarning_throws|by apply ret_Err in E]. }
  assert (grows W h0 (heap s1)) as Hg1.
  { destruct (_ && _).
    - by eapply pushWarning_grows.
    - apply ret_Ok in E1 as [-> _]. done. }
  destruct (asSecretRef (heap s) refValue) as [r|]; [|by apply ret_Err in E].
  apply bind_Err in E as [E|(v & s2 & E2 & E)].
  - by destruct (resolve_grows _ _ _ _ _ _ _ Hg1 E).
  - destruct (resolve_grows _ _ _ _ _ _ _ Hg1 E2) as [Hg2 _].
    destruct (negb (isNonEmptyString v)).
    + by apply throw_Err in E as ->.
    + by apply setProp_Err in E as ->.
Qed.

Lemma resolveProfile_throws context warnings agentDir entry s e s' :
  grows W h0 (heap s) ->
  pushable W (length h0) warnings ->
  resolveProfile context warnings agentDir entry s = (Err e, s') ->
  grows W h0 (heap s').
Proof.
  intros Hg Hp E. destruct entry as [profileId profile].
  unfold resolveProfile in E.
  apply bind_Err in E as [E|(ty & s1 & E1 & E)]; [by apply getProp_Err in E as ->|].
  apply getProp_Ok in E1 as [-> _].
  destruct (isString ty "api_key"); [by eapply resolveCredential_throws|].
  destruct (isString ty "token"); [by eapply resolveCredential_throws|].
  by apply ret_Err in E.
Qed.

Lemma resolveAuthStoreSecretRefs_throws fuel store context warnings agentDir s e s' :
  grows W h0 (heap s) ->
  pushable W (length h0) warnings ->
  resolveAuthStoreSecretRefs fuel store context warnings agentDir s = (Err e, s') ->
  grows W h0 (heap s').
Proof.
  intros Hg Hp E. unfold resolveAuthStoreSecretRefs in E.
  apply bind_Err in E as [E|(resolvedStore & s1 & E1 & E)];
    [by apply structuredClone_Err in E as ->|].
  apply (structuredClone_grows W h0) in E1 as [Hg1 Hr]; [|done].
  apply bind_Err in E as [E|(profiles & s2 & E2 & E)];
    [by apply getProp_Err in E as ->|].
  apply getProp_Ok in E2 as [-> Hps].
  pose proof (grows_read _ _ _ _ _ _ Hg1 Hr Hps) as Hfp.
  apply bind_Err in E as [E|(entries & s2 & E2 & E)];
    [by apply objectEntries_Err in E as ->|].
  apply objectEntries_Ok in E2 as [-> He].
  apply bind_Err in E as [E|([] & s2 & E2 & E)]; [|by apply ret_Err in E].
  eapply (forEach_throws entries _ snd); [| | |exact Hg1|exact E].
  - exact (grows_entries _ _ _ _ _ Hg1 Hfp He).
  - intros x sa sb Hx Hga Ex. by eapply resolveProfile_grows.
  - intros x sa e' sb Hga Ex. by eapply resolveProfile_throws.
Qed.

Lemma resolveAgentStore_throws fuel loadAuthStore context warnings authStores
    agentDir s e s' :
  grows W h0 (heap s) ->
  pushable W (length h0) warnings ->
  resolveAgentStore fuel loadAuthStore context warnings authStores agentDir s
  = (Err e, s') ->
  grows W h0 (heap s').
Proof.
  intros Hg Hw E. unfold resolveAgentStore in E.
  apply bind_Err in E as [E|(resolvedStore & s1 & E1 & E)];
    [by eapply resolveAuthStoreSecretRefs_throws|].
  apply (resolveAuthStoreSecretRefs_grows W h0) in E1 as [Hg1 Hr]; [|done..].
  apply bind_Err in E as [E|(entry & s2 & E2 & E)]; [by apply alloc_Err in E|].
  eapply (alloc_grows W h0) in E2 as [Hg2 He]; [|done|by repeat constructor].
  by apply arrayPush_Err in E as ->.
Qed.

(** The walks, whatever they yield. *)
Lemma resolveConfigSecretRefs_frame fuel config context warnings s :
  grows W h0 (heap s) ->
  pushable W (length h0) warnings ->
  grows W h0 (heap (snd (resolveConfigSecretRefs fuel config context warnings s))).
Proof.
  intros Hg Hp.
  destruct (resolveConfigSecretRefs fuel config context warnings s)
    as [[r|e] s'] eqn:E; simpl.
  - by eapply resolveConfigSecretRefs_grows.
  - by eapply resolveConfigSecretRefs_throws.
Qed.

Lemma resolveAuthStoreSecretRefs_frame fuel store context warnings agentDir s :
  grows W h0 (heap s) ->
  pushable W (length h0) warnings ->
  grows W h0
    (heap (snd (resolveAuthStoreSecretRefs fuel store context warnings agentDir s))).
Proof.
  intros Hg Hp.
  destruct (resolveAuthStoreSecretRefs fuel store context warnings agentDir s)
    as [[r|e] s'] eqn:E; simpl.
  - by eapply resolveAuthStoreSecretRefs_grows.
  - by eapply resolveAuthStoreSecretRefs_throws.
Qed.
End Throwing.

Section Frames.
Context `{Collaborators}.

(** What [grows] with one array to push onto says of the objects that
    were there. *)
Lemma grows_one_array w h0 h :
  grows (fun l => l = w) h0 h ->
  (forall l o, h0 !! l = Some o -> l <> w -> h !! l = Some o) /\
  (forall xs, h0 !! w = Some (Arr xs) ->
     exists new, h !! w = Some (Arr (xs ++ new)) /\
                 Forall (fresh (length h0)) new) /\
  (forall ps, h0 !! w = Some (Obj ps) -> h !! w = Some (Obj ps)).
Proof.
  intros (_ & Hold & _). split_and!.
  - intros l o Hl Hne. by destruct (Hold l o Hl) as [?|[? _]].
  - intros xs Hw. destruct (Hold w _ Hw) as [Hk|(_ & xs' & new & [= <-] & Hk & Hf)].
    + exists []. by rewrite app_nil_r.
    + by exists new.
  - intros ps Hw. by destruct (Hold w _ Hw) as [?|(_ & ? & ? & ? & _)].
Qed.

(** Whether it returns or throws, the config walk changes no object that
    existed before the call, its input configuration among them, except
    that it may have pushed onto the warnings array: the warnings that
    were there are still there, in place, and what follows them are
    objects made by the call. *)
Theorem config_walk_frame (fuel : nat) (config : val) (context : nat)
    (w : loc) (s : State) :
  let s' := snd (resolveConfigSecretRefs fuel config context (VRef w) s) in
  (forall l o, heap s !! l = Some o -> l <> w -> heap s' !! l = Some o) /\
  (forall xs, heap s !! w = Some (Arr xs) ->
     exists new, heap s' !! w = Some (Arr (xs ++ new)) /\
                 Forall (fresh (length (heap s))) new).
Proof.
  cbv zeta.
  pose proof (resolveConfigSecretRefs_frame (fun l => l = w) (heap s) fuel config
                context (VRef w) s (grows_refl _ _) (or_intror eq_refl)) as Hg.
  apply grows_one_array in Hg as (Hother & Harr & _). by split.
Qed.

(** The same of the auth-store walk: whether it returns or throws, the
    store it was given and every other object that existed are as they
    were, and the warnings array has at most grown at its end. *)
Theorem store_walk_frame (fuel : nat) (store : val) (context : nat)
    (w : loc) (agentDir : string) (s : State) :
  let s' := snd (resolveAuthStoreSecretRefs fuel store context (VRef w) agentDir s) in
  (forall l o, heap s !! l = Some o -> l <> w -> heap s' !! l = Some o) /\
  (forall xs, heap s !! w = Some (Arr xs) ->
     exists new, heap s' !! w = Some (Arr (xs ++ new)) /\
                 Forall (fresh (length (heap s))) new).
Proof.
  cbv zeta.
  pose proof (resolveAuthStoreSecretRefs_frame (fun l => l = w) (heap s) fuel store
                context (VRef w) agentDir s (grows_refl _ _) (or_intror eq_refl))
    as Hg.
  apply grows_one_array in Hg as (Hother & Harr & _). by split.
Qed.

(** prepare, whatever it yields, has changed no object that existed
    before the call. *)
Lemma prepare_frame fuel config env agentDirs loadAuthStore s :
  grows (fun _ => False) (heap s)
    (heap (snd (prepareSecretsRuntimeSnapshot fuel config env agentDirs
                  loadAuthStore s))).
Proof.
  set (W := fun _ : loc => False).
  destruct (prepareSecretsRuntimeSnapshot fuel config env agentDirs loadAuthStore s)
    as [[snapshot|e] s'] eqn:E; simpl.
  { destruct (prepare_Ok _ _ _ _ _ _ _ _ E)
      as (resolvedConfig & s3 & dirs & s5 & sourceConfig & s6
          & E3 & E5 & E6 & -> & ->).
    assert (grows W (heap s) (heap s ++ [Arr []])) as Hg1.
    { apply grows_alloc; [apply grows_refl|constructor]. }
    eapply (resolveConfigSecretRefs_grows W (heap s)) in E3 as [Hg3 Hrc];
      [|exact Hg1|by left].
    assert (grows W (heap s) (heap s3 ++ [Arr []])) as Hg4.
    { apply grows_alloc; [done|constructor]. }
    assert (length (heap s) <= length (heap s3)) as Hlen3 by apply Hg3.
    eapply (forEach_grows W (heap s) dirs _ (fun _ => VUndefined)) in E5;
      [|by apply Forall_true| |exact Hg4].
    2:{ intros x sa sb _ Hga Ex.
        eapply resolveAgentStore_grows; [exact Hga| | |exact Ex]; by left. }
    apply structuredClone_grows with (W := W) (h0 := heap s) in E6 as [Hg6 Hsc];
      [|exact E5].
    simpl. apply grows_alloc; [done|]. simpl. repeat constructor; try done. }
  unfold prepareSecretsRuntimeSnapshot in E.
  apply bind_Err in E as [E|(warnings & s1 & E1 & E)]; [by apply alloc_Err in E|].
  apply alloc_Ok in E1 as [-> ->].
  assert (grows W (heap s) (heap s ++ [Arr []])) as Hg1.
  { apply grows_alloc; [apply grows_refl|constructor]. }
  apply bind_Err in E as [E|(context & s2 & E2 & E)]; [done|].
  unfold newContext in E2. injection E2 as <- <-.
  apply bind_Err in E as [E|(resolvedConfig & s3 & E3 & E)].
  { eapply (resolveConfigSecretRefs_throws W (heap s)) in E;
      [exact E|exact Hg1|by left]. }
  eapply (resolveConfigSecretRefs_grows W (heap s)) in E3 as [Hg3 Hrc];
    [|exact Hg1|by left].
  apply bind_Err in E as [E|(h & s4 & E4 & E)]; [by apply getHeap_Err in E|].
  apply getHeap_Ok in E4 as [-> ->].
  apply bind_Err in E as [E|(authStores & s4 & E4 & E)]; [by apply alloc_Err in E|].
  apply alloc_Ok in E4 as [-> ->].
  assert (grows W (heap s) (heap s3 ++ [Arr []])) as Hg4.
  { apply grows_alloc; [done|constructor]. }
  assert (length (heap s) <= length (heap s3)) as Hlen3 by apply Hg3.
  apply bind_Err in E as [E|([] & s5 & E5 & E)].
  { eapply (forEach_throws W (heap s) _ _ (fun _ => VUndefined)) in E;
      [exact E|by apply Forall_true| | |exact Hg4].
    - intros x sa sb _ Hga Ex.
      eapply resolveAgentStore_grows; [exact Hga| | |exact Ex]; by left.
    - intros x sa e' sb Hga Ex.
      eapply resolveAgentStore_throws; [exact Hga| |exact Ex]. by left. }
  eapply (forEach_grows W (heap s) _ _ (fun _ => VUndefined)) in E5;
    [|by apply Forall_true| |exact Hg4].
  2:{ intros x sa sb _ Hga Ex.
      eapply resolveAgentStore_grows; [exact Hga| | |exact Ex]; by left. }
  apply bind_Err in E as [E|(sourceConfig & s6 & E6 & E)];
    [by apply structuredClone_Err in E as ->|].
  by apply alloc_Err in E.
Qed.

(** Whether it returns a snapshot or throws, and wherever it throws,
    prepare leaves every object that existed before the call as it
    was: the configuration, the stores the loader hands out, and anything
    else.  In a store without dangling references, any value that
    existed reads back as it did. *)
Theorem prepare_never_mutates (fuel : nat) (config : val)
    (env : option (gmap string string)) (agentDirs : option (list string))
    (loadAuthStore : option (string -> val)) (s : State) :
  let s' := snd (prepareSecretsRuntimeSnapshot fuel config env agentDirs
                   loadAuthStore s) in
  (forall l, l < length (heap s) -> heap s' !! l = heap s !! l) /\
  (wf_heap (heap s) ->
   forall n v, valid (heap s) v -> readback n (heap s') v = readback n (heap s) v).
Proof.
  cbv zeta.
  pose proof (grows_none_same _ _
                (prepare_frame fuel config env agentDirs loadAuthStore s)) as Hsame.
  split; [exact Hsame|].
  intros Hwf n v Hv. by apply readback_old.
Qed.
End Frames.

Section FramesWitnesses.
#[local] Existing Instance Reference.collaborators.

(** The walk on the sample throws at the Google Chat entry, after it has
    resolved the provider; the configuration it was given still holds
    both references. *)
Lemma prepare_never_mutates_witness :
  let run :=
    prepareSecretsRuntimeSnapshot 5 (VRef 7) (Some sampleEnv) None None
      sampleFailingState in
  fst run = Err (MissingSecret "GCHAT_SA") /\
  readback 5 (heap (snd run)) (VRef 7) = Some sampleFailingConfig.
Proof.
  cbv zeta. split; [vm_compute; reflexivity|].
  destruct (prepare_never_mutates 5 (VRef 7) (Some sampleEnv) None None
              sampleFailingState) as [_ Hread].
  rewrite (Hread (wf_heapb_spec (heap sampleFailingState) eq_refl) 5 (VRef 7)).
  - vm_compute. reflexivity.
  - vm_compute. lia.
Defined.
End FramesWitnesses.

(** * Credentials for the model registry *)

(** ** convertAuthProfileCredential *)

(** Whatever the credential, what convertAuthProfileCredential returns
    is clean: the key, or access and refresh, are not empty and have no
    white space at either end, and the expiry of an oauth credential is
    positive. *)
Theorem converted_credential_is_clean (now : Q) (cred : list (string * val))
    (c : PiCredential) :
  convertAuthProfileCredential now cred = Some c ->
  match c with
  | PiApiKey key => key <> "" /\ trim key = key
  | PiOAuth access refresh expires =>
      access <> "" /\ trim access = access /\
      refresh <> "" /\ trim refresh = refresh /\ (0 < expires)%Q
  end.
Proof.
  assert (forall v, trim (trimmedString v) = trimmedString v) as Htrim.
  { intros [[| | | |str]|l]; simpl; try done. apply trim_idemp. }
  unfold convertAuthProfileCredential. intros E.
  destruct (isString (field cred "type") "api_key").
  { destruct (String.eqb _ "") eqn:Ek; [done|]. injection E as <-.
    split; [by apply String.eqb_neq|apply Htrim]. }
  destruct (isString (field cred "type") "token").
  { destruct (String.eqb _ "") eqn:Ek; [done|]. apply String.eqb_neq in Ek.
    destruct (field cred "expires") as [[| | |[q| |]|]|];
      try (injection E as <-; split; [done|apply Htrim]).
    destruct (Qle_bool q now); [done|]. injection E as <-.
    split; [done|apply Htrim]. }
  destruct (isString (field cred "type") "oauth"); [|done].
  destruct (field cred "expires") as [[| | |[q| |]|]|]; try done.
  destruct (String.eqb (trimmedString (field cred "access")) "") eqn:Ea; [done|].
  destruct (String.eqb (trimmedString (field cred "refresh")) "") eqn:Er; [done|].
  destruct (Qle_bool q 0) eqn:Eq; [done|]. simpl in E. injection E as <-.
  apply String.eqb_neq in Ea, Er. split_and!; try done; try apply Htrim.
  apply Qnot_le_lt. intros Hle. apply Qle_bool_iff in Hle. congruence.
Qed.

(** A token credential whose token is not blank is turned into an api
    key, the trimmed token, unless it has expired: unless [expires] is a
    finite number and the clock has reached it.  With no [expires], or
    with one that is NaN, an infinity or not a number, it does not
    expire. *)
Theorem token_expiry (now : Q) (cred : list (string * val)) (token : string) :
  field cred "type" = VStr "token" ->
  field cred "token" = VStr token ->
  trim token <> "" ->
  (forall expires, field cred "expires" = VNum (Finite expires) ->
     ((expires <= now)%Q -> convertAuthProfileCredential now cred = None) /\
     ((now < expires)%Q ->
      convertAuthProfileCredential now cred = Some (PiApiKey (trim token)))) /\
  (isFiniteNumber (field cred "expires") = false ->
   convertAuthProfileCredential now cred = Some (PiApiKey (trim token))).
Proof.
  intros Hty Htok Hne. unfold convertAuthProfileCredential.
  rewrite Hty, Htok. simpl. apply String.eqb_neq in Hne. rewrite Hne. split.
  - intros expires ->. split.
    + intros Hle. apply Qle_bool_iff in Hle. by rewrite Hle.
    + intros Hlt. destruct (Qle_bool expires now) eqn:E; [|done].
      apply Qle_bool_iff in E. by apply Qlt_not_le in Hlt.
  - intros Hnf. by destruct (field cred "expires") as [[| | |[q| |]|]|].
Qed.

(** Only tokens expire.  Whatever the clock says, an api_key credential
    whose key is a string that is not blank is kept, with the key
    trimmed; and an oauth credential whose access and refresh are such
    strings and whose [expires] is a finite positive number is kept, with
    both trimmed, even when that expiry lies in the past. *)
Theorem only_tokens_expire (now : Q) (cred : list (string * val)) :
  (forall key,
     field cred "type" = VStr "api_key" ->
     field cred "key" = VStr key -> trim key <> "" ->
     convertAuthProfileCredential now cred = Some (PiApiKey (trim key))) /\
  (forall access refresh expires,
     field cred "type" = VStr "oauth" ->
     field cred "access" = VStr access -> trim access <> "" ->
     field cred "refresh" = VStr refresh -> trim refresh <> "" ->
     field cred "expires" = VNum (Finite expires) -> (0 < expires)%Q ->
     convertAuthProfileCredential now cred
     = Some (PiOAuth (trim access) (trim refresh) expires)).
Proof.
  unfold convertAuthProfileCredential. split.
  - intros key -> -> Hne. simpl. apply String.eqb_neq in Hne. by rewrite Hne.
  - intros access refresh expires -> -> Ha -> Hr -> Hpos. simpl.
    apply String.eqb_neq in Ha, Hr. rewrite Ha, Hr. simpl.
    destruct (Qle_bool expires 0) eqn:E; [|done].
    apply Qle_bool_iff in E. by apply Qlt_not_le in Hpos.
Qed.

(** ** resolvePiCredentials *)

Section FirstUsable.
Context `{PiCollaborators}.

Lemma firstUsableAt_nil clock i p c : ~ firstUsableAt clock i [] p c.
Proof. by intros (k & cred & Hk & _). Qed.

Lemma firstUsableAt_cons clock i cred0 rest p c :
  firstUsableAt clock i (cred0 :: rest) p c <->
  (providerOf cred0 = p /\ convertAuthProfileCredential (clock i) cred0 = Some c) \/
  ((providerOf cred0 = p -> convertAuthProfileCredential (clock i) cred0 = None) /\
   firstUsableAt clock (S i) rest p c).
Proof.
  split.
  - intros (k & cred & Hk & Hp & Hc & Hfirst). destruct k as [|k].
    + injection Hk as <-. left. rewrite Nat.add_0_r in Hc. by split.
    + right. split.
      * intros Hp0. specialize (Hfirst 0 cred0 ltac:(lia) eq_refl Hp0).
        by rewrite Nat.add_0_r in Hfirst.
      * exists k, cred. rewrite Nat.add_succ_r in Hc. split_and!; try done.
        intros j cred' Hj Hl Hp'.
        specialize (Hfirst (S j) cred' ltac:(lia) Hl Hp').
        by rewrite Nat.add_succ_r in Hfirst.
  - intros [[Hp Hc]|[Hnone (k & cred & Hk & Hp & Hc & Hfirst)]].
    + exists 0, cred0. rewrite Nat.add_0_r. split_and!; try done. lia.
    + exists (S k), cred. rewrite Nat.add_succ_r. split_and!; try done.
      intros [|j] cred' Hj Hl Hp'.
      * injection Hl as <-. rewrite Nat.add_0_r. by apply Hnone.
      * rewrite Nat.add_succ_r. apply (Hfirst j cred'); [lia|done..].
Qed.

Lemma collectCredentials_spec clock profiles :
  forall i credentials p c,
    collectCredentials clock i profiles credentials !! p = Some c <->
    credentials !! p = Some c \/
    (credentials !! p = None /\ p <> "" /\ (p ∉ objectPrototypeKeys) /\
     firstUsableAt clock i profiles p c).
Proof.
  induction profiles as [|cred0 rest IH]; intros i credentials p c; simpl.
  { split; [by left|]. intros [?|(_ & _ & _ & Hf)]; [done|].
    by apply firstUsableAt_nil in Hf. }
  rewrite firstUsableAt_cons.
  destruct (String.eqb (providerOf cred0) "" || taken credentials (providerOf cred0))
    eqn:Eskip.
  - rewrite IH. split.
    + intros [?|(Hn & Hne & Hproto & Hf)]; [by left|]. right.
      split_and!; try done. right. split; [|done]. intros Hp0. exfalso.
      apply orb_true_iff in Eskip as [E|E].
      * apply String.eqb_eq in E. congruence.
      * unfold taken in E. apply orb_true_iff in E as [E|E];
          apply bool_decide_eq_true in E; rewrite Hp0 in E; [|done].
        rewrite Hn in E. by destruct E.
    + intros [?|(Hn & Hne & Hproto & [[Hp0 Hc]|[_ Hf]])]; [by left| |by right].
      exfalso. apply orb_true_iff in Eskip as [E|E].
      * apply String.eqb_eq in E. congruence.
      * unfold taken in E. apply orb_true_iff in E as [E|E];
          apply bool_decide_eq_true in E; rewrite Hp0 in E; [|done].
        rewrite Hn in E. by destruct E.
  - apply orb_false_iff in Eskip as [Eempty Etaken].
    apply String.eqb_neq in Eempty. unfold taken in Etaken.
    apply orb_false_iff in Etaken as [Eown Eproto].
    apply bool_decide_eq_false in Eown, Eproto.
    assert (credentials !! providerOf cred0 = None) as Hfree.
    { destruct (credentials !! providerOf cred0) eqn:E; [|done].
      exfalso. apply Eown. eauto. }
    destruct (convertAuthProfileCredential (clock i) cred0) as [c0|] eqn:Ec.
    + rewrite IH. destruct (decide (providerOf cred0 = p)) as [<-|Hne].
      * rewrite lookup_insert_eq, Hfree. split.
        -- intros [[= <-]|(? & _)]; [|done]. right. split_and!; try done.
           by left.
        -- intros [?|(_ & _ & _ & [[_ [= <-]]|[Hnone _]])]; [done|by left|].
           by specialize (Hnone eq_refl).
      * rewrite lookup_insert_ne by done. split.
        -- intros [?|(Hn & Hnep & Hproto & Hf)]; [by left|]. right.
           split_and!; try done. right. by split.
        -- intros [?|(Hn & Hnep & Hproto & [[Hp0 _]|[_ Hf]])];
             [by left|done|by right].
    + rewrite IH. split.
      * intros [?|(Hn & Hnep & Hproto & Hf)]; [by left|]. right.
        split_and!; try done. right. by split.
      * intros [?|(Hn & Hnep & Hproto & [[_ ?]|[_ Hf]])];
          [by left|done|by right].
Qed.

(** resolvePiCredentials gives a provider the first credential of the
    store that can be used for it: the credentials are taken in the
    order of the store, each under its normalized and trimmed provider
    id, and one that convertAuthProfileCredential turns down (an expired
    token, a blank key) leaves the provider open for a later one.  No
    credential is filed under the empty provider id, or under a name that
    a plain object inherits from Object.prototype ("constructor",
    "toString", ...), for which the lookup in the result under
    construction already finds something. *)
Theorem first_usable_credential_wins (clock : nat -> Q) (agentDir : string)
    (p : string) (c : PiCredential) :
  resolvePiCredentials clock agentDir !! p = Some c <->
  p <> "" /\ (p ∉ objectPrototypeKeys) /\
  exists k cred,
    ensureAuthProfileStore agentDir !! k = Some cred /\
    providerOf cred = p /\
    convertAuthProfileCredential (clock k) cred = Some c /\
    forall j cred', j < k ->
      ensureAuthProfileStore agentDir !! j = Some cred' ->
      providerOf cred' = p ->
      convertAuthProfileCredential (clock j) cred' = None.
Proof.
  unfold resolvePiCredentials. rewrite collectCredentials_spec, lookup_empty.
  unfold firstUsableAt. simpl. split.
  - intros [?|(_ & Hne & Hproto & Hf)]; [done|]. by split_and!.
  - intros (Hne & Hproto & Hf). right. by split_and!.
Qed.
End FirstUsable.

Section PiCredentialsWitnesses.
#[local] Existing Instance samplePiCollaborators.

Lemma converted_credential_is_clean_witness :
  "sk-or-v1-runtime" <> "" /\ trim "sk-or-v1-runtime" = "sk-or-v1-runtime".
Proof.
  exact (converted_credential_is_clean 0 sampleApiKeyCred
           (PiApiKey "sk-or-v1-runtime") eq_refl).
Defined.

Lemma token_expiry_witness :
  convertAuthProfileCredential 500 (sampleTokenCred (VNum (Finite 500))) = None /\
  convertAuthProfileCredential 499 (sampleTokenCred (VNum (Finite 500)))
  = Some (PiApiKey "sk-ant-runtime") /\
  convertAuthProfileCredential 500 (sampleTokenCred (VNum NaN))
  = Some (PiApiKey "sk-ant-runtime").
Proof.
  split; [|split].
  - destruct (token_expiry 500 (sampleTokenCred (VNum (Finite 500)))
                "sk-ant-runtime" eq_refl eq_refl ltac:(discriminate)) as [Hfin _].
    destruct (Hfin 500%Q eq_refl) as [Hexpired _]. apply Hexpired. discriminate.
  - destruct (token_expiry 499 (sampleTokenCred (VNum (Finite 500)))
                "sk-ant-runtime" eq_refl eq_refl ltac:(discriminate)) as [Hfin _].
    destruct (Hfin 500%Q eq_refl) as [_ Hvalid]. apply Hvalid. reflexivity.
  - destruct (token_expiry 500 (sampleTokenCred (VNum NaN))
                "sk-ant-runtime" eq_refl eq_refl ltac:(discriminate)) as [_ Hnot].
    apply Hnot. reflexivity.
Defined.

Lemma only_tokens_expire_witness :
  convertAuthProfileCredential 5000 sampleOAuthCred
  = Some (PiOAuth "oauth-access" "oauth-refresh" 1000).
Proof.
  destruct (only_tokens_expire 5000 sampleOAuthCred) as [_ Hoauth].
  apply (Hoauth "oauth-access" "oauth-refresh" 1000%Q);
    [reflexivity|reflexivity|discriminate|reflexivity|discriminate
    |reflexivity|reflexivity].
Defined.

Lemma first_usable_credential_wins_witness :
  resolvePiCredentials (fun _ => 1000%Q) "/agents/main" !! "anthropic"
  = Some (PiApiKey "sk-ant-second") /\
  resolvePiCredentials (fun _ => 1000%Q) "/agents/main" !! "constructor" = None.
Proof.
  split.
  - apply (first_usable_credential_wins (fun _ => 1000%Q) "/agents/main").
    split; [discriminate|].
    split; [apply (bool_decide_unpack _); vm_compute; exact I|].
    eexists 1, _. split; [reflexivity|]. split; [reflexivity|].
    split; [reflexivity|]. intros [|j] cred' Hj Hl Hp; [|lia].
    injection Hl as <-. reflexivity.
  - destruct (resolvePiCredentials (fun _ => 1000%Q) "/agents/main" !! "constructor")
      as [c|] eqn:E; [|reflexivity].
    apply (first_usable_credential_wins (fun _ => 1000%Q) "/agents/main") in E
      as (_ & Hproto & _).
    exfalso. apply Hproto. apply (bool_decide_unpack _). vm_compute. exact I.
Defined.
End PiCredentialsWitnesses.

(** ** The value of a file-sourced reference *)

Section FileValue.
Context `{Collaborators}.

(** A file-sourced reference whose id is not blank, resolved in a
    context whose decrypt has given (now, or at an earlier resolution) the
    payload [payload]: the id, trimmed, is the pointer.  When the pointer
    selects a value in the payload, the resolution returns it: a value
    that reads back as the selected one, while the objects that existed
    are as they were.  When it selects nothing, the resolution fails with
    MissingSecret, and the payload stays in the cache slot all the
    same. *)
Theorem file_reference_value (ref : SecretRef) (context : nat)
    (ctx : ResolverContext) (s s1 : State) (payload : tree) :
  ref_source ref = "file" ->
  trim (ref_id ref) <> "" ->
  contexts s !! context = Some ctx ->
  payloadFor context ctx s = Some (payload, s1) ->
  (forall t, readJsonPointer payload (trim (ref_id ref)) = Some t ->
     exists v ext,
       resolveSecretRefValue ref context s = (Ok v, with_heap (heap s ++ ext) s1) /\
       readback (depth t) (heap s ++ ext) v = Some t) /\
  (readJsonPointer payload (trim (ref_id ref)) = None ->
   resolveSecretRefValue ref context s
   = (Err (MissingSecret (trim (ref_id ref))), s1)) /\
  contexts s1 !! context = Some (withPromise ctx (Ok payload)).
Proof.
  intros Hsrc Hid Hctx Hafter.
  assert (resolveSecretRefValue ref context s
          = lookupInPayload (Ok payload) (trim (ref_id ref)) s1 /\
          heap s1 = heap s /\
          contexts s1 !! context = Some (withPromise ctx (Ok payload)))
    as (-> & Hheap & Hslot1).
  { unfold payloadFor in Hafter.
    destruct (ctx_fileSecretsPromise ctx) as [[cached|e]|] eqn:Hslot; [|done|].
    - injection Hafter as -> <-.
      split; [exact (resolve_file_cached _ _ _ _ _ Hsrc Hid Hctx Hslot)|]. split; [done|].
      rewrite Hctx. destruct ctx. simpl in Hslot. by subst.
    - destruct (decryptSopsFile (ctx_config ctx) s) as [[decrypted|e] s0] eqn:Hd;
        [|done].
      injection Hafter as -> <-.
      split; [exact (resolve_file_first _ _ _ _ _ _ Hsrc Hid Hctx Hslot Hd)|].
      split.
      + by destruct (decryptSopsFile_effect _ _ _ _ Hd) as [-> | [c ->]].
      + simpl. apply list_lookup_insert_eq. by eapply lookup_lt_Some. }
  unfold lookupInPayload, bind, await, materialize, throw.
  split_and!; [| |done].
  - intros t ->. destruct (materialize_tree t (heap s1)) as [v h'] eqn:Em.
    destruct (materialize_tree_spec _ _ _ _ Em) as (ext & -> & _ & _ & Hr).
    exists v, ext. rewrite <- Hheap. split; [done|]. by apply Hr.
  - by intros ->.
Qed.
End FileValue.

Section FileValueWitnesses.
#[local] Existing Instance Reference.collaborators.

Lemma file_reference_value_witness :
  exists s1,
    resolveSecretRefValue (mkSecretRef "file" " /providers/acme ") 0
      (sampleContextOn sampleSopsConfig)
    = (Ok (VStr "file-secret"), s1) /\
    length (sopsCalls s1) = 1.
Proof.
  edestruct (file_reference_value (mkSecretRef "file" " /providers/acme ") 0
               (mkContext (VRef 3) sampleEnv None)
               (sampleContextOn sampleSopsConfig)) as (Hfound & _ & _);
    [reflexivity|discriminate|reflexivity|vm_compute; reflexivity|].
  destruct (Hfound (TStr "file-secret") eq_refl) as (v & ext & Hrun & Hread).
  rewrite Hrun. destruct v as [p|l]; [|by destruct ext].
  injection Hread as ->. eexists. split; [reflexivity|]. reflexivity.
Defined.
End FileValueWitnesses.

(** * Onboarding: the BytePlus and Volcano Engine API-key choices *)

Section ChoiceProperties.
Context `{ChoiceCollaborators}.

(** applyAuthChoiceBytePlus.  For any other auth choice it returns null
    and does nothing: no prompt, no write.  For "byteplus-api-key",
    whatever the user answers, it writes exactly one key, with
    setByteplusApiKey and as the last thing it does, and returns the
    config with the byteplus:default profile and the default model
    applied, and that model as the agent model override.  The key is the
    one of the environment, as it is, when there is one and the user
    confirms it; otherwise it is the key of the options when one is given
    (the empty string does not count), or else what the user types, in
    both cases normalized; and the user is asked to type only in the last
    case. *)
Theorem byteplus_choice (params : ApplyAuthChoiceParams)
    (confirm : string -> bool) (text : string -> string) :
  let run := runOnboarding confirm text (applyAuthChoiceBytePlus params) in
  let fromEnv :=
    match resolveEnvApiKey "byteplus" with
    | Some (apiKey, source) =>
        if confirm ("Use existing BYTEPLUS_API_KEY (" ++ source ++ ", "
                      ++ formatApiKeyPreview apiKey ++ ")?")%string
        then Some apiKey else None
    | None => None
    end in
  let typed :=
    if given (opts_byteplusApiKey params)
    then default "" (opts_byteplusApiKey params)
    else text "Enter BytePlus API key" in
  let written :=
    Stored "setByteplusApiKey"
      (match fromEnv with
       | Some apiKey => apiKey
       | None => normalizeApiKeyInput typed
       end) (agentDir params) in
  (authChoice params <> "byteplus-api-key" -> run = ([], None)) /\
  (authChoice params = "byteplus-api-key" ->
   snd run
   = Some (mkResult
             (applyPrimaryModel
                (applyAuthProfileConfig (params_config params)
                   "byteplus:default" "byteplus" "api_key")
                BYTEPLUS_DEFAULT_MODEL)
             BYTEPLUS_DEFAULT_MODEL) /\
   List.filter isStored (fst run) = [written] /\
   last (fst run) = Some written /\
   List.filter isEntered (fst run)
   = if bool_decide (is_Some fromEnv) || given (opts_byteplusApiKey params)
     then []
     else [Entered "Enter BytePlus API key" (text "Enter BytePlus API key")]).
Proof.
  cbv zeta. unfold applyAuthChoiceBytePlus. split.
  - intros Hne. apply String.eqb_neq in Hne. by rewrite Hne.
  - intros ->. simpl.
    destruct (resolveEnvApiKey "byteplus") as [[apiKey source]|]; simpl.
    + destruct (confirm _); simpl; [done|].
      destruct (given (opts_byteplusApiKey params)); done.
    + destruct (given (opts_byteplusApiKey params)); done.
Qed.

(** applyAuthChoiceVolcengine does the same for "volcengine-api-key",
    with setVolcengineApiKey, the volcengine:default profile and its own
    default model: nothing at all for another choice; otherwise exactly
    one key written, last, the key of the environment as it is when the
    user confirms it, and else the normalized key of the options or of
    the prompt, the prompt being shown only when neither of the other two
    gave a key. *)
Theorem volcengine_choice (params : ApplyAuthChoiceParams)
    (confirm : string -> bool) (text : string -> string) :
  let run := runOnboarding confirm text (applyAuthChoiceVolcengine params) in
  let fromEnv :=
    match resolveEnvApiKey "volcengine" with
    | Some (apiKey, source) =>
        if confirm ("Use existing VOLCANO_ENGINE_API_KEY (" ++ source ++ ", "
                      ++ formatApiKeyPreview apiKey ++ ")?")%string
        then Some apiKey else None
    | None => None
    end in
  let typed :=
    if given (opts_volcengineApiKey params)
    then default "" (opts_volcengineApiKey params)
    else text "Enter Volcano Engine API Key" in
  let written :=
    Stored "setVolcengineApiKey"
      (match fromEnv with
       | Some apiKey => apiKey
       | None => normalizeApiKeyInput typed
       end) (agentDir params) in
  (authChoice params <> "volcengine-api-key" -> run = ([], None)) /\
  (authChoice params = "volcengine-api-key" ->
   snd run
   = Some (mkResult
             (applyPrimaryModel
                (applyAuthProfileConfig (params_config params)
                   "volcengine:default" "volcengine" "api_key")
                VOLCENGINE_DEFAULT_MODEL)
             VOLCENGINE_DEFAULT_MODEL) /\
   List.filter isStored (fst run) = [written] /\
   last (fst run) = Some written /\
   List.filter isEntered (fst run)
   = if bool_decide (is_Some fromEnv) || given (opts_volcengineApiKey params)
     then []
     else [Entered "Enter Volcano Engine API Key"
             (text "Enter Volcano Engine API Key")]).
Proof.
  cbv zeta. unfold applyAuthChoiceVolcengine. split.
  - intros Hne. apply String.eqb_neq in Hne. by rewrite Hne.
  - intros ->. simpl.
    destruct (resolveEnvApiKey "volcengine") as [[apiKey source]|]; simpl.
    + destruct (confirm _); simpl; [done|].
      destruct (given (opts_volcengineApiKey params)); done.
    + destruct (given (opts_volcengineApiKey params)); done.
Qed.
End ChoiceProperties.

Section ChoiceWitnesses.
#[local] Existing Instance sampleChoiceCollaborators.

(** The user declines the key of the environment, the options carry an
    empty key, and the key typed at the prompt is written, trimmed. *)
Lemma byteplus_choice_witness :
  let run :=
    runOnboarding (fun _ => false) (fun _ => "  typed-key ")
      (applyAuthChoiceBytePlus (sampleChoiceParams "byteplus-api-key")) in
  snd run
  = Some (@mkResult sampleChoiceCollaborators
            ["auth:byteplus:default"; "model:byteplus-plan/ark-code-latest"]
            "byteplus-plan/ark-code-latest") /\
  List.filter isStored (fst run)
  = [Stored "setByteplusApiKey" "typed-key" (VStr "/agents/main")] /\
  List.filter isEntered (fst run)
  = [Entered "Enter BytePlus API key" "  typed-key "].
Proof.
  cbv zeta.
  destruct (byteplus_choice (sampleChoiceParams "byteplus-api-key")
              (fun _ => false) (fun _ => "  typed-key ")) as [_ Hrun].
  destruct (Hrun eq_refl) as (Hresult & Hstored & _ & Hentered).
  split; [exact Hresult|]. split; [exact Hstored|exact Hentered].
Defined.

(** No key in the environment and one in the options: it is written
    without a question being asked. *)
Lemma volcengine_choice_witness :
  let run :=
    runOnboarding (fun _ => true) (fun _ => "never asked")
      (applyAuthChoiceVolcengine (sampleChoiceParams "volcengine-api-key")) in
  fst run = [Stored "setVolcengineApiKey" "ve-key" (VStr "/agents/main")] /\
  List.filter isEntered (fst run) = [].
Proof.
  cbv zeta.
  destruct (volcengine_choice (sampleChoiceParams "volcengine-api-key")
              (fun _ => true) (fun _ => "never asked")) as [_ Hrun].
  destruct (Hrun eq_refl) as (_ & _ & _ & Hentered).
  split; [reflexivity|exact Hentered].
Defined.
End ChoiceWitnesses.

(** * What a walk makes of its clone *)

#[local] Set Warnings "-clear-no-such-hyp".

(** ** Objects laid out as a tree *)

Lemma parts_impl {A B} (R R' : A -> B -> gset loc -> Prop) xs ys F :
  parts R xs ys F ->
  Forall (fun y => forall x F', R x y F' -> R' x y F') ys ->
  parts R' xs ys F.
Proof.
  induction 1 as [|x y F1 xs ys F2 Hx _ IH Hd]; intros Hall; [constructor|].
  inversion Hall as [|? ? Hy Hys]; subst. constructor; [by apply Hy|by apply IH|done].
Qed.

Lemma parts_weaken {A B} (R R' : A -> B -> gset loc -> Prop) xs ys F :
  parts R xs ys F ->
  (forall x y F', F' ⊆ F -> R x y F' -> R' x y F') ->
  parts R' xs ys F.
Proof.
  induction 1 as [|x y F1 xs ys F2 Hx _ IH Hd]; intros Himp; [constructor|].
  constructor; [|apply IH|done].
  - apply Himp; [set_solver|done].
  - intros x' y' F' Hsub. apply Himp. set_solver.
Qed.

(** A shaped value reads back as its tree. *)
Lemma shaped_readback h v t F :
  shaped h v t F -> forall n, depth t <= n -> readback n h v = Some t.
Proof.
  revert v F. induction t as [p|pts IH|ts IH] using tree_ind'; intros v F Hs n Hn.
  - inversion Hs; subst. by destruct n.
  - inversion Hs as [|l ps ? F' Hl Hp Hnot|]; subst.
    destruct n as [|n]; [simpl in Hn; lia|]. rewrite readback_ref, Hl.
    assert (mapM (fun kv => pair kv.1 <$> readback n h kv.2) ps = Some pts) as ->;
      [|done].
    apply mapM_Some. simpl in Hn.
    assert (Forall (fun kt => depth (snd kt) <= n) pts) as Hd
      by (apply list_max_bound; lia).
    clear Hs Hl Hnot Hn. induction Hp as [|[k v] [k' t'] F1 ps pts F2 [Hk Hx] _ IHp _].
    + constructor.
    + inversion IH as [|? ? IH1 IH2]; subst. inversion Hd as [|? ? Hd1 Hd2]; subst.
      simpl in Hk, Hx, Hd1, IH1. subst k'. constructor; [|by apply IHp].
      change (pair k <$> readback n h v = Some (k, t')).
      by rewrite (IH1 _ _ Hx n Hd1).
  - inversion Hs as [| |l xs ? F' Hl Hp Hnot]; subst.
    destruct n as [|n]; [simpl in Hn; lia|]. rewrite readback_ref, Hl.
    assert (mapM (readback n h) xs = Some ts) as ->; [|done].
    apply mapM_Some. simpl in Hn.
    assert (Forall (fun t' => depth t' <= n) ts) as Hd
      by (apply list_max_bound; lia).
    clear Hs Hl Hnot Hn. induction Hp as [|v t' F1 xs ts F2 Hx _ IHp _].
    + constructor.
    + inversion IH as [|? ? IH1 IH2]; subst. inversion Hd as [|? ? Hd1 Hd2]; subst.
      constructor; [by eapply IH1|by apply IHp].
Qed.

(** The objects of a footprint exist. *)
Lemma shaped_valid h v t F :
  shaped h v t F -> forall l, l ∈ F -> l < length h.
Proof.
  revert v F. induction t as [p|pts IH|ts IH] using tree_ind'; intros v F Hs l Hin.
  - inversion Hs; subst. set_solver.
  - inversion Hs as [|l0 ps ? F' Hl Hp Hnot|]; subst.
    apply elem_of_union in Hin as [Hin|Hin].
    { apply elem_of_singleton in Hin as ->. by eapply lookup_lt_Some. }
    clear Hs Hl Hnot. induction Hp as [|[k v] [k' t'] F1 ps pts F2 [Hk Hx] _ IHp _].
    + set_solver.
    + inversion IH as [|? ? IH1 IH2]; subst.
      apply elem_of_union in Hin as [Hin|Hin]; [by eapply IH1|by apply IHp].
  - inversion Hs as [| |l0 xs ? F' Hl Hp Hnot]; subst.
    apply elem_of_union in Hin as [Hin|Hin].
    { apply elem_of_singleton in Hin as ->. by eapply lookup_lt_Some. }
    clear Hs Hl Hnot. induction Hp as [|v t' F1 xs ts F2 Hx _ IHp _].
    + set_solver.
    + inversion IH as [|? ? IH1 IH2]; subst.
      apply elem_of_union in Hin as [Hin|Hin]; [by eapply IH1|by apply IHp].
Qed.

(** What a shaped value reaches is in its footprint. *)
Lemma shaped_reaches h v t F :
  shaped h v t F -> forall l, reaches h v l -> l ∈ F.
Proof.
  revert v F. induction t as [p|pts IH|ts IH] using tree_ind'; intros v F Hs l Hr.
  - inversion Hs; subst. inversion Hr.
  - inversion Hs as [|l0 ps ? F' Hl Hp Hnot|]; subst.
    inversion Hr as [|? o v' ? Ho Hin Hr']; subst; [set_solver|].
    rewrite Hl in Ho. injection Ho as <-. simpl in Hin.
    apply elem_of_union_r. clear Hs Hl Hnot Hr.
    induction Hp as [|[k v] [k' t'] F1 ps pts F2 [Hk Hx] _ IHp _].
    + by apply elem_of_nil in Hin.
    + inversion IH as [|? ? IH1 IH2]; subst. rewrite fmap_cons in Hin.
      apply elem_of_cons in Hin as [->|Hin].
      * apply elem_of_union_l. by eapply IH1.
      * apply elem_of_union_r. by apply IHp.
  - inversion Hs as [| |l0 xs ? F' Hl Hp Hnot]; subst.
    inversion Hr as [|? o v' ? Ho Hin Hr']; subst; [set_solver|].
    rewrite Hl in Ho. injection Ho as <-. simpl in Hin.
    apply elem_of_union_r. clear Hs Hl Hnot Hr.
    induction Hp as [|v t' F1 xs ts F2 Hx _ IHp _].
    + by apply elem_of_nil in Hin.
    + inversion IH as [|? ? IH1 IH2]; subst.
      apply elem_of_cons in Hin as [->|Hin].
      * apply elem_of_union_l. by eapply IH1.
      * apply elem_of_union_r. by apply IHp.
Qed.

(** A shape needs its footprint only. *)
Lemma shaped_frame h h' v t F :
  shaped h v t F ->
  (forall l, l ∈ F -> h' !! l = h !! l) ->
  shaped h' v t F.
Proof.
  revert v F. induction t as [p|pts IH|ts IH] using tree_ind'; intros v F Hs Hsame.
  - inversion Hs; subst. constructor.
  - inversion Hs as [|l ps ? F' Hl Hp Hnot|]; subst.
    eapply shaped_obj; [rewrite Hsame; [exact Hl|set_solver]| |done].
    assert (forall l', l' ∈ F' -> h' !! l' = h !! l') as Hsame'
      by (intros l' Hin; apply Hsame; set_solver).
    clear Hs Hl Hnot Hsame.
    induction Hp as [|[k v] [k' t'] F1 ps pts F2 [Hk Hx] _ IHp Hd]; [constructor|].
    inversion IH as [|? ? IH1 IH2]; subst.
    constructor; [|apply IHp; [done|]|done].
    + split; [done|]. apply (IH1 _ _ Hx). intros l' Hin. apply Hsame'. set_solver.
    + intros l' Hin. apply Hsame'. set_solver.
  - inversion Hs as [| |l xs ? F' Hl Hp Hnot]; subst.
    eapply shaped_arr; [rewrite Hsame; [exact Hl|set_solver]| |done].
    assert (forall l', l' ∈ F' -> h' !! l' = h !! l') as Hsame'
      by (intros l' Hin; apply Hsame; set_solver).
    clear Hs Hl Hnot Hsame.
    induction Hp as [|v t' F1 xs ts F2 Hx _ IHp Hd]; [constructor|].
    inversion IH as [|? ? IH1 IH2]; subst.
    constructor; [|apply IHp; [done|]|done].
    + apply (IH1 _ _ Hx). intros l' Hin. apply Hsame'. set_solver.
    + intros l' Hin. apply Hsame'. set_solver.
Qed.

Lemma shaped_app h ext v t F : shaped h v t F -> shaped (h ++ ext) v t F.
Proof.
  intros Hs. eapply shaped_frame; [exact Hs|].
  intros l Hin. apply lookup_app_l. by eapply shaped_valid.
Qed.

Lemma allocEach_app {A B} (f : A -> Heap -> B * Heap) xs :
  (forall x h y h', f x h = (y, h') -> exists ext, h' = h ++ ext) ->
  forall h ys h', allocEach f xs h = (ys, h') -> exists ext, h' = h ++ ext.
Proof.
  intros Hf. induction xs as [|x xs IH]; intros h ys h' E; simpl in E.
  - injection E as <- <-. exists []. by rewrite app_nil_r.
  - destruct (f x h) as [y h1] eqn:E1.
    destruct (allocEach f xs h1) as [ys' h2] eqn:E2. injection E as <- <-.
    destruct (Hf _ _ _ _ E1) as (e1 & ->). destruct (IH _ _ _ E2) as (e2 & ->).
    exists (e1 ++ e2). by rewrite app_assoc.
Qed.

(** What [materialize_tree] allocates is shaped, and its footprint lies
    in what it has allocated. *)
Lemma materialize_shaped t :
  forall h v h', materialize_tree t h = (v, h') ->
    exists F, shaped h' v t F /\ length h <= length h' /\
              forall l, l ∈ F -> length h <= l < length h'.
Proof.
  induction t as [p|pts IH|ts IH] using tree_ind'; intros h v h' E; simpl in E.
  - injection E as <- <-. exists ∅. split_and!; [constructor|done|set_solver].
  - destruct (allocEach _ pts h) as [vs h1] eqn:E1. injection E as <- <-.
    assert (exists F, parts (fun kv kt F' => fst kv = fst kt /\
                                 shaped h1 (snd kv) (snd kt) F') vs pts F /\
                      length h <= length h1 /\
                      forall l, l ∈ F -> length h <= l < length h1)
      as (F & Hp & Hlen & HF).
    { clear -IH E1. revert h vs h1 E1.
      induction IH as [|[k t'] pts IHt _ IHpts]; intros h vs h1 E1; simpl in E1.
      - injection E1 as <- <-. exists ∅. split_and!; [constructor|done|set_solver].
      - destruct (materialize_tree t' h) as [v0 h0] eqn:E0.
        destruct (allocEach _ pts h0) as [vs' h2] eqn:E2. injection E1 as <- <-.
        destruct (IHt _ _ _ E0) as (F1 & Hs1 & Hl1 & HF1).
        destruct (IHpts _ _ _ E2) as (F2 & Hp2 & Hl2 & HF2).
        assert (exists ext, h2 = h0 ++ ext) as [ext ->].
        { eapply allocEach_app; [|exact E2]. intros [k1 t1] h3 y h4 E3.
          simpl in E3. destruct (materialize_tree t1 h3) as [v1 h5] eqn:E5. injection E3 as <- <-.
          destruct (materialize_tree_spec _ _ _ _ E5) as (e1 & -> & _). by exists e1. }
        exists (F1 ∪ F2). split_and!.
        + constructor; [split; [done|by apply shaped_app]|done|].
          intros l Hin1 Hin2. apply HF1 in Hin1. apply HF2 in Hin2. lia.
        + lia.
        + intros l Hin. apply elem_of_union in Hin as [Hin|Hin].
          * apply HF1 in Hin. lia.
          * apply HF2 in Hin. lia. }
    exists ({[length h1]} ∪ F). split_and!.
    + eapply shaped_obj.
      * by apply list_lookup_middle.
      * eapply parts_impl; [exact Hp|]. apply Forall_forall.
        intros kt _ kv F' [Hk Hs]. split; [done|]. by apply shaped_app.
      * intros Hin. apply HF in Hin. lia.
    + rewrite length_app. simpl. lia.
    + intros l Hin. rewrite length_app. simpl.
      apply elem_of_union in Hin as [Hin|Hin].
      * apply elem_of_singleton in Hin as ->. lia.
      * apply HF in Hin. lia.
  - destruct (allocEach _ ts h) as [vs h1] eqn:E1. injection E as <- <-.
    assert (exists F, parts (shaped h1) vs ts F /\ length h <= length h1 /\
                      forall l, l ∈ F -> length h <= l < length h1)
      as (F & Hp & Hlen & HF).
    { clear -IH E1. revert h vs h1 E1.
      induction IH as [|t' ts IHt _ IHts]; intros h vs h1 E1; simpl in E1.
      - injection E1 as <- <-. exists ∅. split_and!; [constructor|done|set_solver].
      - destruct (materialize_tree t' h) as [v0 h0] eqn:E0.
        destruct (allocEach _ ts h0) as [vs' h2] eqn:E2. injection E1 as <- <-.
        destruct (IHt _ _ _ E0) as (F1 & Hs1 & Hl1 & HF1).
        destruct (IHts _ _ _ E2) as (F2 & Hp2 & Hl2 & HF2).
        assert (exists ext, h2 = h0 ++ ext) as [ext ->].
        { eapply allocEach_app; [|exact E2]. intros t1 h3 y h4 E3.
          destruct (materialize_tree_spec _ _ _ _ E3) as (e1 & -> & _). by exists e1. }
        exists (F1 ∪ F2). split_and!.
        + constructor; [by apply shaped_app|done|].
          intros l Hin1 Hin2. apply HF1 in Hin1. apply HF2 in Hin2. lia.
        + lia.
        + intros l Hin. apply elem_of_union in Hin as [Hin|Hin].
          * apply HF1 in Hin. lia.
          * apply HF2 in Hin. lia. }
    exists ({[length h1]} ∪ F). split_and!.
    + eapply shaped_arr.
      * by apply list_lookup_middle.
      * eapply parts_impl; [exact Hp|]. apply Forall_forall.
        intros t' _ v' F' Hs. by apply shaped_app.
      * intros Hin. apply HF in Hin. lia.
    + rewrite length_app. simpl. lia.
    + intros l Hin. rewrite length_app. simpl.
      apply elem_of_union in Hin as [Hin|Hin].
      * apply elem_of_singleton in Hin as ->. lia.
      * apply HF in Hin. lia.
Qed.

Lemma shaped_obj_inv h l pts F :
  shaped h (VRef l) (TObj pts) F ->
  exists ps F0, h !! l = Some (Obj ps) /\ parts (keyed h) ps pts F0 /\
                (l ∉ F0) /\ F = {[l]} ∪ F0.
Proof. inversion 1; subst. eauto 10. Qed.

Lemma shaped_obj_intro h l ps pts F0 :
  h !! l = Some (Obj ps) -> parts (keyed h) ps pts F0 -> l ∉ F0 ->
  shaped h (VRef l) (TObj pts) ({[l]} ∪ F0).
Proof. intros. by eapply shaped_obj. Qed.

Lemma parts_frame h h' ps pts F :
  parts (keyed h) ps pts F ->
  (forall l, l ∈ F -> h' !! l = h !! l) ->
  parts (keyed h') ps pts F.
Proof.
  intros Hp Hsame. eapply parts_weaken; [exact Hp|].
  intros kv kt F' Hsub [Hk Hs]. split; [done|].
  eapply shaped_frame; [exact Hs|]. intros l Hl. apply Hsame. set_solver.
Qed.

Lemma parts_valid h ps pts F :
  parts (keyed h) ps pts F -> forall l, l ∈ F -> l < length h.
Proof.
  induction 1 as [|kv kt F1 ps pts F2 [_ Hs] _ IH _]; intros l Hl; [set_solver|].
  apply elem_of_union in Hl as [Hl|Hl]; [by eapply shaped_valid|by apply IH].
Qed.

(** Reading a property of a shaped object. *)
Lemma parts_get h ps pts F k :
  parts (keyed h) ps pts F ->
  match props_get k ps with
  | Some u => exists tu Fk, props_get k pts = Some tu /\ shaped h u tu Fk /\ Fk ⊆ F
  | None => props_get k pts = None
  end.
Proof.
  induction 1 as [|[k1 v1] [k2 t2] F1 ps pts F2 [Hk Hs] _ IH _]; [done|].
  simpl in Hk, Hs. subst k2. simpl. destruct (String.eqb k k1).
  - exists t2, F1. split_and!; [done..|set_solver].
  - destruct (props_get k ps) as [u|]; [|done].
    destruct IH as (tu & Fk & ? & ? & ?). exists tu, Fk. split_and!; [done..|set_solver].
Qed.

Lemma shaped_field h l ps pts F k :
  shaped h (VRef l) (TObj pts) F -> h !! l = Some (Obj ps) ->
  exists Fk, shaped h (field ps k) (tget (TObj pts) k) Fk /\ Fk ⊆ F /\ l ∉ Fk.
Proof.
  intros Hs Hl. apply shaped_obj_inv in Hs as (ps' & F0 & Hl' & Hp & Hnot & ->).
  assert (ps' = ps) as -> by congruence.
  pose proof (parts_get _ _ _ _ k Hp) as Hg. unfold field. simpl.
  destruct (props_get k ps) as [u|].
  - destruct Hg as (tu & Fk & -> & Hu & Hsub). exists Fk.
    split_and!; [done|set_solver|set_solver].
  - rewrite Hg. exists ∅. split_and!; [constructor|set_solver|set_solver].
Qed.

(** Assigning to a property of a shaped object. *)
Lemma parts_set h h' ps pts F k v x Fx :
  parts (keyed h) ps pts F ->
  (forall l, l ∈ F -> h' !! l = h !! l) ->
  shaped h' v x Fx -> Fx ## F ->
  exists F', parts (keyed h') (props_set k v ps) (props_set k x pts) F' /\
             F' ⊆ F ∪ Fx.
Proof.
  intros Hp. revert Fx.
  induction Hp as [|[k1 v1] [k2 t2] F1 ps pts F2 [Hk Hs] Hp IH Hd];
    intros Fx Hsame Hv Hdis.
  - exists (Fx ∪ ∅). split; [|set_solver]. simpl.
    constructor; [done|constructor|set_solver].
  - simpl in Hk, Hs. subst k2. simpl. destruct (String.eqb k k1).
    + exists (Fx ∪ F2). split; [|set_solver].
      constructor; [done| |set_solver].
      eapply parts_frame; [exact Hp|]. intros l Hl. apply Hsame. set_solver.
    + destruct (IH Fx) as (F2' & Hp' & Hsub); [|done|set_solver|].
      { intros l Hl. apply Hsame. set_solver. }
      exists (F1 ∪ F2'). split; [|set_solver].
      constructor; [|done|set_solver].
      split; [done|]. eapply shaped_frame; [exact Hs|].
      intros l Hl. apply Hsame. set_solver.
Qed.

(** A property of a shaped object, and the shape of the object once
    what the property holds has changed in place. *)
Lemma parts_child h ps pts F k u :
  parts (keyed h) ps pts F -> props_get k ps = Some u ->
  exists tu Fk,
    props_get k pts = Some tu /\ shaped h u tu Fk /\ Fk ⊆ F /\
    forall h' x Fk',
      (forall l, l ∈ F -> l ∉ Fk -> h' !! l = h !! l) ->
      shaped h' u x Fk' ->
      (forall l, l ∈ Fk' -> l ∈ F -> l ∈ Fk) ->
      exists F', parts (keyed h') ps (props_set k x pts) F' /\
                 forall l, l ∈ F' -> l ∈ F \/ l ∈ Fk'.
Proof.
  induction 1 as [|[k1 v1] [k2 t2] F1 ps pts F2 [Hk Hs] Hp IH Hd]; [done|].
  simpl in Hk, Hs. subst k2. simpl. destruct (String.eqb k k1) eqn:Ek.
  - intros [= <-]. exists t2, F1. split_and!; [done..|set_solver|].
    intros h' x Fk' Hsame Hx Hin. exists (Fk' ∪ F2). split; [|set_solver].
    apply String.eqb_eq in Ek as ->.
    constructor; [done| |].
    + eapply parts_frame; [exact Hp|]. intros l Hl. apply Hsame; set_solver.
    + intros l Hl1 Hl2. apply (Hd l); [|done]. apply Hin; [done|set_solver].
  - intros Hg. destruct (IH Hg) as (tu & Fk & Hgt & Hu & Hsub & K).
    exists tu, Fk. split_and!; [done..|set_solver|].
    intros h' x Fk' Hsame Hx Hin.
    destruct (K h' x Fk') as (F2' & Hp' & Hsub'); [|done| |].
    { intros l Hl Hn. apply Hsame; [set_solver|done]. }
    { intros l Hl Hl2. apply Hin; [done|set_solver]. }
    exists (F1 ∪ F2'). split.
    + constructor; [|done|].
      * split; [done|]. eapply shaped_frame; [exact Hs|].
        intros l Hl. apply Hsame; [set_solver|]. intros Hn. apply (Hd l); set_solver.
      * intros l Hl1 Hl2. destruct (Hsub' l Hl2) as [Hc|Hc].
        -- by apply (Hd l).
        -- apply (Hd l); [done|]. apply Hsub. apply Hin; [done|set_solver].
    + intros l Hl. apply elem_of_union in Hl as [Hl|Hl]; [left; set_solver|].
      destruct (Hsub' l Hl); [left; set_solver|by right].
Qed.

Lemma shaped_child h l ps pts F k u :
  shaped h (VRef l) (TObj pts) F -> h !! l = Some (Obj ps) ->
  props_get k ps = Some u ->
  exists tu Fk,
    props_get k pts = Some tu /\ shaped h u tu Fk /\ Fk ⊆ F /\ (l ∉ Fk) /\
    forall h' x Fk',
      h' !! l = Some (Obj ps) ->
      (forall l', l' ∈ F -> l' ∉ Fk -> l' <> l -> h' !! l' = h !! l') ->
      shaped h' u x Fk' ->
      (forall l', l' ∈ Fk' -> l' ∈ F -> l' ∈ Fk) ->
      exists F', shaped h' (VRef l) (TObj (props_set k x pts)) F' /\
                 forall l', l' ∈ F' -> l' ∈ F \/ l' ∈ Fk'.
Proof.
  intros Hs Hl Hg. apply shaped_obj_inv in Hs as (ps' & F0 & Hl' & Hp & Hnot & ->).
  assert (ps' = ps) as -> by congruence.
  destruct (parts_child _ _ _ _ _ _ Hp Hg) as (tu & Fk & Hgt & Hu & Hsub & K).
  exists tu, Fk. split_and!; [done..|set_solver|set_solver|].
  intros h' x Fk' Hl1 Hsame Hx Hin.
  destruct (K h' x Fk') as (F' & Hp' & Hsub'); [|done| |].
  { intros l' Hl2 Hn. apply Hsame; [set_solver|done|]. intros ->. done. }
  { intros l' Hl2 Hl3. apply Hin; [done|set_solver]. }
  exists ({[l]} ∪ F'). split.
  - apply (shaped_obj_intro _ _ ps); [done..|]. intros Hc.
    destruct (Hsub' l Hc) as [?|Hc']; [done|].
    assert (l ∈ Fk) by (apply Hin; [done|set_solver]). set_solver.
  - intros l' Hl2. apply elem_of_union in Hl2 as [Hl2|Hl2]; [left; set_solver|].
    destruct (Hsub' l' Hl2); [left; set_solver|by right].
Qed.

(** ** The value of a reference, as plain data *)

#[local] Set Warnings "-clear-no-such-hyp".

Lemma parts_nil_inv {A B} (R : A -> B -> gset loc -> Prop) ys F :
  parts R [] ys F -> ys = [] /\ F = ∅.
Proof. by inversion 1. Qed.

Lemma parts_cons_inv {A B} (R : A -> B -> gset loc -> Prop) x xs ys F :
  parts R (x :: xs) ys F ->
  exists y ys' F1 F2, ys = y :: ys' /\ F = F1 ∪ F2 /\ R x y F1 /\
                      parts R xs ys' F2 /\ F1 ## F2.
Proof. inversion 1; subst. eauto 10. Qed.

Lemma forallb_Forall {A} (P : A -> bool) xs :
  forallb P xs = true -> Forall (fun x => P x = true) xs.
Proof.
  induction xs as [|x xs IH]; simpl; [constructor|].
  intros [Hx Hxs]%andb_true_iff. constructor; [done|by apply IH].
Qed.

Lemma reaches_snoc h v l o l' :
  reaches h v l -> h !! l = Some o -> VRef l' ∈ obj_vals o -> reaches h v l'.
Proof.
  induction 1 as [l|l0 o0 v l Ho Hin Hr IH]; intros Hl Hv.
  - eapply reaches_step; [exact Hl|exact Hv|constructor].
  - eapply reaches_step; [exact Ho|exact Hin|by apply IH].
Qed.

(** What a read of a property of a value reachable from [root] gives is
    reachable from [root], and is the same in a store that has these
    objects as they are. *)
Lemma readProp_reach h h' root target k :
  (forall l, reaches h root l -> h' !! l = h !! l) ->
  (forall l, target = VRef l -> reaches h root l) ->
  readProp h' target k = readProp h target k /\
  forall v, readProp h target k = Ok v ->
            forall l, v = VRef l -> reaches h root l.
Proof.
  intros Hsame Ht. destruct target as [p|l]; simpl.
  - split; [done|]. by destruct p; intros v [= <-] l.
  - rewrite (Hsame l (Ht l eq_refl)). split; [done|].
    destruct (h !! l) as [o|] eqn:Ho; [|done]. intros v [= <-] l' Hv.
    destruct (props_get k (own_props o)) as [u|] eqn:Hg; [|done]. simpl in Hv.
    subst u. apply props_get_in in Hg. rewrite own_props_vals in Hg.
    eapply reaches_snoc; [by apply Ht|exact Ho|exact Hg].
Qed.

Lemma readOptProp_reach h h' root target k :
  (forall l, reaches h root l -> h' !! l = h !! l) ->
  (forall l, target = VRef l -> reaches h root l) ->
  readOptProp h' target k = readOptProp h target k /\
  forall v, readOptProp h target k = Ok v ->
            forall l, v = VRef l -> reaches h root l.
Proof.
  intros Hsame Ht. unfold readOptProp.
  destruct target as [[]|l]; try (split; [done|]; by intros v [= <-] l');
    by apply readProp_reach.
Qed.

Section Outcome.
Context `{Collaborators}.

Lemma decryptSopsFile_outcome config s :
  fst (decryptSopsFile config s) = decryptOutcome (heap s) config.
Proof.
  unfold decryptOutcome, decryptSopsFile, bind, getProp, optChain, throw, ret,
    callDecryptSopsJsonFile. simpl.
  repeat case_match; simplify_eq; try done; simpl in *; congruence.
Qed.

(** A decrypt reads what its config reaches, and nothing else. *)
Lemma decryptOutcome_agree h h' config :
  (forall l, reaches h config l -> h' !! l = h !! l) ->
  decryptOutcome h' config = decryptOutcome h config.
Proof.
  intros Hsame.
  unfold decryptOutcome, decryptSopsFile, bind, getProp, optChain, throw, ret,
    callDecryptSopsJsonFile. simpl.
  destruct (readProp_reach h h' config config "secrets" Hsame) as [-> Hr1].
  { by intros l ->; constructor. }
  destruct (readProp h config "secrets") as [secrets|]; [|done].
  specialize (Hr1 _ eq_refl). simpl.
  destruct (readOptProp_reach h h' config secrets "sources" Hsame Hr1) as [-> Hr2].
  destruct (readOptProp h secrets "sources") as [sources|]; [|done].
  specialize (Hr2 _ eq_refl). simpl.
  destruct (readOptProp_reach h h' config sources "file" Hsame Hr2) as [-> Hr3].
  destruct (readOptProp h sources "file") as [fileSource|]; [|done].
  specialize (Hr3 _ eq_refl). simpl.
  destruct (negb (truthy fileSource)); [done|]. simpl.
  destruct (readProp_reach h h' config fileSource "type" Hsame Hr3) as [-> _].
  destruct (readProp h fileSource "type") as [ty|]; [|done]. simpl.
  destruct (negb (isString ty "sops")); [done|]. simpl.
  destruct (readProp_reach h h' config fileSource "path" Hsame Hr3) as [-> _].
  destruct (readProp h fileSource "path") as [path|]; [|done]. simpl.
  destruct (readProp_reach h h' config fileSource "timeoutMs" Hsame Hr3) as [Ht _].
  destruct path as [[| | | |p]|]; simpl; try done.
  rewrite Ht. by destruct (readProp h fileSource "timeoutMs").
Qed.

Lemma isNonEmptyString_shaped h v x F :
  shaped h v x F -> isNonEmptyString v = tisNonEmptyString x.
Proof. by inversion 1. Qed.

Lemma shaped_asSecretRef h v x F :
  shaped h v x F -> asSecretRef h v = secretRefOfTree x.
Proof.
  intros Hs. eapply readback_asSecretRef. by eapply shaped_readback.
Qed.

Lemma shaped_isUndefined h v x F : shaped h v x F -> isUndefined v = tisUndefined x.
Proof. by intros []. Qed.

Lemma shaped_isRecord h v x F : shaped h v x F -> isRecord h v = tisRecord x.
Proof. inversion 1 as [|? ? ? ? Hl|? ? ? ? Hl]; simpl; by rewrite ?Hl. Qed.

Lemma shaped_record h v pts F :
  shaped h v (TObj pts) F ->
  exists l ps F0, v = VRef l /\ h !! l = Some (Obj ps) /\
                  parts (keyed h) ps pts F0 /\ (l ∉ F0) /\ F = {[l]} ∪ F0.
Proof. inversion 1; subst. eauto 10. Qed.

(** What a settled decrypt hands out for a pointer. *)
Lemma lookupInPayload_sim p id s r s' :
  lookupInPayload p id s = (r, s') ->
  exists ext,
    heap s' = heap s ++ ext /\ contexts s' = contexts s /\
    match (match p with
           | Ok payload =>
               match readJsonPointer payload id with
               | Some t => Ok t
               | None => Err (MissingSecret id)
               end
           | Err e => Err e
           end) with
    | Ok x => exists v Fx, r = Ok v /\ shaped (heap s') v x Fx /\
                           forall l, l ∈ Fx -> length (heap s) <= l
    | Err e => r = Err e
    end.
Proof.
  unfold lookupInPayload, bind, await, materialize, throw. intros E.
  destruct p as [payload|e].
  2:{ simplify_eq. exists []. by rewrite app_nil_r. }
  destruct (readJsonPointer payload id) as [t|].
  2:{ simplify_eq. exists []. by rewrite app_nil_r. }
  destruct (materialize_tree t (heap s)) as [v h'] eqn:Em. simplify_eq.
  destruct (materialize_tree_spec _ _ _ _ Em) as (ext & -> & _).
  destruct (materialize_shaped _ _ _ _ Em) as (Fx & Hs & _ & HF).
  exists ext. split_and!; [done..|]. exists v, Fx. split_and!; [done..|].
  intros l Hl. apply HF in Hl. lia.
Qed.
End Outcome.

Lemma props_get_set_ne {A} k k' (v : A) ps :
  k <> k' -> props_get k' (props_set k v ps) = props_get k' ps.
Proof.
  intros Hne. induction ps as [|[k1 v1] ps IH]; simpl.
  - destruct (String.eqb k' k) eqn:E; [|done].
    apply String.eqb_eq in E. congruence.
  - destruct (String.eqb k k1) eqn:E1; simpl.
    + apply String.eqb_eq in E1 as ->.
      destruct (String.eqb k' k1) eqn:E2; [|done].
      apply String.eqb_eq in E2. congruence.
    + by rewrite IH.
Qed.

Section HalvesOfWalks.
Context `{Collaborators}.

Lemma resolveConfigSecretRefs_halves fuel config context warnings s :
  resolveConfigSecretRefs fuel config context warnings s =
  (let* resolved := structuredClone fuel config in
   resolveProviders resolved context ;;
   resolveGoogleChat resolved context warnings ;;
   ret resolved) s.
Proof.
  unfold resolveConfigSecretRefs, resolveProviders, resolveGoogleChat,
    resolveGoogleChatEntry, bind.
  repeat case_match; simplify_eq; done.
Qed.

(** Resolving the providers leaves an object, with the channels it
    had. *)
Lemma providersResolved_channels resolve t t1 :
  tisRecord t = true -> providersResolved resolve t = Ok t1 ->
  tisRecord t1 = true /\ googleChatTyped t1 = googleChatTyped t /\
  tget t1 "channels" = tget t "channels".
Proof.
  intros Hrec. unfold providersResolved. cbv zeta.
  destruct (ttruthy _); [|by intros [= <-]].
  destruct (mapResult _ _) as [entries|]; [|done]. intros [= <-].
  destruct t as [|pts|]; try done. split; [done|].
  unfold googleChatTyped. simpl. by rewrite props_get_set_ne.
Qed.

Lemma targetResolved_accounts resolve tg g :
  targetResolved resolve tg = Ok g -> tget g "accounts" = tget tg "accounts".
Proof.
  unfold targetResolved.
  destruct (match secretRefOfTree (tget tg "serviceAccountRef") with
            | Some r => Some r
            | None => secretRefOfTree (tget tg "serviceAccount")
            end) as [ref|]; [|by intros [= <-]].
  destruct (resolve ref) as [x|]; [|done]. intros [= <-].
  destruct tg as [|pts|]; try done. simpl. by rewrite props_get_set_ne.
Qed.

Lemma flat_map_comp {A B C} (f : A -> list B) (g : B -> list C) xs :
  flat_map g (flat_map f xs) = flat_map (fun x => flat_map g (f x)) xs.
Proof.
  induction xs as [|x xs IH]; simpl; [done|]. by rewrite flat_map_app, IH.
Qed.

Lemma flat_map_none {A B} (xs : list A) : flat_map (fun _ => @nil B) xs = [].
Proof. by induction xs. Qed.

Lemma resolveAuthStoreSecretRefs_halves fuel store context warnings agentDir s :
  resolveAuthStoreSecretRefs fuel store context warnings agentDir s =
  (let* resolvedStore := structuredClone fuel store in
   resolveProfiles resolvedStore context warnings agentDir ;;
   ret resolvedStore) s.
Proof.
  unfold resolveAuthStoreSecretRefs, resolveProfiles, bind.
  repeat case_match; simplify_eq; done.
Qed.

End HalvesOfWalks.

(** ** The state during a walk *)

Section Walking.
Context `{Collaborators}.
Variables (s0 : State) (w : loc) (context : nat) (ctx : ResolverContext).
Hypothesis Hw : w < length (heap s0).
Hypothesis Hcfg : forall l, reaches (heap s0) (ctx_config ctx) l ->
                            l < length (heap s0) /\ l <> w.

Variable decrypted : Result tree.
Hypothesis Hcached : forall p, ctx_fileSecretsPromise ctx = Some p -> p = decrypted.
Hypothesis Hfirst : ctx_fileSecretsPromise ctx = None ->
                    decryptOutcome (heap s0) (ctx_config ctx) = decrypted.

Lemma walking_heap s h :
  walking s0 w context ctx decrypted s ->
  length (heap s) <= length h ->
  (forall l, l < length (heap s0) -> l <> w -> h !! l = heap s !! l) ->
  (exists ws, h !! w = Some (Arr ws)) ->
  walking s0 w context ctx decrypted (with_heap h s).
Proof.
  intros [Hlen Hold Hws Hctx] Hl Hsame Hw'. split; simpl.
  - lia.
  - intros l Hl0 Hne. rewrite Hsame by done. by apply Hold.
  - done.
  - done.
Qed.

Lemma walking_append s ext : walking s0 w context ctx decrypted s -> walking s0 w context ctx decrypted (with_heap (heap s ++ ext) s).
Proof.
  intros Hwalk. apply walking_heap; [done|rewrite length_app; lia| |].
  - intros l Hl Hne. apply lookup_app_l. destruct Hwalk. lia.
  - destruct Hwalk as [_ _ [ws Hws] _]. exists ws. by apply lookup_app_l_Some.
Qed.

Lemma walking_pushed s ws o :
  walking s0 w context ctx decrypted s -> heap s !! w = Some (Arr ws) -> walking s0 w context ctx decrypted (pushed w ws o s).
Proof.
  intros Hwalk Hws. apply walking_heap; [done| | |].
  - rewrite length_insert, length_app. lia.
  - intros l Hl Hne. rewrite list_lookup_insert_ne by done.
    apply lookup_app_l. destruct Hwalk. lia.
  - eexists. apply list_lookup_insert_eq. rewrite length_app.
    apply lookup_lt_Some in Hws. lia.
Qed.

Lemma walking_assigned s l ps k v :
  walking s0 w context ctx decrypted s -> length (heap s0) <= l -> heap s !! l = Some (Obj ps) ->
  walking s0 w context ctx decrypted (assigned l ps k v s).
Proof.
  intros Hwalk Hl Hcell. apply walking_heap; [done| | |].
  - by rewrite length_insert.
  - intros l' Hl' Hne. apply list_lookup_insert_ne. lia.
  - destruct Hwalk as [_ _ [ws Hws] _]. exists ws.
    rewrite list_lookup_insert_ne by lia. done.
Qed.

(** One resolution during a walk yields the value of the reference. *)
Lemma resolve_sim ref s r s' :
  walking s0 w context ctx decrypted s ->
  resolveSecretRefValue ref context s = (r, s') ->
  exists ext,
    heap s' = heap s ++ ext /\ walking s0 w context ctx decrypted s' /\
    match referenceValue (ctx_env ctx) decrypted ref with
    | Ok x => exists v Fx, r = Ok v /\ shaped (heap s') v x Fx /\
                           forall l, l ∈ Fx -> length (heap s) <= l
    | Err e => r = Err e
    end.
Proof.
  intros Hwalk E.
  assert (walking s0 w context ctx decrypted (with_heap (heap s ++ []) s) -> walking s0 w context ctx decrypted s) as Hnil.
  { rewrite app_nil_r. by destruct s. }
  destruct (Hwalk) as [Hlen Hold Hws (slot & Hctx & Hslot)].
  unfold referenceValue.
  destruct (String.eqb (trim (ref_id ref)) "") eqn:Hid.
  { apply String.eqb_eq in Hid. rewrite resolve_blank_id in E by done.
    simplify_eq. exists []. by rewrite app_nil_r. }
  apply String.eqb_neq in Hid.
  destruct (String.eqb (ref_source ref) "env") eqn:Henv.
  { unfold resolveSecretRefValue in E.
    apply String.eqb_neq in Hid. rewrite Hid, Henv in E. simpl in E.
    unfold bind, getContext in E. rewrite Hctx in E. simpl in E.
    unfold envLookup in E.
    destruct (ctx_env ctx !! trim (ref_id ref)) as [str|]; simpl in E.
    - destruct (String.eqb (trim str) ""); simpl in E; unfold throw, ret in E;
        simplify_eq; exists []; rewrite app_nil_r; simpl; [done|].
      split_and!; [done..|].
      exists (VPrim (PStr str)), ∅. split_and!; [done|constructor|set_solver].
    - unfold throw in E. simplify_eq. exists []. by rewrite app_nil_r. }
  destruct (String.eqb (ref_source ref) "file") eqn:Hfile.
  2:{ unfold resolveSecretRefValue in E.
      apply String.eqb_neq in Hid. rewrite Hid, Henv, Hfile in E.
      unfold throw in E. simplify_eq. exists []. by rewrite app_nil_r. }
  apply String.eqb_eq in Hfile.
  destruct slot as [p|].
  - assert (p = decrypted) as ->.
    { destruct Hslot as [Hs|Hs]; [by apply Hcached|congruence]. }
    rewrite (resolve_file_cached _ _ _ _ _ Hfile Hid Hctx eq_refl) in E.
    destruct (lookupInPayload_sim _ _ _ _ _ E) as (ext & Hh & Hc & Hres).
    exists ext. split_and!; [done| |done].
    assert (s' = with_heap (heap s ++ ext) s') as -> by (rewrite <- Hh; by destruct s').
    split; simpl.
    + rewrite length_app. lia.
    + intros l Hl Hne. rewrite lookup_app_l by lia. by apply Hold.
    + destruct Hws as [ws Hws]. exists ws. by apply lookup_app_l_Some.
    + exists (Some decrypted). rewrite Hc. split; [done|by right].
  - assert (ctx_fileSecretsPromise ctx = None) as Hslot0.
    { destruct Hslot as [Hs|Hs]; [done|discriminate]. }
    destruct (decryptSopsFile (ctx_config ctx) s) as [r1 s1] eqn:Hd.
    assert (r1 = decrypted) as ->.
    { pose proof (decryptSopsFile_outcome (ctx_config ctx) s) as Ho.
      rewrite Hd in Ho. simpl in Ho. rewrite Ho, <- (Hfirst Hslot0).
      apply decryptOutcome_agree. intros l Hr.
      destruct (Hcfg l Hr). by apply Hold. }
    rewrite (resolve_file_first _ _ _ _ _ _ Hfile Hid Hctx eq_refl Hd) in E.
    destruct (lookupInPayload_sim _ _ _ _ _ E) as (ext & Hh & Hc & Hres).
    assert (heap s1 = heap s) as Hh1
      by (by destruct (decryptSopsFile_effect _ _ _ _ Hd) as [-> | [c ->]]).
    simpl in Hh, Hc, Hres. rewrite Hh1 in Hh, Hres.
    exists ext. split_and!; [done| |done].
    assert (s' = with_heap (heap s ++ ext) s') as -> by (rewrite <- Hh; by destruct s').
    split; simpl.
    + rewrite length_app. lia.
    + intros l Hl Hne. rewrite lookup_app_l by lia. by apply Hold.
    + destruct Hws as [ws Hws]. exists ws. by apply lookup_app_l_Some.
    + exists (Some decrypted). rewrite Hc. split; [|by right].
      apply list_lookup_insert_eq. by eapply lookup_lt_Some.
Qed.

(** ** The warnings of a step *)

Lemma warned_refl s F : walking s0 w context ctx decrypted s -> warned w s s F [].
Proof.
  intros [_ _ [ws Hws] _]. exists ws, []. simpl. rewrite app_nil_r.
  split_and!; [done..|constructor].
Qed.

Lemma warned_ext s s1 ext F :
  walking s0 w context ctx decrypted s -> heap s1 = heap s ++ ext ->
  warned w s s1 F [].
Proof.
  intros [_ _ [ws Hws] _] Hh. exists ws, []. simpl. rewrite app_nil_r.
  split_and!; [done| |constructor]. rewrite Hh. by apply lookup_app_l_Some.
Qed.

Lemma warned_pushed_ext s s1 ws o ext F :
  heap s !! w = Some (Arr ws) ->
  heap s1 = heap (pushed w ws o s) ++ ext ->
  (forall l, l ∈ F -> length (heap (pushed w ws o s)) <= l) ->
  warned w s s1 F [o].
Proof.
  intros Hws Hh HF. assert (w < length (heap s)) as Hlt by (by eapply lookup_lt_Some).
  unfold pushed in *. simpl in *. rewrite length_insert, length_app in HF. simpl in HF.
  exists ws, [length (heap s)]. split_and!; [done| |].
  - rewrite Hh. apply lookup_app_l_Some. apply list_lookup_insert_eq.
    rewrite length_app. lia.
  - constructor; [|constructor]. split_and!; [done| |].
    + intros Hin. apply HF in Hin. lia.
    + rewrite Hh. apply lookup_app_l_Some.
      rewrite list_lookup_insert_ne by lia. by apply list_lookup_middle.
Qed.

Lemma warned_mono s s' F F' Wn :
  warned w s s' F Wn ->
  (forall l, l ∈ F' -> l ∈ F \/ l < length (heap s)) ->
  warned w s s' F' Wn.
Proof.
  intros (ws & ls & Hws & Hws' & Hall) Hsub. exists ws, ls. split_and!; [done..|].
  eapply Forall2_impl; [exact Hall|]. intros l o (Hl & Hn & Ho).
  split_and!; [done| |done]. intros Hin. destruct (Hsub l Hin); [done|lia].
Qed.

(** The warnings of two steps in a row. *)
Lemma warned_seq s s1 s2 Fa Fb Fc W1 W2 :
  warned w s s1 Fa W1 -> warned w s1 s2 Fb W2 ->
  length (heap s) <= length (heap s1) ->
  (forall l, length (heap s) <= l -> l < length (heap s1) -> l ∉ Fa -> l <> w ->
             heap s2 !! l = heap s1 !! l /\ (l ∉ Fc)) ->
  (forall l, l ∈ Fc -> length (heap s1) <= l -> l ∈ Fb) ->
  warned w s s2 Fc (W1 ++ W2).
Proof.
  intros (ws & ls1 & Hws & Hws1 & H1) (ws1 & ls2 & Hws1' & Hws2 & H2) Hlen Hkeep Hnew.
  rewrite Hws1 in Hws1'. injection Hws1' as <-.
  exists ws, (ls1 ++ ls2). split_and!; [done|by rewrite fmap_app, app_assoc|].
  apply Forall2_app.
  - eapply Forall2_impl; [exact H1|]. intros l o (Hl & Hn & Ho).
    assert (l < length (heap s1)) by (by eapply lookup_lt_Some).
    assert (l <> w) by (apply lookup_lt_Some in Hws; lia).
    destruct (Hkeep l) as [Hk Hc]; try done. split_and!; [done..|by rewrite Hk].
  - eapply Forall2_impl; [exact H2|]. intros l o (Hl & Hn & Ho).
    split_and!; [lia| |done]. intros Hin. apply Hn. by apply Hnew.
Qed.

(** ** Assigning a resolved value *)

(** The object at [l], shaped, after a resolution and the assignment of
    its value to the property [k]. *)
Lemma assigned_shaped s s1 l ps pts F0 k v x Fx Wn :
  walking s0 w context ctx decrypted s ->
  warned w s s1 Fx Wn ->
  heap s !! l = Some (Obj ps) ->
  parts (keyed (heap s)) ps pts F0 ->
  l ∉ F0 ->
  (forall l', l' ∈ {[l]} ∪ F0 -> length (heap s0) <= l') ->
  length (heap s) <= length (heap s1) ->
  (forall l', l' < length (heap s) -> l' <> w -> heap s1 !! l' = heap s !! l') ->
  shaped (heap s1) v x Fx ->
  (forall l', l' ∈ Fx -> length (heap s) <= l') ->
  stepped w s (assigned l ps k v s1) ({[l]} ∪ F0)
    (shaped (heap (assigned l ps k v s1)) (VRef l) (TObj (props_set k x pts)))
    Wn.
Proof.
  intros Hwalk Hwarn Hl Hp Hnot Hnew Hlen Hsame Hv HFx.
  assert (l < length (heap s)) as Hlt by (by eapply lookup_lt_Some).
  assert (forall l', l' ∈ F0 -> l' < length (heap s) /\ l' <> l /\ l' <> w) as HF0.
  { intros l' Hin. split_and!.
    - by eapply parts_valid.
    - intros ->. done.
    - assert (length (heap s0) <= l') by (apply Hnew; set_solver). lia. }
  assert (l <> w) as Hlw.
  { assert (length (heap s0) <= l) by (apply Hnew; set_solver). lia. }
  unfold stepped, assigned. simpl. split_and!.
  - by rewrite length_insert.
  - intros l' Hl' Hn Hne. rewrite list_lookup_insert_ne by set_solver.
    by apply Hsame.
  - destruct (parts_set (heap s) (<[l := Obj (props_set k v ps)]> (heap s1))
                ps pts F0 k v x Fx Hp) as (F' & Hp' & Hsub).
    + intros l' Hin. destruct (HF0 l' Hin) as (? & ? & ?).
      rewrite list_lookup_insert_ne by done. by apply Hsame.
    + eapply shaped_frame; [exact Hv|]. intros l' Hin.
      apply list_lookup_insert_ne. apply HFx in Hin. lia.
    + intros l' Hin1 Hin2. apply HFx in Hin1. apply HF0 in Hin2. lia.
    + exists ({[l]} ∪ F'). split_and!.
      * apply (shaped_obj_intro _ _ (props_set k v ps)); [|done|].
        -- apply list_lookup_insert_eq. lia.
        -- intros Hin. apply Hsub in Hin. apply elem_of_union in Hin as [Hin|Hin];
             [done|]. apply HFx in Hin. lia.
      * intros l' Hin. apply elem_of_union in Hin as [Hin|Hin]; [left; set_solver|].
        apply Hsub in Hin. apply elem_of_union in Hin as [Hin|Hin];
          [left; set_solver|right; by apply HFx].
      * destruct Hwarn as (ws & ls & Hws & Hws1 & Hall). exists ws, ls.
        simpl. split_and!; [done| |].
        -- by rewrite list_lookup_insert_ne.
        -- eapply Forall2_impl; [exact Hall|]. intros l' o (Hl' & Hn' & Ho).
           split_and!; [done| |].
           ++ intros Hin. apply elem_of_union in Hin as [Hin|Hin].
              { apply elem_of_singleton in Hin. lia. }
              apply Hsub in Hin. apply elem_of_union in Hin as [Hin|Hin]; [|done].
              apply HF0 in Hin. lia.
           ++ rewrite list_lookup_insert_ne by lia. done.
Qed.

(** A step that changes nothing. *)
Lemma stepped_refl s F (Q : gset loc -> Prop) :
  walking s0 w context ctx decrypted s -> Q F -> stepped w s s F Q [].
Proof.
  intros Hwalk HQ. split_and!; [done..|]. exists F.
  split_and!; [done|by left|by apply warned_refl].
Qed.

(** One provider of the loop. *)
Lemma provider_sim s kv kt F r s' :
  walking s0 w context ctx decrypted s -> keyed (heap s) kv kt F -> tisRecord (snd kt) = true ->
  (forall l, l ∈ F -> length (heap s0) <= l) ->
  resolveProviderApiKey context kv s = (r, s') ->
  match providerResolved (referenceValue (ctx_env ctx) decrypted) kt with
  | Ok kt' => r = Ok tt /\ walking s0 w context ctx decrypted s' /\
              stepped w s s' F (keyed (heap s') kv kt') []
  | Err e => r = Err e
  end.
Proof.
  intros Hwalk [Hk Hs] Hrec Hnew E. destruct kv as [k v], kt as [k' x].
  simpl in Hk, Hs, Hrec. subst k'. destruct x as [|pts|]; try done.
  destruct (shaped_record _ _ _ _ Hs) as (l & ps & F0 & -> & Hl & Hp & Hnot & ->).
  rewrite (resolveProviderApiKey_unfold _ _ _ _ _ Hl) in E.
  destruct (shaped_field _ _ _ _ _ "apiKey" Hs Hl) as (Fk & Hsk & _ & _).
  rewrite (shaped_asSecretRef _ _ _ _ Hsk) in E.
  unfold providerResolved. simpl fst. simpl snd.
  destruct (secretRefOfTree (tget (TObj pts) "apiKey")) as [ref|].
  2:{ simplify_eq. split_and!; [done..|]. by apply stepped_refl. }
  destruct (resolveSecretRefValue ref context s) as [r1 s1] eqn:E1.
  destruct (resolve_sim _ _ _ _ Hwalk E1) as (ext & Hh & Hwalk1 & Hres).
  destruct (referenceValue (ctx_env ctx) decrypted ref) as [xv|e].
  2:{ subst r1. by simplify_eq. }
  destruct Hres as (v & Fx & -> & Hv & HFx).
  rewrite (isNonEmptyString_shaped _ _ _ _ Hv) in E.
  destruct (tisNonEmptyString xv); [|by simplify_eq].
  assert (heap s1 !! l = Some (Obj ps)) as Hl1
    by (rewrite Hh; by apply lookup_app_l_Some).
  unfold setProp in E. rewrite Hl1 in E. simplify_eq.
  fold (assigned l ps "apiKey" v s1). split_and!; [done| |].
  - apply walking_assigned; [done| |done]. apply Hnew. set_solver.
  - assert (stepped w s (assigned l ps "apiKey" v s1) ({[l]} ∪ F0)
              (shaped (heap (assigned l ps "apiKey" v s1)) (VRef l)
                 (TObj (props_set "apiKey" xv pts))) [])
      as (? & ? & F' & ? & ? & ?).
    { eapply assigned_shaped; try done.
      - by eapply warned_ext.
      - rewrite Hh, length_app. lia.
      - intros l' Hl' _. rewrite Hh. by apply lookup_app_l. }
    unfold stepped. split_and!; [done..|]. exists F'. by split_and!.
Qed.

(** One Google Chat target. *)
Lemma target_sim path s v tg F r s' :
  walking s0 w context ctx decrypted s -> shaped (heap s) v tg F -> tisRecord tg = true ->
  (forall l, l ∈ F -> length (heap s0) <= l) ->
  resolveGoogleChatServiceAccount v path context (VRef w) s = (r, s') ->
  match targetResolved (referenceValue (ctx_env ctx) decrypted) tg with
  | Ok tg' => r = Ok tt /\ walking s0 w context ctx decrypted s' /\ tisRecord tg' = true /\
              stepped w s s' F (shaped (heap s') v tg') (targetWarnings (path, tg))
  | Err e => r = Err e
  end.
Proof.
  intros Hwalk Hs Hrec Hnew E. destruct tg as [|pts|]; try done.
  destruct (shaped_record _ _ _ _ Hs) as (l & ps & F0 & -> & Hl & Hp & Hnot & ->).
  destruct (walking_warnings _ _ _ _ _ _ Hwalk) as [ws Hws].
  rewrite (resolveGoogleChatServiceAccount_unfold _ _ _ _ _ _ _ Hl Hws) in E.
  cbv zeta in E.
  destruct (shaped_field _ _ _ _ _ "serviceAccountRef" Hs Hl) as (F1 & Hs1 & _ & _).
  destruct (shaped_field _ _ _ _ _ "serviceAccount" Hs Hl) as (F2 & Hs2 & _ & _).
  rewrite (shaped_asSecretRef _ _ _ _ Hs1), (shaped_asSecretRef _ _ _ _ Hs2),
    (shaped_isUndefined _ _ _ _ Hs2) in E.
  change (_ && _ && _) with (targetOverrides (TObj pts)) in E.
  unfold targetResolved, targetWarnings. simpl fst. simpl snd.
  destruct (match secretRefOfTree (tget (TObj pts) "serviceAccountRef") with
            | Some r0 => Some r0
            | None => secretRefOfTree (tget (TObj pts) "serviceAccount")
            end) as [ref|] eqn:Href.
  2:{ assert (targetOverrides (TObj pts) = false) as ->.
      { unfold targetOverrides.
        by destruct (secretRefOfTree (tget (TObj pts) "serviceAccountRef")). }
      simplify_eq. split_and!; [done..|]. by apply stepped_refl. }
  match type of E with
  | context [resolveSecretRefValue ref context ?x] => set (sw := x) in E
  end.
  assert (walking s0 w context ctx decrypted sw /\ length (heap s) <= length (heap sw) /\
          (forall l', l' < length (heap s) -> l' <> w ->
                      heap sw !! l' = heap s !! l')) as (Hwalkw & Hlenw & Hsamew).
  { subst sw. destruct (targetOverrides (TObj pts)); [|done]. split_and!.
    - by apply walking_pushed.
    - unfold pushed. simpl. rewrite length_insert, length_app. lia.
    - intros l' Hl' Hne. unfold pushed. simpl.
      rewrite list_lookup_insert_ne by done. by apply lookup_app_l. }
  destruct (resolveSecretRefValue ref context sw) as [r1 s1] eqn:E1.
  destruct (resolve_sim _ _ _ _ Hwalkw E1) as (ext & Hh & Hwalk1 & Hres).
  destruct (referenceValue (ctx_env ctx) decrypted ref) as [xv|e].
  2:{ subst r1. by simplify_eq. }
  destruct Hres as (v & Fx & -> & Hv & HFx). simplify_eq.
  assert (length (heap s0) <= l) as Hl0 by (apply Hnew; set_solver).
  assert (heap s1 !! l = Some (Obj ps)) as Hl1.
  { rewrite Hh. apply lookup_app_l_Some. rewrite Hsamew; [done| |lia].
    by eapply lookup_lt_Some. }
  split_and!; [done| |done|].
  - apply walking_assigned; done.
  - eapply assigned_shaped; try done.
    + subst sw. destruct (targetOverrides (TObj pts)).
      * by eapply warned_pushed_ext.
      * by eapply warned_ext.
    + rewrite Hh, length_app. lia.
    + intros l' Hl' Hne. rewrite Hh, lookup_app_l by lia. by apply Hsamew.
    + intros l' Hin. apply HFx in Hin. lia.
Qed.

(** One entry of accounts. *)
Lemma account_sim s kv kt F r s' :
  walking s0 w context ctx decrypted s -> keyed (heap s) kv kt F ->
  (forall l, l ∈ F -> length (heap s0) <= l) ->
  resolveGoogleChatAccount context (VRef w) kv s = (r, s') ->
  match accountResolved (referenceValue (ctx_env ctx) decrypted) kt with
  | Ok kt' => r = Ok tt /\ walking s0 w context ctx decrypted s' /\
              stepped w s s' F (keyed (heap s') kv kt')
                (flat_map targetWarnings (accountTarget kt))
  | Err e => r = Err e
  end.
Proof.
  intros Hwalk [Hk Hs] Hnew E. destruct kv as [k v], kt as [k' x].
  simpl in Hk, Hs. subst k'. unfold accountResolved, accountTarget.
  simpl fst. simpl snd.
  unfold resolveGoogleChatAccount, bind, getHeap in E. simpl in E.
  rewrite (shaped_isRecord _ _ _ _ Hs) in E.
  destruct (tisRecord x) eqn:Hrec; simpl in E.
  2:{ unfold ret in E. simplify_eq. split_and!; [done..|]. by apply stepped_refl. }
  pose proof (target_sim _ _ _ _ _ _ _ Hwalk Hs Hrec Hnew E) as Ht.
  destruct (targetResolved (referenceValue (ctx_env ctx) decrypted) x) as [x'|e]; [|done].
  destruct Ht as (-> & Hwalk' & _ & Hlen & Hsame & F' & Hs' & HF' & Hwarn).
  split_and!; [done..|]. unfold stepped. split_and!; [done..|].
  exists F'. simpl flat_map. rewrite app_nil_r. by split_and!.
Qed.

(** A loop over the entries of a shaped object. *)
Lemma forEach_sim (body : string * val -> M unit)
    (f : string * tree -> Result (string * tree)) (P : string * tree -> Prop)
    (warn : string * tree -> list obj) :
  (forall s kv kt F r s',
     walking s0 w context ctx decrypted s -> keyed (heap s) kv kt F -> P kt ->
     (forall l, l ∈ F -> length (heap s0) <= l) ->
     body kv s = (r, s') ->
     match f kt with
     | Ok kt' => r = Ok tt /\ walking s0 w context ctx decrypted s' /\
                 stepped w s s' F (keyed (heap s') kv kt') (warn kt)
     | Err e => r = Err e
     end) ->
  forall es ets F s r s',
    parts (keyed (heap s)) es ets F -> Forall P ets -> walking s0 w context ctx decrypted s ->
    (forall l, l ∈ F -> length (heap s0) <= l) ->
    forEach es body s = (r, s') ->
    match mapResult f ets with
    | Ok ets' => r = Ok tt /\ walking s0 w context ctx decrypted s' /\
                 stepped w s s' F (parts (keyed (heap s')) es ets')
                   (flat_map warn ets)
    | Err e => r = Err e
    end.
Proof.
  intros Hbody. induction es as [|kv es IH]; intros ets F s r s' Hp HP Hwalk Hnew E.
  { apply parts_nil_inv in Hp as [-> ->]. simpl in *. unfold ret in E. simplify_eq.
    split_and!; [done..|]. apply stepped_refl; [done|]. constructor. }
  apply parts_cons_inv in Hp as (kt & ets' & F1 & F2 & -> & -> & Hkt & Hp & Hd).
  inversion HP as [|? ? HPk HPs]; subst.
  simpl in E. unfold bind in E.
  destruct (body kv s) as [r1 s1] eqn:E1.
  assert (forall l, l ∈ F1 -> length (heap s0) <= l) as Hnew1
    by (intros l Hl; apply Hnew; set_solver).
  assert (forall l, l ∈ F2 -> length (heap s0) <= l) as Hnew2
    by (intros l Hl; apply Hnew; set_solver).
  pose proof (Hbody _ _ _ _ _ _ Hwalk Hkt HPk Hnew1 E1) as Hstep.
  simpl. destruct (f kt) as [kt'|e]; [|subst r1; by simplify_eq].
  destruct Hstep as (-> & Hwalk1 & Hlen1 & Hsame1 & F1' & Hkt' & HF1' & Hwarn1).
  assert (parts (keyed (heap s1)) es ets' F2) as Hp1.
  { eapply parts_frame; [exact Hp|]. intros l Hl. apply Hsame1.
    - by eapply parts_valid.
    - intros Hl1. by apply (Hd l).
    - apply Hnew2 in Hl. lia. }
  pose proof (IH _ _ _ _ _ Hp1 HPs Hwalk1 Hnew2 E) as Hrest.
  destruct (mapResult f ets') as [ets''|e]; [|done].
  destruct Hrest as (-> & Hwalk' & Hlen2 & Hsame2 & F2' & Hp' & HF2' & Hwarn2).
  assert (length (heap s0) <= length (heap s)) as Hlen0 by (by destruct Hwalk).
  assert (forall l, l ∈ F1' -> l < length (heap s1)) as Hval1.
  { destruct Hkt' as [_ Hs1]. by eapply shaped_valid. }
  assert (forall l, l ∈ F2 -> l < length (heap s)) as Hval2
    by (by eapply parts_valid).
  split_and!; [done..|]. unfold stepped. split_and!; [lia| |].
  - intros l Hl Hn Hne. rewrite Hsame2; [|lia|set_solver|done].
    apply Hsame1; [done|set_solver|done].
  - exists (F1' ∪ F2'). split_and!.
    + constructor; [|done|].
      * destruct Hkt' as [Hk Hs1]. split; [done|].
        eapply shaped_frame; [exact Hs1|]. intros l Hl. apply Hsame2.
        -- by apply Hval1.
        -- intros Hl2. destruct (HF1' l Hl) as [Hc|Hc].
           ++ by apply (Hd l).
           ++ apply Hval2 in Hl2. lia.
        -- destruct (HF1' l Hl) as [Hc|Hc]; [apply Hnew1 in Hc; lia|lia].
      * intros l Hl1 Hl2. destruct (HF2' l Hl2) as [Hc|Hc].
        -- destruct (HF1' l Hl1) as [Hc1|Hc1].
           ++ by apply (Hd l).
           ++ apply Hval2 in Hc. lia.
        -- apply Hval1 in Hl1. lia.
    + intros l Hl. apply elem_of_union in Hl as [Hl|Hl].
      * destruct (HF1' l Hl); [left; set_solver|by right].
      * destruct (HF2' l Hl); [left; set_solver|right; lia].
    + eapply warned_seq; [exact Hwarn1|exact Hwarn2|done| |].
      * intros l Hl Hl1 Hn Hne. split.
        -- apply Hsame2; [done| |done]. intros Hin. apply Hval2 in Hin. lia.
        -- intros Hin. apply elem_of_union in Hin as [Hin|Hin]; [done|].
           destruct (HF2' l Hin) as [Hc|Hc]; [apply Hval2 in Hc; lia|lia].
      * intros l Hin Hl. apply elem_of_union in Hin as [Hin|Hin]; [|done].
        apply Hval1 in Hin. lia.
Qed.

(** ** Steps inside a shaped object *)

Lemma stepped_trans s s1 s2 F (Q1 Q2 : gset loc -> Prop) W1 W2 :
  stepped w s s1 F Q1 W1 ->
  (forall F1, Q1 F1 -> (forall l, l ∈ F1 -> l ∈ F \/ length (heap s) <= l) ->
              stepped w s1 s2 F1 Q2 W2) ->
  stepped w s s2 F Q2 (W1 ++ W2).
Proof.
  intros (Hlen1 & Hsame1 & F1 & HQ1 & HF1 & Hw1) Hnext.
  destruct (Hnext F1 HQ1 HF1) as (Hlen2 & Hsame2 & F2 & HQ2 & HF2 & Hw2).
  unfold stepped. split_and!; [lia| |].
  - intros l Hl Hn Hne. rewrite Hsame2; [by apply Hsame1|lia| |done].
    intros Hin. destruct (HF1 l Hin); [done|lia].
  - exists F2. split_and!; [done| |].
    + intros l Hin.
      destruct (HF2 l Hin) as [Hc|Hc]; [by apply HF1|right; lia].
    + eapply warned_seq; [exact Hw1|exact Hw2|done| |done].
      intros l Hl Hl1 Hn Hne. split; [by apply Hsame2|].
      intros Hin. destruct (HF2 l Hin) as [Hc|Hc]; [done|lia].
Qed.

(** A step inside what a property holds is a step of the object. *)
Lemma child_stepped s l ps pts F k u :
  shaped (heap s) (VRef l) (TObj pts) F ->
  heap s !! l = Some (Obj ps) ->
  props_get k ps = Some u ->
  (forall l', l' ∈ F -> length (heap s0) <= l') ->
  exists tu Fk,
    props_get k pts = Some tu /\ shaped (heap s) u tu Fk /\
    (forall l', l' ∈ Fk -> length (heap s0) <= l') /\
    forall s' x Wn,
      stepped w s s' Fk (shaped (heap s') u x) Wn ->
      stepped w s s' F (shaped (heap s') (VRef l) (TObj (props_set k x pts))) Wn.
Proof.
  intros Hs Hl Hg Hnew.
  destruct (shaped_child _ _ _ _ _ _ _ Hs Hl Hg)
    as (tu & Fk & Hgt & Hu & Hsub & Hnot & K).
  exists tu, Fk. split_and!; [done..| |].
  { intros l' Hin. apply Hnew. set_solver. }
  intros s' x Wn (Hlen & Hsame & Fk' & Hx & HFk' & Hwarn).
  assert (forall l', l' ∈ F -> l' < length (heap s) /\ l' <> w) as HF.
  { intros l' Hin. split; [exact (shaped_valid _ _ _ _ Hs l' Hin)|].
    apply Hnew in Hin. lia. }
  assert (l ∈ F) as HlF.
  { apply shaped_obj_inv in Hs as (? & ? & _ & _ & _ & ->). set_solver. }
  destruct (K (heap s') x Fk') as (F' & Hs' & HF').
  - rewrite Hsame; [done| |done|]; by apply HF.
  - intros l' Hin Hn _. apply Hsame; [|done|]; by apply HF.
  - done.
  - intros l' Hin1 Hin2. destruct (HFk' l' Hin1) as [Hc|Hc]; [done|].
    apply HF in Hin2. lia.
  - unfold stepped. split_and!; [done| |].
    + intros l' Hl' Hn Hne. apply Hsame; [done| |done]. set_solver.
    + exists F'. split_and!; [done| |].
      * intros l' Hin.
        destruct (HF' l' Hin) as [Hc|Hc]; [by left|].
        destruct (HFk' l' Hc) as [Hc'|Hc']; [left; set_solver|by right].
      * eapply warned_mono; [exact Hwarn|]. intros l' Hin.
        destruct (HF' l' Hin) as [Hc|Hc]; [right; by apply HF|by left].
Qed.

(** A step inside the entries of an object is a step of the object. *)
Lemma entries_stepped s s' l ps pts' F0 Wn :
  heap s !! l = Some (Obj ps) ->
  l ∉ F0 -> length (heap s0) <= l ->
  stepped w s s' F0 (parts (keyed (heap s')) ps pts') Wn ->
  stepped w s s' ({[l]} ∪ F0) (shaped (heap s') (VRef l) (TObj pts')) Wn.
Proof.
  intros Hl Hnot Hl0 (Hlen & Hsame & F' & Hp & HF' & Hwarn).
  assert (l < length (heap s)) as Hlt by (by eapply lookup_lt_Some).
  unfold stepped. split_and!; [done| |].
  - intros l' Hl' Hn Hne. apply Hsame; [done| |done]. set_solver.
  - exists ({[l]} ∪ F'). split_and!.
    + apply (shaped_obj_intro _ _ ps); [|done|].
      * rewrite Hsame; [done..|lia].
      * intros Hin. destruct (HF' l Hin); [done|lia].
    + intros l' Hin. apply elem_of_union in Hin as [Hin|Hin]; [left; set_solver|].
      destruct (HF' l' Hin); [left; set_solver|by right].
    + eapply warned_mono; [exact Hwarn|]. intros l' Hin.
      apply elem_of_union in Hin as [Hin|Hin]; [|by left].
      apply elem_of_singleton in Hin. right. lia.
Qed.

Lemma getProp_cell l ps k s :
  heap s !! l = Some (Obj ps) -> getProp (VRef l) k s = (Ok (field ps k), s).
Proof. intros Hl. unfold getProp, readProp. by rewrite Hl. Qed.

Lemma optChain_cell l ps k s :
  heap s !! l = Some (Obj ps) -> optChain (VRef l) k s = (Ok (field ps k), s).
Proof. intros Hl. unfold optChain, readOptProp, readProp. by rewrite Hl. Qed.

Lemma objectEntries_cell l ps s :
  heap s !! l = Some (Obj ps) -> objectEntries (VRef l) s = (Ok ps, s).
Proof. intros Hl. unfold objectEntries, readEntries. by rewrite Hl. Qed.

Lemma field_ref ps k l : field ps k = VRef l -> props_get k ps = Some (VRef l).
Proof. unfold field. destruct (props_get k ps); simpl; [by intros ->|done]. Qed.

Lemma tget_Some pts k tu :
  props_get k pts = Some tu -> tget (TObj pts) k = tu.
Proof. simpl. by intros ->. Qed.

(** The property [k] of a shaped object, when what it holds is an
    object: where it is, its shape, and how a step inside it is a step
    of the whole. *)
Lemma record_child s l ps pts F k ptsk :
  shaped (heap s) (VRef l) (TObj pts) F ->
  heap s !! l = Some (Obj ps) ->
  tget (TObj pts) k = TObj ptsk ->
  (forall l', l' ∈ F -> length (heap s0) <= l') ->
  exists lk psk Fk,
    field ps k = VRef lk /\ heap s !! lk = Some (Obj psk) /\
    shaped (heap s) (VRef lk) (TObj ptsk) Fk /\
    (forall l', l' ∈ Fk -> length (heap s0) <= l') /\
    forall s' x Wn,
      stepped w s s' Fk (shaped (heap s') (VRef lk) x) Wn ->
      stepped w s s' F (shaped (heap s') (VRef l) (TObj (props_set k x pts))) Wn.
Proof.
  intros Hs Hl Hg Hnew.
  destruct (shaped_field _ _ _ _ _ k Hs Hl) as (F1 & Hs1 & _ & _).
  rewrite Hg in Hs1.
  destruct (shaped_record _ _ _ _ Hs1) as (lk & psk & F2 & Hf & Hlk & _).
  destruct (child_stepped _ _ _ _ _ _ _ Hs Hl (field_ref _ _ _ Hf) Hnew)
    as (tu & Fk & Hgt & Hu & Hnewk & Hlift).
  apply tget_Some in Hgt. rewrite Hg in Hgt. subst tu.
  exists lk, psk, Fk. split_and!; done.
Qed.

(** The providers. *)
Lemma resolveProviders_sim s resolved t F r s' :
  walking s0 w context ctx decrypted s ->
  shaped (heap s) resolved t F ->
  (forall l, l ∈ F -> length (heap s0) <= l) ->
  tisRecord t = true -> providersTyped t = true ->
  resolveProviders resolved context s = (r, s') ->
  match providersResolved (referenceValue (ctx_env ctx) decrypted) t with
  | Ok t1 => r = Ok tt /\ walking s0 w context ctx decrypted s' /\
             stepped w s s' F (shaped (heap s') resolved t1) []
  | Err e => r = Err e
  end.
Proof.
  intros Hwalk Hs Hnew Hrec Hty E. destruct t as [|pts|]; try done.
  destruct (shaped_record _ _ _ _ Hs) as (l0 & ps0 & F0 & -> & Hl0 & _ & _ & ->).
  unfold resolveProviders in E.
  rewrite (bind_run _ _ _ _ _ (getProp_cell _ _ "models" _ Hl0)) in E.
  destruct (shaped_field _ _ _ _ _ "models" Hs Hl0) as (Fm & Hsm & _ & _).
  pose proof (shaped_readback _ _ _ _ Hsm _ (le_n _)) as Hrm.
  destruct (readback_getOpt _ _ _ _ "providers" Hrm) as (pv & Hpv & Hrp).
  rewrite (bind_run _ _ _ _ _ (optChain_run _ _ _ _ Hpv)) in E.
  rewrite (readback_truthy _ _ _ _ Hrp) in E.
  unfold providersResolved, providersTyped in *. cbv zeta in *.
  destruct (ttruthy (tgetOpt (tget (TObj pts) "models") "providers")) eqn:Htr.
  2:{ unfold ret in E. simplify_eq. split_and!; [done..|]. by apply stepped_refl. }
  apply andb_true_iff in Hty as [Hty Hentries].
  apply andb_true_iff in Hty as [Hmrec Hprec].
  destruct (tget (TObj pts) "models") as [|ptsm|] eqn:Htm; try done.
  change (tgetOpt (TObj ptsm) "providers") with (tget (TObj ptsm) "providers") in *.
  destruct (tget (TObj ptsm) "providers") as [|ptsP|] eqn:Htp; try done.
  destruct (record_child _ _ _ _ _ _ _ Hs Hl0 Htm Hnew)
    as (lm & psm & Fm' & Hfm & Hlm & Hsm' & Hnewm & Hlift0).
  destruct (record_child _ _ _ _ _ _ _ Hsm' Hlm Htp Hnewm)
    as (lP & psP & FP & HfP & HlP & HsP & HnewP & Hliftm).
  rewrite Hfm in Hpv. unfold readOptProp, readProp in Hpv. rewrite Hlm in Hpv.
  simpl in Hpv. fold (field psm "providers") in Hpv. rewrite HfP in Hpv.
  injection Hpv as <-.
  rewrite (bind_run _ _ _ _ _ (objectEntries_cell _ _ _ HlP)) in E.
  destruct (shaped_record _ _ _ _ HsP) as (? & psP' & FP0 & [= <-] & HlP' & HpP & HnotP & ->).
  assert (psP' = psP) as -> by congruence.
  pose proof (forEach_sim (resolveProviderApiKey context)
                (providerResolved (referenceValue (ctx_env ctx) decrypted))
                (fun kt => tisRecord (snd kt) = true) (fun _ => [])) as Hloop.
  specialize (Hloop (fun s kv kt F r s' Hw' Hk HP Hn Eb =>
                       provider_sim s kv kt F r s' Hw' Hk HP Hn Eb)).
  specialize (Hloop psP ptsP FP0 s r s' HpP). rewrite flat_map_none in Hloop.
  simpl tentries in *.
  destruct (mapResult _ ptsP) as [ets'|e].
  2:{ apply Hloop; try done.
      - by apply (forallb_Forall (fun e => tisRecord (snd e))).
      - intros l Hl. apply HnewP. set_solver. }
  destruct Hloop as (-> & Hwalk' & Hstep); try done.
  { by apply (forallb_Forall (fun e => tisRecord (snd e))). }
  { intros l Hl. apply HnewP. set_solver. }
  split_and!; [done..|]. simpl tset.
  apply Hlift0, Hliftm. apply (entries_stepped _ _ _ psP); try done.
  apply HnewP. set_solver.
Qed.

(** The Google Chat entry and its accounts. *)
Lemma resolveGoogleChatEntry_sim s gv tg F r s' :
  walking s0 w context ctx decrypted s ->
  shaped (heap s) gv tg F ->
  (forall l, l ∈ F -> length (heap s0) <= l) ->
  tisRecord tg = true ->
  resolveGoogleChatEntry gv context (VRef w) s = (r, s') ->
  match googleChatResolved (referenceValue (ctx_env ctx) decrypted) tg with
  | Ok g => r = Ok tt /\ walking s0 w context ctx decrypted s' /\
            stepped w s s' F (shaped (heap s') gv g)
              (flat_map targetWarnings (entryTargets tg))
  | Err e => r = Err e
  end.
Proof.
  intros Hwalk Hs Hnew Hrec E. unfold resolveGoogleChatEntry in E.
  unfold bind at 1 in E.
  destruct (resolveGoogleChatServiceAccount gv _ context (VRef w) s)
    as [r1 s1] eqn:E1.
  pose proof (target_sim _ _ _ _ _ _ _ Hwalk Hs Hrec Hnew E1) as Ht.
  unfold googleChatResolved.
  destruct (targetResolved _ tg) as [g1|e] eqn:Etg; [|subst r1; by simplify_eq].
  destruct Ht as (-> & Hwalk1 & Hrec1 & Hstep1).
  unfold entryTargets. simpl flat_map.
  rewrite <- (targetResolved_accounts _ _ _ Etg).
  set (W1 := targetWarnings ("channels.googlechat", tg)) in *.
  destruct g1 as [|pts1|]; try done.
  assert (forall r2 W2,
            (forall F1, shaped (heap s1) gv (TObj pts1) F1 ->
               (forall l, l ∈ F1 -> l ∈ F \/ length (heap s) <= l) ->
               r = Ok tt /\ walking s0 w context ctx decrypted s' /\
               stepped w s1 s' F1 (shaped (heap s') gv r2) W2) ->
            r = Ok tt /\ walking s0 w context ctx decrypted s' /\
            stepped w s s' F (shaped (heap s') gv r2) (W1 ++ W2)) as Hcompose.
  { intros r2 W2 Hnext. destruct (Hstep1) as (_ & _ & F1 & Hs1 & HF1 & _).
    destruct (Hnext F1 Hs1 HF1) as (? & ? & _). split_and!; [done..|].
    eapply stepped_trans; [exact Hstep1|]. intros F1' Hs1' HF1'.
    by destruct (Hnext F1' Hs1' HF1') as (_ & _ & ?). }
  assert (length (heap s0) <= length (heap s)) as Hlen0 by (by destruct Hwalk).
  assert (forall r2 W2,
            (forall F1, shaped (heap s1) gv (TObj pts1) F1 ->
               (forall l, l ∈ F1 -> length (heap s0) <= l) ->
               r = Ok tt /\ walking s0 w context ctx decrypted s' /\
               stepped w s1 s' F1 (shaped (heap s') gv r2) W2) ->
            r = Ok tt /\ walking s0 w context ctx decrypted s' /\
            stepped w s s' F (shaped (heap s') gv r2) (W1 ++ W2)) as Hcompose'.
  { intros r2 W2 Hnext. apply Hcompose. intros F1 Hs1 HF1. apply Hnext; [done|].
    intros l Hin. destruct (HF1 l Hin) as [Hc|Hc]; [by apply Hnew|lia]. }
  destruct Hstep1 as (_ & _ & F1 & Hs1 & HF1 & _).
  destruct (shaped_record _ _ _ _ Hs1) as (lg & ps1 & F10 & -> & Hlg & _).
  rewrite (bind_run _ _ _ _ _ (getProp_cell _ _ "accounts" _ Hlg)) in E.
  unfold bind at 1, getHeap at 1 in E.
  destruct (shaped_field _ _ _ _ _ "accounts" Hs1 Hlg) as (Fa & Hsa & _ & _).
  rewrite (shaped_isRecord _ _ _ _ Hsa) in E. cbv zeta.
  destruct (tisRecord (tget (TObj pts1) "accounts")) eqn:Harec.
  2:{ unfold ret in E. simplify_eq. apply (Hcompose' _ []). intros F1' Hs1' HF1'.
      split_and!; [done..|]. by apply stepped_refl. }
  destruct (tget (TObj pts1) "accounts") as [|ptsA|] eqn:Hta; try done.
  simpl tentries. rewrite flat_map_comp.
  destruct (mapResult _ ptsA) as [ets'|e] eqn:Hmap.
  - apply Hcompose'. intros F1' Hs1' HF1'.
    destruct (record_child _ _ _ _ _ _ _ Hs1' Hlg Hta HF1')
      as (lA & psA & FA & HfA & HlA & HsA & HnewA & Hlift).
    rewrite HfA in E.
    rewrite (bind_run _ _ _ _ _ (objectEntries_cell _ _ _ HlA)) in E.
    destruct (shaped_record _ _ _ _ HsA)
      as (? & psA' & FA0 & [= <-] & HlA' & HpA & HnotA & ->).
    assert (psA' = psA) as -> by congruence.
    pose proof (forEach_sim (resolveGoogleChatAccount context (VRef w))
                  (accountResolved (referenceValue (ctx_env ctx) decrypted))
                  (fun _ => True)
                  (fun kt => flat_map targetWarnings (accountTarget kt))) as Hloop.
    specialize (Hloop (fun s kv kt F r s' Hw' Hk _ Hn Eb =>
                         account_sim s kv kt F r s' Hw' Hk Hn Eb)).
    specialize (Hloop psA ptsA FA0 s1 r s' HpA).
    rewrite Hmap in Hloop.
    destruct Hloop as (-> & Hwalk' & Hstep); try done.
    { by apply Forall_forall. }
    { intros l Hl. apply HnewA. set_solver. }
    split_and!; [done..|]. simpl tset. apply Hlift.
    apply (entries_stepped _ _ _ psA); try done. apply HnewA. set_solver.
  - assert (forall l, l ∈ F1 -> length (heap s0) <= l) as HF1'.
    { intros l Hin. destruct (HF1 l Hin) as [Hc|Hc]; [by apply Hnew|lia]. }
    destruct (record_child _ _ _ _ _ _ _ Hs1 Hlg Hta HF1')
      as (lA & psA & FA & HfA & HlA & HsA & HnewA & Hlift).
    rewrite HfA in E.
    rewrite (bind_run _ _ _ _ _ (objectEntries_cell _ _ _ HlA)) in E.
    destruct (shaped_record _ _ _ _ HsA)
      as (? & psA' & FA0 & [= <-] & HlA' & HpA & HnotA & ->).
    assert (psA' = psA) as -> by congruence.
    pose proof (forEach_sim (resolveGoogleChatAccount context (VRef w))
                  (accountResolved (referenceValue (ctx_env ctx) decrypted))
                  (fun _ => True)
                  (fun kt => flat_map targetWarnings (accountTarget kt))) as Hloop.
    specialize (Hloop (fun s kv kt F r s' Hw' Hk _ Hn Eb =>
                         account_sim s kv kt F r s' Hw' Hk Hn Eb)).
    specialize (Hloop psA ptsA FA0 s1 r s' HpA).
    rewrite Hmap in Hloop. apply Hloop; try done.
    + by apply Forall_forall.
    + intros l Hl. apply HnewA. set_solver.
Qed.

(** Google Chat. *)
Lemma resolveGoogleChat_sim s resolved t F r s' :
  walking s0 w context ctx decrypted s ->
  shaped (heap s) resolved t F ->
  (forall l, l ∈ F -> length (heap s0) <= l) ->
  tisRecord t = true -> googleChatTyped t = true ->
  resolveGoogleChat resolved context (VRef w) s = (r, s') ->
  match channelsResolved (referenceValue (ctx_env ctx) decrypted) t with
  | Ok t2 => r = Ok tt /\ walking s0 w context ctx decrypted s' /\
             stepped w s s' F (shaped (heap s') resolved t2) (configWarnings t)
  | Err e => r = Err e
  end.
Proof.
  intros Hwalk Hs Hnew Hrec Hty E. destruct t as [|pts|]; try done.
  destruct (shaped_record _ _ _ _ Hs) as (l0 & ps0 & F0 & -> & Hl0 & _ & _ & ->).
  unfold resolveGoogleChat in E.
  rewrite (bind_run _ _ _ _ _ (getProp_cell _ _ "channels" _ Hl0)) in E.
  destruct (shaped_field _ _ _ _ _ "channels" Hs Hl0) as (Fc & Hsc & _ & _).
  pose proof (shaped_readback _ _ _ _ Hsc _ (le_n _)) as Hrc.
  destruct (readback_getOpt _ _ _ _ "googlechat" Hrc) as (gv & Hgv & Hrg).
  rewrite (bind_run _ _ _ _ _ (optChain_run _ _ _ _ Hgv)) in E.
  rewrite (readback_truthy _ _ _ _ Hrg) in E.
  unfold channelsResolved, googleChatTyped, configWarnings, googleChatTargets in *.
  cbv zeta in *.
  destruct (ttruthy (tgetOpt (tget (TObj pts) "channels") "googlechat")) eqn:Htr.
  2:{ unfold ret in E. simplify_eq. split_and!; [done..|]. by apply stepped_refl. }
  apply andb_true_iff in Hty as [Hcrec Hgrec].
  destruct (tget (TObj pts) "channels") as [|ptsc|] eqn:Htc; try done.
  change (tgetOpt (TObj ptsc) "googlechat") with (tget (TObj ptsc) "googlechat") in *.
  destruct (tget (TObj ptsc) "googlechat") as [|ptsg|] eqn:Htg; try done.
  destruct (record_child _ _ _ _ _ _ _ Hs Hl0 Htc Hnew)
    as (lc & psc & Fc' & Hfc & Hlc & Hsc' & Hnewc & Hlift0).
  destruct (record_child _ _ _ _ _ _ _ Hsc' Hlc Htg Hnewc)
    as (lg & psg & Fg & Hfg & Hlg & Hsg & Hnewg & Hliftc).
  rewrite Hfc in Hgv. unfold readOptProp, readProp in Hgv. rewrite Hlc in Hgv.
  simpl in Hgv. fold (field psc "googlechat") in Hgv. rewrite Hfg in Hgv.
  injection Hgv as <-.
  pose proof (resolveGoogleChatEntry_sim _ _ _ _ _ _ Hwalk Hsg Hnewg eq_refl E) as Hg.
  destruct (googleChatResolved _ (TObj ptsg)) as [g|e]; [|done].
  destruct Hg as (-> & Hwalk' & Hstep).
  split_and!; [done..|]. simpl tset. by apply Hlift0, Hliftc.
Qed.

(** ** The auth-store walk *)

Lemma shaped_isString h v x F str :
  shaped h v x F -> isString v str = tisString x str.
Proof. intros Hs. eapply readback_isString. by eapply shaped_readback. Qed.

(** One credential of a profile. *)
Lemma credential_sim agentDir profileId plain refField s v pts F r s' :
  walking s0 w context ctx decrypted s ->
  shaped (heap s) v (TObj pts) F ->
  (forall l, l ∈ F -> length (heap s0) <= l) ->
  resolveCredential context (VRef w) agentDir profileId v plain refField s
  = (r, s') ->
  match credentialResolved (referenceValue (ctx_env ctx) decrypted)
          profileId (TObj pts) plain refField with
  | Ok kt' => r = Ok tt /\ walking s0 w context ctx decrypted s' /\
              stepped w s s' F (keyed (heap s') (profileId, v) kt')
                (credentialWarnings agentDir profileId (TObj pts) plain refField)
  | Err e => r = Err e
  end.
Proof.
  intros Hwalk Hs Hnew E.
  destruct (shaped_record _ _ _ _ Hs) as (l & ps & F0 & -> & Hl & Hp & Hnot & ->).
  destruct (walking_warnings _ _ _ _ _ _ Hwalk) as [ws Hws].
  rewrite (resolveCredential_unfold _ _ _ _ _ _ _ _ _ _ Hl Hws) in E.
  destruct (shaped_field _ _ _ _ _ refField Hs Hl) as (F1 & Hs1 & _ & _).
  rewrite (shaped_asSecretRef _ _ _ _ Hs1) in E.
  destruct (shaped_field _ _ _ _ _ plain Hs Hl) as (F2 & Hs2 & _ & _).
  rewrite (isNonEmptyString_shaped _ _ _ _ Hs2) in E.
  unfold credentialResolved, credentialWarnings.
  destruct (secretRefOfTree (tget (TObj pts) refField)) as [ref|].
  2:{ simplify_eq. split_and!; [done..|]. by apply stepped_refl. }
  match type of E with
  | context [resolveSecretRefValue ref context ?x] => set (sw := x) in E
  end.
  assert (walking s0 w context ctx decrypted sw /\
          length (heap s) <= length (heap sw) /\
          (forall l', l' < length (heap s) -> l' <> w ->
                      heap sw !! l' = heap s !! l')) as (Hwalkw & Hlenw & Hsamew).
  { subst sw. destruct (tisNonEmptyString (tget (TObj pts) plain)); [|done].
    split_and!.
    - by apply walking_pushed.
    - unfold pushed. simpl. rewrite length_insert, length_app. lia.
    - intros l' Hl' Hne. unfold pushed. simpl.
      rewrite list_lookup_insert_ne by done. by apply lookup_app_l. }
  destruct (resolveSecretRefValue ref context sw) as [r1 s1] eqn:E1.
  destruct (resolve_sim _ _ _ _ Hwalkw E1) as (ext & Hh & Hwalk1 & Hres).
  destruct (referenceValue (ctx_env ctx) decrypted ref) as [xv|e].
  2:{ subst r1. by simplify_eq. }
  destruct Hres as (v & Fx & -> & Hv & HFx).
  rewrite (isNonEmptyString_shaped _ _ _ _ Hv) in E.
  destruct (tisNonEmptyString xv); [|by simplify_eq]. simplify_eq.
  assert (length (heap s0) <= l) as Hl0 by (apply Hnew; set_solver).
  assert (heap s1 !! l = Some (Obj ps)) as Hl1.
  { rewrite Hh. apply lookup_app_l_Some. rewrite Hsamew; [done| |lia].
    by eapply lookup_lt_Some. }
  split_and!; [done| |].
  - apply walking_assigned; done.
  - assert (stepped w s (assigned l ps plain v s1) ({[l]} ∪ F0)
              (shaped (heap (assigned l ps plain v s1)) (VRef l)
                 (TObj (props_set plain xv pts)))
              (if tisNonEmptyString (tget (TObj pts) plain)
               then [credentialWarning agentDir profileId plain refField]
               else [])) as (? & ? & F' & ? & ? & ?).
    { eapply assigned_shaped; try done.
      - subst sw. destruct (tisNonEmptyString (tget (TObj pts) plain)).
        + by eapply warned_pushed_ext.
        + by eapply warned_ext.
      - rewrite Hh, length_app. lia.
      - intros l' Hl' Hne. rewrite Hh, lookup_app_l by lia. by apply Hsamew.
      - intros l' Hin. apply HFx in Hin. lia. }
    unfold stepped. split_and!; [done..|]. exists F'. by split_and!.
Qed.

(** One profile of the loop. *)
Lemma profile_sim agentDir s kv kt F r s' :
  walking s0 w context ctx decrypted s -> keyed (heap s) kv kt F ->
  tisRecord (snd kt) = true ->
  (forall l, l ∈ F -> length (heap s0) <= l) ->
  resolveProfile context (VRef w) agentDir kv s = (r, s') ->
  match profileResolved (referenceValue (ctx_env ctx) decrypted) kt with
  | Ok kt' => r = Ok tt /\ walking s0 w context ctx decrypted s' /\
              stepped w s s' F (keyed (heap s') kv kt')
                (profileWarnings agentDir kt)
  | Err e => r = Err e
  end.
Proof.
  intros Hwalk [Hk Hs] Hrec Hnew E. destruct kv as [k v], kt as [k' x].
  simpl in Hk, Hs, Hrec. subst k'. destruct x as [|pts|]; try done.
  destruct (shaped_record _ _ _ _ Hs) as (l & ps & F0 & -> & Hl & _ & _ & ->).
  unfold resolveProfile in E.
  rewrite (bind_run _ _ _ _ _ (getProp_cell _ _ "type" _ Hl)) in E.
  destruct (shaped_field _ _ _ _ _ "type" Hs Hl) as (Ft & Hst & _ & _).
  rewrite !(shaped_isString _ _ _ _ _ Hst) in E.
  unfold profileResolved, profileWarnings. cbv zeta. simpl fst. simpl snd.
  destruct (tisString (tget (TObj pts) "type") "api_key").
  { by eapply credential_sim. }
  destruct (tisString (tget (TObj pts) "type") "token").
  { by eapply credential_sim. }
  unfold ret in E. simplify_eq. split_and!; [done..|]. by apply stepped_refl.
Qed.

(** The profiles of a store. *)
Lemma resolveProfiles_sim agentDir s resolved t F r s' :
  walking s0 w context ctx decrypted s ->
  shaped (heap s) resolved t F ->
  (forall l, l ∈ F -> length (heap s0) <= l) ->
  storeTyped t = true ->
  resolveProfiles resolved context (VRef w) agentDir s = (r, s') ->
  match storeResolved (referenceValue (ctx_env ctx) decrypted) t with
  | Ok t' => r = Ok tt /\ walking s0 w context ctx decrypted s' /\
             stepped w s s' F (shaped (heap s') resolved t')
               (storeWarnings agentDir t)
  | Err e => r = Err e
  end.
Proof.
  intros Hwalk Hs Hnew Hty E. unfold storeTyped in Hty.
  apply andb_true_iff in Hty as [Hty Hentries].
  apply andb_true_iff in Hty as [Hrec Hprec].
  destruct t as [|pts|]; try done.
  destruct (shaped_record _ _ _ _ Hs) as (l0 & ps0 & F0 & -> & Hl0 & _ & _ & ->).
  destruct (tget (TObj pts) "profiles") as [|ptsP|] eqn:Htp; try done.
  destruct (record_child _ _ _ _ _ _ _ Hs Hl0 Htp Hnew)
    as (lP & psP & FP & HfP & HlP & HsP & HnewP & Hlift).
  unfold resolveProfiles in E.
  rewrite (bind_run _ _ _ _ _ (getProp_cell _ _ "profiles" _ Hl0)), HfP in E.
  rewrite (bind_run _ _ _ _ _ (objectEntries_cell _ _ _ HlP)) in E.
  destruct (shaped_record _ _ _ _ HsP)
    as (? & psP' & FP0 & [= <-] & HlP' & HpP & HnotP & ->).
  assert (psP' = psP) as -> by congruence.
  pose proof (forEach_sim (resolveProfile context (VRef w) agentDir)
                (profileResolved (referenceValue (ctx_env ctx) decrypted))
                (fun kt => tisRecord (snd kt) = true)
                (profileWarnings agentDir)) as Hloop.
  specialize (Hloop (fun s kv kt F r s' Hw' Hk HP Hn Eb =>
                       profile_sim agentDir s kv kt F r s' Hw' Hk HP Hn Eb)).
  specialize (Hloop psP ptsP FP0 s r s' HpP).
  unfold storeResolved, storeWarnings. rewrite Htp. simpl tentries in *.
  destruct (mapResult _ ptsP) as [ets'|e].
  2:{ apply Hloop; try done.
      - by apply (forallb_Forall (fun e => tisRecord (snd e))).
      - intros l Hl. apply HnewP. set_solver. }
  destruct Hloop as (-> & Hwalk' & Hstep); try done.
  { by apply (forallb_Forall (fun e => tisRecord (snd e))). }
  { intros l Hl. apply HnewP. set_solver. }
  split_and!; [done..|]. simpl tset.
  apply Hlift. apply (entries_stepped _ _ _ psP); try done.
  apply HnewP. set_solver.
Qed.

(** ** The walks, from their clone on *)

(** The warnings of a step that follows one that gave none. *)
Lemma warned_later s s1 s' F Wn :
  walking s0 w context ctx decrypted s ->
  length (heap s) <= length (heap s1) ->
  heap s1 !! w = heap s !! w ->
  warned w s1 s' F Wn -> warned w s s' F Wn.
Proof.
  intros Hwalk Hlen Hsame (ws & ls & Hws & Hws' & Hall).
  exists ws, ls. split_and!; [by rewrite <- Hsame|done|].
  eapply Forall2_impl; [exact Hall|]. intros l o (Hl & Hn & Ho).
  split_and!; [lia|done..].
Qed.

Lemma clone_shaped fuel v s t :
  walking s0 w context ctx decrypted s ->
  readback fuel (heap s) v = Some t ->
  exists resolved ext F,
    structuredClone fuel v s = (Ok resolved, with_heap (heap s ++ ext) s) /\
    walking s0 w context ctx decrypted (with_heap (heap s ++ ext) s) /\
    shaped (heap s ++ ext) resolved t F /\
    forall l, l ∈ F -> length (heap s) <= l.
Proof.
  intros Hwalk Hr. unfold structuredClone, materialize. rewrite Hr.
  destruct (materialize_tree t (heap s)) as [resolved h1] eqn:Em.
  destruct (materialize_tree_spec _ _ _ _ Em) as (ext & -> & _).
  destruct (materialize_shaped _ _ _ _ Em) as (F & Hs & _ & HF).
  exists resolved, ext, F. split_and!; [done|by apply walking_append|done|].
  intros l Hl. apply HF in Hl. lia.
Qed.

(** What a walk started in [s] leaves: what it returns is shaped as the
    resolved data out of objects that [s] did not have, and the objects
    of [s], the warnings array apart, are as they were. *)
Lemma config_walk_sim fuel config s t r s' :
  walking s0 w context ctx decrypted s ->
  readback fuel (heap s) config = Some t ->
  configTyped t = true ->
  resolveConfigSecretRefs fuel config context (VRef w) s = (r, s') ->
  match configResolved (referenceValue (ctx_env ctx) decrypted) t with
  | Ok t' =>
      exists resolved F,
        r = Ok resolved /\ walking s0 w context ctx decrypted s' /\
        shaped (heap s') resolved t' F /\
        length (heap s) <= length (heap s') /\
        (forall l, l ∈ F -> length (heap s) <= l) /\
        (forall l, l < length (heap s) -> l <> w -> heap s' !! l = heap s !! l) /\
        warned w s s' F (configWarnings t)
  | Err e => r = Err e
  end.
Proof.
  intros Hwalk Hr Hty E.
  apply andb_true_iff in Hty as [Hty HtyG]. apply andb_true_iff in Hty as [Hrec HtyP].
  rewrite resolveConfigSecretRefs_halves in E.
  destruct (clone_shaped _ _ _ _ Hwalk Hr) as (resolved & ext & F & Ec & Hwalk1 & Hs & HF).
  rewrite (bind_run _ _ _ _ _ Ec) in E.
  assert (length (heap s0) <= length (heap s)) as Hlen0 by (by destruct Hwalk).
  set (s1 := with_heap (heap s ++ ext) s) in *.
  change (heap s ++ ext) with (heap s1) in Hs.
  assert (length (heap s) <= length (heap s1)) as Hlen1.
  { unfold s1. simpl. rewrite length_app. lia. }
  assert (forall l, l < length (heap s) -> heap s1 !! l = heap s !! l) as Hsame1.
  { intros l Hl. unfold s1. simpl. by apply lookup_app_l. }
  unfold bind at 1 in E.
  destruct (resolveProviders resolved context s1) as [r1 s2] eqn:E1.
  assert (forall l, l ∈ F -> length (heap s0) <= l) as HF0
    by (intros l Hl; apply HF in Hl; lia).
  pose proof (resolveProviders_sim _ _ _ _ _ _ Hwalk1 Hs HF0 Hrec HtyP E1) as H1.
  unfold configResolved.
  destruct (providersResolved _ t) as [t1|e] eqn:Ep; [|subst r1; by simplify_eq].
  destruct H1 as (-> & Hwalk2 & Hlen2 & Hsame2 & F1 & Hs2 & HF1 & Hw1).
  destruct (providersResolved_channels _ _ _ Hrec Ep) as (Hrec1 & HtyG1 & Hch).
  assert (forall l, l ∈ F1 -> length (heap s) <= l) as HF1'.
  { intros l Hl. destruct (HF1 l Hl) as [Hc|Hc]; [by apply HF|lia]. }
  assert (forall l, l ∈ F1 -> length (heap s0) <= l) as HF10
    by (intros l Hl; apply HF1' in Hl; lia).
  unfold bind at 1 in E.
  destruct (resolveGoogleChat resolved context (VRef w) s2) as [r2 s3] eqn:E2.
  rewrite <- HtyG1 in HtyG.
  pose proof (resolveGoogleChat_sim _ _ _ _ _ _ Hwalk2 Hs2 HF10 Hrec1 HtyG E2) as H2.
  destruct (channelsResolved _ t1) as [t2|e]; [|subst r2; by simplify_eq].
  destruct H2 as (-> & Hwalk3 & Hlen3 & Hsame3 & F2 & Hs3 & HF2 & Hw2).
  unfold ret in E. simplify_eq.
  assert (configWarnings t1 = configWarnings t) as Hcw.
  { unfold configWarnings, googleChatTargets. by rewrite Hch. }
  rewrite Hcw in Hw2.
  exists resolved, F2. split_and!; [done..|lia| | |].
  - intros l Hl. destruct (HF2 l Hl) as [Hc|Hc]; [by apply HF1'|lia].
  - intros l Hl Hne. rewrite Hsame3; [|lia| |done].
    + rewrite Hsame2; [by apply Hsame1|lia| |done].
      intros Hin. apply HF in Hin. lia.
    + intros Hin. apply HF1' in Hin. lia.
  - apply (warned_later s s1); [done..| |].
    + apply Hsame1. lia.
    + change (configWarnings t) with ([] ++ configWarnings t).
      eapply warned_seq; [exact Hw1|exact Hw2|done| |done].
      intros l Hl Hl1 Hn Hne. split; [by apply Hsame3|].
      intros Hin. destruct (HF2 l Hin) as [Hc|Hc]; [done|lia].
Qed.

Lemma store_walk_sim fuel store agentDir s t r s' :
  walking s0 w context ctx decrypted s ->
  readback fuel (heap s) store = Some t ->
  storeTyped t = true ->
  resolveAuthStoreSecretRefs fuel store context (VRef w) agentDir s = (r, s') ->
  match storeResolved (referenceValue (ctx_env ctx) decrypted) t with
  | Ok t' =>
      exists resolved F,
        r = Ok resolved /\ walking s0 w context ctx decrypted s' /\
        shaped (heap s') resolved t' F /\
        length (heap s) <= length (heap s') /\
        (forall l, l ∈ F -> length (heap s) <= l) /\
        (forall l, l < length (heap s) -> l <> w -> heap s' !! l = heap s !! l) /\
        warned w s s' F (storeWarnings agentDir t)
  | Err e => r = Err e
  end.
Proof.
  intros Hwalk Hr Hty E.
  rewrite resolveAuthStoreSecretRefs_halves in E.
  destruct (clone_shaped _ _ _ _ Hwalk Hr) as (resolved & ext & F & Ec & Hwalk1 & Hs & HF).
  rewrite (bind_run _ _ _ _ _ Ec) in E.
  assert (length (heap s0) <= length (heap s)) as Hlen0 by (by destruct Hwalk).
  set (s1 := with_heap (heap s ++ ext) s) in *.
  change (heap s ++ ext) with (heap s1) in Hs.
  assert (length (heap s) <= length (heap s1)) as Hlen1.
  { unfold s1. simpl. rewrite length_app. lia. }
  assert (forall l, l < length (heap s) -> heap s1 !! l = heap s !! l) as Hsame1.
  { intros l Hl. unfold s1. simpl. by apply lookup_app_l. }
  assert (forall l, l ∈ F -> length (heap s0) <= l) as HF0
    by (intros l Hl; apply HF in Hl; lia).
  unfold bind at 1 in E.
  destruct (resolveProfiles resolved context (VRef w) agentDir s1)
    as [r1 s2] eqn:E1.
  pose proof (resolveProfiles_sim _ _ _ _ _ _ _ Hwalk1 Hs HF0 Hty E1) as H1.
  destruct (storeResolved _ t) as [t1|e]; [|subst r1; by simplify_eq].
  destruct H1 as (-> & Hwalk2 & Hlen2 & Hsame2 & F1 & Hs2 & HF1 & Hw1).
  unfold ret in E. simplify_eq.
  exists resolved, F1. split_and!; [done..|lia| | |].
  - intros l Hl. destruct (HF1 l Hl) as [Hc|Hc]; [by apply HF|lia].
  - intros l Hl Hne. rewrite Hsame2; [by apply Hsame1|lia| |done].
    intros Hin. apply HF in Hin. lia.
  - apply (warned_later s s1); [done..| |done].
    apply Hsame1. destruct Hwalk. lia.
Qed.

(** ** The loop over the candidate directories *)

Lemma entryResolved_frame loaded a h h' e d :
  entryResolved (referenceValue (ctx_env ctx) decrypted) loaded a w h e d ->
  (forall l, l < length h -> l <> a -> l <> w -> h' !! l = h !! l) ->
  entryResolved (referenceValue (ctx_env ctx) decrypted) loaded a w h' e d.
Proof.
  intros (l & st & t' & F & -> & Hl & Ht & Hs & Hla & Hlw & Ha & Hw') Hsame.
  exists l, st, t', F. split_and!; try done.
  - rewrite Hsame; [done| |done..]. by eapply lookup_lt_Some.
  - eapply shaped_frame; [exact Hs|]. intros l' Hin. apply Hsame.
    + by eapply shaped_valid.
    + by intros ->.
    + by intros ->.
Qed.

(** One turn of the loop appends the entry of its directory, with the
    store that was loaded for it resolved. *)
Lemma agentStore_sim fuel loader loaded a d s s' es done :
  walking s0 w context ctx decrypted s ->
  length (heap s0) <= a -> a <> w ->
  heap s !! a = Some (Arr es) ->
  Forall2 (entryResolved (referenceValue (ctx_env ctx) decrypted) loaded a w
             (heap s)) es done ->
  readback fuel (heap s) (loader d) = Some (loaded d) ->
  storeTyped (loaded d) = true ->
  resolveAgentStore fuel loader context (VRef w) (VRef a) d s = (Ok tt, s') ->
  exists e,
    walking s0 w context ctx decrypted s' /\
    (forall l, l < length (heap s) -> l <> a -> l <> w ->
               heap s' !! l = heap s !! l) /\
    length (heap s) <= length (heap s') /\
    heap s' !! a = Some (Arr (es ++ [e])) /\
    Forall2 (entryResolved (referenceValue (ctx_env ctx) decrypted) loaded a w
               (heap s')) (es ++ [e]) (done ++ [d]).
Proof.
  intros Hwalk Ha0 Haw Ha Hes Hr Hty E. unfold resolveAgentStore in E.
  cbv zeta in E. unfold bind at 1 in E.
  destruct (resolveAuthStoreSecretRefs fuel (loader d) context (VRef w) d s)
    as [r1 sa] eqn:E1.
  pose proof (store_walk_sim _ _ _ _ _ _ _ Hwalk Hr Hty E1) as Hsim.
  destruct (storeResolved _ (loaded d)) as [t'|e] eqn:Ht;
    [|subst r1; discriminate E].
  destruct Hsim as (resolved & F & -> & Hwalka & Hs & Hlen & HF & Hsame & _).
  apply bind_Ok in E as (entry & sb & E2 & E). apply alloc_Ok in E2 as [-> ->].
  apply arrayPush_Ok in E as (l & xs & [= <-] & Hl & ->). simpl in *.
  assert (a < length (heap s)) as Hlt by (by eapply lookup_lt_Some).
  assert (heap sa !! a = Some (Arr es)) as Ha' by (rewrite Hsame; done).
  rewrite (lookup_app_l_Some _ _ _ _ Ha') in Hl. injection Hl as <-.
  assert (forall l, l < length (heap sa) -> l <> a ->
            <[a:=Arr (es ++ [VRef (length (heap sa))])]>
              (heap sa ++ [Obj [("agentDir", VStr d); ("store", resolved)]]) !! l
            = heap sa !! l) as Hkeep.
  { intros l Hl Hne. rewrite list_lookup_insert_ne by done. by apply lookup_app_l. }
  exists (VRef (length (heap sa))). split_and!.
  - destruct Hwalka as [Hl1 Ho1 [ws Hws] Hc1]. split; simpl.
    + rewrite length_insert, length_app. lia.
    + intros l Hl Hne. rewrite Hkeep; [by apply Ho1|lia|lia].
    + exists ws. rewrite Hkeep; [done|by eapply lookup_lt_Some|done].
    + done.
  - intros l Hl Hla Hlw. rewrite Hkeep; [by apply Hsame|lia|done].
  - rewrite length_insert, length_app. lia.
  - apply list_lookup_insert_eq. rewrite length_app. lia.
  - apply Forall2_app.
    + eapply Forall2_impl; [exact Hes|]. intros e d' He.
      eapply entryResolved_frame; [exact He|].
      intros l Hl Hla Hlw. rewrite Hkeep; [by apply Hsame|lia|done].
    + constructor; [|constructor].
      exists (length (heap sa)), resolved, t', F. split_and!; try done.
      * rewrite list_lookup_insert_ne by lia. by apply list_lookup_middle.
      * eapply shaped_frame; [exact Hs|]. intros l Hin. apply Hkeep.
        -- by eapply shaped_valid.
        -- apply HF in Hin. lia.
      * lia.
      * assert (w < length (heap s)); [|lia]. destruct Hwalk. lia.
      * intros Hin. apply HF in Hin. lia.
      * intros Hin. apply HF in Hin. destruct Hwalk. lia.
Qed.

Lemma agentStores_sim fuel loader loaded a dirs :
  (forall s d, walking s0 w context ctx decrypted s ->
               readback fuel (heap s) (loader d) = Some (loaded d)) ->
  (forall d, storeTyped (loaded d) = true) ->
  length (heap s0) <= a -> a <> w ->
  forall s s' es done,
    walking s0 w context ctx decrypted s ->
    heap s !! a = Some (Arr es) ->
    Forall2 (entryResolved (referenceValue (ctx_env ctx) decrypted) loaded a w
               (heap s)) es done ->
    forEach dirs (resolveAgentStore fuel loader context (VRef w) (VRef a)) s
    = (Ok tt, s') ->
    exists es',
      length (heap s) <= length (heap s') /\
      (forall l, l < length (heap s) -> l <> a -> l <> w ->
                 heap s' !! l = heap s !! l) /\
      heap s' !! a = Some (Arr es') /\
      Forall2 (entryResolved (referenceValue (ctx_env ctx) decrypted) loaded a w
                 (heap s')) es' (done ++ dirs).
Proof.
  intros Hload Hty Ha0 Haw.
  induction dirs as [|d dirs IH]; intros s s' es done Hwalk Ha Hes E.
  - apply ret_Ok in E as [-> _]. exists es. by rewrite app_nil_r.
  - simpl in E. apply bind_Ok in E as ([] & s1 & E1 & E).
    destruct (agentStore_sim _ _ _ _ _ _ _ _ _ Hwalk Ha0 Haw Ha Hes
                (Hload _ _ Hwalk) (Hty d) E1)
      as (e & Hwalk1 & Hsame1 & Hlen1 & Ha1 & Hes1).
    destruct (IH _ _ _ _ Hwalk1 Ha1 Hes1 E) as (es' & Hlen2 & Hsame2 & Ha' & Hes').
    exists es'. split_and!; [lia| |done|by rewrite <- app_assoc in Hes'].
    intros l Hl Hla Hlw. rewrite Hsame2; [by apply Hsame1|lia|done..].
Qed.
End Walking.

(** ** What the config walk returns *)

#[local] Set Warnings "-clear-no-such-hyp".

Section ConfigWalk.
Context `{Collaborators}.

(** What the walk returns is shaped as the resolved configuration, out
    of objects that did not exist before. *)
Lemma walking_start `{Collaborators} s w context ctx ws :
  contexts s !! context = Some ctx ->
  heap s !! w = Some (Arr ws) ->
  walking s w context ctx (settledDecrypt ctx (heap s)) s.
Proof.
  intros Hctx Hws. split; [done|done|by exists ws|].
  exists (ctx_fileSecretsPromise ctx). split; [by destruct ctx|by left].
Qed.

Lemma settled_cached `{Collaborators} ctx h p :
  ctx_fileSecretsPromise ctx = Some p -> p = settledDecrypt ctx h.
Proof. intros Hp. unfold settledDecrypt. by rewrite Hp. Qed.

Lemma settled_first `{Collaborators} ctx h :
  ctx_fileSecretsPromise ctx = None ->
  decryptOutcome h (ctx_config ctx) = settledDecrypt ctx h.
Proof. intros Hp. unfold settledDecrypt. by rewrite Hp. Qed.

Lemma config_walk_shaped fuel config context w s ctx t ws r s' :
  readback fuel (heap s) config = Some t ->
  configTyped t = true ->
  contexts s !! context = Some ctx ->
  heap s !! w = Some (Arr ws) ->
  (forall l, reaches (heap s) (ctx_config ctx) l -> l < length (heap s) /\ l <> w) ->
  resolveConfigSecretRefs fuel config context (VRef w) s = (r, s') ->
  match configResolved
          (referenceValue (ctx_env ctx) (settledDecrypt ctx (heap s))) t with
  | Ok t' =>
      exists resolved F ls,
        r = Ok resolved /\ shaped (heap s') resolved t' F /\
        length (heap s) <= length (heap s') /\
        (forall l, l ∈ F -> length (heap s) <= l) /\
        (forall l, l < length (heap s) -> l <> w -> heap s' !! l = heap s !! l) /\
        heap s' !! w = Some (Arr (ws ++ (VRef <$> ls))) /\
        Forall2 (fun l o => length (heap s) <= l /\ heap s' !! l = Some o)
          ls (configWarnings t)
  | Err e => r = Err e
  end.
Proof.
  intros Hr Hty Hctx Hws Hcfg E.
  pose proof (config_walk_sim s w context ctx (lookup_lt_Some _ _ _ Hws) Hcfg
                _ (settled_cached ctx (heap s)) (settled_first ctx (heap s))
                fuel config s t r s' (walking_start _ _ _ _ _ Hctx Hws) Hr Hty E)
    as Hsim.
  destruct (configResolved _ t) as [t'|e]; [|done].
  destruct Hsim as (resolved & F & -> & _ & Hs & Hlen & HF & Hsame
                    & ws' & ls & Hws0 & Hws' & Hall).
  assert (ws' = ws) as -> by congruence.
  exists resolved, F, ls. split_and!; try done.
  eapply Forall2_impl; [exact Hall|]. by intros l o (? & _ & ?).
Qed.

(** What a walk returns is new: the objects it reaches did not exist
    before the walk. *)
Lemma shaped_fresh h v t F n :
  shaped h v t F -> (forall l, l ∈ F -> n <= l) ->
  forall l, reaches h v l -> n <= l.
Proof. intros Hs HF l Hr. apply HF. by eapply shaped_reaches. Qed.


(** A prepare whose config walk fails fails with the error of the
    walk. *)
Lemma prepare_walk_fails fuel config env agentDirs loadAuthStore s e s3 :
  resolveConfigSecretRefs fuel config (length (contexts s))
    (VRef (length (heap s)))
    (with_contexts
       (contexts s ++ [mkContext config (default process_env env) None])
       (with_heap (heap s ++ [Arr []]) s))
  = (Err e, s3) ->
  prepareSecretsRuntimeSnapshot fuel config env agentDirs loadAuthStore s
  = (Err e, s3).
Proof.
  intros E. unfold prepareSecretsRuntimeSnapshot.
  unfold bind at 1, alloc at 1. unfold bind at 1, newContext at 1.
  unfold bind at 1.
  match goal with
  | |- context [resolveConfigSecretRefs ?f ?c ?n ?v ?st] =>
      change (resolveConfigSecretRefs f c n v st)
        with (resolveConfigSecretRefs fuel config (length (contexts s))
                (VRef (length (heap s)))
                (with_contexts
                   (contexts s ++ [mkContext config (default process_env env) None])
                   (with_heap (heap s ++ [Arr []]) s)))
  end.
  by rewrite E.
Qed.

(** A successful prepare on a configuration of the configuration type:
    the config of the snapshot is shaped as the configuration with its
    references resolved, out of objects that did not exist before the
    call. *)
Lemma prepare_config_walk fuel config env agentDirs loadAuthStore s t :
  wf_heap (heap s) -> valid (heap s) config ->
  readback fuel (heap s) config = Some t ->
  configTyped t = true ->
  let run :=
    prepareSecretsRuntimeSnapshot fuel config env agentDirs loadAuthStore s in
  match configResolved
          (referenceValue (default process_env env)
             (decryptOutcome (heap s) config)) t with
  | Ok t' =>
      forall snapshot, fst run = Ok snapshot ->
        exists resolved F,
          readProp (heap (snd run)) snapshot "config" = Ok resolved /\
          shaped (heap (snd run)) resolved t' F /\
          forall l, l ∈ F -> length (heap s) <= l
  | Err e => fst run = Err e
  end.
Proof.
  intros Hwf Hvalid Hr Hty run.
  set (w := length (heap s)).
  set (ctx := mkContext config (default process_env env) None).
  set (s1 := with_contexts (contexts s ++ [ctx]) (with_heap (heap s ++ [Arr []]) s)).
  assert (forall l, reaches (heap s) config l -> l < length (heap s)) as Hold.
  { intros l. by apply reaches_old. }
  assert (forall l, reaches (heap s1) config l -> l < length (heap s1) /\ l <> w)
    as Hcfg.
  { intros l Hl. assert (l < length (heap s)) as Hlt.
    { eapply (reaches_old (heap s)); [done..| |exact Hl].
      intros l' Hl'. by apply lookup_app_l. }
    unfold s1, w. simpl. rewrite length_app. simpl. lia. }
  assert (settledDecrypt ctx (heap s1) = decryptOutcome (heap s) config) as Hdec.
  { unfold settledDecrypt. simpl. apply decryptOutcome_agree.
    intros l Hl. apply lookup_app_l. by apply Hold. }
  destruct (resolveConfigSecretRefs fuel config (length (contexts s)) (VRef w) s1)
    as [r3 s3] eqn:E3.
  pose proof (config_walk_shaped fuel config (length (contexts s)) w s1 ctx t []
                r3 s3) as Hwalk.
  rewrite Hdec in Hwalk. simpl ctx_env in Hwalk.
  specialize (Hwalk (readback_app _ _ _ _ _ Hr) Hty).
  destruct (configResolved _ t) as [t'|e].
  2:{ assert (r3 = Err e) as ->.
      { apply Hwalk; try done.
        - unfold s1. simpl. by rewrite lookup_app_r, Nat.sub_diag by lia.
        - unfold s1, w. simpl. by apply list_lookup_middle. }
      unfold run. by rewrite (prepare_walk_fails _ _ _ _ _ _ _ _ E3). }
  intros snapshot Hsnap.
  destruct Hwalk as (resolved & F & ls & -> & Hs3 & Hlen3 & HF & _); try done.
  { unfold s1. simpl. by rewrite lookup_app_r, Nat.sub_diag by lia. }
  { unfold s1, w. simpl. by apply list_lookup_middle. }
  assert (run = (Ok snapshot, snd run)) as Hrun' by (rewrite <- Hsnap; by destruct run).
  destruct (prepare_Ok _ _ _ _ _ _ _ _ Hrun')
    as (resolvedConfig & s3' & dirs & s5 & sourceConfig & s6
        & E3' & E5 & E6 & -> & Hs').
  cbv zeta in E3'. fold ctx in E3'. fold s1 in E3'. fold w in E3'.
  rewrite E3 in E3'. injection E3' as <- <-.
  rewrite Hs'. simpl heap.
  exists resolved, F. split; [unfold readProp; by rewrite list_lookup_middle|].
  split.
  2:{ intros l Hl. apply HF in Hl. unfold s1 in Hl. simpl in Hl.
      rewrite length_app in Hl. lia. }
  set (W := fun l : loc => l = w).
  assert (grows W (heap s3) (heap s3 ++ [Arr []])) as Hg4.
  { apply grows_alloc; [apply grows_refl|constructor]. }
  assert (w < length (heap s3)) as Hw3.
  { unfold s1, w in *. simpl in Hlen3. rewrite length_app in Hlen3.
    simpl in Hlen3. lia. }
  eapply (forEach_grows W (heap s3) dirs _ (fun _ => VUndefined)) in E5;
    [|by apply Forall_true| |exact Hg4].
  2:{ intros x sa sb _ Hga Ex.
      eapply resolveAgentStore_grows; [exact Hga| | |exact Ex];
        [by right|left; simpl; lia]. }
  destruct (structuredClone_Ok _ _ _ _ _ E6) as (t6 & ext & _ & -> & _).
  eapply shaped_frame; [exact Hs3|]. intros l Hl.
  assert (l < length (heap s3)) as Hlt by (by eapply shaped_valid).
  assert (l <> w) as Hne.
  { apply HF in Hl. unfold s1, w in *. simpl in Hl. rewrite length_app in Hl.
    simpl in Hl. lia. }
  destruct E5 as (Hlen5 & Hold5 & _).
  destruct (lookup_lt_is_Some_2 _ _ Hlt) as [o Ho].
  simpl heap. rewrite <- app_assoc, lookup_app_l by lia.
  destruct (Hold5 l o Ho) as [Hk|[HW _]]; [congruence|done].
Qed.

(** prepareSecretsRuntimeSnapshot on a configuration of the
    configuration type that is laid out in the store as a tree (no
    object is reached twice), in a store without dangling references:
    when resolving the configuration fails, the call fails with that
    error; otherwise, whenever the call returns a snapshot, the config
    of the snapshot is a fresh object graph that reads back as the
    configuration with its references resolved, the values being those
    of the environment passed (or else of the process) and of the one
    decrypt that the input configuration configures. *)
Theorem prepare_resolves_config (fuel : nat) (config : val)
    (env : option (gmap string string)) (agentDirs : option (list string))
    (loadAuthStore : option (string -> val)) (s : State) (t : tree)
    (F : gset loc) :
  wf_heap (heap s) ->
  shaped (heap s) config t F -> depth t <= fuel ->
  configTyped t = true ->
  let run :=
    prepareSecretsRuntimeSnapshot fuel config env agentDirs loadAuthStore s in
  match configResolved
          (referenceValue (default process_env env)
             (decryptOutcome (heap s) config)) t with
  | Ok t' =>
      forall snapshot, fst run = Ok snapshot ->
        exists resolved,
          readProp (heap (snd run)) snapshot "config" = Ok resolved /\
          readback (depth t') (heap (snd run)) resolved = Some t' /\
          (forall l, reaches (heap (snd run)) resolved l -> length (heap s) <= l)
  | Err e => fst run = Err e
  end.
Proof.
  intros Hwf Hsh Hd Hty run.
  assert (valid (heap s) config) as Hvalid.
  { destruct config as [p|l]; [done|]. simpl.
    eapply shaped_valid; [exact Hsh|]. eapply shaped_reaches; [exact Hsh|].
    constructor. }
  pose proof (prepare_config_walk fuel config env agentDirs loadAuthStore s t
                Hwf Hvalid (shaped_readback _ _ _ _ Hsh _ Hd) Hty) as Hp.
  cbv zeta in Hp. fold run in Hp.
  destruct (configResolved _ t) as [t'|e]; [|done].
  intros snapshot Hsnap. destruct (Hp snapshot Hsnap) as (resolved & F' & Hc & Hs & HF).
  exists resolved. split_and!; [done|by eapply shaped_readback|by eapply shaped_fresh].
Qed.
End ConfigWalk.

Section ConfigWalkWitnesses.
#[local] Existing Instance Reference.collaborators.


Lemma sampleWalkPrepareState_shaped :
  exists F, shaped (heap sampleWalkPrepareState) (VRef 10) sampleWalkConfig F.
Proof.
  destruct (materialize_shaped sampleWalkConfig [] (VRef 10)
              (take 11 (heap sampleWalkPrepareState)) eq_refl) as (F & Hs & _).
  exists F. by apply (shaped_app _ (drop 11 (heap sampleWalkPrepareState))) in Hs.
Defined.


Lemma prepare_resolves_config_witness :
  let run :=
    prepareSecretsRuntimeSnapshot 6 (VRef 10) (Some sampleEnv)
      (Some ["/agents/main"]) (Some (fun _ => VRef 14)) sampleWalkPrepareState in
  exists resolved,
    readProp (heap (snd run)) (VRef 46) "config" = Ok resolved /\
    readback 5 (heap (snd run)) resolved = Some sampleWalkResolved /\
    (forall l, reaches (heap (snd run)) resolved l ->
               length (heap sampleWalkPrepareState) <= l).
Proof.
  destruct sampleWalkPrepareState_shaped as [F Hs].
  assert (depth sampleWalkConfig <= 6) as Hd by (vm_compute; lia).
  exact (prepare_resolves_config 6 (VRef 10) (Some sampleEnv)
           (Some ["/agents/main"]) (Some (fun _ => VRef 14)) sampleWalkPrepareState
           sampleWalkConfig F
           (wf_heapb_spec (heap sampleWalkPrepareState) eq_refl)
           Hs Hd eq_refl
           (VRef 46) eq_refl).
Defined.
End ConfigWalkWitnesses.

(** ** What the auth-store walk returns *)

Section StoreWalk.
Context `{Collaborators}.

(** What the walk returns is shaped as the resolved store, out of
    objects that did not exist before. *)
Lemma store_walk_shaped fuel store context w agentDir s ctx t ws r s' :
  readback fuel (heap s) store = Some t ->
  storeTyped t = true ->
  contexts s !! context = Some ctx ->
  heap s !! w = Some (Arr ws) ->
  (forall l, reaches (heap s) (ctx_config ctx) l -> l < length (heap s) /\ l <> w) ->
  resolveAuthStoreSecretRefs fuel store context (VRef w) agentDir s = (r, s') ->
  match storeResolved
          (referenceValue (ctx_env ctx) (settledDecrypt ctx (heap s))) t with
  | Ok t' =>
      exists resolved F ls,
        r = Ok resolved /\ shaped (heap s') resolved t' F /\
        length (heap s) <= length (heap s') /\
        (forall l, l ∈ F -> length (heap s) <= l) /\
        (forall l, l < length (heap s) -> l <> w -> heap s' !! l = heap s !! l) /\
        heap s' !! w = Some (Arr (ws ++ (VRef <$> ls))) /\
        Forall2 (fun l o => length (heap s) <= l /\ heap s' !! l = Some o)
          ls (storeWarnings agentDir t)
  | Err e => r = Err e
  end.
Proof.
  intros Hr Hty Hctx Hws Hcfg E.
  pose proof (store_walk_sim s w context ctx (lookup_lt_Some _ _ _ Hws) Hcfg
                _ (settled_cached ctx (heap s)) (settled_first ctx (heap s))
                fuel store agentDir s t r s' (walking_start _ _ _ _ _ Hctx Hws)
                Hr Hty E) as Hsim.
  destruct (storeResolved _ t) as [t'|e]; [|done].
  destruct Hsim as (resolved & F & -> & _ & Hs & Hlen & HF & Hsame
                    & ws' & ls & Hws0 & Hws' & Hall).
  assert (ws' = ws) as -> by congruence.
  exists resolved, F, ls. split_and!; try done.
  eapply Forall2_impl; [exact Hall|]. by intros l o (? & _ & ?).
Qed.

(** The auth-store walk on a store of the store type that is laid out
    in the store as a tree (no object is reached twice), with an array
    of warnings that the config of the context does not reach: the walk
    returns the store with its references resolved, a fresh object graph
    (it is laid out as a tree, out of objects that did not exist before
    the walk, so that everything it reaches is new) that reads back as
    the input with, for every api_key profile, key set to the value of
    the reference in keyRef, and for every token profile, token set to
    the value of the reference in tokenRef; profiles of other types, and
    everything else, are as in the input.  When one of these resolutions
    fails, or gives anything but a non-empty string, the walk fails,
    with the error of the first profile that does. *)
Theorem store_walk_resolves (fuel : nat) (store : val) (context : nat)
    (w : loc) (agentDir : string) (s : State) (ctx : ResolverContext)
    (t : tree) (F : gset loc) (ws : list val) :
  shaped (heap s) store t F -> depth t <= fuel ->
  storeTyped t = true ->
  contexts s !! context = Some ctx ->
  heap s !! w = Some (Arr ws) ->
  (forall l, reaches (heap s) (ctx_config ctx) l -> l < length (heap s) /\ l <> w) ->
  let run := resolveAuthStoreSecretRefs fuel store context (VRef w) agentDir s in
  match storeResolved
          (referenceValue (ctx_env ctx) (settledDecrypt ctx (heap s))) t with
  | Ok t' =>
      exists resolved F',
        fst run = Ok resolved /\
        shaped (heap (snd run)) resolved t' F' /\
        (forall l, l ∈ F' -> length (heap s) <= l) /\
        (forall l, reaches (heap (snd run)) resolved l -> length (heap s) <= l) /\
        readback (depth t') (heap (snd run)) resolved = Some t'
  | Err e => fst run = Err e
  end.
Proof.
  intros Hsh Hd Hty Hctx Hws Hcfg run. subst run.
  pose proof (shaped_readback _ _ _ _ Hsh _ Hd) as Hr.
  destruct (resolveAuthStoreSecretRefs fuel store context (VRef w) agentDir s)
    as [r s'] eqn:E.
  pose proof (store_walk_shaped _ _ _ _ _ _ _ _ _ _ _ Hr Hty Hctx Hws Hcfg E) as Hw.
  destruct (storeResolved _ t) as [t'|e]; [|done].
  destruct Hw as (resolved & F' & ls & -> & Hs & _ & HF & _).
  exists resolved, F'. split_and!; [done..| |by eapply shaped_readback].
  by eapply shaped_fresh.
Qed.
End StoreWalk.

Section StoreWalkWitnesses.
#[local] Existing Instance Reference.collaborators.

(** The auth-profile store of [sampleWalkStoreState], laid out as a
    tree. *)
Lemma sampleWalkStoreState_shaped :
  exists F, shaped (heap sampleWalkStoreState) (VRef 11) sampleWalkStore F.
Proof.
  destruct (materialize_shaped sampleWalkStore (take 4 (heap sampleWalkStoreState))
              (VRef 11) (take 12 (heap sampleWalkStoreState)) eq_refl)
    as (F & Hs & _).
  exists F. by apply (shaped_app _ [Arr []]) in Hs.
Defined.

Lemma store_walk_resolves_witness :
  let run :=
    resolveAuthStoreSecretRefs 6 (VRef 11) 0 (VRef 12) "/agents/main"
      sampleWalkStoreState in
  exists resolved F',
    fst run = Ok resolved /\
    shaped (heap (snd run)) resolved sampleWalkStoreResolved F' /\
    (forall l, l ∈ F' -> length (heap sampleWalkStoreState) <= l) /\
    (forall l, reaches (heap (snd run)) resolved l ->
               length (heap sampleWalkStoreState) <= l) /\
    readback 4 (heap (snd run)) resolved = Some sampleWalkStoreResolved.
Proof.
  assert (forall l, reaches (heap sampleWalkStoreState) (VRef 3) l ->
                    l < length (heap sampleWalkStoreState) /\ l <> 12) as Hcfg.
  { intros l Hl.
    assert (l < 12) as Hlt; [|split; [simpl; lia|lia]].
    apply (reaches_old (take 12 (heap sampleWalkStoreState)) _ _ _
             (wf_heapb_spec (take 12 (heap sampleWalkStoreState)) eq_refl)) in Hl.
    - exact Hl.
    - vm_compute. lia.
    - intros l'. rewrite length_take. intros Hl'. symmetry.
      apply lookup_take_lt. lia. }
  destruct sampleWalkStoreState_shaped as [F Hs].
  assert (depth sampleWalkStore <= 6) as Hd by (vm_compute; lia).
  exact (store_walk_resolves 6 (VRef 11) 0 12 "/agents/main" sampleWalkStoreState
           (mkContext (VRef 3) sampleEnv None) sampleWalkStore F []
           Hs Hd eq_refl eq_refl eq_refl Hcfg).
Defined.
End StoreWalkWitnesses.

(** ** The auth stores of a snapshot, resolved *)

Section PreparedStores.
Context `{Collaborators}.

(** prepareSecretsRuntimeSnapshot on a configuration of the
    configuration type, with a loader whose stores are of the store
    type, the configuration and each of the stores being laid out in the
    store as a tree (no object is reached twice), in a store without
    dangling references: whenever the call
    returns a snapshot, its authStores hold, for each directory visited
    and in the order of the visits, an entry with that agentDir whose
    store reads back as the store that was loaded for the directory with
    its references resolved, the values being those of the environment
    passed (or else of the process) and of the one decrypt that the input
    configuration configures. *)
Theorem prepare_resolves_stores (fuel : nat) (config : val)
    (env : option (gmap string string)) (agentDirs : option (list string))
    (loadAuthStore : option (string -> val)) (s : State) (t : tree)
    (loaded : string -> tree) (F : gset loc) (snapshot : val) (s' : State) :
  wf_heap (heap s) ->
  shaped (heap s) config t F -> depth t <= fuel ->
  configTyped t = true ->
  (forall d, exists Fd,
     shaped (heap s) (default loadAuthProfileStoreForRuntime loadAuthStore d)
       (loaded d) Fd) ->
  (forall d, depth (loaded d) <= fuel) ->
  (forall d, storeTyped (loaded d) = true) ->
  prepareSecretsRuntimeSnapshot fuel config env agentDirs loadAuthStore s
  = (Ok snapshot, s') ->
  exists dirs authStores entries,
    (forall d ds, agentDirs = Some (d :: ds) ->
                  dirs = setOrder [] (resolveUserPath <$> d :: ds)) /\
    readProp (heap s') snapshot "authStores" = Ok authStores /\
    readArray (heap s') authStores = Some entries /\
    Forall2
      (fun e d =>
         exists st t',
           readProp (heap s') e "agentDir" = Ok (VStr d) /\
           readProp (heap s') e "store" = Ok st /\
           storeResolved
             (referenceValue (default process_env env)
                (decryptOutcome (heap s) config)) (loaded d) = Ok t' /\
           readback (depth t') (heap s') st = Some t')
      entries dirs.
Proof.
  intros Hwf Hsh Hd Hty Hshl Hdl Hsty E.
  assert (valid (heap s) config) as Hvalid.
  { destruct config as [p|l]; [done|]. simpl.
    eapply shaped_valid; [exact Hsh|]. eapply shaped_reaches; [exact Hsh|].
    constructor. }
  pose proof (shaped_readback _ _ _ _ Hsh _ Hd) as Hr.
  assert (forall d, readback fuel (heap s)
                      (default loadAuthProfileStoreForRuntime loadAuthStore d)
                    = Some (loaded d)) as Hload.
  { intros d. destruct (Hshl d) as [Fd Hsd]. by eapply shaped_readback. }
  destruct (prepare_Ok_dirs _ _ _ _ _ _ _ _ E)
    as (resolvedConfig & s3 & s5 & sourceConfig & s6 & E3 & E5 & E6 & -> & ->).
  set (dirs := match agentDirs with
               | Some (d :: ds) => setOrder [] (resolveUserPath <$> d :: ds)
               | _ => collectCandidateAgentDirs (heap s3) resolvedConfig
               end) in *.
  set (w := length (heap s)) in *.
  set (context := length (contexts s)) in *.
  set (ctx := mkContext config (default process_env env) None) in *.
  set (s1 := with_contexts (contexts s ++ [ctx]) (with_heap (heap s ++ [Arr []]) s))
    in *.
  set (loader := default loadAuthProfileStoreForRuntime loadAuthStore) in *.
  assert (forall l, reaches (heap s) config l -> l < length (heap s)) as Hold.
  { intros l. by apply reaches_old. }
  assert (forall l, reaches (heap s1) config l -> l < length (heap s1) /\ l <> w)
    as Hcfg.
  { intros l Hl. assert (l < length (heap s)) as Hlt.
    { eapply (reaches_old (heap s)); [done..| |exact Hl].
      intros l' Hl'. by apply lookup_app_l. }
    unfold s1, w. simpl. rewrite length_app. simpl. lia. }
  assert (settledDecrypt ctx (heap s1) = decryptOutcome (heap s) config) as Hdec.
  { unfold settledDecrypt. simpl. apply decryptOutcome_agree.
    intros l Hl. apply lookup_app_l. by apply Hold. }
  assert (contexts s1 !! context = Some ctx) as Hctx.
  { unfold s1, context. simpl. by rewrite lookup_app_r, Nat.sub_diag by lia. }
  assert (heap s1 !! w = Some (Arr [])) as Hws.
  { unfold s1, w. simpl. by apply list_lookup_middle. }
  assert (w < length (heap s1)) as Hw by (by eapply lookup_lt_Some).
  pose proof (walking_start _ _ _ _ _ Hctx Hws) as Hwalk1.
  pose proof (config_walk_sim s1 w context ctx Hw Hcfg
                _ (settled_cached ctx (heap s1)) (settled_first ctx (heap s1))
                fuel config s1 t _ _ Hwalk1 (readback_app _ _ _ _ _ Hr) Hty E3)
    as Hsim.
  destruct (configResolved _ t) as [t'|e]; [|done].
  destruct Hsim as (? & F3 & [= <-] & Hwalk3 & _ & Hlen3 & _ & _).
  set (a := length (heap s3)) in *.
  assert (a <> w) as Haw by (unfold a; lia).
  pose proof (walking_append _ _ _ _ Hw _ _ [Arr []] Hwalk3) as Hwalk4.
  destruct (agentStores_sim s1 w context ctx Hw Hcfg
              _ (settled_cached ctx (heap s1)) (settled_first ctx (heap s1))
              fuel loader loaded a dirs) with
    (s := with_heap (heap s3 ++ [Arr []]) s3) (s' := s5)
    (es := @nil val) (done := @nil string)
    as (entries & _ & _ & Ha & Hes); try done.
  { intros si d [_ Hsame _ _]. eapply readback_agree; [apply Hload|].
    intros l Hl. rewrite Hsame.
    - unfold s1. simpl. by apply lookup_app_l.
    - unfold s1. simpl. rewrite length_app. lia.
    - unfold w. lia. }
  { simpl. by apply list_lookup_middle. }
  destruct (structuredClone_Ok _ _ _ _ _ E6) as (t6 & ext & _ & -> & _ & _ & _).
  simpl heap. simpl in Hes.
  exists dirs, (VRef a), entries.
  assert (forall l o, heap s5 !! l = Some o ->
            ((heap s5 ++ ext)
               ++ [Obj [("sourceConfig", sourceConfig); ("config", resolvedConfig);
                        ("authStores", VRef a); ("warnings", VRef w)]]) !! l = Some o)
    as Hkeep.
  { intros l o Hl. by do 2 apply lookup_app_l_Some. }
  split_and!.
  - by intros d ds ->.
  - unfold readProp. by rewrite list_lookup_middle.
  - simpl. by rewrite (Hkeep _ _ Ha).
  - eapply Forall2_impl; [exact Hes|].
    intros e d (l & st & t1 & F1 & -> & Hcell & Ht1 & Hs1 & _).
    exists st, t1. apply Hkeep in Hcell.
    unfold readProp. rewrite Hcell. simpl. split_and!; [done..| |].
    + by rewrite <- Hdec.
    + eapply shaped_readback; [|done]. by do 2 apply shaped_app.
Qed.
End PreparedStores.

Section PreparedStoresWitnesses.
#[local] Existing Instance Reference.collaborators.

Lemma prepare_resolves_stores_witness :
  let run :=
    prepareSecretsRuntimeSnapshot 6 (VRef 7) (Some sampleEnv)
      (Some ["/agents/main"]) (Some (fun _ => VRef 15)) sampleStoresPrepareState in
  exists authStores e st,
    readProp (heap (snd run)) (VRef 44) "authStores" = Ok authStores /\
    readArray (heap (snd run)) authStores = Some [e] /\
    readProp (heap (snd run)) e "agentDir" = Ok (VStr "/agents/main") /\
    readProp (heap (snd run)) e "store" = Ok st /\
    readback 4 (heap (snd run)) st = Some sampleWalkStoreResolved.
Proof.
  intros run.
  assert (prepareSecretsRuntimeSnapshot 6 (VRef 7) (Some sampleEnv)
            (Some ["/agents/main"]) (Some (fun _ => VRef 15))
            sampleStoresPrepareState
          = (Ok (VRef 44), snd run)) as Hrun by (vm_compute; reflexivity).
  clearbody run.
  destruct (materialize_shaped sampleFileConfig [] (VRef 7)
              (take 8 (heap sampleStoresPrepareState)) eq_refl) as (F & Hsc & _).
  apply (shaped_app _ (drop 8 (heap sampleStoresPrepareState))) in Hsc.
  destruct (materialize_shaped sampleWalkStore
              (take 8 (heap sampleStoresPrepareState)) (VRef 15)
              (heap sampleStoresPrepareState) eq_refl) as (Fd & Hsd & _).
  assert (depth sampleFileConfig <= 6) as Hd by (vm_compute; lia).
  assert (depth sampleWalkStore <= 6) as Hdl by (vm_compute; lia).
  destruct (prepare_resolves_stores 6 (VRef 7) (Some sampleEnv)
              (Some ["/agents/main"]) (Some (fun _ => VRef 15))
              sampleStoresPrepareState sampleFileConfig (fun _ => sampleWalkStore)
              F (VRef 44) (snd run)
              (wf_heapb_spec (heap sampleStoresPrepareState) eq_refl)
              Hsc Hd eq_refl
              (fun _ => ex_intro _ Fd Hsd) (fun _ => Hdl) (fun _ => eq_refl) Hrun)
    as (dirs & authStores & entries & Hdirs & Ha & Hread & Hall).
  rewrite (Hdirs _ _ eq_refl) in Hall.
  assert (setOrder [] (resolveUserPath <$> ["/agents/main"]) = ["/agents/main"])
    as Hs by (vm_compute; reflexivity).
  rewrite Hs in Hall.
  destruct entries as [|e [|e' entries]];
    [by inversion Hall| |inversion Hall as [|? ? ? ? _ Hrest]; inversion Hrest].
  inversion Hall as [|? ? ? ? (st & t' & Hdir & Hst & Ht & Hrb) _].
  exists authStores, e, st.
  split; [exact Ha|]. split; [exact Hread|]. split; [exact Hdir|].
  split; [exact Hst|].
  assert (t' = sampleWalkStoreResolved) as ->; [|exact Hrb].
  assert (Ok t' = Ok sampleWalkStoreResolved) as Heq; [|by injection Heq].
  rewrite <- Ht. vm_compute. reflexivity.
Defined.
End PreparedStoresWitnesses.

(** ** The providers of a walk *)

#[local] Set Warnings "-clear-no-such-hyp".

Lemma mapResult_lookup {A B} (f : A -> Result B) xs ys :
  mapResult f xs = Ok ys ->
  length ys = length xs /\
  forall i x, xs !! i = Some x -> exists y, ys !! i = Some y /\ f x = Ok y.
Proof.
  revert ys. induction xs as [|x xs IH]; intros ys; simpl.
  - intros [= <-]. split; [done|]. intros i x Hi. by rewrite lookup_nil in Hi.
  - destruct (f x) as [y|] eqn:Ex; [|done].
    destruct (mapResult f xs) as [ys'|]; [|done]. intros [= <-].
    destruct (IH ys' eq_refl) as [Hlen Hall]. split; [simpl; lia|].
    intros [|i] x' Hi; simpl in *.
    + injection Hi as <-. by exists y.
    + by apply Hall.
Qed.

Lemma mapResult_first_Err {A B} (f : A -> Result B) xs i x e :
  xs !! i = Some x -> f x = Err e ->
  (forall j x', j < i -> xs !! j = Some x' -> exists y, f x' = Ok y) ->
  mapResult f xs = Err e.
Proof.
  revert i. induction xs as [|x0 xs IH]; intros i Hi Hx Hbefore.
  - by rewrite lookup_nil in Hi.
  - destruct i as [|i]; simpl in *.
    + injection Hi as ->. by rewrite Hx.
    + destruct (Hbefore 0 x0) as [y ->]; [lia|done|].
      rewrite (IH i); [done..|]. intros j x' Hj Hx'. apply (Hbefore (S j)); [lia|done].
Qed.

Lemma tentries_falsy x : ttruthy x = false -> tentries x = [].
Proof.
  destruct x as [[| | | |str]| |]; try done. simpl.
  destruct str; [done|]. by intros.
Qed.

Lemma props_get_set_eq {A} k (v : A) ps : props_get k (props_set k v ps) = Some v.
Proof.
  induction ps as [|[k1 v1] ps IH]; simpl.
  - by rewrite String.eqb_refl.
  - destruct (String.eqb k k1) eqn:E; simpl.
    + by rewrite String.eqb_refl.
    + by rewrite E.
Qed.

Section Providers.
Context `{Collaborators}.

(** The providers of the resolved configuration are those of the
    configuration, resolved one by one. *)
Lemma configResolved_providers resolve t t' :
  configTyped t = true -> configResolved resolve t = Ok t' ->
  mapResult (providerResolved resolve) (providerEntries t)
  = Ok (providerEntries t').
Proof.
  intros Hty. apply andb_true_iff in Hty as [Hty _].
  apply andb_true_iff in Hty as [Hrec Hty].
  unfold configResolved. destruct (providersResolved resolve t) as [t1|] eqn:E1; [|done].
  intros E2.
  assert (tget t' "models" = tget t1 "models") as Hm.
  { unfold channelsResolved in E2. cbv zeta in E2.
    destruct (ttruthy _); [|by injection E2 as <-].
    destruct (googleChatResolved _ _); [|done]. injection E2 as <-.
    destruct t1; try done. simpl. by rewrite props_get_set_ne. }
  unfold providerEntries. rewrite Hm. clear E2 Hm.
  unfold providersResolved, providersTyped in *. cbv zeta in *.
  destruct (ttruthy (tgetOpt (tget t "models") "providers")) eqn:Htr.
  2:{ injection E1 as <-. by rewrite (tentries_falsy _ Htr). }
  destruct (mapResult _ _) as [ys|]; [|done]. injection E1 as <-.
  apply andb_true_iff in Hty as [Hty _]. apply andb_true_iff in Hty as [Hmrec _].
  destruct t as [|pts|]; try done.
  destruct (tget (TObj pts) "models") as [|ptsm|]; try done.
  simpl. rewrite props_get_set_eq. simpl. unfold tgetOpt. simpl.
  by rewrite props_get_set_eq.
Qed.

Lemma configResolved_providers_Err resolve t e :
  mapResult (providerResolved resolve) (providerEntries t) = Err e ->
  configResolved resolve t = Err e.
Proof.
  unfold providerEntries, configResolved, providersResolved. cbv zeta. intros E.
  destruct (ttruthy _) eqn:Htr; [by rewrite E|].
  by rewrite (tentries_falsy _ Htr) in E.
Qed.

Lemma providerResolves_Ok resolve entry :
  providerResolves resolve (snd entry) ->
  exists entry', providerResolved resolve entry = Ok entry'.
Proof.
  unfold providerResolves, providerResolved.
  destruct (secretRefOfTree _) as [ref|]; [|by eexists].
  intros (x & -> & ->). by eexists.
Qed.

(** C5: the config walk on a configuration of the configuration type
    that is laid out in the store as a tree, with an array of warnings
    that the config of the context does not reach.  The providers are
    the entries of models.providers, in their order.  When the apiKey of
    a provider is a reference whose value is not a non-empty string,
    and no provider before it makes the walk fail, the walk fails with
    InvalidResolvedValue for that provider.  When the walk returns, what
    it returns is a copy, made of objects that did not exist before, in
    which every provider whose apiKey is a reference has the value of
    that reference, a non-empty string, as its apiKey, and has its other
    properties as they were, and every other provider is as it was; the objects that
    existed before the walk, those of the input among them, are as they
    were, the warnings array apart. *)
Theorem provider_api_key_resolution (fuel : nat) (config : val) (context : nat)
    (w : loc) (s : State) (ctx : ResolverContext) (t : tree) (F : gset loc)
    (ws : list val) :
  shaped (heap s) config t F -> depth t <= fuel ->
  configTyped t = true ->
  contexts s !! context = Some ctx ->
  heap s !! w = Some (Arr ws) ->
  (forall l, reaches (heap s) (ctx_config ctx) l -> l < length (heap s) /\ l <> w) ->
  let run := resolveConfigSecretRefs fuel config context (VRef w) s in
  let resolve := referenceValue (ctx_env ctx) (settledDecrypt ctx (heap s)) in
  (forall i providerId provider ref x,
     providerEntries t !! i = Some (providerId, provider) ->
     (forall j e, j < i -> providerEntries t !! j = Some e ->
                  providerResolves resolve (snd e)) ->
     secretRefOfTree (tget provider "apiKey") = Some ref ->
     resolve ref = Ok x -> tisNonEmptyString x = false ->
     fst run = Err (InvalidResolvedValue providerId)) /\
  (forall resolved, fst run = Ok resolved ->
     exists t',
       readback (depth t') (heap (snd run)) resolved = Some t' /\
       (forall l, reaches (heap (snd run)) resolved l -> length (heap s) <= l) /\
       (forall l, l < length (heap s) -> l <> w ->
                  heap (snd run) !! l = heap s !! l) /\
       length (providerEntries t') = length (providerEntries t) /\
       forall i providerId provider,
         providerEntries t !! i = Some (providerId, provider) ->
         match secretRefOfTree (tget provider "apiKey") with
         | Some ref =>
             exists x provider',
               resolve ref = Ok x /\ tisNonEmptyString x = true /\
               providerEntries t' !! i = Some (providerId, provider') /\
               tget provider' "apiKey" = x /\
               (forall k, k <> "apiKey" -> tget provider' k = tget provider k) /\
               provider' = tset provider "apiKey" x
         | None => providerEntries t' !! i = Some (providerId, provider)
         end).
Proof.
  intros Hsh Hd Hty Hctx Hws Hcfg run resolve.
  pose proof (shaped_readback _ _ _ _ Hsh _ Hd) as Hr.
  destruct (resolveConfigSecretRefs fuel config context (VRef w) s) as [r s'] eqn:E.
  pose proof (config_walk_shaped _ _ _ _ _ _ _ _ _ _ Hr Hty Hctx Hws Hcfg E) as Hw.
  fold resolve in Hw. subst run. simpl fst. simpl snd. split.
  - intros i providerId provider ref x Hi Hbefore Href Hx Hne.
    assert (mapResult (providerResolved resolve) (providerEntries t)
            = Err (InvalidResolvedValue providerId)) as Hmap.
    { eapply mapResult_first_Err; [exact Hi| |].
      - unfold providerResolved. simpl. by rewrite Href, Hx, Hne.
      - intros j e Hj He. apply providerResolves_Ok. by eapply Hbefore. }
    by rewrite (configResolved_providers_Err _ _ _ Hmap) in Hw.
  - intros resolved ->.
    destruct (configResolved resolve t) as [t'|e] eqn:Et; [|done].
    destruct Hw as (resolved' & F' & ls & [= <-] & Hs & _ & HF & Hsame & _).
    pose proof (configResolved_providers _ _ _ Hty Et) as Hmap.
    apply mapResult_lookup in Hmap as [Hlen Hall].
    exists t'. split_and!; [by eapply shaped_readback|by eapply shaped_fresh|done..|].
    intros i providerId provider Hi.
    assert (tisRecord provider = true) as Hprovider.
    { apply andb_true_iff in Hty as [Hty _]. apply andb_true_iff in Hty as [_ Hty].
      unfold providersTyped in Hty. cbv zeta in Hty. unfold providerEntries in Hi.
      destruct (ttruthy _) eqn:Htr; [|by rewrite (tentries_falsy _ Htr) in Hi].
      apply andb_true_iff in Hty as [_ Hty].
      apply (forallb_Forall (fun e => tisRecord (snd e))) in Hty.
      rewrite Forall_forall in Hty.
      by apply (Hty (providerId, provider)), list_elem_of_lookup_2 with i. }
    destruct (Hall _ _ Hi) as (y & Hy & Hf). unfold providerResolved in Hf.
    simpl in Hf. destruct (secretRefOfTree (tget provider "apiKey")) as [ref|].
    + destruct (resolve ref) as [x|]; [|done].
      destruct (tisNonEmptyString x) eqn:Hx; [|done]. injection Hf as <-.
      exists x, (tset provider "apiKey" x). destruct provider as [|pts|]; try done.
      split_and!; try done.
      * simpl. by rewrite props_get_set_eq.
      * intros k Hk. simpl. by rewrite props_get_set_ne.
    + by injection Hf as <-.
Qed.
End Providers.

Section ProvidersWitnesses.
#[local] Existing Instance Reference.collaborators.

Lemma provider_api_key_resolution_witness :
  let run := resolveConfigSecretRefs 6 (VRef 5) 0 (VRef 6) sampleProvidersState in
  exists resolved t',
    fst run = Ok resolved /\
    readback (depth t') (heap (snd run)) resolved = Some t' /\
    providerEntries t'
    = [("acme", TObj [("apiKey", TStr "secret123");
                      ("baseUrl", TStr "https://acme.example")]);
       ("plain", TObj [("apiKey", TStr "sk-plain")])].
Proof.
  intros run.
  assert (forall l, reaches (heap sampleProvidersState) (VRef 5) l ->
                    l < length (heap sampleProvidersState) /\ l <> 6) as Hcfg.
  { intros l Hl.
    assert (l < 6) as Hlt; [|split; [simpl; lia|lia]].
    apply (reaches_old (take 6 (heap sampleProvidersState)) _ _ _
             (wf_heapb_spec (take 6 (heap sampleProvidersState)) eq_refl)) in Hl.
    - exact Hl.
    - vm_compute. lia.
    - intros l'. rewrite length_take. intros Hl'. symmetry.
      apply lookup_take_lt. lia. }
  destruct (materialize_shaped sampleProvidersConfig [] (VRef 5)
              (take 6 (heap sampleProvidersState)) eq_refl) as (F & Hs & _).
  apply (shaped_app _ [Arr []]) in Hs.
  assert (depth sampleProvidersConfig <= 6) as Hd by (vm_compute; lia).
  destruct (provider_api_key_resolution 6 (VRef 5) 0 6 sampleProvidersState
              (mkContext (VRef 5) sampleEnv None) sampleProvidersConfig F []
              Hs Hd eq_refl eq_refl eq_refl Hcfg) as [_ Hok].
  assert (exists resolved, fst run = Ok resolved) as [resolved Hrun]
    by (eexists; vm_compute; reflexivity).
  destruct (Hok resolved Hrun) as (t' & Hrb & _ & _ & Hlen & Hall).
  exists resolved, t'. split; [exact Hrun|]. split; [exact Hrb|].
  pose proof (Hall 0 "acme" _ eq_refl) as H0.
  pose proof (Hall 1 "plain" _ eq_refl) as H1.
  simpl in H0, H1. destruct H0 as (x & provider' & Hx & _ & H0 & _ & _ & Hp).
  assert (x = TStr "secret123") as ->.
  { assert (Ok x = Ok (TStr "secret123")) as Heq; [|by injection Heq].
    rewrite <- Hx. vm_compute. reflexivity. }
  subst provider'.
  destruct (providerEntries t') as [|e0 [|e1 [|e2 es]]]; try discriminate Hlen.
  simpl in H0, H1. injection H0 as ->. injection H1 as ->. reflexivity.
Defined.
End ProvidersWitnesses.

(** ** The Google Chat targets of a walk *)

#[local] Set Warnings "-clear-no-such-hyp".

(** The warnings of a list of targets, target by target. *)
Lemma Forall2_warnings {A B} (Q : A -> obj -> Prop) (P : A -> B -> Prop)
    (overrides : B -> bool) (warning : B -> obj) (warnings : B -> list obj)
    ls targets :
  (forall target,
     warnings target = if overrides target then [warning target] else []) ->
  (forall l target, overrides target = true -> Q l (warning target) -> P l target) ->
  Forall2 Q ls (flat_map warnings targets) ->
  Forall2 P ls (filter (fun target => overrides target = true) targets).
Proof.
  intros Hw HP. revert ls.
  induction targets as [|target targets IH]; intros ls; simpl.
  - intros Hall. inversion Hall. constructor.
  - rewrite Hw. rewrite filter_cons. destruct (overrides target) eqn:Ho.
    + rewrite decide_True by done. simpl. intros Hall.
      inversion Hall as [|l o ls' os Hl Hrest]; subst.
      constructor; [by apply HP|by apply IH].
    + rewrite decide_False by done. simpl. apply IH.
Qed.

Section GoogleChat.
Context `{Collaborators}.

Lemma targetResolved_record resolve tg g :
  targetResolved resolve tg = Ok g -> tisRecord tg = true -> tisRecord g = true.
Proof.
  unfold targetResolved.
  destruct (match secretRefOfTree (tget tg "serviceAccountRef") with
            | Some r => Some r
            | None => secretRefOfTree (tget tg "serviceAccount")
            end) as [ref|]; [|by intros [= <-]].
  destruct (resolve ref) as [x|]; [|done]. intros [= <-]. by destruct tg.
Qed.

(** What a target holds in serviceAccount once it is resolved. *)
Lemma targetResolved_served resolve tg g :
  targetResolved resolve tg = Ok g -> tisRecord tg = true ->
  match secretRefOfTree (tget tg "serviceAccountRef"),
        secretRefOfTree (tget tg "serviceAccount") with
  | Some ref, _ | None, Some ref =>
      exists x, resolve ref = Ok x /\ tget g "serviceAccount" = x
  | None, None => tget g "serviceAccount" = tget tg "serviceAccount"
  end.
Proof.
  unfold targetResolved. intros E Hrec. destruct tg as [|pts|]; try done.
  assert (forall ref, match resolve ref with
                      | Ok x => Ok (tset (TObj pts) "serviceAccount" x)
                      | Err e => Err e
                      end = Ok g ->
                      exists x, resolve ref = Ok x /\ tget g "serviceAccount" = x)
    as Hone.
  { intros ref. destruct (resolve ref) as [x|]; [|done]. intros [= <-].
    exists x. split; [done|]. simpl. by rewrite props_get_set_eq. }
  destruct (secretRefOfTree (tget (TObj pts) "serviceAccountRef")) as [ref|];
    [by apply Hone|].
  destruct (secretRefOfTree (tget (TObj pts) "serviceAccount")) as [ref|];
    [by apply Hone|].
  by injection E as <-.
Qed.

(** The targets among the accounts, before and after the walk. *)
Lemma accounts_served resolve ets ets' :
  mapResult (accountResolved resolve) ets = Ok ets' ->
  Forall2
    (fun target target' =>
       fst target' = fst target /\
       match secretRefOfTree (tget (snd target) "serviceAccountRef"),
             secretRefOfTree (tget (snd target) "serviceAccount") with
       | Some ref, _ | None, Some ref =>
           exists x, resolve ref = Ok x /\ tget (snd target') "serviceAccount" = x
       | None, None =>
           tget (snd target') "serviceAccount" = tget (snd target) "serviceAccount"
       end)
    (flat_map accountTarget ets) (flat_map accountTarget ets').
Proof.
  revert ets'. induction ets as [|e ets IH]; intros ets'; simpl.
  - intros [= <-]. constructor.
  - destruct (accountResolved resolve e) as [e'|] eqn:Ee; [|done].
    destruct (mapResult _ ets) as [ets1|]; [|done]. intros [= <-].
    simpl. apply Forall2_app; [|by apply IH].
    unfold accountResolved in Ee. unfold accountTarget.
    destruct (tisRecord (snd e)) eqn:Hrec.
    + destruct (targetResolved resolve (snd e)) as [x|] eqn:Ex; [|done].
      injection Ee as <-. simpl.
      rewrite (targetResolved_record _ _ _ Ex Hrec).
      constructor; [|constructor]. split; [done|]. simpl.
      by apply targetResolved_served.
    + injection Ee as <-. rewrite Hrec. constructor.
Qed.

(** The targets of the resolved configuration are those of the
    configuration, each with the value of its reference in
    serviceAccount. *)
Lemma configResolved_targets resolve t t' :
  configTyped t = true -> configResolved resolve t = Ok t' ->
  Forall2
    (fun target target' =>
       fst target' = fst target /\
       match secretRefOfTree (tget (snd target) "serviceAccountRef"),
             secretRefOfTree (tget (snd target) "serviceAccount") with
       | Some ref, _ | None, Some ref =>
           exists x, resolve ref = Ok x /\ tget (snd target') "serviceAccount" = x
       | None, None =>
           tget (snd target') "serviceAccount" = tget (snd target) "serviceAccount"
       end)
    (googleChatTargets t) (googleChatTargets t').
Proof.
  intros Hty. apply andb_true_iff in Hty as [Hty HtyG].
  apply andb_true_iff in Hty as [Hrec _].
  unfold configResolved. destruct (providersResolved resolve t) as [t1|] eqn:E1; [|done].
  destruct (providersResolved_channels _ _ _ Hrec E1) as (Hrec1 & HtyG1 & Hch).
  rewrite <- HtyG1 in HtyG. clear HtyG1.
  unfold googleChatTargets. cbv zeta. rewrite <- Hch. clear Hch E1 Hrec t.
  unfold channelsResolved, googleChatTyped in *. cbv zeta in *.
  destruct (ttruthy (tgetOpt (tget t1 "channels") "googlechat")) eqn:Htr.
  2:{ intros [= <-]. rewrite Htr. constructor. }
  apply andb_true_iff in HtyG as [Hcrec Hgrec].
  destruct (googleChatResolved resolve _) as [g'|] eqn:Eg; [|done]. intros [= <-].
  destruct t1 as [|pts1|]; try done.
  destruct (tget (TObj pts1) "channels") as [|ptsc|] eqn:Hc; try done.
  change (tgetOpt (TObj ptsc) "googlechat") with (tget (TObj ptsc) "googlechat") in *.
  set (g := tget (TObj ptsc) "googlechat") in *.
  assert (tgetOpt (tget (tset (TObj pts1) "channels"
                           (tset (TObj ptsc) "googlechat" g')) "channels")
            "googlechat" = g') as ->.
  { simpl. rewrite props_get_set_eq. simpl. unfold tgetOpt. simpl.
    by rewrite props_get_set_eq. }
  unfold googleChatResolved in Eg.
  destruct (targetResolved resolve g) as [g1|] eqn:Et; [|done].
  pose proof (targetResolved_record _ _ _ Et Hgrec) as Hrec1'.
  pose proof (targetResolved_served _ _ _ Et Hgrec) as Hserved.
  pose proof (targetResolved_accounts _ _ _ Et) as Hacc.
  rewrite Hacc in Eg. unfold entryTargets.
  destruct g1 as [|ptsg1|]; try done.
  destruct (tisRecord (tget g "accounts")) eqn:Harec.
  - destruct (mapResult _ _) as [ets'|] eqn:Em; [|done]. injection Eg as <-.
    simpl ttruthy. cbv iota.
    assert (tget (TObj (props_set "accounts" (TObj ets') ptsg1)) "accounts"
            = TObj ets') as -> by (simpl; by rewrite props_get_set_eq).
    simpl tisRecord. cbv iota. simpl tentries.
    constructor; [|by apply accounts_served].
    split; [done|]. simpl fst. simpl snd.
    assert (tget (TObj (props_set "accounts" (TObj ets') ptsg1)) "serviceAccount"
            = tget (TObj ptsg1) "serviceAccount") as ->
      by (simpl; by rewrite props_get_set_ne).
    exact Hserved.
  - injection Eg as <-. simpl ttruthy. cbv iota. rewrite Hacc, Harec.
    constructor; [|constructor]. split; [done|]. exact Hserved.
Qed.

(** C3, as amended: the config walk on a configuration of the
    configuration type that is laid out in the store as a tree, with an
    array of warnings that the config of the context does not reach.
    The targets of the walk are the Google Chat entry, at
    "channels.googlechat", and every entry of its accounts that is an
    object, at "channels.googlechat.accounts.<id>", in this order.  When
    the walk returns, what it returns has the same targets, and the
    serviceAccount of each holds the value of a reference: of the one in
    serviceAccountRef whenever there is one, whatever serviceAccount
    held, and of the one in serviceAccount only when there is none in
    serviceAccountRef; a target with neither keeps its serviceAccount.
    The warnings array has been given, after what it held, one new
    object for every target that has a reference in serviceAccountRef
    and a serviceAccount that is not undefined and is not a reference,
    and for no other target, in the order of the targets: the warning
    with code SECRETS_REF_OVERRIDES_PLAINTEXT and the path of the
    target. *)
Theorem googlechat_service_account (fuel : nat) (config : val) (context : nat)
    (w : loc) (s : State) (ctx : ResolverContext) (t : tree) (F : gset loc)
    (ws : list val) (resolved : val) (s' : State) :
  shaped (heap s) config t F -> depth t <= fuel ->
  configTyped t = true ->
  contexts s !! context = Some ctx ->
  heap s !! w = Some (Arr ws) ->
  (forall l, reaches (heap s) (ctx_config ctx) l -> l < length (heap s) /\ l <> w) ->
  resolveConfigSecretRefs fuel config context (VRef w) s = (Ok resolved, s') ->
  let resolve := referenceValue (ctx_env ctx) (settledDecrypt ctx (heap s)) in
  exists t' ls,
    readback (depth t') (heap s') resolved = Some t' /\
    Forall2
      (fun target target' =>
         fst target' = fst target /\
         match secretRefOfTree (tget (snd target) "serviceAccountRef"),
               secretRefOfTree (tget (snd target) "serviceAccount") with
         | Some ref, _ | None, Some ref =>
             exists x, resolve ref = Ok x /\ tget (snd target') "serviceAccount" = x
         | None, None =>
             tget (snd target') "serviceAccount"
             = tget (snd target) "serviceAccount"
         end)
      (googleChatTargets t) (googleChatTargets t') /\
    heap s' !! w = Some (Arr (ws ++ (VRef <$> ls))) /\
    Forall2
      (fun l target =>
         length (heap s) <= l /\
         heap s' !! l = Some (serviceAccountWarning (fst target)))
      ls (filter (fun target => targetOverrides (snd target) = true)
            (googleChatTargets t)).
Proof.
  intros Hsh Hd Hty Hctx Hws Hcfg E resolve.
  pose proof (shaped_readback _ _ _ _ Hsh _ Hd) as Hr.
  pose proof (config_walk_shaped _ _ _ _ _ _ _ _ _ _ Hr Hty Hctx Hws Hcfg E) as Hw.
  fold resolve in Hw.
  destruct (configResolved resolve t) as [t'|e] eqn:Et; [|done].
  destruct Hw as (resolved' & F' & ls & [= <-] & Hs & _ & _ & _ & Hw' & Hall).
  exists t', ls. split_and!; [by eapply shaped_readback| |done|].
  - by apply configResolved_targets.
  - apply (Forall2_warnings
             (fun l o => length (heap s) <= l /\ heap s' !! l = Some o) _
             (fun target => targetOverrides (snd target))
             (fun target => serviceAccountWarning (fst target)) targetWarnings);
      [done|done|exact Hall].
Qed.
End GoogleChat.

Section GoogleChatWitnesses.
#[local] Existing Instance Reference.collaborators.

Lemma googlechat_service_account_witness :
  let run := resolveConfigSecretRefs 6 (VRef 7) 0 (VRef 8) sampleChatState in
  exists resolved l,
    fst run = Ok resolved /\
    readback 6 (heap (snd run)) resolved = Some sampleChatResolved /\
    heap (snd run) !! 8 = Some (Arr [VRef l]) /\
    heap (snd run) !! l
    = Some (serviceAccountWarning "channels.googlechat.accounts.ops").
Proof.
  intros run.
  assert (forall l, reaches (heap sampleChatState) (VRef 7) l ->
                    l < length (heap sampleChatState) /\ l <> 8) as Hcfg.
  { intros l Hl.
    assert (l < 8) as Hlt; [|split; [simpl; lia|lia]].
    apply (reaches_old (take 8 (heap sampleChatState)) _ _ _
             (wf_heapb_spec (take 8 (heap sampleChatState)) eq_refl)) in Hl.
    - exact Hl.
    - vm_compute. lia.
    - intros l'. rewrite length_take. intros Hl'. symmetry.
      apply lookup_take_lt. lia. }
  destruct (materialize_shaped sampleChatConfig [] (VRef 7)
              (take 8 (heap sampleChatState)) eq_refl) as (F & Hs & _).
  apply (shaped_app _ [Arr []]) in Hs.
  assert (depth sampleChatConfig <= 6) as Hd by (vm_compute; lia).
  assert (exists resolved,
            resolveConfigSecretRefs 6 (VRef 7) 0 (VRef 8) sampleChatState
            = (Ok resolved, snd run) /\
            fst run = Ok resolved /\
            readback 6 (heap (snd run)) resolved = Some sampleChatResolved)
    as (resolved & Hrun & Hfst & Hrb6)
    by (eexists; split_and!; vm_compute; reflexivity).
  clearbody run.
  destruct (googlechat_service_account 6 (VRef 7) 0 8 sampleChatState
              (mkContext (VRef 7) sampleEnv None) sampleChatConfig F []
              resolved (snd run) Hs Hd eq_refl eq_refl eq_refl Hcfg Hrun)
    as (t' & ls & Hrb & _ & Hw & Hall).
  assert (filter (fun target => targetOverrides (snd target) = true)
            (googleChatTargets sampleChatConfig)
          = [("channels.googlechat.accounts.ops",
              TObj [("serviceAccountRef",
                     TObj [("source", TStr "env"); ("id", TStr "ACME_KEY")]);
                    ("serviceAccount", TStr "inline-json")])]) as Hf
    by (vm_compute; reflexivity).
  rewrite Hf in Hall.
  destruct ls as [|l [|l' ls]];
    [by inversion Hall| |inversion Hall as [|? ? ? ? _ Hrest]; inversion Hrest].
  inversion Hall as [|? ? ? ? [_ Hl] _].
  exists resolved, l.
  split; [exact Hfst|]. split; [exact Hrb6|]. split; [exact Hw|exact Hl].
Defined.
End GoogleChatWitnesses.

(** ** The profiles of a walk *)

#[local] Set Warnings "-clear-no-such-hyp".

Section Profiles.
Context `{Collaborators}.

Lemma profileResolved_fields resolve entry :
  profileResolved resolve entry
  = match credentialFields (snd entry) with
    | Some (field, refField) =>
        credentialResolved resolve (fst entry) (snd entry) field refField
    | None => Ok entry
    end.
Proof.
  unfold profileResolved, credentialFields. cbv zeta.
  destruct (tisString _ "api_key"); [done|]. by destruct (tisString _ "token").
Qed.

Lemma profileWarnings_fields agentDir entry :
  profileWarnings agentDir entry
  = if profileOverrides (snd entry)
    then [match credentialFields (snd entry) with
          | Some (field, refField) =>
              credentialWarning agentDir (fst entry) field refField
          | None => Obj []
          end]
    else [].
Proof.
  unfold profileWarnings, profileOverrides, credentialFields, credentialWarnings.
  cbv zeta.
  destruct (tisString _ "api_key").
  { destruct (secretRefOfTree _); [|done]. by destruct (tisNonEmptyString _). }
  destruct (tisString _ "token"); [|done].
  destruct (secretRefOfTree _); [|done]. by destruct (tisNonEmptyString _).
Qed.

Lemma profileResolves_Ok resolve entry :
  profileResolves resolve (snd entry) ->
  exists entry', profileResolved resolve entry = Ok entry'.
Proof.
  rewrite profileResolved_fields. unfold profileResolves, credentialResolved.
  destruct (credentialFields (snd entry)) as [[field refField]|]; [|by eexists].
  destruct (secretRefOfTree _) as [ref|]; [|by eexists].
  intros (x & -> & ->). by eexists.
Qed.

(** C4, as amended: the auth-store walk on a store of the store type
    that is laid out in the store as a tree, with an array of warnings
    that the config of the context does not reach.  The profiles are the
    entries of profiles, in their order; the credential of an api_key
    profile is key, with its reference in keyRef, the one of a token
    profile is token, with its reference in tokenRef, and a profile of
    any other type has none.  When the reference of a profile has a
    value that is not a non-empty string, and no profile before it makes
    the walk fail, the walk fails with EmptyResolvedCredential for that
    profile and the property of its reference.  When the walk returns,
    what it returns is a copy, made of objects that did not exist before,
    in which every profile that has a reference for its credential has
    the value of that reference, a non-empty string, as its credential,
    and has its other properties as they were, and every other profile, those of other
    types among them, is as it was; the objects that existed before the
    walk are as they were, the warnings array apart.  The warnings array
    has been given, after what it held, one new object for every profile
    that has a reference for its credential and a credential that is a
    non-empty string, and for no other profile, in the order of the
    profiles: the warning with code SECRETS_REF_OVERRIDES_PLAINTEXT whose
    path is made of the agent directory, "auth-profiles", the profile id
    and the name of the credential, joined by dots. *)
Theorem auth_profile_resolution (fuel : nat) (store : val) (context : nat)
    (w : loc) (agentDir : string) (s : State) (ctx : ResolverContext)
    (t : tree) (F : gset loc) (ws : list val) :
  shaped (heap s) store t F -> depth t <= fuel ->
  storeTyped t = true ->
  contexts s !! context = Some ctx ->
  heap s !! w = Some (Arr ws) ->
  (forall l, reaches (heap s) (ctx_config ctx) l -> l < length (heap s) /\ l <> w) ->
  let run := resolveAuthStoreSecretRefs fuel store context (VRef w) agentDir s in
  let resolve := referenceValue (ctx_env ctx) (settledDecrypt ctx (heap s)) in
  let profiles := tentries (tget t "profiles") in
  (forall i profileId profile field refField ref x,
     profiles !! i = Some (profileId, profile) ->
     (forall j e, j < i -> profiles !! j = Some e ->
                  profileResolves resolve (snd e)) ->
     credentialFields profile = Some (field, refField) ->
     secretRefOfTree (tget profile refField) = Some ref ->
     resolve ref = Ok x -> tisNonEmptyString x = false ->
     fst run = Err (EmptyResolvedCredential profileId refField)) /\
  (forall resolved, fst run = Ok resolved ->
     exists t' ls,
       readback (depth t') (heap (snd run)) resolved = Some t' /\
       (forall l, reaches (heap (snd run)) resolved l -> length (heap s) <= l) /\
       (forall l, l < length (heap s) -> l <> w ->
                  heap (snd run) !! l = heap s !! l) /\
       length (tentries (tget t' "profiles")) = length profiles /\
       (forall i profileId profile,
          profiles !! i = Some (profileId, profile) ->
          match credentialFields profile with
          | Some (field, refField) =>
              match secretRefOfTree (tget profile refField) with
              | Some ref =>
                  exists x profile',
                    resolve ref = Ok x /\ tisNonEmptyString x = true /\
                    tentries (tget t' "profiles") !! i
                    = Some (profileId, profile') /\
                    tget profile' field = x /\
                    (forall k, k <> field -> tget profile' k = tget profile k) /\
                    profile' = tset profile field x
              | None =>
                  tentries (tget t' "profiles") !! i = Some (profileId, profile)
              end
          | None => tentries (tget t' "profiles") !! i = Some (profileId, profile)
          end) /\
       heap (snd run) !! w = Some (Arr (ws ++ (VRef <$> ls))) /\
       Forall2
         (fun l entry =>
            length (heap s) <= l /\
            exists field refField,
              credentialFields (snd entry) = Some (field, refField) /\
              heap (snd run) !! l
              = Some (credentialWarning agentDir (fst entry) field refField))
         ls (filter (fun entry => profileOverrides (snd entry) = true) profiles)).
Proof.
  intros Hsh Hd Hty Hctx Hws Hcfg run resolve profiles.
  pose proof (shaped_readback _ _ _ _ Hsh _ Hd) as Hr.
  destruct (resolveAuthStoreSecretRefs fuel store context (VRef w) agentDir s)
    as [r s'] eqn:E.
  pose proof (store_walk_shaped _ _ _ _ _ _ _ _ _ _ _ Hr Hty Hctx Hws Hcfg E) as Hw.
  fold resolve in Hw. subst run. simpl fst. simpl snd.
  unfold storeResolved in Hw. fold profiles in Hw. split.
  - intros i profileId profile field refField ref x Hi Hbefore Hf Href Hx Hne.
    assert (mapResult (profileResolved resolve) profiles
            = Err (EmptyResolvedCredential profileId refField)) as Hmap.
    { eapply mapResult_first_Err; [exact Hi| |].
      - rewrite profileResolved_fields. simpl. rewrite Hf.
        unfold credentialResolved. by rewrite Href, Hx, Hne.
      - intros j e Hj He. apply profileResolves_Ok. by eapply Hbefore. }
    by rewrite Hmap in Hw.
  - intros resolved ->.
    destruct (mapResult (profileResolved resolve) profiles) as [entries|e] eqn:Em;
      [|done].
    destruct Hw as (resolved' & F' & ls & [= <-] & Hs & _ & HF & Hsame & Hw' & Hall).
    apply mapResult_lookup in Em as [Hlen Hentries].
    assert (tentries (tget (tset t "profiles" (TObj entries)) "profiles") = entries)
      as Hprofiles.
    { unfold storeTyped in Hty. apply andb_true_iff in Hty as [Hty _].
      apply andb_true_iff in Hty as [Hrec _]. destruct t; try done.
      simpl. by rewrite props_get_set_eq. }
    exists (tset t "profiles" (TObj entries)), ls. rewrite Hprofiles.
    split_and!; [by eapply shaped_readback|by eapply shaped_fresh|done..| |done|].
    + intros i profileId profile Hi.
      assert (tisRecord profile = true) as Hprofile.
      { unfold storeTyped in Hty. apply andb_true_iff in Hty as [_ Hty].
        apply (forallb_Forall (fun e => tisRecord (snd e))) in Hty.
        rewrite Forall_forall in Hty.
        by apply (Hty (profileId, profile)), list_elem_of_lookup_2 with i. }
      destruct (Hentries _ _ Hi) as (y & Hy & Hf).
      rewrite profileResolved_fields in Hf. simpl in Hf.
      destruct (credentialFields profile) as [[field refField]|];
        [|by injection Hf as <-].
      unfold credentialResolved in Hf.
      destruct (secretRefOfTree (tget profile refField)) as [ref|];
        [|by injection Hf as <-].
      destruct (resolve ref) as [x|]; [|done].
      destruct (tisNonEmptyString x) eqn:Hx; [|done]. injection Hf as <-.
      exists x, (tset profile field x). destruct profile as [|pts|]; try done.
      split_and!; try done.
      * simpl. by rewrite props_get_set_eq.
      * intros k Hk. simpl. rewrite props_get_set_ne; [done|]. by intros ->.
    + apply (Forall2_warnings
               (fun l o => length (heap s) <= l /\ heap s' !! l = Some o) _
               (fun entry => profileOverrides (snd entry))
               (fun entry =>
                  match credentialFields (snd entry) with
                  | Some (field, refField) =>
                      credentialWarning agentDir (fst entry) field refField
                  | None => Obj []
                  end)
               (profileWarnings agentDir));
        [apply profileWarnings_fields| |exact Hall].
      intros l entry Ho [Hl Hcell]. split; [done|].
      unfold profileOverrides in Ho.
      destruct (credentialFields (snd entry)) as [[field refField]|]; [|done].
      by exists field, refField.
Qed.
End Profiles.

Section ProfilesWitnesses.
#[local] Existing Instance Reference.collaborators.

Lemma auth_profile_resolution_witness :
  let run :=
    resolveAuthStoreSecretRefs 6 (VRef 11) 0 (VRef 12) "/agents/main"
      sampleWalkStoreState in
  exists resolved l,
    fst run = Ok resolved /\
    readback 6 (heap (snd run)) resolved = Some sampleWalkStoreResolved /\
    heap (snd run) !! 12 = Some (Arr [VRef l]) /\
    heap (snd run) !! l
    = Some (credentialWarning "/agents/main" "p1" "key" "keyRef").
Proof.
  intros run.
  assert (forall l, reaches (heap sampleWalkStoreState) (VRef 3) l ->
                    l < length (heap sampleWalkStoreState) /\ l <> 12) as Hcfg.
  { intros l Hl.
    assert (l < 12) as Hlt; [|split; [simpl; lia|lia]].
    apply (reaches_old (take 12 (heap sampleWalkStoreState)) _ _ _
             (wf_heapb_spec (take 12 (heap sampleWalkStoreState)) eq_refl)) in Hl.
    - exact Hl.
    - vm_compute. lia.
    - intros l'. rewrite length_take. intros Hl'. symmetry.
      apply lookup_take_lt. lia. }
  destruct (materialize_shaped sampleWalkStore (take 4 (heap sampleWalkStoreState))
              (VRef 11) (take 12 (heap sampleWalkStoreState)) eq_refl)
    as (F & Hs & _).
  apply (shaped_app _ [Arr []]) in Hs.
  assert (depth sampleWalkStore <= 6) as Hd by (vm_compute; lia).
  assert (exists resolved,
            fst run = Ok resolved /\
            readback 6 (heap (snd run)) resolved = Some sampleWalkStoreResolved)
    as (resolved & Hfst & Hrb6) by (eexists; split; vm_compute; reflexivity).
  destruct (auth_profile_resolution 6 (VRef 11) 0 12 "/agents/main"
              sampleWalkStoreState (mkContext (VRef 3) sampleEnv None)
              sampleWalkStore F [] Hs Hd eq_refl eq_refl eq_refl Hcfg)
    as [_ Hok].
  fold run in Hok. clearbody run.
  destruct (Hok resolved Hfst) as (t' & ls & _ & _ & _ & _ & _ & Hw & Hall).
  assert (filter (fun entry => profileOverrides (snd entry) = true)
            (tentries (tget sampleWalkStore "profiles"))
          = [("p1", TObj [("type", TStr "api_key");
                          ("key", TStr "plaintext");
                          ("keyRef", TObj [("source", TStr "env");
                                           ("id", TStr "ACME_KEY")])])]) as Hf
    by (vm_compute; reflexivity).
  rewrite Hf in Hall.
  destruct ls as [|l [|l' ls]];
    [by inversion Hall| |inversion Hall as [|? ? ? ? _ Hrest]; inversion Hrest].
  inversion Hall as [|? ? ? ? [_ (field & refField & Hfields & Hl)] _].
  assert (field = "key" /\ refField = "keyRef") as [-> ->].
  { assert (Some (field, refField) = Some ("key", "keyRef")) as Heq;
      [|by injection Heq].
    rewrite <- Hfields. vm_compute. reflexivity. }
  exists resolved, l.
  split; [exact Hfst|]. split; [exact Hrb6|]. split; [exact Hw|exact Hl].
Defined.
End ProfilesWitnesses.

(** ** What a prepare leaves of its input *)

#[local] Set Warnings "-clear-no-such-hyp".

(** A property of the entries of an object, once the entries have been
    resolved one by one. *)
Lemma mapResult_props_get {A B} (f : string * A -> Result (string * B)) xs ys k x :
  (forall e e', f e = Ok e' -> fst e' = fst e) ->
  mapResult f xs = Ok ys ->
  props_get k xs = Some x ->
  exists y, props_get k ys = Some y /\ f (k, x) = Ok (k, y).
Proof.
  intros Hkey. revert ys. induction xs as [|[k1 x1] xs IH]; intros ys; simpl; [done|].
  destruct (f (k1, x1)) as [[k1' y1]|] eqn:E1; [|done].
  destruct (mapResult f xs) as [ys'|]; [|done]. intros [= <-].
  pose proof (Hkey _ _ E1) as Hk. simpl in Hk. subst k1'. simpl.
  destruct (String.eqb k k1) eqn:Ek.
  - apply String.eqb_eq in Ek as ->. intros [= <-]. by exists y1.
  - by apply IH.
Qed.

Section Isolation.
Context `{Collaborators}.

(** The value of a reference to an environment variable that is set. *)
Lemma referenceValue_env env decrypted name v :
  trim name <> "" -> env !! trim name = Some v -> whitespaceOnly v = false ->
  referenceValue env decrypted (mkSecretRef "env" name) = Ok (TStr v).
Proof.
  intros Hname Henv Hv. unfold referenceValue. simpl.
  apply String.eqb_neq in Hname. rewrite Hname, Henv, trim_eqb, Hv. done.
Qed.

Lemma providerResolved_key resolve e e' :
  providerResolved resolve e = Ok e' -> fst e' = fst e.
Proof.
  unfold providerResolved.
  destruct (secretRefOfTree _); [|intros E; by simplify_eq].
  destruct (resolve _); [|done]. destruct (tisNonEmptyString _); [|done].
  intros E. by simplify_eq.
Qed.

(** The provider [providerId] of the resolved configuration, when its
    apiKey was a reference. *)
Lemma configResolved_provider resolve t t' providerId ref :
  configTyped t = true -> configResolved resolve t = Ok t' ->
  secretRefOfTree
    (tget (tget (tgetOpt (tget t "models") "providers") providerId) "apiKey")
  = Some ref ->
  exists x,
    resolve ref = Ok x /\ tisNonEmptyString x = true /\
    tget (tget (tgetOpt (tget t' "models") "providers") providerId) "apiKey" = x.
Proof.
  intros Hty Et Href.
  pose proof (configResolved_providers _ _ _ Hty Et) as Hmap.
  unfold providerEntries in Hmap.
  apply andb_true_iff in Hty as [Hty HtyG]. apply andb_true_iff in Hty as [Hrec HtyP].
  unfold configResolved in Et.
  destruct (providersResolved resolve t) as [t1|] eqn:E1; [|done].
  assert (tget t' "models" = tget t1 "models") as Hm.
  { unfold channelsResolved in Et. cbv zeta in Et.
    destruct (ttruthy _); [|by injection Et as <-].
    destruct (googleChatResolved _ _); [|done]. injection Et as <-.
    destruct t1; try done. simpl. by rewrite props_get_set_ne. }
  rewrite Hm in *. clear Et Hm HtyG.
  unfold providersResolved, providersTyped in *. cbv zeta in *.
  set (providers := tgetOpt (tget t "models") "providers") in *.
  destruct (ttruthy providers) eqn:Htr.
  2:{ exfalso. destruct providers as [p| |]; try done. }
  apply andb_true_iff in HtyP as [HtyP Hentries].
  apply andb_true_iff in HtyP as [Hmrec Hprec].
  destruct (mapResult _ (tentries providers)) as [ys|] eqn:Em; [|done].
  injection E1 as <-.
  destruct t as [|pts|]; try done.
  destruct (tget (TObj pts) "models") as [|ptsm|]; try done.
  assert (tgetOpt (tget (tset (TObj pts) "models"
                           (tset (TObj ptsm) "providers" (TObj ys))) "models")
            "providers" = TObj ys) as Hp.
  { simpl. rewrite props_get_set_eq. simpl. unfold tgetOpt. simpl.
    by rewrite props_get_set_eq. }
  rewrite Hp in *. clear Hp Hmap.
  destruct providers as [|ptsP|]; try done. simpl tentries in Em.
  simpl tget in Href at 2.
  destruct (props_get providerId ptsP) as [provider|] eqn:Hg; [|done].
  simpl in Href.
  assert (tisRecord provider = true) as Hprovider.
  { clear -Hentries Hg. induction ptsP as [|[k1 x1] ptsP IH]; [done|].
    simpl in *. apply andb_true_iff in Hentries as [H1 Hrest].
    destruct (String.eqb providerId k1); [by injection Hg as <-|by apply IH]. }
  destruct (mapResult_props_get _ _ _ _ _ (providerResolved_key resolve) Em Hg)
    as (y & Hy & Hf).
  unfold providerResolved in Hf. simpl in Hf. rewrite Href in Hf.
  destruct (resolve ref) as [x|]; [|done].
  destruct (tisNonEmptyString x) eqn:Hx; [|done]. injection Hf as <-.
  exists x. split_and!; [done..|]. simpl tget at 2. rewrite Hy. simpl.
  destruct provider as [|ptsp|]; try done. simpl. by rewrite props_get_set_eq.
Qed.

(** C6: a successful prepare leaves every object that existed before the
    call as it was, the input configuration among them, which was plain
    data [t] and still is; the snapshot's sourceConfig is a copy of [t],
    the secret references in place; every object reachable from the
    resolved config or from sourceConfig was allocated by the call, while
    every object reachable from the input existed before it, so that
    neither shares an object with the input.  In particular, for a
    configuration of the configuration type, laid out in the store as a
    tree, that has at the apiKey of one of its providers a reference
    whose source is "env" and that names a variable set to a non-blank
    value [v], the resolved config carries [v] at the apiKey of that
    provider and sourceConfig is a copy of the input, the reference
    among it; and for the configuration [{ models: { providers: { <id>:
    { apiKey: <reference> } } } }] with such a reference, the resolved
    config is [{ models: { providers: { <id>: { apiKey: v } } } }]. *)
Theorem prepare_snapshot_isolated (fuel : nat) (config : val)
    (env : option (gmap string string)) (agentDirs : option (list string))
    (loadAuthStore : option (string -> val)) (s : State)
    (snapshot : val) (s' : State) :
  wf_heap (heap s) -> valid (heap s) config ->
  prepareSecretsRuntimeSnapshot fuel config env agentDirs loadAuthStore s
  = (Ok snapshot, s') ->
  (forall l, l < length (heap s) -> heap s' !! l = heap s !! l) /\
  (exists t sourceConfig resolvedConfig,
     readback fuel (heap s) config = Some t /\
     readback fuel (heap s') config = Some t /\
     readProp (heap s') snapshot "sourceConfig" = Ok sourceConfig /\
     readProp (heap s') snapshot "config" = Ok resolvedConfig /\
     readback fuel (heap s') sourceConfig = Some t /\
     (forall l, reaches (heap s') resolvedConfig l -> length (heap s) <= l) /\
     (forall l, reaches (heap s') sourceConfig l -> length (heap s) <= l) /\
     (forall l, reaches (heap s') config l -> l < length (heap s))) /\
  (forall t F providerId name v,
     shaped (heap s) config t F -> depth t <= fuel ->
     configTyped t = true ->
     secretRefOfTree
       (tget (tget (tgetOpt (tget t "models") "providers") providerId) "apiKey")
     = Some (mkSecretRef "env" name) ->
     trim name <> "" ->
     default process_env env !! trim name = Some v ->
     whitespaceOnly v = false ->
     exists sourceConfig resolvedConfig t',
       readProp (heap s') snapshot "sourceConfig" = Ok sourceConfig /\
       readProp (heap s') snapshot "config" = Ok resolvedConfig /\
       readback (depth t') (heap s') resolvedConfig = Some t' /\
       tget (tget (tgetOpt (tget t' "models") "providers") providerId) "apiKey"
       = TStr v /\
       readback fuel (heap s') sourceConfig = Some t) /\
  (forall providerId rps name v,
     readback fuel (heap s) config
     = Some (providerConfig providerId (TObj rps)) ->
     secretRefOfTree (TObj rps) = Some (mkSecretRef "env" name) ->
     trim name <> "" ->
     default process_env env !! trim name = Some v ->
     whitespaceOnly v = false ->
     exists sourceConfig resolvedConfig,
       readProp (heap s') snapshot "sourceConfig" = Ok sourceConfig /\
       readProp (heap s') snapshot "config" = Ok resolvedConfig /\
       readback fuel (heap s') resolvedConfig
       = Some (providerConfig providerId (TStr v)) /\
       readback fuel (heap s') sourceConfig
       = Some (providerConfig providerId (TObj rps))).
Proof.
  intros Hwf Hvalid E.
  destruct (prepare_isolates_input _ _ _ _ _ _ _ _ Hwf Hvalid E)
    as (Hsame & t & sc & rc & Ht & Ht' & Hsc & Hrc & Hrsc & Hfr & Hfs & Hold).
  split; [exact Hsame|]. split; [by exists t, sc, rc|]. split.
  - intros t0 F providerId name v Hsh Hd Hty Href Hname Henv Hv.
    pose proof (shaped_readback _ _ _ _ Hsh _ Hd) as Hr.
    assert (t0 = t) as -> by congruence.
    pose proof (prepare_config_walk fuel config env agentDirs loadAuthStore s t
                  Hwf Hvalid Hr Hty) as Hp.
    cbv zeta in Hp. rewrite E in Hp. simpl fst in Hp. simpl snd in Hp.
    destruct (configResolved _ t) as [t'|e] eqn:Et; [|done].
    destruct (Hp snapshot eq_refl) as (resolved & F' & Hc & Hs & _).
    assert (resolved = rc) as -> by congruence.
    destruct (configResolved_provider _ _ _ _ _ Hty Et Href) as (x & Hx & _ & Hkey).
    rewrite (referenceValue_env _ _ _ _ Hname Henv Hv) in Hx. injection Hx as <-.
    exists sc, rc, t'. split_and!; try done. by eapply shaped_readback.
  - intros providerId rps name v Hr Href Hname Henv Hv.
    destruct (prepare_example _ _ _ _ _ _ _ _ _ _ _ _ Hr Href Hname Henv Hv E)
      as (rc' & Hrc' & Hrb).
    exists sc, rc'. split_and!; [done..|]. congruence.
Qed.
End Isolation.

Section IsolationWitnesses.
#[local] Existing Instance Reference.collaborators.

Lemma prepare_snapshot_isolated_witness :
  let run :=
    prepareSecretsRuntimeSnapshot 6 (VRef 10) (Some sampleEnv)
      (Some ["/agents/main"]) (Some (fun _ => VRef 14)) sampleWalkPrepareState in
  (forall l, l < length (heap sampleWalkPrepareState) ->
             heap (snd run) !! l = heap sampleWalkPrepareState !! l) /\
  exists sourceConfig resolvedConfig t',
    readProp (heap (snd run)) (VRef 46) "sourceConfig" = Ok sourceConfig /\
    readProp (heap (snd run)) (VRef 46) "config" = Ok resolvedConfig /\
    readback (depth t') (heap (snd run)) resolvedConfig = Some t' /\
    tget (tget (tgetOpt (tget t' "models") "providers") "acme") "apiKey"
    = TStr "secret123" /\
    readback 6 (heap (snd run)) sourceConfig = Some sampleWalkConfig.
Proof.
  intros run.
  assert (prepareSecretsRuntimeSnapshot 6 (VRef 10) (Some sampleEnv)
            (Some ["/agents/main"]) (Some (fun _ => VRef 14))
            sampleWalkPrepareState
          = (Ok (VRef 46), snd run)) as Hrun by (vm_compute; reflexivity).
  clearbody run.
  destruct (prepare_snapshot_isolated 6 (VRef 10) (Some sampleEnv)
              (Some ["/agents/main"]) (Some (fun _ => VRef 14))
              sampleWalkPrepareState (VRef 46) (snd run)
              (wf_heapb_spec (heap sampleWalkPrepareState) eq_refl)
              (proj1 (Nat.ltb_lt 10 15) eq_refl) Hrun)
    as (Hsame & _ & Hexample & _).
  split; [exact Hsame|].
  destruct sampleWalkPrepareState_shaped as [F Hs].
  assert (depth sampleWalkConfig <= 6) as Hd by (vm_compute; lia).
  apply (Hexample sampleWalkConfig F "acme" "ACME_KEY" "secret123" Hs Hd);
    reflexivity || discriminate.
Defined.
End IsolationWitnesses.
